(** * gorep: a concurrent find-and-grep pipeline (version 0.2.5)

    A shallow embedding of the traversal / filter / search pipeline of
    gorep, and the properties of it that its specification states.

    The pure parts of the program (binary classification, line splitting,
    per-entry filtering) are Rocq functions.  Every goroutine body is
    translated to the sequence of synchronisation actions it performs,
    and the whole program is an interleaving machine over those
    sequences: unbuffered channels are rendezvous, the permit pool is a
    buffered channel of capacity 10, wait groups are counters. *)

From Stdlib Require Import Strings.Byte Strings.Ascii Strings.String.
From Stdlib Require Import Numbers.DecimalString.
From Stdlib Require Import ZArith Bool Lia Arith PeanoNat List Permutation.
Import ListNotations.

Local Open Scope Z_scope.

(* ================================================================== *)
(** * Part I: definitions                                               *)
(* ================================================================== *)

(** ** Bytes *)

(** The numeric value of a byte, as Go's conversions [rune(b)] and
    [int(b)] give it. *)
Definition bval (b : byte) : Z := Z.of_N (Byte.to_N b).

(** ** Package unicode/utf8 (the part [bytes.IndexFunc] relies on) *)

Module utf8.

Definition RuneError : Z := 0xFFFD.
Definition RuneSelf : Z := 0x80.

Definition maskx : Z := 0x3F.
Definition mask2 : Z := 0x1F.
Definition mask3 : Z := 0x0F.
Definition mask4 : Z := 0x07.

Definition locb : Z := 0x80.
Definition hicb : Z := 0xBF.

(** Information about the first byte of an encoding: the low three
    bits give the size, the high four bits index [acceptRanges]. *)
Definition xx : Z := 0xF1.
Definition as_ : Z := 0xF0.
Definition s1 : Z := 0x02.
Definition s2 : Z := 0x13.
Definition s3 : Z := 0x03.
Definition s4 : Z := 0x23.
Definition s5 : Z := 0x34.
Definition s6 : Z := 0x04.
Definition s7 : Z := 0x44.

(** The table [first], written by ranges of the index. *)
Definition first (b : Z) : Z :=
  if b <? 0x80 then as_
  else if b <? 0xC2 then xx
  else if b <? 0xE0 then s1
  else if b =? 0xE0 then s2
  else if b <? 0xED then s3
  else if b =? 0xED then s4
  else if b <? 0xF0 then s3
  else if b =? 0xF0 then s5
  else if b <? 0xF4 then s6
  else if b =? 0xF4 then s7
  else xx.

(** [acceptRanges]: the interval allowed for the second byte. *)
Definition acceptRanges (i : Z) : Z * Z :=
  if i =? 1 then (0xA0, hicb)
  else if i =? 2 then (locb, 0x9F)
  else if i =? 3 then (0x90, hicb)
  else if i =? 4 then (locb, 0x8F)
  else (locb, hicb).

(** [DecodeRune p] unpacks the first UTF-8 encoding in [p] and returns
    the rune and its width in bytes; an invalid encoding yields
    [(RuneError, 1)], an empty slice [(RuneError, 0)]. *)
Definition DecodeRune (p : list byte) : Z * nat :=
  match p with
  | [] => (RuneError, 0%nat)
  | c0 :: t0 =>
    let p0 := bval c0 in
    let x := first p0 in
    if x >=? as_ then
      ((if x =? xx then RuneError else p0), 1%nat)
    else
      let sz := Z.land x 7 in
      let '(lo, hi) := acceptRanges (Z.shiftr x 4) in
      if Z.of_nat (length p) <? sz then (RuneError, 1%nat)
      else
        match t0 with
        | [] => (RuneError, 1%nat)
        | c1 :: t1 =>
          let b1 := bval c1 in
          if (b1 <? lo) || (hi <? b1) then (RuneError, 1%nat)
          else if sz <=? 2 then
            (Z.lor (Z.shiftl (Z.land p0 mask2) 6) (Z.land b1 maskx), 2%nat)
          else
            match t1 with
            | [] => (RuneError, 1%nat)
            | c2 :: t2 =>
              let b2 := bval c2 in
              if (b2 <? locb) || (hicb <? b2) then (RuneError, 1%nat)
              else if sz <=? 3 then
                (Z.lor (Z.lor (Z.shiftl (Z.land p0 mask3) 12)
                              (Z.shiftl (Z.land b1 maskx) 6))
                       (Z.land b2 maskx), 3%nat)
              else
                match t2 with
                | [] => (RuneError, 1%nat)
                | c3 :: _ =>
                  let b3 := bval c3 in
                  if (b3 <? locb) || (hicb <? b3) then (RuneError, 1%nat)
                  else
                    (Z.lor (Z.lor (Z.lor (Z.shiftl (Z.land p0 mask4) 18)
                                         (Z.shiftl (Z.land b1 maskx) 12))
                                  (Z.shiftl (Z.land b2 maskx) 6))
                           (Z.land b3 maskx), 4%nat)
                end
            end
        end
  end.

End utf8.

(** ** Package bytes *)

Module bytes.

(** The loop of [indexFunc]: [rest] is [s[start:]].  Every iteration
    consumes at least one byte, so [length rest] iterations suffice;
    [fuel] bounds them. *)
Fixpoint indexFunc_loop (fuel : nat) (f : Z -> bool)
         (rest : list byte) (start : Z) : Z :=
  match fuel with
  | O => -1
  | S fuel' =>
    match rest with
    | [] => -1
    | c :: _ =>
      let '(r, wid) :=
        if bval c >=? utf8.RuneSelf then utf8.DecodeRune rest
        else (bval c, 1%nat) in
      if f r then start
      else indexFunc_loop fuel' f (skipn wid rest) (start + Z.of_nat wid)
    end
  end.

(** [IndexFunc s f]: the byte index of the first code point of [s]
    satisfying [f], or -1. *)
Definition IndexFunc (s : list byte) (f : Z -> bool) : Z :=
  indexFunc_loop (length s) f s 0.

(** [IndexByte s c]: the index of the first [c] in [s], or -1. *)
Fixpoint IndexByte (s : list byte) (c : Z) : Z :=
  match s with
  | [] => -1
  | b :: t =>
    if bval b =? c then 0
    else let i := IndexByte t c in if i =? -1 then -1 else i + 1
  end.

(** [IndexRune s r] for a rune below [utf8.RuneSelf] is [IndexByte];
    the program only calls it with the line feed. *)
Definition IndexRune (s : list byte) (r : Z) : Z := IndexByte s r.

End bytes.

(** ** The binary classifier *)

(** Character codes 0x00 - 0x08 are control codes (ASCII). *)
Definition verifyBinary (buf : list byte) : bool :=
  let b := if (256 <? Z.of_nat (length buf)) then firstn 256 buf else buf in
  if negb (bytes.IndexFunc b (fun r => r <? 0x09) =? -1) then true
  else false.

(** ** Package path *)

Module path.

Definition isSlash (c : ascii) : bool := Ascii.eqb c "/".

(** The leading run of non-slash characters. *)
Fixpoint untilSlash (l : list ascii) : list ascii :=
  match l with
  | [] => []
  | c :: t => if isSlash c then [] else c :: untilSlash t
  end.

(** Removal of the leading slashes. *)
Fixpoint dropSlashes (l : list ascii) : list ascii :=
  match l with
  | [] => []
  | c :: t => if isSlash c then dropSlashes t else l
  end.

(** [Base p]: the last element of [p].  Trailing slashes are removed
    before extracting the last element; the empty path gives ".", a
    path of slashes only gives "/".  The path is processed from its
    end, hence the reversals. *)
Definition Base (p : string) : string :=
  match p with
  | EmptyString => "."
  | _ =>
    let stripped := dropSlashes (rev (list_ascii_of_string p)) in
    let last := rev (untilSlash stripped) in
    match last with
    | [] => "/"
    | _ => string_of_list_ascii last
    end
  end.

End path.

(** ** Package regexp, as an interface

    The regular-expression engine is an external collaborator: the
    program compiles two expressions and asks whether strings match. *)

Inductive result (A : Type) : Type :=
| Ok (a : A)
| Err (msg : string).
Arguments Ok {A} a.
Arguments Err {A} msg.

Class RegexpLib : Type := {
  Regexp : Type;
  Compile : string -> result Regexp;
  MatchString : Regexp -> string -> bool;
  ReplaceAllString : Regexp -> string -> string -> string
}.

(** ** Package os: file modes and the file system *)

Module os.

Definition ModeDir : Z := Z.shiftl 1 31.
Definition ModeAppend : Z := Z.shiftl 1 30.
Definition ModeExclusive : Z := Z.shiftl 1 29.
Definition ModeTemporary : Z := Z.shiftl 1 28.
Definition ModeSymlink : Z := Z.shiftl 1 27.
Definition ModeDevice : Z := Z.shiftl 1 26.
Definition ModeNamedPipe : Z := Z.shiftl 1 25.
Definition ModeSocket : Z := Z.shiftl 1 24.
Definition ModeSetuid : Z := Z.shiftl 1 23.
Definition ModeSetgid : Z := Z.shiftl 1 22.
Definition ModeCharDevice : Z := Z.shiftl 1 21.
Definition ModeSticky : Z := Z.shiftl 1 20.

(** What [ioutil.ReadDir] reports of a directory entry. *)
Record FileInfo : Type := mkFileInfo {
  Name : string;
  Mode : Z
}.

(** The file system the run sees.  [Open], [Stat] and [Mmap] are the
    three steps of reading a file's content; each may fail with an
    error message. *)
Record FileSystem : Type := mkFileSystem {
  ReadDir : string -> result (list FileInfo);
  Open : string -> result unit;
  Stat : string -> result Z;
  Mmap : string -> Z -> result (list byte)
}.

End os.

(** ** Program state: channels, wait groups, options *)

(** The channels of the run: the two channel sets made by [kick]
    ([chsMap], [chsReduce]) and [chPrint] of [report]. *)
Inductive chan : Type :=
| MapDir | MapFile | MapSymlink | MapLine
| ReduceDir | ReduceFile | ReduceSymlink | ReduceLine
| chPrint.

Module channelSet.
Record t : Type := mk {
  dir : chan;
  file : chan;
  symlink : chan;
  line : chan
}.
End channelSet.

Definition chsMap : channelSet.t :=
  channelSet.mk MapDir MapFile MapSymlink MapLine.
Definition chsReduce : channelSet.t :=
  channelSet.mk ReduceDir ReduceFile ReduceSymlink ReduceLine.

Module optionSet.
Record t : Type := mk {
  v : bool;
  g : bool;
  grep_only : bool;
  search_binary : bool;
  ignore : string;
  hidden : bool;
  ignorecase : bool
}.
End optionSet.

Module searchScope.
Record t : Type := mk {
  dir : bool;
  file : bool;
  symlink : bool;
  grep : bool;
  binary : bool;
  hidden : bool
}.
End searchScope.

Inductive waitgroup : Type := waitMaps | waitGreps | waitReports.

Definition maxNumOfFileOpen : nat := 10.

Definition separator : string := "/".

(** The line feed that ends the messages. *)
Definition newline : string := String (ascii_of_nat 10) EmptyString.

(** [fmt.Sprintf("%d", n)]. *)
Definition itoa (n : Z) : string := NilZero.string_of_int (Z.to_int n).

(** ** Goroutines as sequences of actions *)

(** The loops [for msg := range ch { ... }] of the program. *)
Inductive loop : Type :=
| DirLoop (out : chan)
| FileLoop (out chLine : chan)
| SymlinkLoop (out : chan)
| ReporterLoop (mark accent : string)
| PrinterLoop.

(** The functions started with [go]. *)
Inductive call : Type :=
| KickMap (fpath : string)
| KickReduce
| Mapfork (fpath : string) (chans : channelSet.t)
| ReduceDirs (in_ out : chan)
| ReduceFiles (in_ out chLine : chan)
| ReduceSymlinks (in_ out : chan)
| Grep (fpath : string) (out : chan)
| Printer
| Reporter (mark accent : string) (ch : chan).

(** What a goroutine does that another goroutine, or the outside, can
    observe. *)
Inductive action : Type :=
| Send (c : chan) (msg : string)   (* c <- msg *)
| Range (c : chan) (l : loop)      (* for msg := range c { l } *)
| Close (c : chan)                 (* close(c) *)
| Add (w : waitgroup) (n : Z)      (* w.Add(n) *)
| Done (w : waitgroup)             (* w.Done() *)
| Wait (w : waitgroup)             (* w.Wait() *)
| Go (f : call)                    (* go f(...) *)
| Acquire                          (* semFopenLimit <- 1 *)
| Release                          (* <-semFopenLimit *)
| FOpen (fpath : string)           (* a successful os.Open *)
| FClose (fpath : string)          (* file.Close() *)
| Stderr (msg : string)            (* fmt.Fprintf(os.Stderr, ...) *)
| Stdout (msg : string)            (* os.Stdout.Write *)
| Exit (code : Z).                 (* os.Exit, or main returning *)

Section Program.

Context {RE : RegexpLib}.
Variable fs : os.FileSystem.

Record gorep : Type := mkGorep {
  pattern : Regexp;
  ignorePattern : option Regexp;
  scope : searchScope.t
}.

(** [newGorep]: an uncompilable expression is reported and ends the
    process; [Err] carries the message. *)
Definition newGorep (pattern : string) (opt : optionSet.t)
  : result gorep :=
  let scope0 := searchScope.mk true true true false false false in
  let pattern :=
    if optionSet.ignorecase opt then ("(?i)" ++ pattern)%string
    else pattern in
  match Compile pattern with
  | Err e => Err e
  | Ok re =>
    let ignored :=
      if (0 <? Z.of_nat (String.length (optionSet.ignore opt))) then
        let ignore :=
          if optionSet.ignorecase opt
          then ("(?i)" ++ optionSet.ignore opt)%string
          else optionSet.ignore opt in
        match Compile ignore with
        | Err e => Err e
        | Ok ire => Ok (Some ire)
        end
      else Ok None in
    match ignored with
    | Err e => Err e
    | Ok ignorePattern =>
      let scope1 :=
        if optionSet.g opt then
          searchScope.mk (searchScope.dir scope0) (searchScope.file scope0)
                         (searchScope.symlink scope0) true
                         (searchScope.binary scope0)
                         (searchScope.hidden scope0)
        else scope0 in
      let scope2 :=
        if optionSet.grep_only opt then
          searchScope.mk false false false true
                         (searchScope.binary scope1)
                         (searchScope.hidden scope1)
        else scope1 in
      let scope3 :=
        if optionSet.search_binary opt then
          searchScope.mk (searchScope.dir scope2) (searchScope.file scope2)
                         (searchScope.symlink scope2)
                         (searchScope.grep scope2) true
                         (searchScope.hidden scope2)
        else scope2 in
      let scope4 :=
        if optionSet.hidden opt then
          searchScope.mk (searchScope.dir scope3) (searchScope.file scope3)
                         (searchScope.symlink scope3)
                         (searchScope.grep scope3)
                         (searchScope.binary scope3) true
        else scope3 in
      Ok (mkGorep re ignorePattern scope4)
    end
  end.

(** [makeChannelSet] is called twice by [kick]; the two sets are
    [chsMap] and [chsReduce]. *)
Definition closeChannelSet (chans : channelSet.t) : list action :=
  [ Close (channelSet.dir chans);
    Close (channelSet.file chans);
    Close (channelSet.symlink chans);
    Close (channelSet.line chans) ].

(** [path.Base] never returns the empty string, so [byteStr[0]] is
    always in range; the first branch is never taken. *)
Definition verifyHidden (fpath : string) : bool :=
  match path.Base fpath with
  | EmptyString => false
  | String c _ => Ascii.eqb "." c
  end.

Definition ignoreFlag : Z :=
  Z.lor os.ModeDir (Z.lor os.ModeAppend (Z.lor os.ModeExclusive
  (Z.lor os.ModeTemporary (Z.lor os.ModeSymlink (Z.lor os.ModeDevice
  (Z.lor os.ModeNamedPipe (Z.lor os.ModeSocket (Z.lor os.ModeSetuid
  (Z.lor os.ModeSetgid (Z.lor os.ModeCharDevice os.ModeSticky)))))))))).

Definition matchesIgnore (this : gorep) (s : string) : bool :=
  match ignorePattern this with
  | Some re => MatchString re s
  | None => false
  end.

(** One iteration of the loop of [mapfork], over the entry [finfo] of
    the listing of [fpath]. *)
Definition mapfork_entry (this : gorep) (fpath : string)
           (chans : channelSet.t) (finfo : os.FileInfo) : list action :=
  let mode := os.Mode finfo in
  let fname := os.Name finfo in
  if negb (searchScope.hidden (scope this)) && verifyHidden fname then []
  else if matchesIgnore this fname then []
  else if negb (Z.land mode os.ModeDir =? 0) then
    let fullpath := (fpath ++ separator ++ fname)%string in
    [ Send (channelSet.dir chans) fullpath;
      Add waitMaps 1;
      Go (Mapfork fullpath chans) ]
  else if negb (Z.land mode os.ModeSymlink =? 0) then
    [ Send (channelSet.symlink chans) (fpath ++ separator ++ fname)%string ]
  else if Z.land mode ignoreFlag =? 0 then
    [ Send (channelSet.file chans) (fpath ++ separator ++ fname)%string ]
  else [].

(** [mapfork]: the deferred [waitMaps.Done()] closes the sequence; it
    is registered but never runs when the listing fails, because
    [os.Exit] ends the process. *)
Definition mapfork (this : gorep) (fpath : string) (chans : channelSet.t)
  : list action :=
  match os.ReadDir fs fpath with
  | Err e => [ Stderr ("dive error: " ++ e ++ newline)%string; Exit (-1) ]
  | Ok list => flat_map (mapfork_entry this fpath chans) list
  end ++ [ Done waitMaps ].

(** The closure [filter] of [reduce]. *)
Definition filter (this : gorep) (msg : string) (out : chan)
  : list action :=
  if MatchString (pattern this) (path.Base msg) then [ Send out msg ]
  else [].

(** The loop of [grep] over the mapped content: [m] is what is left
    of it, [lineNumber] the number of lines already read.  Every
    iteration consumes at least one byte; [fuel] bounds the number of
    iterations. *)
Fixpoint grep_loop (this : gorep) (fpath : string) (out : chan)
         (isBinary : bool) (fuel : nat) (m : list byte) (lineNumber : Z)
  : list action :=
  match fuel with
  | O => []
  | S fuel' =>
    if 0 <? Z.of_nat (length m) then
      let index := bytes.IndexRune m 10 in
      let line :=
        if negb (index =? -1) then firstn (Z.to_nat index) m else m in
      let m' :=
        if negb (index =? -1) then skipn (length line + 1) m
        else skipn (length line) m in
      let lineNumber := lineNumber + 1 in
      let strline := string_of_list_byte line in
      if MatchString (pattern this) strline then
        if isBinary then
          [ Send out ("Binary file " ++ fpath ++ " matches")%string ]
        else if matchesIgnore this strline then
          grep_loop this fpath out isBinary fuel' m' lineNumber
        else
          Send out (fpath ++ ":" ++ itoa lineNumber ++ ": " ++ strline)%string
          :: grep_loop this fpath out isBinary fuel' m' lineNumber
      else grep_loop this fpath out isBinary fuel' m' lineNumber
    else []
  end.

(** What [grep] does once the content is mapped. *)
Definition grep_scan (this : gorep) (fpath : string) (out : chan)
           (mem : list byte) : list action :=
  let isBinary := verifyBinary mem in
  if isBinary && negb (searchScope.binary (scope this)) then []
  else grep_loop this fpath out isBinary (length mem) mem 0.

(** [grep]: the deferred calls run in reverse order of registration,
    so the file is closed before the permit is given back and
    [waitGreps.Done()] is called.  Mapping and unmapping synchronise
    with nothing and are not actions. *)
Definition grep (this : gorep) (fpath : string) (out : chan)
  : list action :=
  Acquire ::
  match os.Open fs fpath with
  | Err e => [ Stderr ("grep open error: " ++ e ++ newline)%string ]
  | Ok _ =>
    FOpen fpath ::
    match os.Stat fs fpath with
    | Err e => [ Stderr ("grep stat error: " ++ e ++ newline)%string ]
    | Ok size =>
      match os.Mmap fs fpath size with
      | Err e => [ Stderr ("grep mmap error: " ++ e ++ newline)%string ]
      | Ok mem => grep_scan this fpath out mem
      end
    end ++ [ FClose fpath ]
  end ++ [ Release; Done waitGreps ].

(** The three consumers started by [reduce]. *)
Definition reduce_dirs (in_ out : chan) : list action :=
  [ Range in_ (DirLoop out); Close out ].

Definition reduce_files (in_ out chLine : chan) : list action :=
  [ Range in_ (FileLoop out chLine); Close out;
    Wait waitGreps; Close chLine ].

Definition reduce_symlinks (in_ out : chan) : list action :=
  [ Range in_ (SymlinkLoop out); Close out ].

Definition reduce (chsIn chsOut : channelSet.t) : list action :=
  [ Go (ReduceDirs (channelSet.dir chsIn) (channelSet.dir chsOut));
    Go (ReduceFiles (channelSet.file chsIn) (channelSet.file chsOut)
                    (channelSet.line chsOut));
    Go (ReduceSymlinks (channelSet.symlink chsIn)
                       (channelSet.symlink chsOut)) ].

(** The body of each [for msg := range ch] loop, for the message
    received. *)
Definition loop_body (this : gorep) (l : loop) (msg : string)
  : list action :=
  match l with
  | DirLoop out =>
    if searchScope.dir (scope this) then filter this msg out else []
  | FileLoop out chLine =>
    (if searchScope.file (scope this) then filter this msg out else [])
    ++ (if searchScope.grep (scope this)
        then [ Add waitGreps 1; Go (Grep msg chLine) ] else [])
  | SymlinkLoop out =>
    if searchScope.symlink (scope this) then filter this msg out else []
  | ReporterLoop mark accent =>
    let decoStr := ReplaceAllString (pattern this) msg accent in
    [ Send chPrint (mark ++ " " ++ decoStr ++ newline)%string ]
  | PrinterLoop => [ Stdout msg ]
  end.

(** [kick] starts the walker and the dispatch stage. *)
Definition kick_map (this : gorep) (fpath : string) : list action :=
  Add waitMaps 1 :: mapfork this fpath chsMap
  ++ Wait waitMaps :: closeChannelSet chsMap.

Definition kick (fpath : string) : list action :=
  [ Go (KickMap fpath); Go KickReduce ].

Definition DIR_COLOR : string := String (ascii_of_nat 27) "[36m".
Definition FILE_COLOR : string := String (ascii_of_nat 27) "[34m".
Definition SYMLINK_COLOR : string := String (ascii_of_nat 27) "[35m".
Definition GREP_COLOR : string := String (ascii_of_nat 27) "[32m".
Definition HIT_COLOR : string := String (ascii_of_nat 27) "[32m".
Definition NORM_COLOR : string := String (ascii_of_nat 27) "[39m".
Definition BOLD_DECO : string := String (ascii_of_nat 27) "[1m".
Definition NORM_DECO : string := String (ascii_of_nat 27) "[0m".

(** The printer of [report] receives from [chPrint] for ever; the
    channel is never closed, so the loop is a [range] that never
    ends. *)
Definition printer : list action := [ Range chPrint PrinterLoop ].

(** [report]: a printer and one reporter per result stream. *)
Definition reporter (mark accent : string) (ch : chan) : list action :=
  [ Range ch (ReporterLoop mark accent); Done waitReports ].

Definition report (chans : channelSet.t) (isColor : bool) : list action :=
  let markMatch :=
    if isColor
    then (BOLD_DECO ++ HIT_COLOR ++ "$0" ++ NORM_COLOR ++ NORM_DECO)%string
    else "$0"%string in
  let markDir :=
    if isColor then (DIR_COLOR ++ "[Dir ]" ++ NORM_COLOR)%string
    else "[Dir ]"%string in
  let markFile :=
    if isColor then (FILE_COLOR ++ "[File]" ++ NORM_COLOR)%string
    else "[File]"%string in
  let markSymlink :=
    if isColor then (SYMLINK_COLOR ++ "[SymL]" ++ NORM_COLOR)%string
    else "[SymL]"%string in
  let markGrep :=
    if isColor then (GREP_COLOR ++ "[Grep]" ++ NORM_COLOR)%string
    else "[Grep]"%string in
  [ Go Printer;
    Add waitReports 4;
    Go (Reporter markDir markMatch (channelSet.dir chans));
    Go (Reporter markFile markMatch (channelSet.file chans));
    Go (Reporter markSymlink markMatch (channelSet.symlink chans));
    Go (Reporter markGrep markMatch (channelSet.line chans));
    Wait waitReports ].

(** [main] after the flags are parsed and the expressions compiled:
    [kick], [report], and the end of the process when [main]
    returns. *)
Definition main (fpath : string) (isColor : bool) : list action :=
  kick fpath ++ report chsReduce isColor ++ [ Exit 0 ].

(** The body of a goroutine started with [go]. *)
Definition body (this : gorep) (f : call) : list action :=
  match f with
  | KickMap fpath => kick_map this fpath
  | KickReduce => reduce chsMap chsReduce
  | Mapfork fpath chans => mapfork this fpath chans
  | ReduceDirs in_ out => reduce_dirs in_ out
  | ReduceFiles in_ out chLine => reduce_files in_ out chLine
  | ReduceSymlinks in_ out => reduce_symlinks in_ out
  | Grep fpath out => grep this fpath out
  | Printer => printer
  | Reporter mark accent ch => reporter mark accent ch
  end.

End Program.

(** ** The interleaving machine *)

Inductive event : Type :=
| EvSend (c : chan) (msg : string)
| EvClose (c : chan)
| EvRangeEnd (c : chan)
| EvWait (w : waitgroup)
| EvOpen (fpath : string)
| EvFClose (fpath : string)
| EvStderr (msg : string)
| EvStdout (msg : string)
| EvExit (code : Z).

Inductive status : Type :=
| Running
| Exited (code : Z)
| Panicked.

Definition chan_eqb (a b : chan) : bool :=
  match a, b with
  | MapDir, MapDir | MapFile, MapFile | MapSymlink, MapSymlink
  | MapLine, MapLine | ReduceDir, ReduceDir | ReduceFile, ReduceFile
  | ReduceSymlink, ReduceSymlink | ReduceLine, ReduceLine
  | chPrint, chPrint => true
  | _, _ => false
  end.

Definition waitgroup_eqb (a b : waitgroup) : bool :=
  match a, b with
  | waitMaps, waitMaps | waitGreps, waitGreps
  | waitReports, waitReports => true
  | _, _ => false
  end.

(** The shared memory of the run.  [permits] is the number of values
    held in the buffered channel [semFopenLimit]; [openfiles] the number
    of files that [grep] holds open; [trace] what has happened, most
    recent first. *)
Record store : Type := mkStore {
  closed : chan -> bool;
  counter : waitgroup -> Z;
  permits : nat;
  openfiles : nat;
  trace : list event;
  status_of : status
}.

Record state : Type := mkState {
  tasks : list (list action);
  mem : store
}.

Definition log (e : event) (m : store) : store :=
  mkStore (closed m) (counter m) (permits m) (openfiles m)
          (e :: trace m) (status_of m).

Definition set_status (x : status) (m : store) : store :=
  mkStore (closed m) (counter m) (permits m) (openfiles m) (trace m) x.

Definition set_closed (c : chan) (m : store) : store :=
  mkStore (fun c' => if chan_eqb c c' then true else closed m c')
          (counter m) (permits m) (openfiles m) (trace m) (status_of m).

Definition set_counter (w : waitgroup) (n : Z) (m : store) : store :=
  mkStore (closed m)
          (fun w' => if waitgroup_eqb w w' then n else counter m w')
          (permits m) (openfiles m) (trace m) (status_of m).

Definition set_permits (n : nat) (m : store) : store :=
  mkStore (closed m) (counter m) n (openfiles m) (trace m) (status_of m).

Definition set_openfiles (l : nat) (m : store) : store :=
  mkStore (closed m) (counter m) (permits m) l (trace m) (status_of m).

(** [w.Add(n)]; a counter that goes negative is a panic. *)
Definition wg_add (w : waitgroup) (n : Z) (m : store) : store :=
  if counter m w + n <? 0 then set_status Panicked m
  else set_counter w (counter m w + n) m.

Section Machine.

Context {RE : RegexpLib}.
Variable fs : os.FileSystem.
Variable this : gorep.

(** What a goroutine whose next action is [a] does on its own: the
    goroutines it starts and the new memory, or [None] when it is
    blocked.  A send on an open channel needs a receiver and is the
    rule [step_sync] below; a send on a closed channel and the closing
    of a closed channel are panics. *)
Definition local (a : action) (m : store)
  : option (list (list action) * store) :=
  match a with
  | Send c _ =>
    if closed m c then Some ([], set_status Panicked m) else None
  | Range c _ =>
    if closed m c then Some ([], log (EvRangeEnd c) m) else None
  | Close c =>
    if closed m c then Some ([], set_status Panicked m)
    else Some ([], log (EvClose c) (set_closed c m))
  | Add w n => Some ([], wg_add w n m)
  | Done w => Some ([], wg_add w (-1) m)
  | Wait w =>
    if counter m w =? 0 then Some ([], log (EvWait w) m) else None
  | Go f => Some ([body fs this f], m)
  | Acquire =>
    if (permits m <? maxNumOfFileOpen)%nat
    then Some ([], set_permits (S (permits m)) m)
    else None
  | Release =>
    match permits m with
    | O => None
    | S n => Some ([], set_permits n m)
    end
  | FOpen p => Some ([], log (EvOpen p) (set_openfiles (S (openfiles m)) m))
  | FClose p =>
    Some ([], log (EvFClose p) (set_openfiles (Nat.pred (openfiles m)) m))
  | Stderr msg => Some ([], log (EvStderr msg) m)
  | Stdout msg => Some ([], log (EvStdout msg) m)
  | Exit code => Some ([], log (EvExit code) (set_status (Exited code) m))
  end.

(** One step of the run: a goroutine acts on its own, or a sender and
    a receiver meet on an open channel.  Nothing runs once the
    process has exited or panicked. *)
Inductive step : state -> state -> Prop :=
| step_local (s : state) (a : action) (k : list action)
             (rest spawned : list (list action)) (m' : store) :
    status_of (mem s) = Running ->
    Permutation (tasks s) ((a :: k) :: rest) ->
    local a (mem s) = Some (spawned, m') ->
    step s (mkState (k :: spawned ++ rest) m')
| step_sync (s : state) (c : chan) (msg : string) (l : loop)
            (k k' : list action) (rest : list (list action)) :
    status_of (mem s) = Running ->
    Permutation (tasks s)
                ((Send c msg :: k) :: (Range c l :: k') :: rest) ->
    closed (mem s) c = false ->
    step s (mkState (k :: (loop_body this l msg ++ Range c l :: k') :: rest)
                    (log (EvSend c msg) (mem s))).

Inductive steps : state -> state -> Prop :=
| steps_refl (s : state) : steps s s
| steps_step (s s' s'' : state) : steps s s' -> step s' s'' -> steps s s''.

Definition init_store : store :=
  mkStore (fun _ => false) (fun _ => 0) 0%nat 0%nat [] Running.

Definition init (fpath : string) (isColor : bool) : state :=
  mkState [ main fpath isColor ] init_store.

Definition reachable (fpath : string) (isColor : bool) (s : state) : Prop :=
  steps (init fpath isColor) s.

(** *** A scheduler, to run the machine

    [pick i l] takes the [i]-th goroutine out of [l]. *)
Fixpoint pick {A : Type} (i : nat) (l : list A) : option (A * list A) :=
  match l, i with
  | [], _ => None
  | x :: t, O => Some (x, t)
  | x :: t, S i' =>
    match pick i' t with
    | Some (y, t') => Some (y, x :: t')
    | None => None
    end
  end.

(** [fire i j s]: goroutine [i] takes its next action; when this is a
    send on an open channel, [j] is the position of the receiver
    among the other goroutines. *)
Definition fire (i j : nat) (s : state) : option state :=
  match status_of (mem s) with
  | Running =>
    match pick i (tasks s) with
    | Some (a :: k, rest) =>
      match local a (mem s) with
      | Some (spawned, m') => Some (mkState (k :: spawned ++ rest) m')
      | None =>
        match a with
        | Send c msg =>
          match pick j rest with
          | Some (Range c' l :: k', rest') =>
            if chan_eqb c c' && negb (closed (mem s) c) then
              Some (mkState
                      (k :: (loop_body this l msg ++ Range c' l :: k') :: rest')
                      (log (EvSend c msg) (mem s)))
            else None
          | _ => None
          end
        | _ => None
        end
      end
    | _ => None
    end
  | _ => None
  end.

(** [run sched s]: the steps of [sched], in order. *)
Fixpoint run (sched : list (nat * nat)) (s : state) : option state :=
  match sched with
  | [] => Some s
  | (i, j) :: sched' =>
    match fire i j s with
    | Some s' => run sched' s'
    | None => None
    end
  end.

End Machine.

(** ** Reading scripts and contents *)

(** The messages a script sends on [c], in order. *)
Definition emitted (c : chan) (k : list action) : list string :=
  flat_map (fun a => match a with
                     | Send c' msg => if chan_eqb c c' then [msg] else []
                     | _ => []
                     end) k.

(** The bytes below 0x09. *)
Definition is_control (b : byte) : bool := bval b <? 0x09.

Definition LF : Z := 10.

(** The lines of a content as the specification describes them: the
    content is cut at every line feed, and what follows the last line
    feed is a line when it is not empty. *)
Fixpoint lines (m : list byte) : list (list byte) :=
  match m with
  | [] => []
  | b :: t =>
    if bval b =? LF then [] :: lines t
    else match lines t with
         | [] => [[b]]
         | l :: ls => (b :: l) :: ls
         end
  end.

(** Lines with their numbers, counted from [n + 1]. *)
Fixpoint numbered {A : Type} (n : Z) (ls : list A) : list (Z * A) :=
  match ls with
  | [] => []
  | l :: t => (n + 1, l) :: numbered (n + 1) t
  end.

(** The record of a text match: [fmt.Sprintf("%s:%d: %s", ...)]. *)
Definition matchLine (fpath : string) (n : Z) (line : list byte) : string :=
  (fpath ++ ":" ++ itoa n ++ ": " ++ string_of_list_byte line)%string.

(** The record of a binary match. *)
Definition binaryMarker (fpath : string) : string :=
  ("Binary file " ++ fpath ++ " matches")%string.

Section Reading.
Context {RE : RegexpLib}.

Definition matchesPattern (this : gorep) (line : list byte) : bool :=
  MatchString (pattern this) (string_of_list_byte line).

Definition ignoredLine (this : gorep) (line : list byte) : bool :=
  matchesIgnore this (string_of_list_byte line).

(** The numbered lines that match the pattern and are not ignored. *)
Definition hits (this : gorep) (ls : list (list byte))
  : list (Z * list byte) :=
  List.filter (fun nl => matchesPattern this (snd nl)
                         && negb (ignoredLine this (snd nl)))
              (numbered 0 ls).
End Reading.

(** ** An instance of the regexp interface: literal expressions

    The expression is a text without operators; a string matches when
    the text occurs in it. *)
Fixpoint prefixb (p s : string) : bool :=
  match p, s with
  | EmptyString, _ => true
  | String a p', String b s' => Ascii.eqb a b && prefixb p' s'
  | String _ _, EmptyString => false
  end.

Fixpoint occurs (p s : string) : bool :=
  prefixb p s ||
  match s with
  | EmptyString => false
  | String _ s' => occurs p s'
  end.

#[local] Instance literal : RegexpLib := {|
  Regexp := string;
  Compile := fun e => Ok e;
  MatchString := fun re s => occurs re s;
  ReplaceAllString := fun _ s _ => s
|}.

(** ** Another instance: words under the flag group "(?i)"

    The expression is a word, with or without the flag group "(?i)"
    before it.  Without the group a string matches when the word
    occurs in it; with the group, when the word occurs in it whatever
    the case of the ASCII letters. *)
Definition lower (c : ascii) : ascii :=
  let n := nat_of_ascii c in
  if ((65 <=? n) && (n <=? 90))%nat then ascii_of_nat (n + 32) else c.

Fixpoint toLower (s : string) : string :=
  match s with
  | EmptyString => EmptyString
  | String c s' => String (lower c) (toLower s')
  end.

Fixpoint dropString (n : nat) (s : string) : string :=
  match n, s with
  | S n', String _ s' => dropString n' s'
  | _, _ => s
  end.

Definition folding : RegexpLib := {|
  Regexp := bool * string;
  Compile := fun e =>
    if prefixb "(?i)" e then Ok (true, dropString 4 e) else Ok (false, e);
  MatchString := fun re s =>
    if fst re then occurs (toLower (snd re)) (toLower s)
    else occurs (snd re) s;
  ReplaceAllString := fun _ s _ => s
|}.

Section Records.
Context {RE : RegexpLib}.

(** The sends of the text records of [ls], numbered from [n + 1]. *)
Definition textRecords (this : gorep) (fpath : string) (out : chan)
           (n : Z) (ls : list (list byte)) : list action :=
  map (fun nl => Send out (matchLine fpath (fst nl) (snd nl)))
      (List.filter (fun nl => matchesPattern this (snd nl)
                              && negb (ignoredLine this (snd nl)))
                   (numbered n ls)).

(** The code's way of taking the first line off a content: the line,
    and the rest. *)
Definition cut (m : list byte) : list byte * list byte :=
  let index := bytes.IndexRune m 10 in
  let line := if negb (index =? -1) then firstn (Z.to_nat index) m else m in
  (line,
   if negb (index =? -1) then skipn (length line + 1) m
   else skipn (length line) m).
End Records.

(** The line at a position counted from 1. *)
Definition lineAt (m : list byte) (p : nat) : option (list byte) :=
  match p with
  | O => None
  | S i => nth_error (lines m) i
  end.

(** Whether the content ends with a line that has no line feed. *)
Fixpoint endsOpen (m : list byte) : bool :=
  match m with
  | [] => false
  | b :: t =>
    match t with
    | [] => negb (bval b =? LF)
    | _ :: _ => endsOpen t
    end
  end.

Definition byteLF : byte := "010"%byte.

(** The prefix that [newGorep] puts before an expression. *)
Definition casePrefix (opt : optionSet.t) : string :=
  if optionSet.ignorecase opt then "(?i)" else EmptyString.

(** The options with [ignorecase] unset and the flag written in the
    ignore expression instead. *)
Definition flagged (opt : optionSet.t) : optionSet.t :=
  optionSet.mk (optionSet.v opt) (optionSet.g opt)
               (optionSet.grep_only opt) (optionSet.search_binary opt)
               (match optionSet.ignore opt with
                | EmptyString => EmptyString
                | ig => "(?i)" ++ ig
                end)
               (optionSet.hidden opt) false.

Section Entries.
Context {RE : RegexpLib}.

(** The two tests at the head of the loop of [mapfork]. *)
Definition skipped (this : gorep) (finfo : os.FileInfo) : bool :=
  (negb (searchScope.hidden (scope this)) && verifyHidden (os.Name finfo))
  || matchesIgnore this (os.Name finfo).
End Entries.

(** ** What the decoder yields on a first byte that is not ASCII

    A rune that is no control code, and a width within the slice, over
    bytes that are not ASCII either. *)
Definition decoded_ok (p : list byte) (res : Z * nat) : Prop :=
  9 <= fst res
  /\ (1 <= snd res <= length p)%nat
  /\ Forall (fun b => 128 <= bval b) (firstn (snd res) p).

(** ** Accounting of the synchronisation

    The order of the run is kept by a few actions that happen once:
    the closing of a channel, the return of a wait, the end of a
    [range] loop, the return of [main].  A token is the right to do one
    of them; a script holds the tokens of the actions it still has to
    do, those of the goroutines it still has to start included. *)

Inductive token : Type :=
| TClose (c : chan)
| TWait (w : waitgroup)
| TRange (c : chan)
| TExit.

Definition isMap (c : chan) : bool :=
  match c with
  | MapDir | MapFile | MapSymlink | MapLine => true
  | _ => false
  end.

Definition isReduce (c : chan) : bool :=
  match c with
  | ReduceDir | ReduceFile | ReduceSymlink | ReduceLine => true
  | _ => false
  end.

Definition b2z (b : bool) : Z := if b then 1 else 0.

(** The tokens of the body of a call. *)
Definition call_tok (t : token) (f : call) : Z :=
  match f, t with
  | KickMap _, TClose c => b2z (isMap c)
  | KickMap _, TWait w => b2z (waitgroup_eqb w waitMaps)
  | KickReduce, TClose c => b2z (isReduce c)
  | KickReduce, TWait w => b2z (waitgroup_eqb w waitGreps)
  | KickReduce, TRange c =>
    b2z (chan_eqb c MapDir) + b2z (chan_eqb c MapFile)
    + b2z (chan_eqb c MapSymlink)
  | ReduceDirs in_ out, TClose c => b2z (chan_eqb c out)
  | ReduceDirs in_ out, TRange c => b2z (chan_eqb c in_)
  | ReduceFiles in_ out chLine, TClose c =>
    b2z (chan_eqb c out) + b2z (chan_eqb c chLine)
  | ReduceFiles in_ out chLine, TWait w => b2z (waitgroup_eqb w waitGreps)
  | ReduceFiles in_ out chLine, TRange c => b2z (chan_eqb c in_)
  | ReduceSymlinks in_ out, TClose c => b2z (chan_eqb c out)
  | ReduceSymlinks in_ out, TRange c => b2z (chan_eqb c in_)
  | Printer, TRange c => b2z (chan_eqb c chPrint)
  | Reporter _ _ ch, TRange c => b2z (chan_eqb c ch)
  | _, _ => 0
  end.

(** The tokens an action holds. *)
Definition tok (t : token) (a : action) : Z :=
  match a, t with
  | Close c', TClose c => b2z (chan_eqb c c')
  | Wait w', TWait w => b2z (waitgroup_eqb w w')
  | Range c' _, TRange c => b2z (chan_eqb c c')
  | Exit code, TExit => b2z (code =? 0)
  | Go f, _ => call_tok t f
  | _, _ => 0
  end.

(** What a script owes to a wait group: the calls of [Done] it still
    has to make, by itself or by the goroutines it still has to start,
    less the additions it still has to make. *)
Definition call_debt (w : waitgroup) (f : call) : Z :=
  match f, w with
  | Mapfork _ _, waitMaps => 1
  | Grep _ _, waitGreps => 1
  | Reporter _ _ _, waitReports => 1
  | _, _ => 0
  end.

Definition debt (w : waitgroup) (a : action) : Z :=
  match a with
  | Add w' n => if waitgroup_eqb w w' then - n else 0
  | Done w' => b2z (waitgroup_eqb w w')
  | Go f => call_debt w f
  | _ => 0
  end.

(** The permits a script still has to give back, and the files it
    still has to close. *)
Definition held (a : action) : Z :=
  match a with
  | Release => 1
  | Acquire => -1
  | _ => 0
  end.

Definition opened (a : action) : Z :=
  match a with
  | FClose _ => 1
  | FOpen _ => -1
  | _ => 0
  end.

Definition total (f : action -> Z) (k : list action) : Z :=
  fold_right (fun a z => f a + z) 0 k.

Definition grand (f : action -> Z) (ts : list (list action)) : Z :=
  fold_right (fun k z => total f k + z) 0 ts.

(** Whether an action may lead to a send on [c]. *)
Definition loop_uses (c : chan) (l : loop) : bool :=
  match l with
  | DirLoop out => chan_eqb c out
  | FileLoop out chLine => chan_eqb c out || chan_eqb c chLine
  | SymlinkLoop out => chan_eqb c out
  | ReporterLoop _ _ => chan_eqb c chPrint
  | PrinterLoop => false
  end.

Definition call_uses (c : chan) (f : call) : bool :=
  match f with
  | KickMap _ =>
    chan_eqb c MapDir || chan_eqb c MapFile || chan_eqb c MapSymlink
  | KickReduce => isReduce c
  | Mapfork _ chans =>
    chan_eqb c (channelSet.dir chans) || chan_eqb c (channelSet.file chans)
    || chan_eqb c (channelSet.symlink chans)
  | ReduceDirs _ out => chan_eqb c out
  | ReduceFiles _ out chLine => chan_eqb c out || chan_eqb c chLine
  | ReduceSymlinks _ out => chan_eqb c out
  | Grep _ out => chan_eqb c out
  | Printer => false
  | Reporter _ _ _ => chan_eqb c chPrint
  end.

Definition uses (c : chan) (a : action) : bool :=
  match a with
  | Send c' _ => chan_eqb c c'
  | Range _ l => loop_uses c l
  | Go f => call_uses c f
  | _ => false
  end.

(** Whether an action may lead to a change of the counter of [w]. *)
Definition call_acts (w : waitgroup) (f : call) : bool :=
  match f, w with
  | KickMap _, waitMaps | Mapfork _ _, waitMaps => true
  | KickReduce, waitGreps | ReduceFiles _ _ _, waitGreps
  | Grep _ _, waitGreps => true
  | Reporter _ _ _, waitReports => true
  | _, _ => false
  end.

Definition acts (w : waitgroup) (a : action) : bool :=
  match a with
  | Add w' _ | Done w' => waitgroup_eqb w w'
  | Range _ (FileLoop _ _) => waitgroup_eqb w waitGreps
  | Go f => call_acts w f
  | _ => false
  end.

(** The actions as the program writes them: the channels of the loops
    and of the calls are those that [kick] and [report] pass. *)
Definition wf_loop (c : chan) (l : loop) : bool :=
  match c, l with
  | MapDir, DirLoop ReduceDir
  | MapFile, FileLoop ReduceFile ReduceLine
  | MapSymlink, SymlinkLoop ReduceSymlink
  | chPrint, PrinterLoop => true
  | _, ReporterLoop _ _ => isReduce c
  | _, _ => false
  end.

Definition wf_call (f : call) : bool :=
  match f with
  | KickMap _ | KickReduce | Printer => true
  | Mapfork _ (channelSet.mk MapDir MapFile MapSymlink MapLine) => true
  | ReduceDirs MapDir ReduceDir
  | ReduceFiles MapFile ReduceFile ReduceLine
  | ReduceSymlinks MapSymlink ReduceSymlink => true
  | Grep _ ReduceLine => true
  | Reporter _ _ ch => isReduce ch
  | _ => false
  end.

Definition wf_action (a : action) : bool :=
  match a with
  | Range c l => wf_loop c l
  | Go f => wf_call f
  | Add _ n => 0 <=? n
  | _ => true
  end.

(** The wait group whose members send on a channel. *)
Definition protect (c : chan) : option waitgroup :=
  match c with
  | MapDir | MapFile | MapSymlink | MapLine => Some waitMaps
  | ReduceLine => Some waitGreps
  | _ => None
  end.

(** [guards g t]: the action of [g] comes, in the program, before the
    action of [t]. *)
Definition guards (g t : token) : bool :=
  match g, t with
  | TWait waitMaps, TClose c => isMap c
  | TWait waitGreps, TClose ReduceLine => true
  | TRange MapDir, TClose ReduceDir => true
  | TRange MapFile, TClose ReduceFile => true
  | TRange MapFile, TClose ReduceLine => true
  | TRange MapSymlink, TClose ReduceSymlink => true
  | TWait waitReports, TExit => true
  | _, _ => false
  end.

(** The token an action uses up when it is done. *)
Definition spends (a : action) : option token :=
  match a with
  | Close c => Some (TClose c)
  | Wait w => Some (TWait w)
  | Exit code => if code =? 0 then Some TExit else None
  | _ => None
  end.

(** How many times the action of a token is in the trace. *)
Definition fired_by (t : token) (e : event) : Z :=
  match e, t with
  | EvClose c', TClose c => b2z (chan_eqb c c')
  | EvWait w', TWait w => b2z (waitgroup_eqb w w')
  | EvRangeEnd c', TRange c => b2z (chan_eqb c c')
  | EvExit code, TExit => b2z (code =? 0)
  | _, _ => 0
  end.

Definition fired (t : token) (tr : list event) : Z :=
  fold_right (fun e z => fired_by t e + z) 0 tr.

(** How many times the action of each token happens in a run. *)
Definition expected (t : token) : Z :=
  match t with
  | TClose c => b2z (negb (chan_eqb c chPrint))
  | TRange c => b2z (negb (chan_eqb c MapLine))
  | TWait _ => 1
  | TExit => 1
  end.

Definition all_chans : list chan :=
  [ MapDir; MapFile; MapSymlink; MapLine;
    ReduceDir; ReduceFile; ReduceSymlink; ReduceLine; chPrint ].

Definition all_waitgroups : list waitgroup :=
  [ waitMaps; waitGreps; waitReports ].

Definition all_tokens : list token :=
  map TClose all_chans ++ map TWait all_waitgroups
  ++ map TRange all_chans ++ [ TExit ].

(** *** The discipline of a script

    [disciplined k] says of what a goroutine has left to do:
    - it owes no negative amount to a wait group;
    - when it may send on a channel, it holds the token of the closing
      of that channel, or it owes a [Done] to the wait group whose
      wait comes before that closing;
    - when it may change the counter of a wait group, it holds the
      token of the wait, or it owes a [Done];
    - when its next action is the action of a token, it holds no token
      that comes before it; when its next action starts a goroutine and
      hands a token over to it, it keeps no token that comes after;
    - when it holds the [range] over a result stream, it may change
      the counter of [waitReports];
    - it holds no more open files than permits. *)
Definition sends_protected (k : list action) (c : chan) : bool :=
  negb (existsb (uses c) k)
  || chan_eqb c chPrint
  || (0 <? total (tok (TClose c)) k)
  || match protect c with
     | Some w => 0 <? total (debt w) k
     | None => false
     end.

Definition counts_protected (k : list action) (w : waitgroup) : bool :=
  negb (existsb (acts w) k)
  || (0 <? total (tok (TWait w)) k)
  || (0 <? total (debt w) k).

Definition handover (f : call) (k : list action) : bool :=
  forallb (fun g =>
             forallb (fun t => negb (guards g t) || (call_tok g f <=? 0)
                               || (total (tok t) k <=? 0)) all_tokens)
          all_tokens.

Definition order_kept (k : list action) : bool :=
  match k with
  | [] => true
  | Go f :: k' => handover f k'
  | a :: k' =>
    match spends a with
    | Some t =>
      forallb (fun g => negb (guards g t) || (total (tok g) k' <=? 0))
              all_tokens
    | None => true
    end
  end.

Definition reports_counted (k : list action) (c : chan) : bool :=
  negb (isReduce c) || (total (tok (TRange c)) k <=? 0)
  || existsb (acts waitReports) k.

Definition disciplined (k : list action) : bool :=
  forallb wf_action k
  && forallb (fun w => 0 <=? total (debt w) k) all_waitgroups
  && forallb (sends_protected k) all_chans
  && forallb (counts_protected k) all_waitgroups
  && order_kept k
  && forallb (reports_counted k) all_chans
  && (0 <=? total opened k) && (total opened k <=? total held k).

(** A script is sound when what is left of it after any number of
    actions is disciplined. *)
Fixpoint sound (k : list action) : bool :=
  disciplined k &&
  match k with
  | [] => true
  | _ :: k' => sound k'
  end.

(** The discipline, as propositions. *)
Record Disciplined (k : list action) : Prop := mkDisciplined {
  d_wf : forall a, In a k -> wf_action a = true;
  d_debt : forall w, 0 <= total (debt w) k;
  d_sends : forall c,
      existsb (uses c) k = true ->
      c = chPrint \/ 0 < total (tok (TClose c)) k
      \/ exists w, protect c = Some w /\ 0 < total (debt w) k;
  d_counts : forall w,
      existsb (acts w) k = true ->
      0 < total (tok (TWait w)) k \/ 0 < total (debt w) k;
  d_order : order_kept k = true;
  d_reports : forall c,
      isReduce c = true -> 0 < total (tok (TRange c)) k ->
      existsb (acts waitReports) k = true;
  d_open : 0 <= total opened k <= total held k
}.

(** *** The shapes of the scripts of [mapfork] and [grep] *)

Definition map_action (a : action) : bool :=
  match a with
  | Send MapDir _ | Send MapFile _ | Send MapSymlink _ => true
  | Add waitMaps n => n =? 1
  | Go (Mapfork _ (channelSet.mk MapDir MapFile MapSymlink MapLine)) => true
  | Done waitMaps => true
  | Stderr _ => true
  | Exit code => negb (code =? 0)
  | _ => false
  end.

Fixpoint map_script (k : list action) : bool :=
  match k with
  | [] => true
  | a :: k' =>
    map_action a && (0 <? total (debt waitMaps) k) && map_script k'
  end.

Definition grep_action (a : action) : bool :=
  match a with
  | Acquire | Release | FOpen _ | FClose _ | Stderr _ => true
  | Send ReduceLine _ => true
  | Done waitGreps => true
  | _ => false
  end.

Fixpoint grep_script (k : list action) : bool :=
  match k with
  | [] => true
  | a :: k' =>
    grep_action a && (0 <? total (debt waitGreps) k)
    && (0 <=? total opened k) && (total opened k <=? total held k)
    && grep_script k'
  end.

(** The actions of [grep] between the opening and the closing of the
    file. *)
Definition scan_action (a : action) : bool :=
  match a with
  | Send ReduceLine _ | Stderr _ => true
  | _ => false
  end.

(** *** The bodies of the loops

    A loop body comes before the [range] it belongs to; [prefix_ok r p]
    says that [p] may come before the action [r] of a sound script: it
    holds no token, owes nothing negative, and sends and counts only
    where [r] does. *)
Definition absorbed (r : action) (p : list action) : bool :=
  forallb (fun c => negb (existsb (uses c) p) || uses c r) all_chans
  && forallb (fun w => negb (existsb (acts w) p) || acts w r) all_waitgroups.

Definition neutral (p : list action) : bool :=
  forallb wf_action p
  && forallb (fun t => total (tok t) p =? 0) all_tokens
  && forallb (fun w => 0 <=? total (debt w) p) all_waitgroups
  && (total held p =? 0) && (total opened p =? 0)
  && match p with
     | Go f :: _ => forallb (fun g => call_tok g f =? 0) all_tokens
     | a :: _ => match spends a with Some _ => false | None => true end
     | [] => true
     end.

Fixpoint prefix_ok (r : action) (p : list action) : bool :=
  match p with
  | [] => true
  | _ :: p' => neutral p && absorbed r p && prefix_ok r p'
  end.

(** *** The invariant of the run *)

(** What an action spends and pays when it is done. *)
Definition own (t : token) (a : action) : Z :=
  match a with
  | Go _ => 0
  | _ => tok t a
  end.

Definition owe (w : waitgroup) (a : action) : Z :=
  match a with
  | Go _ => 0
  | _ => debt w a
  end.

(** In the trace, most recent first, no closing of a channel comes
    before a send on it. *)
Definition no_send_after_close (tr : list event) : Prop :=
  forall (t1 t2 : list event) (c : chan) (msg : string),
    tr = t1 ++ EvSend c msg :: t2 -> fired (TClose c) t2 = 0.

Record invariant (s : state) : Prop := mkInvariant {
  inv_status : status_of (mem s) <> Panicked;
  inv_sound : forall k, In k (tasks s) -> sound k = true;
  inv_counter : forall w, counter (mem s) w = grand (debt w) (tasks s);
  inv_tokens : forall t,
      grand (tok t) (tasks s) + fired t (trace (mem s)) = expected t;
  inv_closed : forall c,
      closed (mem s) c = (0 <? fired (TClose c) (trace (mem s)));
  inv_ended : forall c,
      0 < fired (TRange c) (trace (mem s)) -> closed (mem s) c = true;
  inv_guard : forall k g t,
      In k (tasks s) -> guards g t = true -> 0 < total (tok t) k ->
      0 < total (tok g) k \/ 0 < fired g (trace (mem s));
  inv_after : forall g t,
      guards g t = true -> 0 < fired t (trace (mem s)) ->
      0 < fired g (trace (mem s));
  inv_quiet : forall w,
      0 < fired (TWait w) (trace (mem s)) ->
      counter (mem s) w = 0
      /\ forall k, In k (tasks s) -> existsb (acts w) k = false;
  inv_mute : forall c,
      closed (mem s) c = true ->
      forall k, In k (tasks s) -> existsb (uses c) k = false;
  inv_order : no_send_after_close (trace (mem s));
  inv_permits : Z.of_nat (permits (mem s)) = grand held (tasks s)
                /\ (permits (mem s) <= maxNumOfFileOpen)%nat;
  inv_open : Z.of_nat (openfiles (mem s)) = grand opened (tasks s);
  inv_exit : status_of (mem s) = Exited 0 ->
             0 < fired TExit (trace (mem s))
}.

(** The state a schedule leads to, from the start of the run; a
    schedule that cannot be followed leaves the run at its start. *)
Definition run_state {RE : RegexpLib} (fs : os.FileSystem) (this : gorep)
           (fpath : string) (isColor : bool) (sched : list (nat * nat))
  : state :=
  match run fs this sched (init fpath isColor) with
  | Some s => s
  | None => init fpath isColor
  end.

(** ** Who moves next

    A goroutine whose next action is a send, a [range], a wait or the
    taking of a permit may have to wait for another goroutine: the one
    that holds the [range] over the channel, the closing of the
    channel, a [Done] owed to the wait group, or a permit.  A need is
    what is looked for in that other goroutine. *)
Inductive need : Type :=
| NRange (c : chan)
| NClose (c : chan)
| NDebt (w : waitgroup)
| NHeld
| NExit.

Definition quantity (n : need) (a : action) : Z :=
  match n with
  | NRange c => tok (TRange c) a
  | NClose c => tok (TClose c) a
  | NDebt w => debt w a
  | NHeld => held a
  | NExit => tok TExit a
  end.

(** The actions that wait for no one. *)
Definition free (a : action) : bool :=
  match a with
  | Send _ _ | Range _ _ | Wait _ | Acquire => false
  | _ => true
  end.

(** The raw streams that have a consumer. *)
Definition feeds (c : chan) : bool :=
  match c with
  | MapDir | MapFile | MapSymlink => true
  | _ => false
  end.

(** [below c' c]: the consumer of [c] sends on [c']. *)
Definition below (c' c : chan) : bool :=
  (isReduce c && chan_eqb c' chPrint) || (feeds c && isReduce c').

(** [allowed n a]: a goroutine that answers the need [n] may have [a]
    as its next action.  What it may wait for is always further down
    the pipeline, or further up when the need is the closing of a
    channel. *)
Definition allowed (n : need) (a : action) : bool :=
  free a ||
  match n, a with
  | NRange c, Range c' _ => chan_eqb c c'
  | NRange c, Send c' _ => below c' c
  | NClose c, Send c' _ =>
    (isMap c && feeds c') || (isReduce c && isReduce c')
  | NClose c, Wait w =>
    (isMap c && waitgroup_eqb w waitMaps)
    || (isReduce c && waitgroup_eqb w waitGreps)
  | NClose c, Range c' _ => isReduce c && feeds c'
  | NDebt waitMaps, Send c' _ => feeds c'
  | NDebt waitGreps, Send c' _ => chan_eqb c' ReduceLine
  | NDebt waitGreps, Acquire => true
  | NDebt waitReports, Send c' _ => chan_eqb c' chPrint
  | NDebt waitReports, Range c' _ => isReduce c'
  | NHeld, Send c' _ => chan_eqb c' ReduceLine
  | NExit, Wait w => waitgroup_eqb w waitReports
  | _, _ => false
  end.

Definition all_needs : list need :=
  map NRange all_chans ++ map NClose all_chans
  ++ map NDebt all_waitgroups ++ [ NHeld; NExit ].

(** [lively k]: whatever need the script [k] answers, its next action
    is allowed for it; and an exit with an error comes before a [Done]
    owed to [waitMaps]. *)
Definition lively (k : list action) : bool :=
  match k with
  | [] => true
  | a :: _ =>
    forallb (fun n => (total (quantity n) k <=? 0) || allowed n a) all_needs
    && match a with
       | Exit code => (code =? 0) || (0 <? total (debt waitMaps) k)
       | _ => true
       end
  end.

Fixpoint alive (k : list action) : bool :=
  lively k &&
  match k with
  | [] => true
  | _ :: k' => alive k'
  end.

(** [prefix_lively r p]: the loop body [p] may come before the [range]
    [r] of a script that is alive. *)
Fixpoint prefix_lively (r : action) (p : list action) : bool :=
  match p with
  | [] => true
  | a :: p' =>
    forallb (fun n => allowed n a
                      || ((total (quantity n) p <=? 0) && negb (allowed n r)))
            all_needs
    && match a with Exit _ => false | _ => true end
    && prefix_lively r p'
  end.

(** The needs that a script of [mapfork] may answer, and those that a
    scan may answer. *)
Definition map_need (n : need) : bool :=
  match n with
  | NDebt waitMaps => true
  | NClose c => isMap c
  | _ => false
  end.

Definition scan_need (n : need) : bool :=
  match n with
  | NDebt waitGreps | NHeld => true
  | _ => false
  end.

(** What holds of every state of a run besides [invariant]. *)
Record vital (s : state) : Prop := mkVital {
  v_alive : forall k, In k (tasks s) -> alive k = true;
  v_running : status_of (mem s) = Running ->
              fired TExit (trace (mem s)) = 0;
  v_fatal : forall code,
      status_of (mem s) = Exited code -> code <> 0 ->
      0 < counter (mem s) waitMaps
}.

(** ** The length of a run

    Every step of the run uses up some of what the goroutines have
    left to do.  The weight of an action is the number of steps that it
    stands for: one, and for a send the steps of the loop body that
    receives the message, and for the start of a goroutine the steps of
    its body. *)

(** The weight of an action of a scan: a send on the stream of match
    lines is followed by a send to the printer and by a write. *)
Definition wscan (a : action) : nat :=
  match a with
  | Send _ _ => 3%nat
  | _ => 1%nat
  end.

Section Weight.
Context {RE : RegexpLib}.
Variables (fs : os.FileSystem) (this : gorep).

Definition wgrep (fpath : string) : nat :=
list_sum (map wscan (grep fs this fpath ReduceLine)).

(** A send to the printer: the send and the write.  A send on a result
  stream: the send and the send to the printer.  A send on a raw
  stream: the send, the send on the filtered stream and, for a file,
  the addition to [waitGreps], the start of the scan and the scan. *)
Definition wsend (c : chan) (msg : string) : nat :=
match c with
| chPrint => 2
| ReduceDir | ReduceFile | ReduceSymlink | ReduceLine => 3
| MapDir | MapSymlink => 4
| MapFile => 6 + wgrep msg
| MapLine => 1
end%nat.

(** The weight of the body of a call, the starts of goroutines followed
  [d] deep. *)
Fixpoint wcall (d : nat) (f : call) : nat :=
match d with
| O => O
| S d' =>
  list_sum (map (fun a => match a with
                          | Send c msg => wsend c msg
                          | Go g => S (wcall d' g)
                          | _ => 1%nat
                          end) (body fs this f))
end.

Definition weight (d : nat) (a : action) : nat :=
match a with
| Send c msg => wsend c msg
| Go f => S (wcall d f)
| _ => 1%nat
end.

Definition cost (d : nat) (k : list action) : nat :=
list_sum (map (weight d) k).

Definition load (d : nat) (s : state) : nat :=
list_sum (map (cost d) (tasks s)).

(** [deep d f]: in the body of [f], the starts of goroutines are
  nested less than [d] deep. *)
Fixpoint deep (d : nat) (f : call) : bool :=
match d with
| O => false
| S d' =>
  forallb (fun a => match a with
                    | Go g => deep d' g
                    | _ => true
                    end) (body fs this f)
end.

Definition shallow (d : nat) (a : action) : bool :=
match a with
| Go f => deep d f
| _ => true
end.

(** The entries of a listing that [mapfork] expands. *)
Definition expands (finfo : os.FileInfo) : bool :=
negb (skipped this finfo)
&& negb (Z.land (os.Mode finfo) os.ModeDir =? 0).

(** [levels d fpath]: the directories that [mapfork] expands from
  [fpath] on, [fpath] included, are nested at most [d] deep. *)
Fixpoint levels (d : nat) (fpath : string) : bool :=
match d with
| O => false
| S d' =>
  match os.ReadDir fs fpath with
  | Err _ => true
  | Ok listing =>
    forallb (fun finfo =>
               negb (expands finfo)
               || levels d' (fpath ++ separator ++ os.Name finfo)%string)
            listing
  end
end.

(** In every goroutine of the state, the starts of goroutines are
  nested at most [d] deep. *)
Definition leveled (d : nat) (s : state) : Prop :=
forall k, In k (tasks s) -> forallb (shallow d) k = true.

End Weight.

(** ** A sample tree and sample configurations *)

Module sample.

Definition nl : string := newline.

(** Ten lines; "x" occurs in the lines 2, 5 and 9. *)
Definition text : list byte :=
  list_byte_of_string
    ("alpha" ++ nl ++ "box" ++ nl ++ "gamma" ++ nl ++ "delta" ++ nl
     ++ "helix" ++ nl ++ "zeta" ++ nl ++ "eta" ++ nl ++ "theta" ++ nl
     ++ "pixel" ++ nl ++ "kappa")%string.

(** A content with a null byte; "x" occurs in its first line. *)
Definition blob : list byte :=
  list_byte_of_string
    ("ax" ++ String (ascii_of_nat 0) "b" ++ nl ++ "c")%string.

Definition dirMode : Z := Z.lor os.ModeDir 493.
Definition linkMode : Z := Z.lor os.ModeSymlink 511.
Definition fileMode : Z := 420.
Definition pipeMode : Z := Z.lor os.ModeNamedPipe 420.

Definition content (p : string) : list byte :=
  if String.eqb p "./a.txt" then text
  else if String.eqb p "./blob" then blob
  else if String.eqb p "./sub/b.txt" then list_byte_of_string "no match"
  else [].

(** The tree:
    - ./.git/      (hidden directory)
    - ./a.txt      (text)
    - ./blob       (binary)
    - ./empty      (empty file: cannot be mapped)
    - ./fifo       (named pipe)
    - ./link       (symbolic link)
    - ./locked     (cannot be opened)
    - ./sub/b.txt  (text)
    A directory that is not in the tree cannot be listed. *)
Definition fs : os.FileSystem :=
  os.mkFileSystem
    (fun p =>
       if String.eqb p "." then
         Ok [ os.mkFileInfo ".git" dirMode;
              os.mkFileInfo "a.txt" fileMode;
              os.mkFileInfo "blob" fileMode;
              os.mkFileInfo "empty" fileMode;
              os.mkFileInfo "fifo" pipeMode;
              os.mkFileInfo "link" linkMode;
              os.mkFileInfo "locked" fileMode;
              os.mkFileInfo "sub" dirMode ]
       else if String.eqb p "./sub" then
         Ok [ os.mkFileInfo "b.txt" fileMode ]
       else if String.eqb p "./.git" then Ok []
       else Err ("open " ++ p ++ ": no such file or directory")%string)
    (fun p =>
       if String.eqb p "./locked"
       then Err ("open " ++ p ++ ": permission denied")%string
       else Ok tt)
    (fun p =>
       if String.eqb p "./gone"
       then Err ("stat " ++ p ++ ": no such file or directory")%string
       else Ok (Z.of_nat (length (content p))))
    (fun p size =>
       if size =? 0 then Err "invalid argument"%string
       else Ok (content p)).

Definition scopeAll : searchScope.t :=
  searchScope.mk true true true true false false.

Definition scopeBinary : searchScope.t :=
  searchScope.mk true true true true true false.

(** Search "x", content search enabled. *)
Definition this : gorep (RE := literal) :=
  mkGorep (RE := literal) "x"%string None scopeAll.

(** Search "x" in binary files too, ignoring what holds "a". *)
Definition thisBinary : gorep (RE := literal) :=
  mkGorep (RE := literal) "x"%string (Some "a"%string) scopeBinary.

(** A schedule of the run on the tree, from the start to the return
    of [main]: the goroutine that moves, and for a send the one that
    receives. *)
Definition schedule : list (nat * nat) :=
  [
    (0,0); (1,0); (1,0); (1,0); (2,0); (0,0); (2,0); (2,0);
    (0,0); (0,0); (4,0); (2,0); (10,7); (1,6); (0,0); (0,0);
    (1,0); (2,9); (1,0); (2,0); (4,3); (2,5); (1,3); (4,0);
    (3,1); (2,0); (5,0); (1,0); (5,0); (3,0); (2,0); (1,0);
    (2,0); (1,0); (0,0); (0,0); (6,3); (5,9); (4,0); (1,5);
    (2,0); (5,0); (6,0); (4,0); (1,0); (7,6); (2,0); (1,0);
    (3,0); (4,4); (4,0); (4,0); (3,0); (7,13); (0,0); (4,0);
    (1,0); (1,6); (1,10); (7,0); (3,0); (2,0); (2,0); (3,6);
    (3,0); (6,0); (0,0); (2,0); (0,0); (0,0); (4,0); (5,0);
    (3,0); (0,0); (3,0); (4,0); (1,0); (8,0); (3,0); (12,0);
    (0,0); (1,0); (2,0); (16,0); (5,0); (1,0); (1,0); (16,0);
    (0,0); (1,0); (9,0); (12,0); (0,0); (1,0); (15,0); (0,0)
  ]%nat.

(** The same run, stopped while three scans hold their files open. *)
Definition midway : list (nat * nat) := firstn 34 schedule.

(** A schedule of the run on a directory that cannot be listed. *)
Definition fatal : list (nat * nat) :=
  [ (0,0); (0,0); (1,0); (3,0); (3,0); (3,0); (4,0); (3,0); (1,0) ]%nat.

End sample.

(** ** The start of [main]

    *** Package strings *)

Module strings.

(** Whether a character is one of [cutset]. *)
Definition inCutset (cutset : string) (c : ascii) : bool :=
  existsb (Ascii.eqb c) (list_ascii_of_string cutset).

Fixpoint dropWhile (p : ascii -> bool) (l : list ascii) : list ascii :=
  match l with
  | [] => []
  | c :: t => if p c then dropWhile p t else l
  end.

(** [TrimRight s cutset]: [s] without its trailing characters that
    are in [cutset].  The cutset is taken byte by byte, which is what
    the package does for a cutset of ASCII characters; the program
    trims with the separator only. *)
Definition TrimRight (s cutset : string) : string :=
  string_of_list_ascii
    (rev (dropWhile (inCutset cutset) (rev (list_ascii_of_string s)))).

End strings.

Definition version : string := "0.2.5".

(** The lines of a text, each ended by a line feed. *)
Fixpoint unlines (ls : list string) : string :=
  match ls with
  | [] => EmptyString
  | l :: t => (l ++ newline ++ unlines t)%string
  end.

(** What [usage] writes on the standard error. *)
Definition usage_text : string :=
  unlines
    [ "gorep is find and grep tool.";
      EmptyString;
      ("Version: " ++ version)%string;
      EmptyString;
      "Usage:";
      EmptyString;
      "    gorep [options] pattern [path]";
      EmptyString;
      "The options are:";
      EmptyString;
      "    -V              : print gorep version";
      "    -g              : enable grep";
      "    -grep-only      : enable grep and disable file search";
      "    -search-binary  : search binary files for matches on grep enable";
      "    -ignore pattern : pattern is ignored";
      "    -hidden         : search hidden files";
      "    -ignorecase     : ignore case distinctions in pattern" ]%string.

Definition usage : list action := [ Stderr usage_text; Exit (-1) ].

(** *** Package flag

    [main] defines seven flags and calls [flag.Parse], with the error
    handling of the command line ([flag.ExitOnError]).  The call
    either returns, and then the flags have their values and
    [flag.Args()] are the arguments left after them, or it ends the
    process, with what it writes on the standard error and its status:
    on a flag that is not defined, on a flag without its value, on the
    help flag. *)
Module flag.

Inductive outcome : Type :=
| Parsed (opt : optionSet.t) (args : list string)
| Ended (msg : string) (code : Z).

End flag.

Class FlagLib : Type := {
  Parse : list string -> flag.outcome
}.

Section Start.
Context {RE : RegexpLib} {FL : FlagLib}.

(** [main] from the command line [argv] to the call of [kick]:
    either the process ends here, with what it writes before, or the
    search starts with a [gorep] and a path.  [flag.Arg(i)] is the
    empty string when there is no such argument. *)
Definition start (argv : list string) : list action + gorep * string :=
  match Parse argv with
  | flag.Ended msg code => inl [ Stderr msg; Exit code ]
  | flag.Parsed opt args =>
    if optionSet.v opt then
      inl [ Stdout ("version: " ++ version ++ newline)%string; Exit 0 ]
    else if Z.of_nat (length args) <? 1 then inl usage
    else
      let pattern := nth 0%nat args EmptyString in
      let fpath :=
        if 2 <=? Z.of_nat (length args)
        then strings.TrimRight (nth 1%nat args EmptyString) separator
        else "."%string in
      match newGorep pattern opt with
      | Err e => inl [ Stderr (e ++ newline)%string; Exit (-1) ]
      | Ok g => inr (g, fpath)
      end
  end.

End Start.

(** A name as [ioutil.ReadDir] gives it: not empty, without slash. *)
Definition plain (name : string) : Prop :=
  name <> EmptyString
  /\ Forall (fun c => path.isSlash c = false) (list_ascii_of_string name).

(** ** The records of a run

    What has been sent on a channel and what has been written on the
    standard output, in the order of the run (the trace has the most
    recent event first). *)
Fixpoint sent (c : chan) (tr : list event) : list string :=
  match tr with
  | [] => []
  | e :: tr' =>
    sent c tr' ++ match e with
                  | EvSend c' msg => if chan_eqb c c' then [ msg ] else []
                  | _ => []
                  end
  end.

Fixpoint written (tr : list event) : list string :=
  match tr with
  | [] => []
  | e :: tr' =>
    written tr' ++ match e with
                   | EvStdout msg => [ msg ]
                   | _ => []
                   end
  end.

(** What a script still has to write. *)
Definition outs (k : list action) : list string :=
  flat_map (fun a => match a with
                     | Stdout msg => [ msg ]
                     | _ => []
                     end) k.

(** The event that an action leaves in the trace when a goroutine does
    it on its own. *)
Definition event_of (a : action) : list event :=
  match a with
  | Range c _ => [ EvRangeEnd c ]
  | Close c => [ EvClose c ]
  | Wait w => [ EvWait w ]
  | FOpen p => [ EvOpen p ]
  | FClose p => [ EvFClose p ]
  | Stderr msg => [ EvStderr msg ]
  | Stdout msg => [ EvStdout msg ]
  | Exit code => [ EvExit code ]
  | _ => []
  end.

(** What [mapfork] writes on the standard error when a directory
    cannot be listed. *)
Definition dive_error (e : string) : string :=
  ("dive error: " ++ e ++ newline)%string.

(** The marks of [report]. *)
Definition markMatch (isColor : bool) : string :=
  if isColor
  then (BOLD_DECO ++ HIT_COLOR ++ "$0" ++ NORM_COLOR ++ NORM_DECO)%string
  else "$0"%string.

Definition markOf (isColor : bool) (c : chan) : string :=
  match c with
  | ReduceFile =>
    if isColor then (FILE_COLOR ++ "[File]" ++ NORM_COLOR)%string
    else "[File]"%string
  | ReduceSymlink =>
    if isColor then (SYMLINK_COLOR ++ "[SymL]" ++ NORM_COLOR)%string
    else "[SymL]"%string
  | ReduceLine =>
    if isColor then (GREP_COLOR ++ "[Grep]" ++ NORM_COLOR)%string
    else "[Grep]"%string
  | _ =>
    if isColor then (DIR_COLOR ++ "[Dir ]" ++ NORM_COLOR)%string
    else "[Dir ]"%string
  end.

(** The three streams of entries: the raw stream of the walker, the
    filtered stream, and the scope flag of the consumer. *)
Inductive stream : Type := Dirs | Files | Symlinks.

Definition raw_of (x : stream) : chan :=
  match x with
  | Dirs => MapDir
  | Files => MapFile
  | Symlinks => MapSymlink
  end.

Definition out_of (x : stream) : chan :=
  match x with
  | Dirs => ReduceDir
  | Files => ReduceFile
  | Symlinks => ReduceSymlink
  end.

Section Roles.
Context {RE : RegexpLib}.
Variables (fs : os.FileSystem) (this : gorep).
Variables (fpath : string) (isColor : bool).

(** The line that the reporter of the stream [c] makes of a
    record. *)
Definition line_of (c : chan) (msg : string) : string :=
  (markOf isColor c ++ " "
   ++ ReplaceAllString (pattern this) msg (markMatch isColor)
   ++ newline)%string.

(** The lines of the records sent on the result streams, in the
    order of the sends. *)
Fixpoint reported (tr : list event) : list string :=
  match tr with
  | [] => []
  | e :: tr' =>
    reported tr' ++ match e with
                    | EvSend c msg =>
                      if isReduce c then [ line_of c msg ] else []
                    | _ => []
                    end
  end.

Definition enabled (x : stream) : bool :=
  match x with
  | Dirs => searchScope.dir (scope this)
  | Files => searchScope.file (scope this)
  | Symlinks => searchScope.symlink (scope this)
  end.

(** The records of a raw stream that its consumer passes on. *)
Definition keep (x : stream) (raw : list string) : list string :=
  if enabled x
  then List.filter (fun msg => MatchString (pattern this) (path.Base msg))
                   raw
  else [].

(** The calls that the run makes: [kick] on the path of the search,
    the walkers on the raw streams, the consumers and the reporters
    each on its streams, the reporters with the marks of [report]. *)
Definition known (f : call) : Prop :=
  match f with
  | KickMap p => p = fpath
  | KickReduce | Printer => True
  | Mapfork _ chans => chans = chsMap
  | ReduceDirs in_ out => in_ = MapDir /\ out = ReduceDir
  | ReduceFiles in_ out chLine =>
    in_ = MapFile /\ out = ReduceFile /\ chLine = ReduceLine
  | ReduceSymlinks in_ out => in_ = MapSymlink /\ out = ReduceSymlink
  | Grep _ out => out = ReduceLine
  | Reporter mark accent ch =>
    isReduce ch = true /\ mark = markOf isColor ch
    /\ accent = markMatch isColor
  end.

(** [rest_of script k]: [k] is what is left of [script] after some
    of its actions. *)
Definition rest_of (script k : list action) : Prop :=
  exists done, script = done ++ k.

(** What a goroutine of the run has left to do: the rest of [main],
    the rest of the body of a call, or, in a loop, the rest of the
    body of the loop for the message in hand, the [range] and what
    follows the loop. *)
Inductive role : list action -> Prop :=
| role_main (k : list action) :
    rest_of (main fpath isColor) k -> role k
| role_call (f : call) (k : list action) :
    known f -> rest_of (body fs this f) k -> role k
| role_loop (f : call) (c : chan) (l : loop) (after : list action)
            (msg : string) (hand k : list action) :
    known f -> body fs this f = Range c l :: after ->
    rest_of (loop_body this l msg) hand ->
    k = hand ++ Range c l :: after -> role k.

Definition cast (s : state) : Prop :=
  forall k, In k (tasks s) -> role k.

(** The lines that the scan of a file sends. *)
Definition scanned (p : string) : list string :=
  emitted ReduceLine (grep fs this p ReduceLine).

(** The match lines that an action still has to bring: the line of a
    send, the lines of a scan to start. *)
Definition lines_due (a : action) : list string :=
  match a with
  | Send c msg => if chan_eqb ReduceLine c then [ msg ] else []
  | Go (Grep p out) => emitted ReduceLine (grep fs this p out)
  | _ => []
  end.

(** The records that the expansion of a directory sends on a raw
    stream. *)
Definition listed (x : stream) (p : string) : list string :=
  emitted (raw_of x) (mapfork fs this p chsMap).

(** The records of a raw stream that an action still has to bring:
    the record of a send, the records of an expansion to start. *)
Definition entries_due (x : stream) (a : action) : list string :=
  match a with
  | Send c msg => if chan_eqb (raw_of x) c then [ msg ] else []
  | Go (Mapfork p chans) => emitted (raw_of x) (mapfork fs this p chans)
  | Go (KickMap p) => emitted (raw_of x) (mapfork fs this p chsMap)
  | _ => []
  end.

End Roles.

(** A schedule of the run on the sample tree in which [main] returns
    as soon as it can: the printer has received the last line and has
    not written it, and [kick] has not closed the last of the raw
    streams. *)
Definition hasty : list (nat * nat) :=
  [
    (0,0); (0,0); (0,0); (0,0); (0,0); (0,0); (0,0); (0,0);
    (6,0); (0,0); (0,0); (10,0); (0,2); (1,7); (0,0); (0,0);
    (1,0); (0,0); (0,7); (1,10); (2,0); (5,3); (1,0); (0,0);
    (1,0); (0,0); (0,0); (0,0); (0,0); (2,1); (0,7); (2,0);
    (0,0); (1,0); (0,0); (0,0); (0,0); (0,0); (0,0); (2,1);
    (0,9); (0,0); (0,0); (0,0); (3,0); (0,0); (1,0); (0,0);
    (0,0); (0,0); (3,1); (0,0); (3,0); (0,0); (0,0); (0,0);
    (4,0); (0,0); (6,0); (0,0); (14,0); (0,0); (15,0); (0,0);
    (12,0); (12,0); (12,0); (0,0); (0,0); (0,0); (2,0); (2,0);
    (1,0); (13,0); (10,0); (0,0); (0,0); (0,0); (0,0); (1,0);
    (0,0); (0,0); (0,0); (0,0); (1,0); (0,0); (4,0); (0,0);
    (4,0); (4,0); (0,0); (0,0); (16,0); (0,0)
  ]%nat.

(** Where the schedules of the sample tree lead. *)
Definition hasty_end : state :=
  run_state sample.fs sample.this "." false hasty.

Definition fatal_end : state :=
  run_state sample.fs sample.this "./nope" false sample.fatal.

(* ================================================================== *)
(** * Part II: properties                                               *)
(* ================================================================== *)

Lemma bval_range (b : byte) : 0 <= bval b < 256.
Proof.
  unfold bval. pose proof (Byte.to_N_bounded b). lia.
Qed.

(** ** Bit-level facts used by the decoder *)

Lemma lor_ge_r (x y : Z) : 0 <= x -> y <= Z.lor x y.
Proof.
  intros Hx. pose proof (Z.sub_lor_l_same_r x y) as H.
  assert (0 <= Z.ldiff x y) by (apply Z.ldiff_nonneg; lia).
  rewrite <- Z.ldiff_land in H. lia.
Qed.

Lemma lor_ge_l (x y : Z) : 0 <= y -> x <= Z.lor x y.
Proof. intros. rewrite Z.lor_comm. now apply lor_ge_r. Qed.

Lemma land_low_bits (b : Z) (k : Z) :
  0 <= k -> Z.land b (Z.ones k) = b mod 2 ^ k.
Proof. intros. now rewrite Z.land_ones. Qed.

Lemma land_nonneg_l (a m : Z) : 0 <= m -> 0 <= Z.land a m.
Proof. intros. apply Z.land_nonneg. now right. Qed.

Lemma shiftl_nonneg_of (a n : Z) : 0 <= a -> 0 <= Z.shiftl a n.
Proof. intros. now apply Z.shiftl_nonneg. Qed.

(** ** The decoder never yields a control code from a non-ASCII lead byte *)

Module utf8_facts.
Import utf8.

Lemma first_high (b : Z) :
  128 <= b < 256 ->
  first b = xx
  \/ (first b = s1 /\ 0xC2 <= b < 0xE0)
  \/ (first b = s2 /\ b = 0xE0)
  \/ (first b = s3 /\ 0xE1 <= b < 0xF0)
  \/ (first b = s4 /\ b = 0xED)
  \/ (first b = s5 /\ b = 0xF0)
  \/ (first b = s6 /\ 0xF1 <= b < 0xF4)
  \/ (first b = s7 /\ b = 0xF4).
Proof.
  intros Hb. unfold first.
  destruct (Z.ltb_spec b 0x80); [lia|].
  destruct (Z.ltb_spec b 0xC2); [now left|].
  destruct (Z.ltb_spec b 0xE0); [right; left; split; [reflexivity|lia]|].
  destruct (Z.eqb_spec b 0xE0);
    [do 2 right; left; split; [reflexivity|lia]|].
  destruct (Z.ltb_spec b 0xED);
    [do 3 right; left; split; [reflexivity|lia]|].
  destruct (Z.eqb_spec b 0xED);
    [do 4 right; left; split; [reflexivity|lia]|].
  destruct (Z.ltb_spec b 0xF0);
    [do 3 right; left; split; [reflexivity|lia]|].
  destruct (Z.eqb_spec b 0xF0);
    [do 5 right; left; split; [reflexivity|lia]|].
  destruct (Z.ltb_spec b 0xF4);
    [do 6 right; left; split; [reflexivity|lia]|].
  destruct (Z.eqb_spec b 0xF4);
    [do 7 right; split; [reflexivity|lia]|].
  now left.
Qed.

End utf8_facts.

(** ** Decoding a rune whose first byte is not ASCII *)

Section Decoder.
Import utf8.

Lemma decoded_ok_error (c : byte) (t : list byte) :
  128 <= bval c -> decoded_ok (c :: t) (RuneError, 1%nat).
Proof.
  intros Hc. unfold decoded_ok, RuneError. cbn [fst snd firstn length].
  repeat split; try lia. repeat constructor. exact Hc.
Qed.

Lemma land_mod (b k : Z) :
  0 <= k -> 0 <= Z.land b (Z.ones k) /\
            b = 2 ^ k * (b / 2 ^ k) + Z.land b (Z.ones k) /\
            Z.land b (Z.ones k) < 2 ^ k.
Proof.
  intros Hk. rewrite land_low_bits by lia.
  assert (0 < 2 ^ k) by (apply Z.pow_pos_nonneg; lia).
  pose proof (Z.div_mod b (2 ^ k)). pose proof (Z.mod_pos_bound b (2 ^ k)).
  lia.
Qed.

Lemma rune2_bound (p0 b1 : Z) :
  194 <= p0 < 224 ->
  9 <= Z.lor (Z.shiftl (Z.land p0 mask2) 6) (Z.land b1 maskx).
Proof.
  intros Hp.
  destruct (land_mod p0 5 ltac:(lia)) as (A1 & A2 & A3).
  destruct (land_mod b1 6 ltac:(lia)) as (B1 & _).
  change (Z.ones 5) with mask2 in *. change (Z.ones 6) with maskx in *.
  change (2 ^ 5) with 32 in *.
  etransitivity; [|apply lor_ge_l; assumption].
  rewrite Z.shiftl_mul_pow2 by lia. change (2 ^ 6) with 64. lia.
Qed.

Lemma rune3_bound (p0 b1 b2 : Z) :
  225 <= p0 < 240 \/ (p0 = 224 /\ 160 <= b1 <= 191) ->
  9 <= Z.lor (Z.lor (Z.shiftl (Z.land p0 mask3) 12)
                    (Z.shiftl (Z.land b1 maskx) 6))
             (Z.land b2 maskx).
Proof.
  intros Hp.
  destruct (land_mod p0 4 ltac:(lia)) as (A1 & A2 & A3).
  destruct (land_mod b1 6 ltac:(lia)) as (B1 & B2 & B3).
  destruct (land_mod b2 6 ltac:(lia)) as (C1 & _).
  change (Z.ones 4) with mask3 in *. change (Z.ones 6) with maskx in *.
  change (2 ^ 4) with 16 in *. change (2 ^ 6) with 64 in *.
  assert (S1 : Z.shiftl (Z.land p0 mask3) 12 = Z.land p0 mask3 * 4096)
    by (now rewrite Z.shiftl_mul_pow2 by lia).
  assert (S2 : Z.shiftl (Z.land b1 maskx) 6 = Z.land b1 maskx * 64)
    by (now rewrite Z.shiftl_mul_pow2 by lia).
  etransitivity; [|apply lor_ge_l; assumption].
  destruct Hp as [Hp|[Hp Hb]].
  - etransitivity; [|apply lor_ge_l; lia]. lia.
  - etransitivity; [|apply lor_ge_r; lia]. lia.
Qed.

Lemma rune4_bound (p0 b1 b2 b3 : Z) :
  241 <= p0 < 245 \/ (p0 = 240 /\ 144 <= b1 <= 191) ->
  9 <= Z.lor (Z.lor (Z.lor (Z.shiftl (Z.land p0 mask4) 18)
                           (Z.shiftl (Z.land b1 maskx) 12))
                    (Z.shiftl (Z.land b2 maskx) 6))
             (Z.land b3 maskx).
Proof.
  intros Hp.
  destruct (land_mod p0 3 ltac:(lia)) as (A1 & A2 & A3).
  destruct (land_mod b1 6 ltac:(lia)) as (B1 & B2 & B3).
  destruct (land_mod b2 6 ltac:(lia)) as (C1 & _).
  destruct (land_mod b3 6 ltac:(lia)) as (D1 & _).
  change (Z.ones 3) with mask4 in *. change (Z.ones 6) with maskx in *.
  change (2 ^ 3) with 8 in *. change (2 ^ 6) with 64 in *.
  assert (S1 : Z.shiftl (Z.land p0 mask4) 18 = Z.land p0 mask4 * 262144)
    by (now rewrite Z.shiftl_mul_pow2 by lia).
  assert (S2 : Z.shiftl (Z.land b1 maskx) 12 = Z.land b1 maskx * 4096)
    by (now rewrite Z.shiftl_mul_pow2 by lia).
  assert (S3 : 0 <= Z.shiftl (Z.land b2 maskx) 6)
    by (apply Z.shiftl_nonneg; lia).
  etransitivity; [|apply lor_ge_l; assumption].
  etransitivity; [|apply lor_ge_l; assumption].
  destruct Hp as [Hp|[Hp Hb]].
  - etransitivity; [|apply lor_ge_l; lia]. lia.
  - etransitivity; [|apply lor_ge_r; lia]. lia.
Qed.

Ltac range_test c H :=
  match goal with
  | |- context [(bval c <? ?lo) || (?hi <? bval c)] =>
    destruct ((bval c <? lo) || (hi <? bval c)) eqn:H;
    [ now apply decoded_ok_error
    | apply orb_false_iff in H; destruct H as [?H ?H];
      unfold locb, hicb in *; cbv iota ]
  end.

Ltac short_slice :=
  match goal with
  | |- context [Z.of_nat (length ?l) <? ?n] =>
    destruct (Z.of_nat (length l) <? n);
    [ now apply decoded_ok_error | cbv iota ]
  end.

Ltac next_byte t c t' :=
  destruct t as [|c t']; [ now apply decoded_ok_error | ].

Ltac finish_decode :=
  unfold decoded_ok; cbn [fst snd firstn length];
  split; [ | split; [ lia | repeat constructor; lia ] ].

Lemma DecodeRune_high (c : byte) (t : list byte) :
  128 <= bval c -> decoded_ok (c :: t) (DecodeRune (c :: t)).
Proof.
  intros Hc. pose proof (bval_range c) as Rc.
  unfold DecodeRune.
  destruct (utf8_facts.first_high (bval c) ltac:(lia))
    as [F|[[F R]|[[F R]|[[F R]|[[F R]|[[F R]|[[F R]|[F R]]]]]]]];
    rewrite F.
  - (* invalid lead byte *)
    change (xx >=? as_) with true. cbv iota. change (xx =? xx) with true. cbv iota.
    now apply decoded_ok_error.
  - change (s1 >=? as_) with false. cbv iota.
    change (Z.land s1 7) with 2. change (Z.shiftr s1 4) with 0.
    change (acceptRanges 0) with (locb, hicb). cbv beta iota zeta.
    short_slice. next_byte t c1 t1. range_test c1 Ka.
    change (2 <=? 2) with true. cbv iota.
    finish_decode. now apply rune2_bound.
  - change (s2 >=? as_) with false. cbv iota.
    change (Z.land s2 7) with 3. change (Z.shiftr s2 4) with 1.
    change (acceptRanges 1) with (0xA0, hicb). cbv beta iota zeta.
    short_slice. next_byte t c1 t1. range_test c1 Ka.
    change (3 <=? 2) with false. cbv iota.
    next_byte t1 c2 t2. range_test c2 Kb.
    change (3 <=? 3) with true. cbv iota.
    finish_decode. apply rune3_bound. lia.
  - change (s3 >=? as_) with false. cbv iota.
    change (Z.land s3 7) with 3. change (Z.shiftr s3 4) with 0.
    change (acceptRanges 0) with (locb, hicb). cbv beta iota zeta.
    short_slice. next_byte t c1 t1. range_test c1 Ka.
    change (3 <=? 2) with false. cbv iota.
    next_byte t1 c2 t2. range_test c2 Kb.
    change (3 <=? 3) with true. cbv iota.
    finish_decode. apply rune3_bound. lia.
  - change (s4 >=? as_) with false. cbv iota.
    change (Z.land s4 7) with 3. change (Z.shiftr s4 4) with 2.
    change (acceptRanges 2) with (locb, 0x9F). cbv beta iota zeta.
    short_slice. next_byte t c1 t1. range_test c1 Ka.
    change (3 <=? 2) with false. cbv iota.
    next_byte t1 c2 t2. range_test c2 Kb.
    change (3 <=? 3) with true. cbv iota.
    finish_decode. apply rune3_bound. lia.
  - change (s5 >=? as_) with false. cbv iota.
    change (Z.land s5 7) with 4. change (Z.shiftr s5 4) with 3.
    change (acceptRanges 3) with (0x90, hicb). cbv beta iota zeta.
    short_slice. next_byte t c1 t1. range_test c1 Ka.
    change (4 <=? 2) with false. cbv iota.
    next_byte t1 c2 t2. range_test c2 Kb.
    change (4 <=? 3) with false. cbv iota.
    next_byte t2 c3 t3. range_test c3 Kc.
    finish_decode. apply rune4_bound. lia.
  - change (s6 >=? as_) with false. cbv iota.
    change (Z.land s6 7) with 4. change (Z.shiftr s6 4) with 0.
    change (acceptRanges 0) with (locb, hicb). cbv beta iota zeta.
    short_slice. next_byte t c1 t1. range_test c1 Ka.
    change (4 <=? 2) with false. cbv iota.
    next_byte t1 c2 t2. range_test c2 Kb.
    change (4 <=? 3) with false. cbv iota.
    next_byte t2 c3 t3. range_test c3 Kc.
    finish_decode. apply rune4_bound. lia.
  - change (s7 >=? as_) with false. cbv iota.
    change (Z.land s7 7) with 4. change (Z.shiftr s7 4) with 4.
    change (acceptRanges 4) with (locb, 0x8F). cbv beta iota zeta.
    short_slice. next_byte t c1 t1. range_test c1 Ka.
    change (4 <=? 2) with false. cbv iota.
    next_byte t1 c2 t2. range_test c2 Kb.
    change (4 <=? 3) with false. cbv iota.
    next_byte t2 c3 t3. range_test c3 Kc.
    finish_decode. apply rune4_bound. lia.
Qed.

End Decoder.

(** ** The binary classifier looks at control codes in the first 256 bytes *)

Lemma no_control_high (l : list byte) :
  Forall (fun b => 128 <= bval b) l -> existsb is_control l = false.
Proof.
  induction 1 as [|b l Hb _ IH]; cbn; [reflexivity|].
  rewrite IH, orb_false_r. unfold is_control. lia.
Qed.

Lemma indexFunc_loop_spec (fuel : nat) :
  forall (rest : list byte) (start : Z),
    (length rest <= fuel)%nat -> 0 <= start ->
    let i := bytes.indexFunc_loop fuel (fun r => r <? 0x09) rest start in
    (existsb is_control rest = false /\ i = -1)
    \/ (existsb is_control rest = true /\ start <= i).
Proof.
  induction fuel as [|fuel IH]; intros rest start Hlen Hstart.
  - destruct rest; [|cbn in Hlen; lia]. left. now split.
  - destruct rest as [|c t]; [left; now split|].
    cbn [bytes.indexFunc_loop].
    destruct (Z.geb_spec (bval c) utf8.RuneSelf) as [Hhi|Hlo].
    + pose proof (DecodeRune_high c t) as D.
      destruct (utf8.DecodeRune (c :: t)) as [r wid].
      destruct (D ltac:(unfold utf8.RuneSelf in Hhi; lia)) as (Dr & Dw & Db).
      cbn [fst snd] in Dr, Dw, Db.
      destruct (Z.ltb_spec r 9) as [?|_]; [lia|].
      rewrite <- (firstn_skipn wid (c :: t)) at 1 3.
      rewrite existsb_app, (no_control_high _ Db), orb_false_l.
      specialize (IH (skipn wid (c :: t)) (start + Z.of_nat wid)).
      cbv zeta in IH.
      destruct IH as [[E I]|[E I]].
      * rewrite length_skipn. cbn [length] in *. lia.
      * lia.
      * left. now split.
      * right. split; [assumption|lia].
    + cbn [existsb]. unfold is_control at 1 3.
      destruct (Z.ltb_spec (bval c) 9) as [Hc|Hc].
      * right. split; [reflexivity|lia].
      * cbn [skipn orb].
        specialize (IH t (start + Z.of_nat 1)). cbv zeta in IH.
        destruct IH as [[E I]|[E I]].
        -- cbn [length] in Hlen. lia.
        -- lia.
        -- left. now split.
        -- right. split; [assumption|lia].
Qed.

Lemma verifyBinary_existsb (buf : list byte) :
  verifyBinary buf = existsb is_control (firstn 256 buf).
Proof.
  unfold verifyBinary.
  assert (P : (if 256 <? Z.of_nat (length buf) then firstn 256 buf else buf)
              = firstn 256 buf).
  { destruct (Z.ltb_spec 256 (Z.of_nat (length buf))); [reflexivity|].
    symmetry. apply firstn_all2. lia. }
  rewrite P. unfold bytes.IndexFunc.
  destruct (indexFunc_loop_spec (length (firstn 256 buf)) (firstn 256 buf) 0
              (le_n _) ltac:(lia)) as [[E I]|[E I]]; rewrite E.
  - rewrite I. reflexivity.
  - destruct (Z.eqb_spec (bytes.indexFunc_loop (length (firstn 256 buf))
                 (fun r => r <? 9) (firstn 256 buf) 0) (-1)); [lia|reflexivity].
Qed.

Lemma control_in_prefix (buf : list byte) :
  existsb is_control (firstn 256 buf) = true <->
  exists (i : nat) (b : byte),
    (i < 256)%nat /\ nth_error buf i = Some b /\ bval b < 0x09.
Proof.
  rewrite existsb_exists. split.
  - intros (b & Hin & Hb). apply In_nth_error in Hin. destruct Hin as [i Hi].
    rewrite nth_error_firstn in Hi.
    destruct (Nat.ltb_spec i 256); [|discriminate].
    exists i, b. unfold is_control in Hb. repeat split; try assumption; lia.
  - intros (i & b & Hi & Hn & Hb). exists b. split.
    + apply nth_error_In with (n := i). rewrite nth_error_firstn.
      destruct (Nat.ltb_spec i 256); [assumption|lia].
    + unfold is_control. lia.
Qed.

(** C9.  [verifyBinary] answers true exactly when one of the first 256
    bytes of the buffer, or one of its bytes when it has fewer, is
    below 0x09; and what it answers on a buffer is what it answers on
    the first 256 bytes of it, so the bytes after them play no part. *)
Theorem verifyBinary_prefix_control (buf : list byte) :
  (verifyBinary buf = true <->
   exists (i : nat) (b : byte),
     (i < 256)%nat /\ nth_error buf i = Some b /\ bval b < 0x09)
  /\ verifyBinary buf = verifyBinary (firstn 256 buf).
Proof.
  split.
  - rewrite verifyBinary_existsb. apply control_in_prefix.
  - rewrite !verifyBinary_existsb, firstn_firstn. reflexivity.
Qed.

(** ** Line splitting *)

Lemma IndexByte_nonneg (m : list byte) (c : Z) :
  bytes.IndexByte m c = -1 \/ 0 <= bytes.IndexByte m c < Z.of_nat (length m).
Proof.
  induction m as [|b t IH]; cbn [bytes.IndexByte length]; [now left|].
  destruct (Z.eqb_spec (bval b) c); [right; lia|].
  destruct (Z.eqb_spec (bytes.IndexByte t c) (-1)); [now left|right; lia].
Qed.

Lemma IndexByte_none (m : list byte) (c : Z) :
  bytes.IndexByte m c = -1 -> Forall (fun b => bval b <> c) m.
Proof.
  induction m as [|b t IH]; cbn; intros H; [constructor|].
  destruct (Z.eqb_spec (bval b) c); [discriminate|].
  destruct (Z.eqb_spec (bytes.IndexByte t c) (-1)) as [E|E].
  - constructor; auto.
  - exfalso. destruct (IndexByte_nonneg t c); lia.
Qed.

Lemma lines_no_lf (m : list byte) :
  Forall (fun b => bval b <> LF) m -> m <> [] -> lines m = [m].
Proof.
  induction m as [|b t IH]; intros H Hne; [congruence|].
  inversion H as [|? ? Hb Ht]; subst. cbn [lines].
  destruct (Z.eqb_spec (bval b) LF); [contradiction|].
  destruct t as [|b' t']; [reflexivity|].
  rewrite IH; [reflexivity|assumption|discriminate].
Qed.

(** One iteration of the loop of [grep] takes the first line off. *)
Lemma lines_found (m : list byte) :
  bytes.IndexByte m LF <> -1 ->
  lines m = firstn (Z.to_nat (bytes.IndexByte m LF)) m
            :: lines (skipn (Z.to_nat (bytes.IndexByte m LF) + 1) m).
Proof.
  induction m as [|b t IH]; cbn [bytes.IndexByte lines]; [congruence|].
  destruct (Z.eqb_spec (bval b) LF) as [E|E]; [reflexivity|].
  destruct (Z.eqb_spec (bytes.IndexByte t LF) (-1)) as [N|N]; [congruence|].
  intros _. rewrite (IH N).
  destruct (IndexByte_nonneg t LF) as [?|R]; [contradiction|].
  replace (Z.to_nat (bytes.IndexByte t LF + 1))
    with (S (Z.to_nat (bytes.IndexByte t LF))) by lia.
  reflexivity.
Qed.

Lemma length_firstn_index (m : list byte) :
  bytes.IndexByte m LF <> -1 ->
  length (firstn (Z.to_nat (bytes.IndexByte m LF)) m)
  = Z.to_nat (bytes.IndexByte m LF).
Proof.
  intros N. destruct (IndexByte_nonneg m LF) as [?|R]; [contradiction|].
  rewrite length_firstn. lia.
Qed.

(** Every line is free of line feeds, and the lines, each followed by a
    line feed, give the content back (with a line feed added when the
    content does not end with one). *)
Lemma lines_free (m : list byte) :
  Forall (Forall (fun b => bval b <> LF)) (lines m).
Proof.
  induction m as [|b t IH]; cbn [lines]; [constructor|].
  destruct (Z.eqb_spec (bval b) LF).
  - constructor; [constructor|assumption].
  - destruct (lines t) as [|l ls]; [repeat constructor; assumption|].
    inversion IH; subst. constructor; [constructor|]; assumption.
Qed.

Lemma bval_LF (b : byte) : bval b = LF -> b = byteLF.
Proof.
  unfold bval, LF, byteLF. intros H.
  assert (E : Byte.to_N b = 10%N) by lia.
  pose proof (Byte.of_to_N b) as R. rewrite E in R.
  cbv in R. now injection R.
Qed.

Lemma lines_nil (m : list byte) : lines m = [] -> m = [].
Proof.
  destruct m as [|b t]; [reflexivity|]. cbn [lines].
  destruct (bval b =? LF); [discriminate|].
  destruct (lines t); discriminate.
Qed.

Lemma lines_join (m : list byte) :
  flat_map (fun l => l ++ [byteLF]) (lines m)
  = if endsOpen m then m ++ [byteLF] else m.
Proof.
  induction m as [|b t IH]; [reflexivity|].
  cbn [lines]. destruct (Z.eqb_spec (bval b) LF) as [E|E].
  - apply bval_LF in E. subst b. cbn [flat_map app]. rewrite IH.
    destruct t as [|b' t']; [reflexivity|].
    change (endsOpen (byteLF :: b' :: t')) with (endsOpen (b' :: t')).
    destruct (endsOpen (b' :: t')); reflexivity.
  - destruct t as [|b' t'].
    + cbn. destruct (Z.eqb_spec (bval b) LF); [contradiction|reflexivity].
    + change (endsOpen (b :: b' :: t')) with (endsOpen (b' :: t')).
      destruct (lines (b' :: t')) as [|l ls] eqn:L.
      * apply lines_nil in L. discriminate.
      * cbn [flat_map] in *. rewrite <- app_assoc, <- app_comm_cons.
        rewrite app_assoc, IH.
        destruct (endsOpen (b' :: t')); reflexivity.
Qed.

(** ** The scanning loop *)

Lemma cut_lines (m : list byte) :
  m <> [] ->
  lines m = fst (cut m) :: lines (snd (cut m))
  /\ (length (snd (cut m)) < length m)%nat.
Proof.
  intros Hne. unfold cut, bytes.IndexRune. cbn [fst snd].
  change 10 with LF.
  destruct (Z.eqb_spec (bytes.IndexByte m LF) (-1)) as [E|E]; cbn [negb].
  - rewrite skipn_all. split.
    + apply lines_no_lf; [now apply IndexByte_none|assumption].
    + destruct m; [congruence|cbn; lia].
  - rewrite (length_firstn_index m E). split.
    + now apply lines_found.
    + destruct (IndexByte_nonneg m LF) as [?|R]; [contradiction|].
      rewrite length_skipn. lia.
Qed.

Section Loop.
Context {RE : RegexpLib}.
Variables (this : gorep) (fpath : string) (out : chan).

Lemma grep_loop_unfold (isBinary : bool) (fuel : nat) (m : list byte)
      (n : Z) :
  m <> [] ->
  grep_loop this fpath out isBinary (S fuel) m n =
  if matchesPattern this (fst (cut m)) then
    if isBinary then [ Send out (binaryMarker fpath) ]
    else if ignoredLine this (fst (cut m)) then
      grep_loop this fpath out isBinary fuel (snd (cut m)) (n + 1)
    else Send out (matchLine fpath (n + 1) (fst (cut m)))
         :: grep_loop this fpath out isBinary fuel (snd (cut m)) (n + 1)
  else grep_loop this fpath out isBinary fuel (snd (cut m)) (n + 1).
Proof.
  intros Hne. cbn [grep_loop].
  destruct (Z.ltb_spec 0 (Z.of_nat (length m))) as [_|H].
  - reflexivity.
  - destruct m; [congruence|cbn in H; lia].
Qed.

Lemma grep_loop_nil (isBinary : bool) (fuel : nat) (n : Z) :
  grep_loop this fpath out isBinary fuel [] n = [].
Proof. destruct fuel; reflexivity. Qed.

(** On a text, the loop sends the record of every line that matches
    the pattern and is not ignored, in order. *)
Lemma grep_loop_text (fuel : nat) :
  forall (m : list byte) (n : Z),
    (length m <= fuel)%nat ->
    grep_loop this fpath out false fuel m n
    = textRecords this fpath out n (lines m).
Proof.
  induction fuel as [|fuel IH]; intros m n Hlen.
  - destruct m; [reflexivity|cbn in Hlen; lia].
  - destruct m as [|b t]; [reflexivity|].
    rewrite grep_loop_unfold by discriminate.
    destruct (cut_lines (b :: t) ltac:(discriminate)) as [L S].
    rewrite L. unfold textRecords. cbn [numbered List.filter snd].
    rewrite !IH by lia. unfold textRecords.
    destruct (matchesPattern this (fst (cut (b :: t)))); [|reflexivity].
    destruct (ignoredLine this (fst (cut (b :: t)))); reflexivity.
Qed.

(** On a binary content, the loop stops at the first line that
    matches the pattern and sends the marker. *)
Lemma grep_loop_binary (fuel : nat) :
  forall (m : list byte) (n : Z),
    (length m <= fuel)%nat ->
    grep_loop this fpath out true fuel m n
    = if existsb (matchesPattern this) (lines m)
      then [ Send out (binaryMarker fpath) ] else [].
Proof.
  induction fuel as [|fuel IH]; intros m n Hlen.
  - destruct m; [reflexivity|cbn in Hlen; lia].
  - destruct m as [|b t]; [reflexivity|].
    rewrite grep_loop_unfold by discriminate.
    destruct (cut_lines (b :: t) ltac:(discriminate)) as [L S].
    rewrite L. cbn [existsb].
    destruct (matchesPattern this (fst (cut (b :: t)))); [reflexivity|].
    rewrite IH by lia. reflexivity.
Qed.

(** The line counter stays within the length of the content, so it
    never leaves the range of [int]. *)
Lemma numbered_bound {A : Type} (ls : list A) (n : Z) :
  Forall (fun nl => n < fst nl <= n + Z.of_nat (length ls)) (numbered n ls).
Proof.
  revert n. induction ls as [|l t IH]; intros n; cbn [numbered length];
    constructor.
  - cbn. lia.
  - eapply Forall_impl; [|apply IH]. cbn. intros; lia.
Qed.

Lemma lines_count (m : list byte) : (length (lines m) <= length m)%nat.
Proof.
  induction m as [|b t IH]; cbn [lines length]; [lia|].
  destruct (bval b =? LF); cbn [length]; [lia|].
  destruct (lines t); cbn [length] in *; lia.
Qed.

End Loop.

(** ** The scan of one file *)

Section Scan.
Context {RE : RegexpLib}.
Variables (fs : os.FileSystem) (this : gorep) (fpath : string) (out : chan).

Lemma grep_scan_text (mem : list byte) :
  verifyBinary mem = false ->
  grep_scan this fpath out mem = textRecords this fpath out 0 (lines mem).
Proof.
  intros B. unfold grep_scan. rewrite B. cbn [andb].
  now apply grep_loop_text.
Qed.

Lemma grep_scan_binary (mem : list byte) :
  verifyBinary mem = true ->
  grep_scan this fpath out mem
  = if searchScope.binary (scope this)
    then if existsb (matchesPattern this) (lines mem)
         then [ Send out (binaryMarker fpath) ] else []
    else [].
Proof.
  intros B. unfold grep_scan. rewrite B. cbn [andb].
  destruct (searchScope.binary (scope this)); cbn [negb]; [|reflexivity].
  now apply grep_loop_binary.
Qed.

(** [grep] on a file whose content can be read. *)
Lemma grep_mapped (u : unit) (size : Z) (mem : list byte) :
  os.Open fs fpath = Ok u ->
  os.Stat fs fpath = Ok size ->
  os.Mmap fs fpath size = Ok mem ->
  grep fs this fpath out
  = Acquire :: FOpen fpath :: grep_scan this fpath out mem
    ++ [ FClose fpath; Release; Done waitGreps ].
Proof.
  intros O S M. unfold grep. rewrite O, S, M.
  cbn [app]. rewrite <- app_assoc. reflexivity.
Qed.

Lemma textRecords_none (n : Z) (ls : list (list byte)) :
  Forall (fun l => matchesPattern this l = false) ls ->
  textRecords this fpath out n ls = [].
Proof.
  unfold textRecords. revert n.
  induction ls as [|l t IH]; intros n H; [reflexivity|].
  inversion H as [|? ? Hl Ht]; subst.
  cbn [numbered List.filter snd]. rewrite Hl. cbn [andb].
  now apply IH.
Qed.

Lemma textRecords_cons (n : Z) (l : list byte) (ls : list (list byte)) :
  textRecords this fpath out n (l :: ls)
  = (if matchesPattern this l && negb (ignoredLine this l)
     then [ Send out (matchLine fpath (n + 1) l) ] else [])
    ++ textRecords this fpath out (n + 1) ls.
Proof.
  unfold textRecords. cbn [numbered List.filter snd].
  destruct (matchesPattern this l && negb (ignoredLine this l));
    reflexivity.
Qed.

Lemma textRecords_in (n : Z) (ls : list (list byte)) (msg : string) :
  In (Send out msg) (textRecords this fpath out n ls) <->
  exists (i : nat) (l : list byte),
    nth_error ls i = Some l
    /\ matchesPattern this l = true
    /\ ignoredLine this l = false
    /\ msg = matchLine fpath (n + 1 + Z.of_nat i) l.
Proof.
  revert n. induction ls as [|l t IH]; intros n.
  - split; [intros []|]. intros (i & l & H & _). destruct i; discriminate.
  - rewrite textRecords_cons, in_app_iff, IH. split.
    + intros [H|(i & l' & H1 & H2 & H3 & H4)].
      * destruct (matchesPattern this l) eqn:P; [|destruct H].
        destruct (ignoredLine this l) eqn:I; [destruct H|].
        cbn in H. destruct H as [H|[]]. injection H as <-.
        exists 0%nat, l. repeat split; try assumption.
        f_equal. lia.
      * exists (S i), l'. repeat split; try assumption.
        subst msg. f_equal. lia.
    + intros (i & l' & H1 & H2 & H3 & H4). destruct i as [|i].
      * left. cbn in H1. injection H1 as <-. rewrite H2, H3. cbn.
        left. subst msg. do 2 f_equal. lia.
      * right. exists i, l'. repeat split; try assumption.
        subst msg. f_equal. lia.
Qed.

End Scan.

(** C3.  The scan of a file classified binary.  When binary search is
    disabled, [grep] sends nothing: it opens the file, closes it, gives
    the permit back and is done.  When binary search is enabled and at
    least one line matches the search pattern, [grep] sends exactly one
    record, the marker "Binary file <path> matches", and nothing after
    it. *)
Theorem binary_file_scan {RE : RegexpLib} (fs : os.FileSystem) (this : gorep)
        (fpath : string) (out : chan) (u : unit) (size : Z)
        (mem : list byte) :
  os.Open fs fpath = Ok u ->
  os.Stat fs fpath = Ok size ->
  os.Mmap fs fpath size = Ok mem ->
  verifyBinary mem = true ->
  (searchScope.binary (scope this) = false ->
   grep fs this fpath out
   = [ Acquire; FOpen fpath; FClose fpath; Release; Done waitGreps ]
   /\ emitted out (grep fs this fpath out) = [])
  /\ (searchScope.binary (scope this) = true ->
      (exists l, In l (lines mem) /\ matchesPattern this l = true) ->
      grep fs this fpath out
      = [ Acquire; FOpen fpath; Send out (binaryMarker fpath);
          FClose fpath; Release; Done waitGreps ]
      /\ emitted out (grep fs this fpath out) = [ binaryMarker fpath ]).
Proof.
  intros O S M B.
  rewrite (grep_mapped fs this fpath out u size mem O S M).
  rewrite (grep_scan_binary this fpath out mem B).
  split.
  - intros E. rewrite E. split; reflexivity.
  - intros E (l & Hin & Hl). rewrite E.
    assert (X : existsb (matchesPattern this) (lines mem) = true)
      by (apply existsb_exists; eauto).
    rewrite X. split; [reflexivity|].
    cbn. destruct out; reflexivity.
Qed.

(** C8.  A file that cannot be opened, examined or mapped: [grep]
    writes the error on the standard error, sends no record, does not
    end the process, and finishes as every scan does, giving the permit
    back and calling [waitGreps.Done()]. *)
Theorem unreadable_file_scan {RE : RegexpLib} (fs : os.FileSystem)
        (this : gorep) (fpath : string) (out : chan) :
  (forall e, os.Open fs fpath = Err e ->
     grep fs this fpath out
     = [ Acquire; Stderr ("grep open error: " ++ e ++ newline);
         Release; Done waitGreps ])
  /\ (forall u e, os.Open fs fpath = Ok u -> os.Stat fs fpath = Err e ->
        grep fs this fpath out
        = [ Acquire; FOpen fpath;
            Stderr ("grep stat error: " ++ e ++ newline);
            FClose fpath; Release; Done waitGreps ])
  /\ (forall u size e,
        os.Open fs fpath = Ok u -> os.Stat fs fpath = Ok size ->
        os.Mmap fs fpath size = Err e ->
        grep fs this fpath out
        = [ Acquire; FOpen fpath;
            Stderr ("grep mmap error: " ++ e ++ newline);
            FClose fpath; Release; Done waitGreps ])
  /\ ((forall u size mem,
         os.Open fs fpath = Ok u -> os.Stat fs fpath = Ok size ->
         os.Mmap fs fpath size = Ok mem -> False) ->
      emitted out (grep fs this fpath out) = []
      /\ (forall code, ~ In (Exit code) (grep fs this fpath out))
      /\ (exists msg, In (Stderr msg) (grep fs this fpath out))).
Proof.
  unfold grep. repeat split.
  - intros e O. rewrite O. reflexivity.
  - intros u e O S. rewrite O, S. reflexivity.
  - intros u size e O S M. rewrite O, S, M. reflexivity.
  - destruct (os.Open fs fpath) as [u|e]; [|reflexivity].
    destruct (os.Stat fs fpath) as [size|e]; [|reflexivity].
    destruct (os.Mmap fs fpath size) as [mem|e] eqn:M; [|reflexivity].
    exfalso. eapply H; eauto.
  - intros code. revert H.
    destruct (os.Open fs fpath) as [u|e]; [|cbn; intuition discriminate].
    destruct (os.Stat fs fpath) as [size|e]; [|cbn; intuition discriminate].
    destruct (os.Mmap fs fpath size) as [mem|e] eqn:M;
      [|cbn; intuition discriminate].
    intros H. exfalso. eapply H; eauto.
  - revert H.
    destruct (os.Open fs fpath) as [u|e]; [|cbn; eauto].
    destruct (os.Stat fs fpath) as [size|e]; [|cbn; eauto].
    destruct (os.Mmap fs fpath size) as [mem|e] eqn:M; [|cbn; eauto].
    intros H. exfalso. eapply H; eauto.
Qed.

(** C4.  The scan of a text.  The lines are the pieces between line
    feeds, a last piece without line feed included; they are numbered
    from 1 in file order, and [grep] sends, in that order, the record
    "<path>:<number>: <line>" of every line that matches the pattern
    and is not ignored.  So when the lines that match are exactly those
    at positions 2, 5 and 9, and none of the three is ignored, exactly
    three records are sent, for 2, 5 and 9 in this order, each with the
    text of its line. *)
Theorem text_file_scan {RE : RegexpLib} (this : gorep) (fpath : string)
        (out : chan) (mem : list byte) :
  verifyBinary mem = false ->
  grep_scan this fpath out mem = textRecords this fpath out 0 (lines mem)
  /\ Forall (Forall (fun b => bval b <> LF)) (lines mem)
  /\ flat_map (fun l => l ++ [byteLF]) (lines mem)
     = (if endsOpen mem then mem ++ [byteLF] else mem)
  /\ (forall l2 l5 l9 : list byte,
        lineAt mem 2 = Some l2 ->
        lineAt mem 5 = Some l5 ->
        lineAt mem 9 = Some l9 ->
        (forall (p : nat) (l : list byte),
            lineAt mem p = Some l ->
            (matchesPattern this l = true <-> p = 2 \/ p = 5 \/ p = 9)%nat) ->
        ignoredLine this l2 = false ->
        ignoredLine this l5 = false ->
        ignoredLine this l9 = false ->
        grep_scan this fpath out mem
        = [ Send out (matchLine fpath 2 l2);
            Send out (matchLine fpath 5 l5);
            Send out (matchLine fpath 9 l9) ]).
Proof.
  intros B. pose proof (grep_scan_text this fpath out mem B) as G.
  split; [exact G|]. split; [apply lines_free|]. split; [apply lines_join|].
  intros l2 l5 l9 H2 H5 H9 Hm I2 I5 I9. rewrite G. clear G B.
  unfold lineAt in H2, H5, H9.
  assert (M : forall i l, nth_error (lines mem) i = Some l ->
              matchesPattern this l = true ->
              (i = 1 \/ i = 4 \/ i = 8)%nat).
  { intros i l Hi Hl. apply (Hm (S i) l Hi) in Hl. lia. }
  assert (P2 : matchesPattern this l2 = true)
    by (apply (Hm 2%nat l2 H2); auto).
  assert (P5 : matchesPattern this l5 = true)
    by (apply (Hm 5%nat l5 H5); auto).
  assert (P9 : matchesPattern this l9 = true)
    by (apply (Hm 9%nat l9 H9); auto).
  clear Hm.
  destruct (lines mem) as [|a1 [|a2 [|a3 [|a4 [|a5 [|a6 [|a7 [|a8 [|a9 r]]]]]]]]];
    try discriminate.
  cbn in H2, H5, H9.
  injection H2 as ->. injection H5 as ->. injection H9 as ->.
  assert (N : forall i l,
             nth_error [a1; l2; a3; a4; l5; a6; a7; a8; l9] i = Some l ->
             (i <> 1 /\ i <> 4 /\ i <> 8)%nat ->
             matchesPattern this l = false).
  { intros i l Hi Hne.
    destruct (matchesPattern this l) eqn:E; [|reflexivity].
    exfalso.
    assert (Hi' : nth_error (a1 :: l2 :: a3 :: a4 :: l5 :: a6 :: a7 :: a8
                                :: l9 :: r) i = Some l).
    { change (a1 :: l2 :: a3 :: a4 :: l5 :: a6 :: a7 :: a8 :: l9 :: r)
        with ([a1; l2; a3; a4; l5; a6; a7; a8; l9] ++ r).
      rewrite nth_error_app1; [assumption|].
      apply nth_error_Some. congruence. }
    specialize (M i l Hi' E). lia. }
  assert (R : Forall (fun l => matchesPattern this l = false) r).
  { apply Forall_forall. intros l Hin.
    destruct (In_nth_error _ _ Hin) as [i Hi].
    destruct (matchesPattern this l) eqn:E; [|reflexivity].
    exfalso.
    assert (Hi' : nth_error (a1 :: l2 :: a3 :: a4 :: l5 :: a6 :: a7 :: a8
                                :: l9 :: r) (9 + i) = Some l) by exact Hi.
    specialize (M _ _ Hi' E). lia. }
  rewrite !textRecords_cons.
  rewrite (N 0%nat a1 eq_refl ltac:(lia)), (N 2%nat a3 eq_refl ltac:(lia)),
          (N 3%nat a4 eq_refl ltac:(lia)), (N 5%nat a6 eq_refl ltac:(lia)),
          (N 6%nat a7 eq_refl ltac:(lia)), (N 7%nat a8 eq_refl ltac:(lia)).
  rewrite P2, P5, P9, I2, I5, I9.
  rewrite (textRecords_none this fpath out _ r R).
  reflexivity.
Qed.

(** C5, as amended.  In a text, a record is sent for a line only if
    the line matches the search pattern and the ignore pattern is unset
    or does not match the line.  In a binary content, the one record
    that may be sent is the marker, and it is sent only if binary
    search is enabled and some line matches the search pattern: the
    ignore pattern is not consulted. *)
Theorem emission_condition {RE : RegexpLib} (this : gorep) (fpath : string)
        (out : chan) (mem : list byte) (msg : string) :
  In (Send out msg) (grep_scan this fpath out mem) ->
  (verifyBinary mem = false /\
   exists (p : nat) (l : list byte),
     lineAt mem p = Some l
     /\ msg = matchLine fpath (Z.of_nat p) l
     /\ MatchString (pattern this) (string_of_list_byte l) = true
     /\ (ignorePattern this = None
         \/ exists re, ignorePattern this = Some re
                       /\ MatchString re (string_of_list_byte l) = false))
  \/ (verifyBinary mem = true /\
      searchScope.binary (scope this) = true /\
      msg = binaryMarker fpath /\
      grep_scan this fpath out mem = [ Send out (binaryMarker fpath) ] /\
      exists l, In l (lines mem)
                /\ MatchString (pattern this) (string_of_list_byte l) = true).
Proof.
  intros H. destruct (verifyBinary mem) eqn:B.
  - right. rewrite (grep_scan_binary this fpath out mem B) in *.
    destruct (searchScope.binary (scope this)); [|destruct H].
    destruct (existsb (matchesPattern this) (lines mem)) eqn:X; [|destruct H].
    destruct H as [H|[]]. injection H as <-.
    apply existsb_exists in X. destruct X as (l & Hin & Hl).
    repeat split; try reflexivity. exists l. split; assumption.
  - left. split; [reflexivity|].
    rewrite (grep_scan_text this fpath out mem B) in H.
    apply textRecords_in in H. destruct H as (i & l & Hi & Hp & Hg & Hm).
    exists (S i), l. repeat split.
    + exact Hi.
    + rewrite Hm. f_equal. lia.
    + exact Hp.
    + unfold ignoredLine, matchesIgnore in Hg.
      destruct (ignorePattern this) as [re|]; [right|left; reflexivity].
      exists re. split; [reflexivity|assumption].
Qed.

(** ** Base names *)

Lemma untilSlash_nonempty (l : list ascii) :
  (forall c t, l = c :: t -> path.isSlash c = false) ->
  l <> [] -> path.untilSlash l <> [].
Proof.
  destruct l as [|c t]; [congruence|]. intros H _. cbn.
  rewrite (H c t eq_refl). discriminate.
Qed.

Lemma dropSlashes_head (l : list ascii) :
  forall c t, path.dropSlashes l = c :: t -> path.isSlash c = false.
Proof.
  induction l as [|a l IH]; cbn; intros c t H; [discriminate|].
  destruct (path.isSlash a) eqn:E; [now apply (IH c t)|].
  injection H as -> _. exact E.
Qed.

(** [path.Base] never returns the empty string: the index [0] of
    [verifyHidden] is always in range. *)
Lemma Base_nonempty (p : string) : path.Base p <> EmptyString.
Proof.
  unfold path.Base. destruct p as [|a p]; [discriminate|].
  destruct (rev (path.untilSlash
                   (path.dropSlashes
                      (rev (list_ascii_of_string (String a p))))))
    as [|c t] eqn:E; discriminate.
Qed.

Lemma untilSlash_plain (l : list ascii) :
  Forall (fun c => path.isSlash c = false) l -> path.untilSlash l = l.
Proof.
  induction 1 as [|c t Hc _ IH]; cbn; [reflexivity|].
  rewrite Hc, IH. reflexivity.
Qed.

(** The name of a directory entry holds no slash and is not empty; it
    is its own base name. *)
Lemma Base_plain (name : string) :
  name <> EmptyString ->
  Forall (fun c => path.isSlash c = false) (list_ascii_of_string name) ->
  path.Base name = name.
Proof.
  intros Hne Hs. unfold path.Base.
  destruct name as [|a n]; [congruence|].
  set (l := list_ascii_of_string (String a n)) in *.
  assert (R : Forall (fun c => path.isSlash c = false) (rev l))
    by (apply Forall_rev; exact Hs).
  assert (D : path.dropSlashes (rev l) = rev l).
  { destruct (rev l) as [|c t]; [reflexivity|].
    inversion R; subst. cbn. now rewrite H1. }
  rewrite D, (untilSlash_plain _ R), rev_involutive.
  unfold l. cbn [list_ascii_of_string].
  cbn [string_of_list_ascii]. now rewrite string_of_list_ascii_of_string.
Qed.

Section Entries.
Context {RE : RegexpLib}.
Variable this : gorep.

Lemma mapfork_entry_skipped (fpath : string) (chans : channelSet.t)
      (finfo : os.FileInfo) :
  skipped this finfo = true -> mapfork_entry this fpath chans finfo = [].
Proof.
  unfold skipped, mapfork_entry. intros H.
  destruct (negb (searchScope.hidden (scope this))
            && verifyHidden (os.Name finfo)); [reflexivity|].
  cbn in H. now rewrite H.
Qed.

Lemma flat_map_skipped (fpath : string) (chans : channelSet.t)
      (listing : list os.FileInfo) :
  flat_map (mapfork_entry this fpath chans) listing
  = flat_map (mapfork_entry this fpath chans)
             (List.filter (fun finfo => negb (skipped this finfo)) listing).
Proof.
  induction listing as [|f t IH]; [reflexivity|].
  cbn [flat_map List.filter].
  destruct (skipped this f) eqn:S; cbn [negb].
  - rewrite (mapfork_entry_skipped fpath chans f S). exact IH.
  - cbn [flat_map]. now rewrite IH.
Qed.

End Entries.

(** C6.  A child of a listing whose base name starts with '.' while
    hidden entries are not searched, or whose name the ignore pattern
    matches, is passed over: [mapfork] sends it on no channel and
    starts no expansion for it, and the whole listing is handled as if
    the child were not in it. *)
Theorem skipped_child {RE : RegexpLib} (fs : os.FileSystem) (this : gorep)
        (fpath : string) (chans : channelSet.t) (finfo : os.FileInfo) :
  (searchScope.hidden (scope this) = false
   /\ exists rest, path.Base (os.Name finfo) = String "." rest)
  \/ (exists re, ignorePattern this = Some re
                 /\ MatchString re (os.Name finfo) = true) ->
  mapfork_entry this fpath chans finfo = []
  /\ forall before after : list os.FileInfo,
      os.ReadDir fs fpath = Ok (before ++ finfo :: after) ->
      mapfork fs this fpath chans
      = flat_map (mapfork_entry this fpath chans) (before ++ after)
        ++ [ Done waitMaps ].
Proof.
  intros H.
  assert (S : skipped this finfo = true).
  { unfold skipped. destruct H as [[Hh (rest & Hb)]|(re & Hi & Hm)].
    - unfold verifyHidden. rewrite Hh, Hb. reflexivity.
    - unfold matchesIgnore. rewrite Hi, Hm. apply orb_true_r. }
  pose proof (mapfork_entry_skipped this fpath chans finfo S) as E.
  split; [exact E|].
  intros before after R. unfold mapfork. rewrite R.
  rewrite !flat_map_app. cbn [flat_map]. rewrite E. reflexivity.
Qed.

(** C7.  What the file consumer of [reduce] does with an entry: it
    sends the entry on the filtered-file channel if and only if the
    file scope is enabled and the base name matches the pattern, and it
    starts a scan of the file if and only if the grep scope is enabled,
    whatever the name. *)
Theorem file_entry_dispatch {RE : RegexpLib} (this : gorep)
        (out chLine : chan) (msg : string) :
  loop_body this (FileLoop out chLine) msg
  = (if searchScope.file (scope this)
        && MatchString (pattern this) (path.Base msg)
     then [ Send out msg ] else [])
    ++ (if searchScope.grep (scope this)
        then [ Add waitGreps 1; Go (Grep msg chLine) ] else [])
  /\ (In (Send out msg) (loop_body this (FileLoop out chLine) msg)
      <-> MatchString (pattern this) (path.Base msg) = true
          /\ searchScope.file (scope this) = true)
  /\ (In (Go (Grep msg chLine)) (loop_body this (FileLoop out chLine) msg)
      <-> searchScope.grep (scope this) = true)
  /\ (searchScope.grep (scope this) = true ->
      searchScope.file (scope this) = false ->
      loop_body this (FileLoop out chLine) msg
      = [ Add waitGreps 1; Go (Grep msg chLine) ]).
Proof.
  unfold loop_body, filter.
  destruct (searchScope.file (scope this));
    destruct (MatchString (pattern this) (path.Base msg));
    destruct (searchScope.grep (scope this));
    cbn; repeat split; try reflexivity; try discriminate;
      intuition (try discriminate; auto).
Qed.

(** What [newGorep] hands to the regexp package. *)
Lemma newGorep_compiles {RE : RegexpLib} (expr : string)
      (opt : optionSet.t) :
  ((optionSet.ignorecase opt = true /\ casePrefix opt = "(?i)"%string)
   \/ (optionSet.ignorecase opt = false /\ casePrefix opt = EmptyString))
  /\ match newGorep expr opt with
     | Ok g =>
       Compile (casePrefix opt ++ expr) = Ok (pattern g)
       /\ match ignorePattern g with
          | Some re =>
            optionSet.ignore opt <> EmptyString
            /\ Compile (casePrefix opt ++ optionSet.ignore opt) = Ok re
          | None => optionSet.ignore opt = EmptyString
          end
     | Err e =>
       Compile (casePrefix opt ++ expr) = Err e
       \/ (optionSet.ignore opt <> EmptyString
           /\ Compile (casePrefix opt ++ optionSet.ignore opt) = Err e)
     end
  /\ (optionSet.ignorecase opt = true ->
      newGorep expr opt = newGorep ("(?i)" ++ expr) (flagged opt)).
Proof.
  split.
  { unfold casePrefix. destruct (optionSet.ignorecase opt); auto. }
  apply and_comm. split.
  { intros C. unfold newGorep, flagged. rewrite C.
    cbn [optionSet.ignorecase optionSet.ignore optionSet.g
         optionSet.grep_only optionSet.search_binary optionSet.hidden].
    destruct (Compile ("(?i)" ++ expr)) as [re|e]; [|reflexivity].
    destruct (optionSet.ignore opt) as [|a ig]; reflexivity. }
  assert (P : (if optionSet.ignorecase opt then ("(?i)" ++ expr)%string
               else expr) = (casePrefix opt ++ expr)%string)
    by (unfold casePrefix; destruct (optionSet.ignorecase opt); reflexivity).
  assert (Q : (if optionSet.ignorecase opt
               then ("(?i)" ++ optionSet.ignore opt)%string
               else optionSet.ignore opt)
              = (casePrefix opt ++ optionSet.ignore opt)%string)
    by (unfold casePrefix; destruct (optionSet.ignorecase opt); reflexivity).
  unfold newGorep. rewrite P, Q.
  destruct (Compile (casePrefix opt ++ expr)) as [re|e]; [|now left].
  destruct (optionSet.ignore opt) as [|a ig] eqn:IG.
  - cbn. split; reflexivity.
  - assert (L : (0 <? Z.of_nat (String.length (String a ig))) = true)
      by (apply Z.ltb_lt;
          change (String.length (String a ig)) with (S (String.length ig));
          lia).
    rewrite L.
    destruct (Compile (casePrefix opt ++ String a ig)) as [ire|e].
    + cbn [pattern ignorePattern]. repeat split; discriminate.
    + right. split; [discriminate|reflexivity].
Qed.


(** ** Channels, wait groups and tokens are finite *)

Lemma chan_eqb_eq (a b : chan) : chan_eqb a b = true <-> a = b.
Proof. destruct a, b; cbn; split; congruence. Qed.

Lemma chan_eqb_refl (a : chan) : chan_eqb a a = true.
Proof. now destruct a. Qed.

Lemma waitgroup_eqb_eq (a b : waitgroup) : waitgroup_eqb a b = true <-> a = b.
Proof. destruct a, b; cbn; split; congruence. Qed.

Lemma waitgroup_eqb_refl (a : waitgroup) : waitgroup_eqb a a = true.
Proof. now destruct a. Qed.

Lemma all_chans_complete (c : chan) : In c all_chans.
Proof. destruct c; cbn; tauto. Qed.

Lemma all_waitgroups_complete (w : waitgroup) : In w all_waitgroups.
Proof. destruct w; cbn; tauto. Qed.

Lemma all_tokens_complete (t : token) : In t all_tokens.
Proof.
  unfold all_tokens. rewrite !in_app_iff.
  destruct t as [c|w|c|].
  - left. apply in_map, all_chans_complete.
  - right; left. apply in_map, all_waitgroups_complete.
  - right; right; left. apply in_map, all_chans_complete.
  - right; right; right. now left.
Qed.

Lemma forallb_chans (p : chan -> bool) :
  forallb p all_chans = true <-> forall c, p c = true.
Proof.
  rewrite forallb_forall. split; intros H c; [|intros _]; apply H.
  apply all_chans_complete.
Qed.

Lemma forallb_waitgroups (p : waitgroup -> bool) :
  forallb p all_waitgroups = true <-> forall w, p w = true.
Proof.
  rewrite forallb_forall. split; intros H w; [|intros _]; apply H.
  apply all_waitgroups_complete.
Qed.

Lemma forallb_tokens (p : token -> bool) :
  forallb p all_tokens = true <-> forall t, p t = true.
Proof.
  rewrite forallb_forall. split; intros H t; [|intros _]; apply H.
  apply all_tokens_complete.
Qed.

(** ** Sums over scripts and over goroutines *)

Lemma total_cons (f : action -> Z) (a : action) (k : list action) :
  total f (a :: k) = f a + total f k.
Proof. reflexivity. Qed.

Lemma total_nil (f : action -> Z) : total f [] = 0.
Proof. reflexivity. Qed.

Lemma total_app (f : action -> Z) (k1 k2 : list action) :
  total f (k1 ++ k2) = total f k1 + total f k2.
Proof.
  induction k1 as [|a k IH]; [reflexivity|].
  rewrite <- app_comm_cons, !total_cons, IH. lia.
Qed.

Lemma grand_cons (f : action -> Z) (k : list action)
      (ts : list (list action)) :
  grand f (k :: ts) = total f k + grand f ts.
Proof. reflexivity. Qed.

Lemma grand_nil (f : action -> Z) : grand f [] = 0.
Proof. reflexivity. Qed.

Lemma grand_app (f : action -> Z) (t1 t2 : list (list action)) :
  grand f (t1 ++ t2) = grand f t1 + grand f t2.
Proof.
  induction t1 as [|k t IH]; [reflexivity|].
  rewrite <- app_comm_cons, !grand_cons, IH. lia.
Qed.

Lemma grand_perm (f : action -> Z) (t1 t2 : list (list action)) :
  Permutation t1 t2 -> grand f t1 = grand f t2.
Proof.
  induction 1; rewrite ?grand_cons in *; lia.
Qed.

Lemma b2z_range (b : bool) : 0 <= b2z b <= 1.
Proof. destruct b; cbn; lia. Qed.

Lemma call_tok_nonneg (t : token) (f : call) : 0 <= call_tok t f.
Proof.
  destruct f, t; cbn;
    repeat match goal with
           | |- context [b2z ?b] =>
             let H := fresh in pose proof (b2z_range b) as H;
             generalize dependent (b2z b); intros
           end; lia.
Qed.

Lemma tok_nonneg (t : token) (a : action) : 0 <= tok t a.
Proof.
  destruct a; try (destruct t; cbn; try lia; apply b2z_range).
  apply call_tok_nonneg.
Qed.

Lemma total_tok_nonneg (t : token) (k : list action) : 0 <= total (tok t) k.
Proof.
  induction k as [|a k IH]; [cbn; lia|].
  rewrite total_cons. pose proof (tok_nonneg t a). lia.
Qed.

Lemma grand_tok_nonneg (t : token) (ts : list (list action)) :
  0 <= grand (tok t) ts.
Proof.
  induction ts as [|k ts IH]; [cbn; lia|].
  rewrite grand_cons. pose proof (total_tok_nonneg t k). lia.
Qed.

Lemma grand_tok_member (t : token) (ts : list (list action))
      (k : list action) :
  In k ts -> total (tok t) k <= grand (tok t) ts.
Proof.
  induction ts as [|k' ts IH]; [intros []|].
  rewrite grand_cons.
  pose proof (total_tok_nonneg t k'). pose proof (grand_tok_nonneg t ts).
  intros [->|Hin]; [lia|]. specialize (IH Hin). lia.
Qed.

Lemma fired_nonneg (t : token) (tr : list event) : 0 <= fired t tr.
Proof.
  induction tr as [|e tr IH]; [cbn; lia|].
  change (fired t (e :: tr)) with (fired_by t e + fired t tr).
  assert (0 <= fired_by t e)
    by (destruct e, t; cbn; try lia; apply b2z_range).
  lia.
Qed.

(** When every goroutine owes a non-negative amount and the amounts add
    up to nothing, no goroutine owes anything. *)
Lemma grand_nonneg (f : action -> Z) (ts : list (list action)) :
  Forall (fun k => 0 <= total f k) ts -> 0 <= grand f ts.
Proof.
  induction 1; rewrite ?grand_cons; [cbn|]; lia.
Qed.

Lemma grand_zero (f : action -> Z) (ts : list (list action)) :
  Forall (fun k => 0 <= total f k) ts ->
  grand f ts = 0 ->
  Forall (fun k => total f k = 0) ts.
Proof.
  induction 1 as [|k ts Hk Hts IH]; intros G; constructor;
    rewrite grand_cons in G; pose proof (grand_nonneg f ts Hts).
  - lia.
  - apply IH. lia.
Qed.

Lemma grand_lower (f : action -> Z) (ts : list (list action))
      (k : list action) :
  Forall (fun k => 0 <= total f k) ts ->
  In k ts -> total f k <= grand f ts.
Proof.
  induction 1 as [|k' ts Hk Hts IH]; [intros []|].
  rewrite grand_cons. pose proof (grand_nonneg f ts Hts).
  intros [->|H']; [lia|]. specialize (IH H'). lia.
Qed.

Lemma grand_le (f g : action -> Z) (ts : list (list action)) :
  Forall (fun k => total f k <= total g k) ts ->
  grand f ts <= grand g ts.
Proof.
  induction 1; rewrite ?grand_cons; [cbn|]; lia.
Qed.

Lemma existsb_cons_false {A : Type} (p : A -> bool) (a : A) (l : list A) :
  existsb p (a :: l) = false -> p a = false /\ existsb p l = false.
Proof. cbn. apply orb_false_iff. Qed.

(** ** The discipline, read as propositions *)

Lemma sends_protected_spec (k : list action) (c : chan) :
  sends_protected k c = true <->
  (existsb (uses c) k = true ->
   c = chPrint \/ 0 < total (tok (TClose c)) k
   \/ exists w, protect c = Some w /\ 0 < total (debt w) k).
Proof.
  unfold sends_protected. rewrite !orb_true_iff, negb_true_iff.
  rewrite chan_eqb_eq, Z.ltb_lt. split.
  - intros [[[H|H]|H]|H] U; auto.
    + congruence.
    + destruct (protect c) as [w|]; [|discriminate].
      right; right. exists w. split; [reflexivity|]. now apply Z.ltb_lt.
  - intros H. destruct (existsb (uses c) k); [|auto].
    destruct (H eq_refl) as [E|[E|(w & P & E)]]; auto.
    right. rewrite P. now apply Z.ltb_lt.
Qed.

Lemma counts_protected_spec (k : list action) (w : waitgroup) :
  counts_protected k w = true <->
  (existsb (acts w) k = true ->
   0 < total (tok (TWait w)) k \/ 0 < total (debt w) k).
Proof.
  unfold counts_protected. rewrite !orb_true_iff, negb_true_iff, !Z.ltb_lt.
  split.
  - intros [[H|H]|H] U; auto. congruence.
  - intros H. destruct (existsb (acts w) k); [|auto].
    destruct (H eq_refl); auto.
Qed.

Lemma reports_counted_spec (k : list action) (c : chan) :
  reports_counted k c = true <->
  (isReduce c = true -> 0 < total (tok (TRange c)) k ->
   existsb (acts waitReports) k = true).
Proof.
  unfold reports_counted. rewrite !orb_true_iff, negb_true_iff, Z.leb_le.
  split.
  - intros [[H|H]|H] R T; auto; [congruence|lia].
  - intros H. destruct (isReduce c); [|auto].
    destruct (Z.le_gt_cases (total (tok (TRange c)) k) 0); [auto|].
    right. apply H; [reflexivity|lia].
Qed.

Lemma disciplined_spec (k : list action) :
  disciplined k = true <-> Disciplined k.
Proof.
  unfold disciplined. rewrite !andb_true_iff.
  rewrite forallb_forall, !forallb_waitgroups, !forallb_chans.
  rewrite Z.leb_le, Z.leb_le.
  split.
  - intros [[[[[[[W D] S] C] O] R] P1] P2]. constructor.
    + exact W.
    + intros w. apply Z.leb_le, D.
    + intros c. apply sends_protected_spec, S.
    + intros w. apply counts_protected_spec, C.
    + exact O.
    + intros c. apply reports_counted_spec, R.
    + split; assumption.
  - intros [W D S C O R [P1 P2]]. repeat split; try assumption.
    + intros w. apply Z.leb_le, D.
    + intros c. apply sends_protected_spec, S.
    + intros w. apply counts_protected_spec, C.
    + intros c. apply reports_counted_spec, R.
Qed.

Lemma sound_cons (a : action) (k : list action) :
  sound (a :: k) = true <-> Disciplined (a :: k) /\ sound k = true.
Proof.
  cbn [sound]. now rewrite andb_true_iff, disciplined_spec.
Qed.

Lemma sound_nil : sound [] = true.
Proof. reflexivity. Qed.

Lemma sound_disciplined (k : list action) :
  sound k = true -> Disciplined k.
Proof.
  destruct k as [|a k]; [intros _; now apply disciplined_spec|].
  intros H. now apply sound_cons in H.
Qed.

Lemma sound_tail (a : action) (k : list action) :
  sound (a :: k) = true -> sound k = true.
Proof. intros H. now apply sound_cons in H. Qed.

(** What the order clause says. *)
Lemma order_kept_spends (a : action) (k : list action) (t g : token) :
  order_kept (a :: k) = true ->
  spends a = Some t -> guards g t = true -> total (tok g) k = 0.
Proof.
  intros O S G. pose proof (total_tok_nonneg g k).
  destruct a; cbn in S; try discriminate; cbn [order_kept spends] in O.
  - injection S as <-.
    rewrite forallb_tokens in O. specialize (O g).
    rewrite G in O. cbn in O. apply Z.leb_le in O. lia.
  - injection S as <-.
    rewrite forallb_tokens in O. specialize (O g).
    rewrite G in O. cbn in O. apply Z.leb_le in O. lia.
  - destruct (code =? 0) eqn:E; [|discriminate]. injection S as <-.
    rewrite forallb_tokens in O. specialize (O g).
    rewrite G in O. cbn in O. apply Z.leb_le in O. lia.
Qed.

Lemma order_kept_go (f : call) (k : list action) (g t : token) :
  order_kept (Go f :: k) = true ->
  guards g t = true -> 0 < call_tok g f -> total (tok t) k = 0.
Proof.
  cbn [order_kept]. unfold handover. intros O G C.
  rewrite forallb_tokens in O. specialize (O g).
  rewrite forallb_tokens in O. specialize (O t).
  rewrite G in O. cbn [negb orb] in O.
  pose proof (total_tok_nonneg t k).
  apply orb_true_iff in O. destruct O as [O|O]; apply Z.leb_le in O; lia.
Qed.

(** The wait group of the senders on a channel is the one whose wait
    comes before the closing of the channel. *)
Lemma protect_guards (c : chan) (w : waitgroup) :
  protect c = Some w -> guards (TWait w) (TClose c) = true.
Proof. destruct c; cbn; intros H; inversion H; reflexivity. Qed.

Ltac splits := repeat match goal with |- _ /\ _ => split end.

(** ** The scripts of [mapfork] *)

Lemma existsb_app_true {A : Type} (p : A -> bool) (l1 l2 : list A) :
  existsb p (l1 ++ l2) = true ->
  existsb p l1 = true \/ existsb p l2 = true.
Proof. rewrite existsb_app. apply orb_true_iff. Qed.

Ltac facts_finish :=
  splits; try reflexivity; try (intros; discriminate);
  try (intros t; now destruct t);
  try (intros w Hw; now destruct w);
  try (intros w A; cbn in A; now apply waitgroup_eqb_eq in A).

Lemma map_action_facts (a : action) :
  map_action a = true ->
  wf_action a = true
  /\ (forall t, tok t a = 0)
  /\ (forall w, w <> waitMaps -> debt w a = 0)
  /\ held a = 0 /\ opened a = 0
  /\ (forall c, uses c a = true -> protect c = Some waitMaps
                                   /\ call_uses c (Mapfork EmptyString chsMap) = true)
  /\ (forall w, acts w a = true -> w = waitMaps)
  /\ spends a = None
  /\ (forall f g, a = Go f -> call_tok g f = 0).
Proof.
  intros M. destruct a; cbn in M; try discriminate.
  - (* Send *)
    facts_finish.
    intros c' U. cbn in U. apply chan_eqb_eq in U. subst c'.
    destruct c; try discriminate; split; reflexivity.
  - (* Add *)
    destruct w; try discriminate. apply Z.eqb_eq in M. subst n.
    facts_finish.
  - (* Done *)
    destruct w; try discriminate. facts_finish.
  - (* Go *)
    destruct f as [| |p chans| | | | | |]; try discriminate.
    destruct chans as [d f s l].
    destruct d, f, s, l; try discriminate.
    facts_finish.
  - (* Stderr *)
    facts_finish.
  - (* Exit *)
    apply negb_true_iff in M. facts_finish.
    + intros t. destruct t; try reflexivity. cbn. now rewrite M.
    + cbn. now rewrite M.
Qed.

Lemma map_script_cons (a : action) (k : list action) :
  map_script (a :: k) = true ->
  map_action a = true /\ 0 < total (debt waitMaps) (a :: k)
  /\ map_script k = true.
Proof.
  cbn [map_script]. rewrite !andb_true_iff, Z.ltb_lt. tauto.
Qed.

Lemma map_script_totals (k : list action) :
  map_script k = true ->
  (forall t, total (tok t) k = 0)
  /\ (forall w, w <> waitMaps -> total (debt w) k = 0)
  /\ total held k = 0 /\ total opened k = 0
  /\ 0 <= total (debt waitMaps) k
  /\ (forall c, existsb (uses c) k = true ->
                protect c = Some waitMaps
                /\ call_uses c (Mapfork EmptyString chsMap) = true)
  /\ (forall w, existsb (acts w) k = true -> w = waitMaps).
Proof.
  induction k as [|a k IH]; intros M.
  - splits; try reflexivity; try (intros; discriminate); try (cbn; lia).
  - apply map_script_cons in M. destruct M as (A & D & M).
    destruct (IH M) as (I1 & I2 & I3 & I4 & I5 & I6 & I7).
    destruct (map_action_facts a A) as (F1 & F2 & F3 & F4 & F5 & F6 & F7 & _).
    rewrite !total_cons. splits.
    + intros t. rewrite total_cons, F2, I1. reflexivity.
    + intros w Hw. rewrite total_cons, (F3 w Hw), (I2 w Hw). reflexivity.
    + lia.
    + lia.
    + rewrite total_cons in D. lia.
    + intros c H. cbn [existsb] in H. apply orb_true_iff in H.
      destruct H as [H|H]; [now apply F6|now apply I6].
    + intros w H. cbn [existsb] in H. apply orb_true_iff in H.
      destruct H as [H|H]; [now apply F7|now apply I7].
Qed.

Lemma map_script_wf (k : list action) :
  map_script k = true -> forall x, In x k -> wf_action x = true.
Proof.
  induction k as [|b k IH]; intros M x; [intros []|].
  apply map_script_cons in M. destruct M as (A & _ & M).
  intros [<-|Hx]; [now apply map_action_facts|now apply IH].
Qed.

Lemma map_script_disciplined (m tail : list action) :
  m <> [] -> map_script m = true -> Disciplined tail ->
  Disciplined (m ++ tail).
Proof.
  intros Hne M [W D S C O R P].
  destruct (map_script_totals m M) as (T1 & T2 & T3 & T4 & T5 & T6 & T7).
  destruct m as [|a m']; [congruence|].
  pose proof (map_script_cons _ _ M) as (A & Dpos & M').
  destruct (map_action_facts a A) as (F1 & F2 & F3 & F4 & F5 & F6 & F7 & F8 & F9).
  constructor.
  - intros x Hx. apply in_app_iff in Hx. destruct Hx as [Hx|Hx]; [|auto].
    now apply (map_script_wf _ M).
  - intros w. rewrite total_app. specialize (D w).
    destruct w; try (rewrite T2 by discriminate); lia.
  - intros c U. apply existsb_app_true in U. destruct U as [U|U].
    + right; right. exists waitMaps. split; [now apply T6|].
      rewrite total_app. specialize (D waitMaps). lia.
    + destruct (S c U) as [E|[E|(w & Pw & E)]]; [now left| |].
      * right; left. rewrite total_app, T1. lia.
      * right; right. exists w. split; [assumption|].
        rewrite total_app.
        destruct w; try (rewrite T2 by discriminate); lia.
  - intros w U. apply existsb_app_true in U. destruct U as [U|U].
    + right. apply T7 in U. subst w. rewrite total_app.
      specialize (D waitMaps). lia.
    + destruct (C w U) as [E|E].
      * left. rewrite total_app, T1. lia.
      * right. rewrite total_app.
        destruct w; try (rewrite T2 by discriminate); lia.
  - rewrite <- app_comm_cons. clear -F8 F9.
    destruct a; cbn [order_kept]; try (rewrite F8; reflexivity).
    (* Go *)
    unfold handover. apply forallb_tokens. intros g.
    apply forallb_tokens. intros t. rewrite (F9 f g eq_refl).
    cbn. rewrite orb_true_r. reflexivity.
  - intros c Rc Tc. rewrite total_app, T1 in Tc.
    rewrite existsb_app. rewrite (R c Rc ltac:(lia)). apply orb_true_r.
  - rewrite !total_app. lia.
Qed.

Lemma map_script_sound (m tail : list action) :
  map_script m = true -> sound tail = true -> sound (m ++ tail) = true.
Proof.
  intros M T. induction m as [|a m IH]; [exact T|].
  rewrite <- app_comm_cons. apply sound_cons. split.
  - rewrite app_comm_cons. apply map_script_disciplined;
      [discriminate|assumption|now apply sound_disciplined].
  - apply IH. now apply map_script_cons in M.
Qed.

Section Templates.
Context {RE : RegexpLib}.
Variables (fs : os.FileSystem) (this : gorep).

Lemma mapfork_entry_shape (fpath : string) (finfo : os.FileInfo) :
  (exists c msg, mapfork_entry this fpath chsMap finfo = [ Send c msg ]
                 /\ map_action (Send c msg) = true)
  \/ (exists msg p, mapfork_entry this fpath chsMap finfo
                    = [ Send MapDir msg; Add waitMaps 1;
                        Go (Mapfork p chsMap) ])
  \/ mapfork_entry this fpath chsMap finfo = [].
Proof.
  unfold mapfork_entry.
  destruct (negb (searchScope.hidden (scope this))
            && verifyHidden (os.Name finfo)); [now right; right|].
  destruct (matchesIgnore this (os.Name finfo)); [now right; right|].
  destruct (negb (Z.land (os.Mode finfo) os.ModeDir =? 0)).
  { right; left. eexists _, _. reflexivity. }
  destruct (negb (Z.land (os.Mode finfo) os.ModeSymlink =? 0)).
  { left. eexists _, _. split; reflexivity. }
  destruct (Z.land (os.Mode finfo) ignoreFlag =? 0).
  { left. eexists _, _. split; reflexivity. }
  now right; right.
Qed.

Lemma map_script_entry (fpath : string) (finfo : os.FileInfo)
      (rest : list action) :
  map_script rest = true -> 0 < total (debt waitMaps) rest ->
  map_script (mapfork_entry this fpath chsMap finfo ++ rest) = true
  /\ total (debt waitMaps) (mapfork_entry this fpath chsMap finfo ++ rest)
     = total (debt waitMaps) rest.
Proof.
  intros M D.
  destruct (mapfork_entry_shape fpath finfo)
    as [(c & msg & -> & A)|[(msg & p & ->)| ->]].
  - cbn [app map_script]. rewrite A, M, !total_cons.
    cbn [debt]. split; [|lia].
    rewrite andb_true_r. apply Z.ltb_lt. lia.
  - cbn [app map_script]. rewrite M, !total_cons.
    cbn [debt call_debt map_action waitgroup_eqb chsMap].
    split; [|lia].
    rewrite !andb_true_r.
    repeat (apply andb_true_iff; split); try reflexivity;
      apply Z.ltb_lt; lia.
  - split; [exact M|reflexivity].
Qed.

Lemma map_script_listing (fpath : string) (listing : list os.FileInfo) :
  map_script (flat_map (mapfork_entry this fpath chsMap) listing
              ++ [ Done waitMaps ]) = true
  /\ total (debt waitMaps)
           (flat_map (mapfork_entry this fpath chsMap) listing
            ++ [ Done waitMaps ]) = 1.
Proof.
  induction listing as [|f l [IH1 IH2]]; [split; reflexivity|].
  cbn [flat_map]. rewrite <- app_assoc.
  destruct (map_script_entry fpath f _ IH1 ltac:(lia)) as [E1 E2].
  split; [exact E1|]. now rewrite E2.
Qed.

Lemma map_script_mapfork (fpath : string) :
  map_script (mapfork fs this fpath chsMap) = true
  /\ total (debt waitMaps) (mapfork fs this fpath chsMap) = 1.
Proof.
  unfold mapfork. destruct (os.ReadDir fs fpath) as [listing|e].
  - apply map_script_listing.
  - split; reflexivity.
Qed.

Lemma sound_mapfork (fpath : string) :
  sound (mapfork fs this fpath chsMap) = true.
Proof.
  rewrite <- (app_nil_r (mapfork fs this fpath chsMap)).
  apply map_script_sound; [apply map_script_mapfork|reflexivity].
Qed.

Lemma sound_kick_map (fpath : string) :
  sound (kick_map fs this fpath) = true.
Proof.
  unfold kick_map.
  destruct (map_script_mapfork fpath) as [M D].
  assert (S : sound (mapfork fs this fpath chsMap
                     ++ Wait waitMaps :: closeChannelSet chsMap) = true)
    by (apply map_script_sound; [exact M|reflexivity]).
  apply sound_cons. split; [|exact S].
  destruct (map_script_totals _ M) as (T1 & T2 & T3 & T4 & T5 & T6 & T7).
  pose proof (sound_disciplined _ S) as [W Dd Sd Cd Od Rd Pd].
  constructor.
  - intros a [<-|Ha]; [reflexivity|now apply W].
  - intros w. rewrite total_cons, total_app.
    assert (Tt : total (debt w) (Wait waitMaps :: closeChannelSet chsMap)
                 = 0) by (now destruct w).
    rewrite Tt.
    destruct w; cbn [debt waitgroup_eqb];
      [rewrite D|rewrite T2 by discriminate..]; lia.
  - intros c U. cbn [existsb uses] in U. rewrite orb_false_l in U.
    apply existsb_app_true in U. destruct U as [U|U].
    + right; left. rewrite total_cons, total_app, T1.
      destruct (T6 c U) as [_ Uc].
      destruct c; try discriminate; cbn; lia.
    + destruct c; discriminate.
  - intros w U. left. rewrite total_cons, total_app, T1.
    cbn [existsb acts] in U. apply orb_true_iff in U.
    destruct U as [U|U].
    + apply waitgroup_eqb_eq in U. subst w. cbn. lia.
    + apply existsb_app_true in U. destruct U as [U|U].
      * apply T7 in U. subst w. cbn. lia.
      * destruct w; discriminate.
  - reflexivity.
  - intros c Rc Tc. rewrite total_cons, total_app, T1 in Tc.
    destruct c; discriminate.
  - rewrite !total_cons, !total_app, T3, T4. cbn. lia.
Qed.

(** What the body of a walker holds. *)
Lemma mapfork_totals (fpath : string) :
  (forall t, total (tok t) (mapfork fs this fpath chsMap) = 0)
  /\ (forall w, total (debt w) (mapfork fs this fpath chsMap)
                = call_debt w (Mapfork fpath chsMap))
  /\ total held (mapfork fs this fpath chsMap) = 0
  /\ total opened (mapfork fs this fpath chsMap) = 0
  /\ (forall c, existsb (uses c) (mapfork fs this fpath chsMap) = true ->
                call_uses c (Mapfork fpath chsMap) = true)
  /\ (forall w, existsb (acts w) (mapfork fs this fpath chsMap) = true ->
                call_acts w (Mapfork fpath chsMap) = true).
Proof.
  destruct (map_script_mapfork fpath) as [M D].
  destruct (map_script_totals _ M) as (T1 & T2 & T3 & T4 & T5 & T6 & T7).
  splits; try assumption.
  - intros w. destruct w; [exact D| |]; now apply T2.
  - intros c U. now apply T6.
  - intros w U. apply T7 in U. now subst w.
Qed.

End Templates.

(** ** The scripts of [grep] *)

Lemma grep_action_facts (a : action) :
  grep_action a = true ->
  wf_action a = true
  /\ (forall t, tok t a = 0)
  /\ (forall w, w <> waitGreps -> debt w a = 0)
  /\ 0 <= debt waitGreps a
  /\ (forall c, uses c a = true -> c = ReduceLine)
  /\ (forall w, acts w a = true -> w = waitGreps)
  /\ spends a = None
  /\ (forall f, a <> Go f).
Proof.
  intros G. destruct a; cbn in G; try discriminate.
  - destruct c; try discriminate. facts_finish; try (cbn; lia).
  - destruct w; try discriminate. facts_finish; try (cbn; lia).
  - facts_finish; try (cbn; lia).
  - facts_finish; try (cbn; lia).
  - facts_finish; try (cbn; lia).
  - facts_finish; try (cbn; lia).
  - facts_finish; try (cbn; lia).
Qed.

Lemma grep_script_cons (a : action) (k : list action) :
  grep_script (a :: k) = true ->
  grep_action a = true /\ 0 < total (debt waitGreps) (a :: k)
  /\ 0 <= total opened (a :: k) <= total held (a :: k)
  /\ grep_script k = true.
Proof.
  cbn [grep_script]. rewrite !andb_true_iff, Z.ltb_lt, !Z.leb_le. tauto.
Qed.

Lemma grep_script_totals (k : list action) :
  grep_script k = true ->
  (forall t, total (tok t) k = 0)
  /\ (forall w, w <> waitGreps -> total (debt w) k = 0)
  /\ 0 <= total (debt waitGreps) k
  /\ 0 <= total opened k <= total held k
  /\ (forall c, existsb (uses c) k = true -> c = ReduceLine)
  /\ (forall w, existsb (acts w) k = true -> w = waitGreps)
  /\ (forall a, In a k -> wf_action a = true).
Proof.
  induction k as [|a k IH]; intros G.
  - splits; try reflexivity; try (intros; discriminate); try (cbn; lia);
      try (intros a []).
  - apply grep_script_cons in G. destruct G as (A & D & O & G).
    destruct (IH G) as (I1 & I2 & I3 & I4 & I5 & I6 & I7).
    destruct (grep_action_facts a A) as (F1 & F2 & F3 & F4 & F5 & F6 & _).
    splits; try lia.
    + intros t. rewrite total_cons, F2, I1. reflexivity.
    + intros w Hw. rewrite total_cons, (F3 w Hw), (I2 w Hw). reflexivity.
    + intros c H. cbn [existsb] in H. apply orb_true_iff in H.
      destruct H as [H|H]; [now apply F5|now apply I5].
    + intros w H. cbn [existsb] in H. apply orb_true_iff in H.
      destruct H as [H|H]; [now apply F6|now apply I6].
    + intros x [<-|Hx]; [exact F1|now apply I7].
Qed.

Lemma grep_script_sound (k : list action) :
  grep_script k = true -> sound k = true.
Proof.
  induction k as [|a k IH]; intros G; [reflexivity|].
  apply sound_cons. split; [|apply IH; now apply grep_script_cons in G].
  destruct (grep_script_totals _ G) as (T1 & T2 & T3 & T4 & T5 & T6 & T7).
  apply grep_script_cons in G. destruct G as (A & D & O & G).
  destruct (grep_action_facts a A) as (_ & _ & _ & _ & _ & _ & F7 & F8).
  constructor.
  - exact T7.
  - intros w. destruct w; [rewrite T2 by discriminate|
                           |rewrite T2 by discriminate]; lia.
  - intros c U. apply T5 in U. subst c. right; right.
    exists waitGreps. split; [reflexivity|exact D].
  - intros w U. apply T6 in U. subst w. now right.
  - destruct a; cbn [order_kept]; try (rewrite F7; reflexivity).
    now destruct (F8 f).
  - intros c _ Tc. rewrite T1 in Tc. lia.
  - exact O.
Qed.

Lemma grep_script_tail (fpath : string) (scan : list action) :
  Forall (fun a => scan_action a = true) scan ->
  grep_script (scan ++ [ FClose fpath; Release; Done waitGreps ]) = true
  /\ total (debt waitGreps)
           (scan ++ [ FClose fpath; Release; Done waitGreps ]) = 1
  /\ total opened (scan ++ [ FClose fpath; Release; Done waitGreps ]) = 1
  /\ total held (scan ++ [ FClose fpath; Release; Done waitGreps ]) = 1.
Proof.
  induction 1 as [|a scan Ha _ (I1 & I2 & I3 & I4)];
    [splits; reflexivity|].
  rewrite <- app_comm_cons. cbn [grep_script].
  rewrite !total_cons, I1, I2, I3, I4.
  destruct a; try discriminate.
  - destruct c; try discriminate. splits; reflexivity.
  - splits; reflexivity.
Qed.

Section GrepTemplate.
Context {RE : RegexpLib}.
Variables (fs : os.FileSystem) (this : gorep).

Lemma grep_loop_scan (fpath : string) (isBinary : bool) (fuel : nat) :
  forall (m : list byte) (n : Z),
    Forall (fun a => scan_action a = true)
           (grep_loop this fpath ReduceLine isBinary fuel m n).
Proof.
  induction fuel as [|fuel IH]; intros m n; [constructor|].
  cbn [grep_loop].
  destruct (0 <? Z.of_nat (length m)); [|constructor].
  destruct (MatchString _ _); [|apply IH].
  destruct isBinary; [repeat constructor|].
  destruct (matchesIgnore this _); [apply IH|].
  constructor; [reflexivity|apply IH].
Qed.

Lemma grep_scan_scan (fpath : string) (mem : list byte) :
  Forall (fun a => scan_action a = true)
         (grep_scan this fpath ReduceLine mem).
Proof.
  unfold grep_scan.
  destruct (verifyBinary mem && negb (searchScope.binary (scope this)));
    [constructor|apply grep_loop_scan].
Qed.

Lemma grep_script_grep (fpath : string) :
  grep_script (grep fs this fpath ReduceLine) = true
  /\ total (debt waitGreps) (grep fs this fpath ReduceLine) = 1
  /\ total opened (grep fs this fpath ReduceLine) = 0
  /\ total held (grep fs this fpath ReduceLine) = 0.
Proof.
  unfold grep. destruct (os.Open fs fpath) as [u|e].
  2:{ splits; reflexivity. }
  assert (X : exists scan,
             Forall (fun a => scan_action a = true) scan
             /\ match os.Stat fs fpath with
                | Ok size =>
                  match os.Mmap fs fpath size with
                  | Ok mem => grep_scan this fpath ReduceLine mem
                  | Err e =>
                    [Stderr ("grep mmap error: " ++ e ++ newline)]
                  end
                | Err e => [Stderr ("grep stat error: " ++ e ++ newline)]
                end = scan).
  { destruct (os.Stat fs fpath) as [size|e].
    - destruct (os.Mmap fs fpath size) as [mem|e].
      + eexists. split; [apply grep_scan_scan|reflexivity].
      + eexists. split; [|reflexivity]. repeat constructor.
    - eexists. split; [|reflexivity]. repeat constructor. }
  destruct X as (scan & Hs & ->).
  destruct (grep_script_tail fpath scan Hs) as (I1 & I2 & I3 & I4).
  rewrite <- !app_comm_cons, <- app_assoc. cbn [app].
  cbn [grep_script]. rewrite !total_cons, I1, I2, I3, I4.
  splits; reflexivity.
Qed.

Lemma sound_grep (fpath : string) :
  sound (grep fs this fpath ReduceLine) = true.
Proof. apply grep_script_sound, grep_script_grep. Qed.

Lemma grep_totals (fpath : string) :
  (forall t, total (tok t) (grep fs this fpath ReduceLine) = 0)
  /\ (forall w, total (debt w) (grep fs this fpath ReduceLine)
                = call_debt w (Grep fpath ReduceLine))
  /\ total held (grep fs this fpath ReduceLine) = 0
  /\ total opened (grep fs this fpath ReduceLine) = 0
  /\ (forall c, existsb (uses c) (grep fs this fpath ReduceLine) = true ->
                call_uses c (Grep fpath ReduceLine) = true)
  /\ (forall w, existsb (acts w) (grep fs this fpath ReduceLine) = true ->
                call_acts w (Grep fpath ReduceLine) = true).
Proof.
  destruct (grep_script_grep fpath) as (G & D & O & H).
  destruct (grep_script_totals _ G) as (T1 & T2 & T3 & T4 & T5 & T6 & T7).
  splits; try assumption.
  - intros w. destruct w; [now apply T2|exact D|now apply T2].
  - intros c U. apply T5 in U. now subst c.
  - intros w U. apply T6 in U. now subst w.
Qed.

End GrepTemplate.

(** ** The bodies of the loops *)

Lemma neutral_disciplined (r : action) (p k : list action) :
  p <> [] -> neutral p = true -> absorbed r p = true ->
  Disciplined (r :: k) -> Disciplined (p ++ r :: k).
Proof.
  intros Hne N A [W D S C O R P].
  unfold neutral in N. rewrite !andb_true_iff in N.
  destruct N as [[[[[N1 N2] N3] N4] N5] N6].
  rewrite forallb_forall in N1. rewrite forallb_tokens in N2.
  rewrite forallb_waitgroups in N3.
  apply Z.eqb_eq in N4. apply Z.eqb_eq in N5.
  unfold absorbed in A. rewrite andb_true_iff in A. destruct A as [A1 A2].
  rewrite forallb_chans in A1. rewrite forallb_waitgroups in A2.
  assert (U : forall c, existsb (uses c) (p ++ r :: k) = true ->
                        existsb (uses c) (r :: k) = true).
  { intros c H. apply existsb_app_true in H. destruct H as [H|H]; [|exact H].
    specialize (A1 c). rewrite H in A1. cbn in A1. cbn. now rewrite A1. }
  assert (V : forall w, existsb (acts w) (p ++ r :: k) = true ->
                        existsb (acts w) (r :: k) = true).
  { intros w H. apply existsb_app_true in H. destruct H as [H|H]; [|exact H].
    specialize (A2 w). rewrite H in A2. cbn in A2. cbn. now rewrite A2. }
  assert (T : forall t, total (tok t) (p ++ r :: k) = total (tok t) (r :: k)).
  { intros t. rewrite total_app. specialize (N2 t). apply Z.eqb_eq in N2.
    lia. }
  assert (B : forall w, total (debt w) (r :: k)
                        <= total (debt w) (p ++ r :: k)).
  { intros w. rewrite total_app. specialize (N3 w). apply Z.leb_le in N3.
    lia. }
  constructor.
  - intros a Ha. apply in_app_iff in Ha. destruct Ha; auto.
  - intros w. specialize (D w). specialize (B w). lia.
  - intros c H. destruct (S c (U c H)) as [E|[E|(w & Pw & E)]].
    + now left.
    + right; left. now rewrite T.
    + right; right. exists w. split; [exact Pw|]. specialize (B w). lia.
  - intros w H. destruct (C w (V w H)) as [E|E].
    + left. now rewrite T.
    + right. specialize (B w). lia.
  - destruct p as [|a p']; [congruence|]. rewrite <- app_comm_cons.
    destruct a; cbn [order_kept]; try reflexivity;
      try (cbn [spends] in *; now rewrite ?N6).
    + unfold handover. rewrite forallb_tokens in N6.
      apply forallb_tokens. intros g. apply forallb_tokens. intros t.
      specialize (N6 g). apply Z.eqb_eq in N6. rewrite N6.
      cbn. rewrite orb_true_r. reflexivity.
    + cbn [spends] in *. destruct (code =? 0); [discriminate|reflexivity].
  - intros c Rc Tc. rewrite T in Tc. rewrite existsb_app.
    rewrite (R c Rc Tc). apply orb_true_r.
  - rewrite !total_app, N4, N5. lia.
Qed.

Lemma sound_prefix (r : action) (p k : list action) :
  prefix_ok r p = true -> sound (r :: k) = true ->
  sound (p ++ r :: k) = true.
Proof.
  intros P S. induction p as [|a p IH]; [exact S|].
  cbn [prefix_ok] in P. rewrite !andb_true_iff in P.
  destruct P as [[N A] P].
  rewrite <- app_comm_cons. apply sound_cons. split; [|now apply IH].
  rewrite app_comm_cons.
  apply neutral_disciplined;
    [discriminate|assumption|assumption|now apply sound_disciplined].
Qed.

Section Loops.
Context {RE : RegexpLib}.
Variable this : gorep.

Lemma loop_body_prefix (c : chan) (l : loop) (msg : string) :
  wf_loop c l = true ->
  prefix_ok (Range c l) (loop_body this l msg) = true.
Proof.
  intros W. destruct l; cbn [loop_body]; unfold filter.
  - destruct c; try discriminate; destruct out; try discriminate.
    destruct (searchScope.dir (scope this)); [|reflexivity].
    destruct (MatchString _ _); reflexivity.
  - destruct c; try discriminate; destruct out; try discriminate;
      destruct chLine; try discriminate.
    destruct (searchScope.file (scope this));
      [destruct (MatchString _ _)|];
      destruct (searchScope.grep (scope this)); reflexivity.
  - destruct c; try discriminate; destruct out; try discriminate.
    destruct (searchScope.symlink (scope this)); [|reflexivity].
    destruct (MatchString _ _); reflexivity.
  - destruct c; try discriminate; reflexivity.
  - destruct c; try discriminate; reflexivity.
Qed.

Lemma sound_loop_body (c : chan) (l : loop) (msg : string)
      (k : list action) :
  sound (Range c l :: k) = true ->
  sound (loop_body this l msg ++ Range c l :: k) = true.
Proof.
  intros S. apply sound_prefix; [|exact S].
  apply loop_body_prefix.
  apply sound_disciplined in S. destruct S as [W _ _ _ _ _ _].
  apply (W (Range c l)). now left.
Qed.

Lemma loop_body_totals (c : chan) (l : loop) (msg : string) :
  wf_loop c l = true ->
  (forall t, total (tok t) (loop_body this l msg) = 0)
  /\ (forall w, total (debt w) (loop_body this l msg) = 0)
  /\ total held (loop_body this l msg) = 0
  /\ total opened (loop_body this l msg) = 0
  /\ (forall c', existsb (uses c') (loop_body this l msg) = true ->
                 uses c' (Range c l) = true)
  /\ (forall w, existsb (acts w) (loop_body this l msg) = true ->
                acts w (Range c l) = true).
Proof.
  intros W. pose proof (loop_body_prefix c l msg W) as P.
  assert (G : (forall t, total (tok t) (loop_body this l msg) = 0)
              /\ (forall w, total (debt w) (loop_body this l msg) = 0)
              /\ total held (loop_body this l msg) = 0
              /\ total opened (loop_body this l msg) = 0).
  { destruct l; cbn [loop_body]; unfold filter.
    - destruct (searchScope.dir (scope this));
        [destruct (MatchString _ _)|];
        splits; try reflexivity; intros x; now destruct x.
    - destruct (searchScope.file (scope this));
        [destruct (MatchString _ _)|];
        destruct (searchScope.grep (scope this));
        splits; try reflexivity; intros x; now destruct x.
    - destruct (searchScope.symlink (scope this));
        [destruct (MatchString _ _)|];
        splits; try reflexivity; intros x; now destruct x.
    - splits; try reflexivity; intros x; now destruct x.
    - splits; try reflexivity; intros x; now destruct x. }
  destruct G as (G1 & G2 & G3 & G4). splits; try assumption.
  - intros c' U. destruct (loop_body this l msg) as [|a p];
      [discriminate|].
    cbn [prefix_ok] in P. rewrite !andb_true_iff in P.
    destruct P as [[_ A] _]. unfold absorbed in A.
    rewrite andb_true_iff in A. destruct A as [A _].
    rewrite forallb_chans in A. specialize (A c').
    rewrite U in A. exact A.
  - intros w U. destruct (loop_body this l msg) as [|a p];
      [discriminate|].
    cbn [prefix_ok] in P. rewrite !andb_true_iff in P.
    destruct P as [[_ A] _]. unfold absorbed in A.
    rewrite andb_true_iff in A. destruct A as [_ A].
    rewrite forallb_waitgroups in A. specialize (A w).
    rewrite U in A. exact A.
Qed.

End Loops.

(** ** Every goroutine of the program starts with a sound script *)

Section Bodies.
Context {RE : RegexpLib}.
Variables (fs : os.FileSystem) (this : gorep).

Lemma wf_mapfork_chans (p : string) (chans : channelSet.t) :
  wf_call (Mapfork p chans) = true -> chans = chsMap.
Proof.
  destruct chans as [d f s l]. cbn.
  destruct d, f, s, l; try discriminate. reflexivity.
Qed.

Lemma wf_grep_out (p : string) (out : chan) :
  wf_call (Grep p out) = true -> out = ReduceLine.
Proof. destruct out; try discriminate. reflexivity. Qed.

Lemma body_sound (f : call) :
  wf_call f = true -> sound (body fs this f) = true.
Proof.
  intros W. destruct f; cbn [body].
  - apply sound_kick_map.
  - reflexivity.
  - apply wf_mapfork_chans in W. subst chans. apply sound_mapfork.
  - destruct in_, out; try discriminate; reflexivity.
  - destruct in_, out, chLine; try discriminate; reflexivity.
  - destruct in_, out; try discriminate; reflexivity.
  - apply wf_grep_out in W. subst out. apply sound_grep.
  - reflexivity.
  - destruct ch; try discriminate; reflexivity.
Qed.

Lemma body_tok (f : call) (t : token) :
  wf_call f = true -> total (tok t) (body fs this f) = call_tok t f.
Proof.
  intros W. destruct f; cbn [body].
  - unfold kick_map. rewrite total_cons, total_app.
    destruct (mapfork_totals fs this fpath) as (T & _). rewrite T.
    destruct t as [c|w|c|]; try reflexivity;
      [destruct c|destruct w]; reflexivity.
  - destruct t as [c|w|c|]; try reflexivity;
      [destruct c|destruct w|destruct c]; reflexivity.
  - apply wf_mapfork_chans in W. subst chans.
    destruct (mapfork_totals fs this fpath) as (T & _). rewrite T.
    now destruct t.
  - destruct in_, out; try discriminate.
    destruct t as [c|w|c|]; try reflexivity; destruct c; reflexivity.
  - destruct in_, out, chLine; try discriminate.
    destruct t as [c|w|c|]; try reflexivity;
      [destruct c|destruct w|destruct c]; reflexivity.
  - destruct in_, out; try discriminate.
    destruct t as [c|w|c|]; try reflexivity; destruct c; reflexivity.
  - apply wf_grep_out in W. subst out.
    destruct (grep_totals fs this fpath) as (T & _). rewrite T.
    now destruct t.
  - destruct t as [c|w|c|]; try reflexivity; destruct c; reflexivity.
  - destruct ch; try discriminate;
      destruct t as [c|w|c|]; try reflexivity; destruct c; reflexivity.
Qed.

Lemma body_debt (f : call) (w : waitgroup) :
  wf_call f = true -> total (debt w) (body fs this f) = call_debt w f.
Proof.
  intros W. destruct f; cbn [body].
  - unfold kick_map. rewrite total_cons, total_app.
    destruct (mapfork_totals fs this fpath) as (_ & D & _). rewrite D.
    now destruct w.
  - now destruct w.
  - apply wf_mapfork_chans in W. subst chans.
    now destruct (mapfork_totals fs this fpath) as (_ & D & _).
  - destruct in_, out; try discriminate; now destruct w.
  - destruct in_, out, chLine; try discriminate; now destruct w.
  - destruct in_, out; try discriminate; now destruct w.
  - apply wf_grep_out in W. subst out.
    now destruct (grep_totals fs this fpath) as (_ & D & _).
  - now destruct w.
  - now destruct w.
Qed.

Lemma body_held (f : call) :
  wf_call f = true ->
  total held (body fs this f) = 0 /\ total opened (body fs this f) = 0.
Proof.
  intros W. destruct f; cbn [body]; try (split; reflexivity).
  - unfold kick_map. rewrite !total_cons, !total_app.
    destruct (mapfork_totals fs this fpath) as (_ & _ & H & O & _).
    rewrite H, O. split; reflexivity.
  - apply wf_mapfork_chans in W. subst chans.
    destruct (mapfork_totals fs this fpath) as (_ & _ & H & O & _).
    now split.
  - apply wf_grep_out in W. subst out.
    destruct (grep_totals fs this fpath) as (_ & _ & H & O & _).
    now split.
Qed.

Lemma body_uses (f : call) (c : chan) :
  wf_call f = true ->
  existsb (uses c) (body fs this f) = true -> call_uses c f = true.
Proof.
  intros W. destruct f; cbn [body].
  - unfold kick_map. cbn [existsb uses]. rewrite orb_false_l.
    intros U. apply existsb_app_true in U. destruct U as [U|U].
    + now apply (mapfork_totals fs this fpath).
    + destruct c; discriminate.
  - destruct c; intros U; try discriminate; reflexivity.
  - apply wf_mapfork_chans in W. subst chans.
    apply (mapfork_totals fs this fpath).
  - destruct in_, out; try discriminate.
    destruct c; intros U; try discriminate; reflexivity.
  - destruct in_, out, chLine; try discriminate.
    destruct c; intros U; try discriminate; reflexivity.
  - destruct in_, out; try discriminate.
    destruct c; intros U; try discriminate; reflexivity.
  - apply wf_grep_out in W. subst out.
    apply (grep_totals fs this fpath).
  - destruct c; intros U; discriminate.
  - destruct c; intros U; try discriminate; reflexivity.
Qed.

Lemma body_acts (f : call) (w : waitgroup) :
  wf_call f = true ->
  existsb (acts w) (body fs this f) = true -> call_acts w f = true.
Proof.
  intros W. destruct f; cbn [body].
  - unfold kick_map. cbn [existsb acts].
    intros U. apply orb_true_iff in U. destruct U as [U|U].
    + apply waitgroup_eqb_eq in U. now subst w.
    + apply existsb_app_true in U. destruct U as [U|U].
      * now apply (mapfork_totals fs this fpath).
      * destruct w; discriminate.
  - destruct w; intros U; try discriminate; reflexivity.
  - apply wf_mapfork_chans in W. subst chans.
    apply (mapfork_totals fs this fpath).
  - destruct in_, out; try discriminate;
      destruct w; intros U; discriminate.
  - destruct in_, out, chLine; try discriminate;
      destruct w; intros U; try discriminate; reflexivity.
  - destruct in_, out; try discriminate;
      destruct w; intros U; discriminate.
  - apply wf_grep_out in W. subst out.
    apply (grep_totals fs this fpath).
  - destruct w; intros U; discriminate.
  - destruct w; intros U; try discriminate; reflexivity.
Qed.

(** A call that holds a token holds the tokens that come before
    it. *)
Lemma call_guarded (f : call) (g t : token) :
  wf_call f = true ->
  guards g t = true -> 0 < call_tok t f -> 0 < call_tok g f.
Proof.
  intros W G.
  assert (E : (exists w c, g = TWait w /\ t = TClose c
                           /\ guards (TWait w) (TClose c) = true)
              \/ (exists c c', g = TRange c /\ t = TClose c'
                               /\ guards (TRange c) (TClose c') = true)
              \/ (g = TWait waitReports /\ t = TExit)).
  { destruct g as [c|w|c|], t as [c'|w'|c'|]; try discriminate;
      try (destruct w; discriminate); try (destruct c; discriminate).
    - left. eauto.
    - destruct w; try discriminate. right; right. now split.
    - right; left. eauto. }
  clear G.
  destruct E as [(w & c & -> & -> & G)|[(c & c' & -> & -> & G)|[-> ->]]].
  - destruct f; cbn [call_tok]; try lia.
    + destruct w, c; try discriminate; cbn; lia.
    + destruct w, c; try discriminate; cbn; lia.
    + destruct in_, out; try discriminate.
      destruct w, c; try discriminate; cbn; lia.
    + destruct in_, out, chLine; try discriminate.
      destruct w, c; try discriminate; cbn; lia.
    + destruct in_, out; try discriminate.
      destruct w, c; try discriminate; cbn; lia.
  - destruct f; cbn [call_tok]; try lia.
    + destruct c, c'; try discriminate; cbn; lia.
    + destruct c, c'; try discriminate; cbn; lia.
    + destruct in_, out; try discriminate.
      destruct c, c'; try discriminate; cbn; lia.
    + destruct in_, out, chLine; try discriminate.
      destruct c, c'; try discriminate; cbn; lia.
    + destruct in_, out; try discriminate.
      destruct c, c'; try discriminate; cbn; lia.
  - destruct f; cbn; lia.
Qed.

Lemma sound_main (fpath : string) (isColor : bool) :
  sound (main fpath isColor) = true.
Proof. destruct isColor; reflexivity. Qed.

End Bodies.

(** ** What one action does to the memory *)

Lemma fired_cons (t : token) (e : event) (tr : list event) :
  fired t (e :: tr) = fired_by t e + fired t tr.
Proof. reflexivity. Qed.

Ltac effects_finish NS NN :=
  cbn [trace counter permits openfiles closed status_of log set_closed
       set_counter set_permits set_openfiles set_status own owe held
       opened];
  splits;
  try reflexivity;
  try lia;
  try (intros; lia);
  try (intros t; rewrite ?fired_cons; destruct t; cbn; lia);
  try (intros x; cbn; lia);
  try (intros x; now rewrite orb_false_r);
  try (intros x H; cbn in H; lia);
  try (cbn; lia);
  try (now left);
  try (right; eauto; fail);
  try (exists (@nil event); split; [reflexivity|exact NN]);
  try (eexists (_ :: nil); split; [reflexivity|apply NS; exact I]).

Section Effects.
Context {RE : RegexpLib}.
Variables (fs : os.FileSystem) (this : gorep).

Lemma wg_add_effect (w : waitgroup) (n : Z) (m : store) :
  status_of (wg_add w n m) <> Panicked ->
  status_of m <> Panicked
  /\ wg_add w n m = set_counter w (counter m w + n) m.
Proof.
  unfold wg_add. destruct (counter m w + n <? 0); cbn; intros H.
  - congruence.
  - split; [exact H|reflexivity].
Qed.

(** The effect of an action that a goroutine does on its own and
    that is no panic. *)
Lemma local_effects (a : action) (m m' : store)
      (spawned : list (list action)) :
  local fs this a m = Some (spawned, m') ->
  status_of m = Running ->
  status_of m' <> Panicked ->
  (forall t, fired t (trace m') = fired t (trace m) + own t a)
  /\ (forall w, counter m' w = counter m w - owe w a)
  /\ Z.of_nat (permits m') = Z.of_nat (permits m) - held a
  /\ ((permits m <= maxNumOfFileOpen)%nat ->
      (permits m' <= maxNumOfFileOpen)%nat)
  /\ (0 < opened a -> 0 < Z.of_nat (openfiles m) ->
      Z.of_nat (openfiles m') = Z.of_nat (openfiles m) - opened a)
  /\ (opened a <= 0 ->
      Z.of_nat (openfiles m') = Z.of_nat (openfiles m) - opened a)
  /\ (forall c, closed m' c = closed m c || (0 <? own (TClose c) a))
  /\ (forall c, 0 < own (TRange c) a -> closed m c = true)
  /\ (forall w, 0 < own (TWait w) a -> counter m w = 0)
  /\ (match a with
      | Go f => spawned = [ body fs this f ]
      | _ => spawned = []
      end)
  /\ (status_of m' = Running
      \/ exists code, a = Exit code /\ status_of m' = Exited code)
  /\ (exists evs, trace m' = evs ++ trace m
                  /\ forall c msg, ~ In (EvSend c msg) evs).
Proof.
  intros L R NP.
  assert (NS : forall e : event,
             match e with EvSend _ _ => False | _ => True end ->
             forall c msg, ~ In (EvSend c msg) [e]).
  { intros e H c msg [E|[]]. subst e. exact H. }
  assert (NN : forall c msg, ~ In (EvSend c msg) []) by (intros c msg []).
  destruct a; cbn [local] in L.
  - (* Send *)
    destruct (closed m c); [|discriminate].
    injection L as <- <-. cbn in NP. congruence.
  - (* Range: the channel is closed *)
    destruct (closed m c) eqn:Cl; [|discriminate].
    injection L as <- <-. effects_finish NS NN.
    intros c' H. cbn in H. destruct (chan_eqb c' c) eqn:E; [|cbn in H; lia].
    apply chan_eqb_eq in E. now subst.
  - (* Close *)
    destruct (closed m c) eqn:Cl; injection L as <- <-;
      [cbn in NP; congruence|].
    effects_finish NS NN.
    intros c'. cbn. rewrite (orb_comm (closed m c')).
    destruct (chan_eqb c c') eqn:E.
    + apply chan_eqb_eq in E. subst c'. now rewrite chan_eqb_refl.
    + destruct (chan_eqb c' c) eqn:E'; [|reflexivity].
      apply chan_eqb_eq in E'. subst c'.
      now rewrite chan_eqb_refl in E.
  - (* Add *)
    injection L as <- <-.
    destruct (wg_add_effect _ _ _ NP) as [_ ->].
    effects_finish NS NN.
    intros w'. cbn. destruct (waitgroup_eqb w w') eqn:E.
    + apply waitgroup_eqb_eq in E. subst w'.
      rewrite waitgroup_eqb_refl. lia.
    + destruct (waitgroup_eqb w' w) eqn:E'; [|lia].
      apply waitgroup_eqb_eq in E'. subst w'.
      now rewrite waitgroup_eqb_refl in E.
  - (* Done *)
    injection L as <- <-.
    destruct (wg_add_effect _ _ _ NP) as [_ ->].
    effects_finish NS NN.
    intros w'. cbn. destruct (waitgroup_eqb w w') eqn:E.
    + apply waitgroup_eqb_eq in E. subst w'.
      rewrite waitgroup_eqb_refl. cbn. lia.
    + destruct (waitgroup_eqb w' w) eqn:E'; [|cbn; lia].
      apply waitgroup_eqb_eq in E'. subst w'.
      now rewrite waitgroup_eqb_refl in E.
  - (* Wait: the counter is zero *)
    destruct (Z.eqb_spec (counter m w) 0) as [E|E]; [|discriminate].
    injection L as <- <-. effects_finish NS NN.
    intros w' H. cbn in H.
    destruct (waitgroup_eqb w' w) eqn:E'; [|cbn in H; lia].
    apply waitgroup_eqb_eq in E'. now subst.
  - (* Go *)
    injection L as <- <-. effects_finish NS NN.
  - (* Acquire *)
    destruct (Nat.ltb_spec (permits m) maxNumOfFileOpen) as [E|E];
      [|discriminate].
    injection L as <- <-. effects_finish NS NN.
  - (* Release *)
    destruct (permits m) as [|n] eqn:E; [discriminate|].
    injection L as <- <-. effects_finish NS NN.
  - injection L as <- <-. effects_finish NS NN.
  - injection L as <- <-. effects_finish NS NN.
  - injection L as <- <-. effects_finish NS NN.
  - injection L as <- <-. effects_finish NS NN.
  - injection L as <- <-. effects_finish NS NN.
Qed.

End Effects.

(** ** Small facts about single actions *)

Lemma own_nonneg (t : token) (a : action) : 0 <= own t a.
Proof. destruct a; cbn [own]; try apply tok_nonneg. lia. Qed.

Lemma own_cases (a : action) :
  (exists f, a = Go f) \/ (forall t, own t a = tok t a).
Proof. destruct a; try (right; reflexivity). left. eauto. Qed.

Lemma own_le_tok (t : token) (a : action) : own t a <= tok t a.
Proof.
  destruct a; cbn [own]; try lia. apply tok_nonneg.
Qed.

(** An action that spends a guarded token is the action of that token,
    and holds no token that comes before it. *)
Lemma own_spends (g t : token) (a : action) :
  guards g t = true -> 0 < own t a ->
  spends a = Some t /\ tok g a = 0.
Proof.
  intros G O.
  destruct a; cbn [own] in O; try (destruct t; cbn in O; lia).
  - (* Range *)
    destruct t; cbn in O; try lia. destruct g as [?|w|c1|]; try discriminate;
      [destruct w; discriminate|destruct c1; discriminate].
  - (* Close *)
    destruct t as [c'| | |]; cbn in O; try lia.
    destruct (chan_eqb c' c) eqn:E; [|cbn in O; lia].
    apply chan_eqb_eq in E. subst c'. split; [reflexivity|].
    destruct g; try discriminate; reflexivity.
  - (* Wait *)
    destruct t; cbn in O; try lia. destruct g as [?|w'|c1|]; try discriminate;
      [destruct w'; discriminate|destruct c1; discriminate].
  - (* Exit *)
    destruct t; cbn in O; try lia.
    destruct (code =? 0) eqn:E; [|cbn in O; lia].
    split; [cbn; now rewrite E|].
    destruct g; try discriminate; reflexivity.
Qed.

Lemma own_wait (w : waitgroup) (a : action) :
  0 < own (TWait w) a -> a = Wait w.
Proof.
  destruct a; cbn; try lia. destruct (waitgroup_eqb w w0) eqn:E; [|cbn; lia].
  apply waitgroup_eqb_eq in E. now subst.
Qed.

Lemma own_close (c : chan) (a : action) :
  0 < own (TClose c) a -> a = Close c.
Proof.
  destruct a; cbn; try lia. destruct (chan_eqb c c0) eqn:E; [|cbn; lia].
  apply chan_eqb_eq in E. now subst.
Qed.

(** An action that does not touch a wait group pays it nothing. *)
Lemma quiet_owe (w : waitgroup) (a : action) :
  acts w a = false -> owe w a = 0.
Proof.
  destruct a; cbn; try reflexivity; intros H; now rewrite H.
Qed.

Lemma existsb_false_cons {A : Type} (p : A -> bool) (a : A) (l : list A) :
  existsb p (a :: l) = false -> p a = false /\ existsb p l = false.
Proof. cbn. apply orb_false_iff. Qed.

Lemma existsb_false_app {A : Type} (p : A -> bool) (l1 l2 : list A) :
  existsb p l1 = false -> existsb p l2 = false ->
  existsb p (l1 ++ l2) = false.
Proof. intros H1 H2. now rewrite existsb_app, H1, H2. Qed.

Lemma bool_false_of_not_true (b : bool) : (b = true -> False) -> b = false.
Proof. destruct b; [intros H; now destruct H|reflexivity]. Qed.

(** The events of a step are put before the trace; a send that is in
    the new trace and not among them was in the old one. *)
Lemma trace_split (evs tr t1 t2 : list event) (c : chan) (msg : string) :
  (forall c' msg', ~ In (EvSend c' msg') evs) ->
  evs ++ tr = t1 ++ EvSend c msg :: t2 ->
  exists t1', tr = t1' ++ EvSend c msg :: t2.
Proof.
  revert t1. induction evs as [|e evs IH]; intros t1 N E.
  - exists t1. exact E.
  - destruct t1 as [|e' t1].
    + cbn in E. injection E as E1 E2. exfalso.
      apply (N c msg). left. exact E1.
    + cbn in E. injection E as E1 E2.
      apply (IH t1); [|exact E2].
      intros c' msg' Hin. apply (N c' msg'). now right.
Qed.

(** ** The invariant is kept by every step *)

Section Preservation.
Context {RE : RegexpLib}.
Variables (fs : os.FileSystem) (this : gorep).

Lemma inv_disciplined (s : state) (k : list action) :
  invariant s -> In k (tasks s) -> Disciplined k.
Proof. intros I H. apply sound_disciplined. now apply (inv_sound s I). Qed.

Lemma inv_debts (s : state) (w : waitgroup) :
  invariant s -> Forall (fun k => 0 <= total (debt w) k) (tasks s).
Proof.
  intros I. apply Forall_forall. intros k H.
  now apply (d_debt k (inv_disciplined s k I H)).
Qed.

Lemma inv_openeds (s : state) :
  invariant s -> Forall (fun k => 0 <= total opened k) (tasks s).
Proof.
  intros I. apply Forall_forall. intros k H.
  now apply (d_open k (inv_disciplined s k I H)).
Qed.

(** The sum of a weight after a step of one goroutine, when the body
    of a call weighs what the call does. *)
Lemma grand_after (f : action -> Z) (a : action) (k : list action)
      (spawned rest ts : list (list action)) :
  Permutation ts ((a :: k) :: rest) ->
  (forall c, a = Go c -> total f (body fs this c) = f (Go c)) ->
  match a with
  | Go c => spawned = [ body fs this c ]
  | _ => spawned = []
  end ->
  grand f (k :: spawned ++ rest)
  = grand f ts - match a with Go _ => 0 | _ => f a end.
Proof.
  intros P C S. rewrite (grand_perm f _ _ P).
  rewrite !grand_cons, grand_app, total_cons.
  destruct a; subst spawned; rewrite ?grand_nil; try lia.
  rewrite grand_cons, grand_nil, (C f0 eq_refl). lia.
Qed.

(** No step of one goroutine is a panic. *)
Lemma local_no_panic (s : state) (a : action) (k : list action)
      (rest spawned : list (list action)) (m' : store) :
  invariant s ->
  Permutation (tasks s) ((a :: k) :: rest) ->
  local fs this a (mem s) = Some (spawned, m') ->
  status_of m' <> Panicked.
Proof.
  intros I P L.
  assert (Hin : In (a :: k) (tasks s)).
  { eapply Permutation_in; [symmetry; exact P|now left]. }
  pose proof (inv_disciplined s _ I Hin) as D.
  pose proof (inv_status s I) as NP.
  destruct a; cbn [local] in L.
  - (* Send *)
    destruct (closed (mem s) c) eqn:Cl; [|discriminate].
    pose proof (inv_mute s I c Cl _ Hin) as M.
    cbn in M. now rewrite chan_eqb_refl in M.
  - destruct (closed (mem s) c); [|discriminate].
    injection L as <- <-. exact NP.
  - (* Close *)
    destruct (closed (mem s) c) eqn:Cl; injection L as <- <-; [|exact NP].
    exfalso. rewrite (inv_closed s I) in Cl. apply Z.ltb_lt in Cl.
    pose proof (inv_tokens s I (TClose c)) as T.
    pose proof (grand_tok_member (TClose c) _ _ Hin) as G.
    rewrite total_cons in G. cbn [tok] in G. rewrite chan_eqb_refl in G.
    pose proof (total_tok_nonneg (TClose c) k).
    assert (expected (TClose c) <= 1)
      by (cbn; apply b2z_range).
    cbn [b2z] in G. lia.
  - (* Add *)
    injection L as <- <-. unfold wg_add.
    pose proof (d_wf _ D (Add w n) ltac:(now left)) as W.
    cbn in W. apply Z.leb_le in W.
    rewrite (inv_counter s I w).
    pose proof (grand_nonneg _ _ (inv_debts s w I)).
    destruct (Z.ltb_spec (grand (debt w) (tasks s) + n) 0); [lia|exact NP].
  - (* Done *)
    injection L as <- <-. unfold wg_add.
    rewrite (inv_counter s I w).
    pose proof (grand_lower _ _ _ (inv_debts s w I) Hin) as G.
    rewrite total_cons in G. cbn [debt] in G.
    rewrite waitgroup_eqb_refl in G. cbn [b2z] in G.
    assert (Sk : sound k = true)
      by (eapply sound_tail, (inv_sound s I); exact Hin).
    pose proof (d_debt k (sound_disciplined k Sk) w).
    destruct (Z.ltb_spec (grand (debt w) (tasks s) + -1) 0); [lia|exact NP].
  - destruct (counter (mem s) w =? 0); [|discriminate].
    injection L as <- <-. exact NP.
  - injection L as <- <-. exact NP.
  - destruct (permits (mem s) <? maxNumOfFileOpen)%nat; [|discriminate].
    injection L as <- <-. exact NP.
  - destruct (permits (mem s)); [discriminate|].
    injection L as <- <-. exact NP.
  - injection L as <- <-. exact NP.
  - injection L as <- <-. exact NP.
  - injection L as <- <-. exact NP.
  - injection L as <- <-. exact NP.
  - injection L as <- <-. cbn. discriminate.
Qed.

Section Local.
Variables (s : state) (a : action) (k : list action)
          (rest spawned : list (list action)) (m' : store).
Hypothesis I : invariant s.
Hypothesis R : status_of (mem s) = Running.
Hypothesis P : Permutation (tasks s) ((a :: k) :: rest).
Hypothesis L : local fs this a (mem s) = Some (spawned, m').

Lemma l_in : In (a :: k) (tasks s).
Proof. eapply Permutation_in; [symmetry; exact P|now left]. Qed.

Lemma l_rest (x : list action) : In x rest -> In x (tasks s).
Proof.
  intros H. eapply Permutation_in; [symmetry; exact P|now right].
Qed.

Lemma l_sound_k : sound k = true.
Proof. eapply sound_tail, (inv_sound s I), l_in. Qed.

Lemma l_disc : Disciplined (a :: k).
Proof. apply (inv_disciplined s _ I l_in). Qed.

Lemma l_disc_k : Disciplined k.
Proof. apply sound_disciplined, l_sound_k. Qed.

Lemma l_wf : wf_action a = true.
Proof. apply (d_wf _ l_disc). now left. Qed.

Lemma l_np : status_of m' <> Panicked.
Proof. exact (local_no_panic s a k rest spawned m' I P L). Qed.

Lemma l_spawned :
  match a with
  | Go f => spawned = [ body fs this f ]
  | _ => spawned = []
  end.
Proof. now apply (local_effects fs this a _ _ _ L R l_np). Qed.

Lemma l_spawn_in (x : list action) :
  In x spawned ->
  exists f, a = Go f /\ x = body fs this f /\ wf_call f = true.
Proof.
  pose proof l_spawned as S. pose proof l_wf as W.
  intros H. destruct a; rewrite S in H; try (now destruct H).
  destruct H as [<-|[]]. exists f. repeat split. exact W.
Qed.

Lemma l_tasks (x : list action) :
  In x (k :: spawned ++ rest) ->
  x = k \/ (exists f, a = Go f /\ x = body fs this f
                      /\ wf_call f = true)
  \/ In x rest.
Proof.
  intros [<-|H]; [now left|]. apply in_app_iff in H.
  destruct H as [H|H]; [right; left; now apply l_spawn_in|now right; right].
Qed.

Lemma l_fired (t : token) :
  fired t (trace m') = fired t (trace (mem s)) + own t a.
Proof. now apply (local_effects fs this a _ _ _ L R l_np). Qed.

Lemma l_fired_mono (t : token) :
  0 < fired t (trace (mem s)) -> 0 < fired t (trace m').
Proof. rewrite l_fired. pose proof (own_nonneg t a). lia. Qed.

Lemma l_grand_tok (t : token) :
  grand (tok t) (k :: spawned ++ rest)
  = grand (tok t) (tasks s) - own t a.
Proof.
  rewrite (grand_after (tok t) a k spawned rest (tasks s) P).
  - now destruct a.
  - intros c E. apply body_tok. pose proof l_wf as W.
    now rewrite E in W.
  - exact l_spawned.
Qed.

Lemma l_grand_debt (w : waitgroup) :
  grand (debt w) (k :: spawned ++ rest)
  = grand (debt w) (tasks s) - owe w a.
Proof.
  rewrite (grand_after (debt w) a k spawned rest (tasks s) P).
  - now destruct a.
  - intros c E. apply body_debt. pose proof l_wf as W.
    now rewrite E in W.
  - exact l_spawned.
Qed.

Lemma l_grand_held :
  grand held (k :: spawned ++ rest) = grand held (tasks s) - held a.
Proof.
  rewrite (grand_after held a k spawned rest (tasks s) P).
  - now destruct a.
  - intros c E. apply body_held. pose proof l_wf as W.
    now rewrite E in W.
  - exact l_spawned.
Qed.

Lemma l_grand_opened :
  grand opened (k :: spawned ++ rest)
  = grand opened (tasks s) - opened a.
Proof.
  rewrite (grand_after opened a k spawned rest (tasks s) P).
  - now destruct a.
  - intros c E. apply body_held. pose proof l_wf as W.
    now rewrite E in W.
  - exact l_spawned.
Qed.

(** What the goroutines use and touch does not grow. *)
Lemma l_uses (c : chan) :
  (forall x, In x (tasks s) -> existsb (uses c) x = false) ->
  forall x, In x (k :: spawned ++ rest) -> existsb (uses c) x = false.
Proof.
  intros H x Hx. destruct (l_tasks x Hx) as [->|[(f & E & -> & W)|Hr]].
  - now apply (existsb_false_cons _ a k), H, l_in.
  - apply bool_false_of_not_true. intros U.
    apply (body_uses fs this f c W) in U.
    pose proof (H _ l_in) as Ha. apply existsb_false_cons in Ha.
    destruct Ha as [Ha _]. rewrite E in Ha. cbn in Ha. congruence.
  - now apply H, l_rest.
Qed.

Lemma l_acts (w : waitgroup) :
  (forall x, In x (tasks s) -> existsb (acts w) x = false) ->
  forall x, In x (k :: spawned ++ rest) -> existsb (acts w) x = false.
Proof.
  intros H x Hx. destruct (l_tasks x Hx) as [->|[(f & E & -> & W)|Hr]].
  - now apply (existsb_false_cons _ a k), H, l_in.
  - apply bool_false_of_not_true. intros U.
    apply (body_acts fs this f w W) in U.
    pose proof (H _ l_in) as Ha. apply existsb_false_cons in Ha.
    destruct Ha as [Ha _]. rewrite E in Ha. cbn in Ha. congruence.
  - now apply H, l_rest.
Qed.

(** The token of an action that is being done is held once. *)
Lemma l_unique (t : token) :
  0 < own t a ->
  total (tok t) k = 0
  /\ (forall x, In x rest -> total (tok t) x = 0)
  /\ fired t (trace (mem s)) = 0
  /\ expected t = 1.
Proof.
  intros O. pose proof (inv_tokens s I t) as T.
  rewrite (grand_perm _ _ _ P), grand_cons, total_cons in T.
  pose proof (own_le_tok t a). pose proof (total_tok_nonneg t k).
  pose proof (grand_tok_nonneg t rest).
  pose proof (fired_nonneg t (trace (mem s))).
  assert (expected t <= 1)
    by (destruct t; cbn; try lia; apply b2z_range).
  splits; try lia.
  intros x Hx. pose proof (grand_tok_member t rest x Hx).
  pose proof (total_tok_nonneg t x). lia.
Qed.

Lemma l_guard (x : list action) (g t : token) :
  In x (k :: spawned ++ rest) -> guards g t = true ->
  0 < total (tok t) x ->
  0 < total (tok g) x \/ 0 < fired g (trace m').
Proof.
  intros Hx G T.
  destruct (l_tasks x Hx) as [->|[(f & E & -> & W)|Hr]].
  - (* what is left of the goroutine that moved *)
    assert (T' : 0 < total (tok t) (a :: k)).
    { rewrite total_cons. pose proof (tok_nonneg t a). lia. }
    destruct (inv_guard s I _ g t l_in G T') as [H|H];
      [|right; now apply l_fired_mono].
    rewrite total_cons in H.
    destruct (Z.lt_ge_cases 0 (total (tok g) k)) as [?|Z]; [now left|].
    right. destruct (own_cases a) as [(f & Ea)|Ow].
    + (* a call takes the token away: nothing is left to guard *)
      exfalso. pose proof (d_order _ l_disc) as O.
      rewrite Ea in H, O. cbn [tok] in H.
      pose proof (order_kept_go f k g t O G ltac:(lia)). lia.
    + rewrite l_fired, Ow.
      pose proof (fired_nonneg g (trace (mem s))). lia.
  - (* the goroutine that was started *)
    left. rewrite body_tok in * by assumption.
    now apply (call_guarded f g t W G).
  - destruct (inv_guard s I x g t (l_rest x Hr) G T) as [H|H];
      [now left|right; now apply l_fired_mono].
Qed.

Lemma l_after (g t : token) :
  guards g t = true -> 0 < fired t (trace m') ->
  0 < fired g (trace m').
Proof.
  intros G F. rewrite l_fired in F.
  destruct (Z.lt_ge_cases 0 (fired t (trace (mem s)))) as [H|H].
  - apply l_fired_mono. now apply (inv_after s I g t G).
  - assert (O : 0 < own t a) by lia.
    destruct (own_spends g t a G O) as [Sp Tg].
    pose proof (order_kept_spends a k t g (d_order _ l_disc) Sp G) as Z.
    assert (T' : 0 < total (tok t) (a :: k)).
    { rewrite total_cons. pose proof (own_le_tok t a).
      pose proof (total_tok_nonneg t k). lia. }
    destruct (inv_guard s I _ g t l_in G T') as [X|X].
    + rewrite total_cons in X. lia.
    + now apply l_fired_mono.
Qed.

Lemma l_quiet (w : waitgroup) :
  0 < fired (TWait w) (trace m') ->
  counter m' w = 0
  /\ forall x, In x (k :: spawned ++ rest) -> existsb (acts w) x = false.
Proof.
  intros F.
  assert (C : counter m' w = counter (mem s) w - owe w a)
    by now apply (local_effects fs this a _ _ _ L R l_np).
  rewrite l_fired in F.
  destruct (Z.lt_ge_cases 0 (fired (TWait w) (trace (mem s)))) as [H|H].
  - destruct (inv_quiet s I w H) as [C0 Q]. split.
    + pose proof (Q _ l_in) as Qa. apply existsb_false_cons in Qa.
      rewrite C, C0, (quiet_owe w a (proj1 Qa)). reflexivity.
    + now apply l_acts.
  - assert (O : 0 < own (TWait w) a) by lia.
    pose proof (own_wait w a O) as Ea.
    assert (C0 : counter (mem s) w = 0)
      by now apply (local_effects fs this a _ _ _ L R l_np).
    split; [rewrite C, C0, Ea; reflexivity|].
    destruct (l_unique (TWait w) O) as (Uk & Ur & _).
    pose proof (grand_zero _ _ (inv_debts s w I)
                           ltac:(now rewrite <- (inv_counter s I w))) as Z.
    rewrite Forall_forall in Z.
    intros x Hx. apply bool_false_of_not_true. intros A.
    destruct (l_tasks x Hx) as [->|[(f & E & _)|Hr]].
    + destruct (d_counts _ l_disc_k w A) as [X|X]; [lia|].
      pose proof (Z _ l_in) as Zk. rewrite total_cons, Ea in Zk.
      cbn [debt] in Zk. lia.
    + rewrite Ea in E. discriminate.
    + pose proof (inv_disciplined s x I (l_rest x Hr)) as Dx.
      destruct (d_counts _ Dx w A) as [X|X].
      * rewrite (Ur x Hr) in X. lia.
      * rewrite (Z x (l_rest x Hr)) in X. lia.
Qed.

Lemma l_mute (c : chan) :
  closed m' c = true ->
  forall x, In x (k :: spawned ++ rest) -> existsb (uses c) x = false.
Proof.
  intros Cl.
  assert (C : closed m' c = closed (mem s) c || (0 <? own (TClose c) a))
    by now apply (local_effects fs this a _ _ _ L R l_np).
  rewrite C in Cl. apply orb_true_iff in Cl.
  destruct (closed (mem s) c) eqn:Cs.
  - apply l_uses. now apply (inv_mute s I c).
  - destruct Cl as [?|O]; [discriminate|]. apply Z.ltb_lt in O.
    pose proof (own_close c a O) as Ea.
    destruct (l_unique (TClose c) O) as (Uk & Ur & _ & Ex).
    assert (Nc : c <> chPrint) by (intros ->; discriminate).
    (* the wait that comes before the closing has returned *)
    assert (Q : forall w, protect c = Some w ->
                 forall x, In x (tasks s) -> total (debt w) x = 0).
    { intros w Pw.
      pose proof (protect_guards c w Pw) as G.
      pose proof (order_kept_spends a k (TClose c) (TWait w)
                    (d_order _ l_disc) ltac:(now rewrite Ea) G) as Z.
      assert (T' : 0 < total (tok (TClose c)) (a :: k)).
      { rewrite total_cons. pose proof (own_le_tok (TClose c) a). lia. }
      destruct (inv_guard s I _ _ _ l_in G T') as [X|X].
      { rewrite total_cons, Ea in X. cbn [tok] in X. lia. }
      destruct (inv_quiet s I w X) as [C0 _].
      pose proof (grand_zero _ _ (inv_debts s w I)
                    ltac:(now rewrite <- (inv_counter s I w))) as Zs.
      now rewrite Forall_forall in Zs. }
    intros x Hx. apply bool_false_of_not_true. intros U.
    destruct (l_tasks x Hx) as [->|[(f & E & _)|Hr]].
    + destruct (d_sends _ l_disc_k c U) as [X|[X|(w & Pw & X)]];
        [contradiction|lia|].
      pose proof (Q w Pw _ l_in) as Zk. rewrite total_cons, Ea in Zk.
      cbn [debt] in Zk. lia.
    + rewrite Ea in E. discriminate.
    + pose proof (inv_disciplined s x I (l_rest x Hr)) as Dx.
      destruct (d_sends _ Dx c U) as [X|[X|(w & Pw & X)]];
        [contradiction| |].
      * rewrite (Ur x Hr) in X. lia.
      * rewrite (Q w Pw x (l_rest x Hr)) in X. lia.
Qed.

Theorem invariant_local : invariant (mkState (k :: spawned ++ rest) m').
Proof.
  pose proof (local_effects fs this a _ _ _ L R l_np)
    as (E1 & E2 & E3 & E4 & E5 & E6 & E7 & E8 & E9 & E10 & E11 & E12).
  constructor; cbn [tasks mem].
  - exact l_np.
  - intros x Hx. destruct (l_tasks x Hx) as [->|[(f & E & -> & W)|Hr]].
    + exact l_sound_k.
    + now apply body_sound.
    + now apply (inv_sound s I), l_rest.
  - intros w. rewrite l_grand_debt, E2, (inv_counter s I). reflexivity.
  - intros t. rewrite l_grand_tok, l_fired.
    pose proof (inv_tokens s I t). lia.
  - intros c. rewrite E7, l_fired, (inv_closed s I).
    pose proof (own_nonneg (TClose c) a).
    pose proof (fired_nonneg (TClose c) (trace (mem s))).
    destruct (Z.ltb_spec 0 (fired (TClose c) (trace (mem s))));
      destruct (Z.ltb_spec 0 (own (TClose c) a));
      destruct (Z.ltb_spec 0 (fired (TClose c) (trace (mem s))
                              + own (TClose c) a));
      try reflexivity; lia.
  - intros c F. rewrite E7. rewrite l_fired in F.
    destruct (Z.lt_ge_cases 0 (fired (TRange c) (trace (mem s))))
      as [H|H].
    + now rewrite (inv_ended s I c H).
    + rewrite (E8 c ltac:(lia)). reflexivity.
  - intros x g t. apply l_guard.
  - exact l_after.
  - exact l_quiet.
  - exact l_mute.
  - destruct E12 as (evs & -> & N). intros t1 t2 c msg E.
    destruct (trace_split evs _ t1 t2 c msg N E) as (t1' & E').
    now apply (inv_order s I t1' t2 c msg).
  - destruct (inv_permits s I) as [Pm Pb]. split.
    + rewrite l_grand_held, E3, Pm. reflexivity.
    + now apply E4.
  - rewrite l_grand_opened.
    destruct (Z.lt_ge_cases 0 (opened a)) as [H|H].
    + rewrite E5, (inv_open s I); try lia.
      rewrite (inv_open s I).
      pose proof (grand_lower _ _ _ (inv_openeds s I) l_in) as G.
      rewrite total_cons in G.
      pose proof (proj1 (d_open _ l_disc_k)). lia.
    + rewrite E6, (inv_open s I); lia.
  - intros X. destruct E11 as [Y|(code & Ea & Y)]; [congruence|].
    rewrite Y in X. injection X as ->.
    rewrite l_fired, Ea. cbn [own tok].
    pose proof (fired_nonneg TExit (trace (mem s))). cbn. lia.
Qed.

End Local.

Section Sync.
Variables (s : state) (c : chan) (msg : string) (l : loop)
          (k k' : list action) (rest : list (list action)).
Hypothesis I : invariant s.
Hypothesis R : status_of (mem s) = Running.
Hypothesis P : Permutation (tasks s)
                 ((Send c msg :: k) :: (Range c l :: k') :: rest).
Hypothesis Cl : closed (mem s) c = false.

Lemma y_in_send : In (Send c msg :: k) (tasks s).
Proof. eapply Permutation_in; [symmetry; exact P|now left]. Qed.

Lemma y_in_range : In (Range c l :: k') (tasks s).
Proof.
  eapply Permutation_in; [symmetry; exact P|right; now left].
Qed.

Lemma y_rest (x : list action) : In x rest -> In x (tasks s).
Proof.
  intros H. eapply Permutation_in; [symmetry; exact P|now right; right].
Qed.

Lemma y_wf : wf_loop c l = true.
Proof.
  apply (d_wf _ (inv_disciplined s _ I y_in_range) (Range c l)).
  now left.
Qed.

Lemma y_grand (f : action -> Z) :
  f (Send c msg) = 0 -> total f (loop_body this l msg) = 0 ->
  grand f (k :: (loop_body this l msg ++ Range c l :: k') :: rest)
  = grand f (tasks s).
Proof.
  intros F B. rewrite (grand_perm f _ _ P).
  rewrite !grand_cons, total_app, (total_cons f (Send c msg)), F, B. lia.
Qed.

Lemma y_tasks (x : list action) :
  In x (k :: (loop_body this l msg ++ Range c l :: k') :: rest) ->
  x = k \/ x = loop_body this l msg ++ Range c l :: k' \/ In x rest.
Proof. intros [<-|[<-|H]]; auto. Qed.

Theorem invariant_sync :
  invariant (mkState
               (k :: (loop_body this l msg ++ Range c l :: k') :: rest)
               (log (EvSend c msg) (mem s))).
Proof.
  destruct (loop_body_totals this c l msg y_wf)
    as (B1 & B2 & B3 & B4 & B5 & B6).
  assert (F : forall t, fired t (trace (log (EvSend c msg) (mem s)))
                        = fired t (trace (mem s))).
  { intros t. cbn [log trace]. rewrite fired_cons. now destruct t. }
  assert (T : forall t,
             total (tok t) (loop_body this l msg ++ Range c l :: k')
             = total (tok t) (Range c l :: k')).
  { intros t. rewrite total_app, B1. lia. }
  constructor; cbn [tasks mem]; try rewrite !F.
  - cbn. rewrite R. discriminate.
  - intros x Hx. destruct (y_tasks x Hx) as [->|[->|Hr]].
    + eapply sound_tail, (inv_sound s I), y_in_send.
    + apply sound_loop_body, (inv_sound s I), y_in_range.
    + now apply (inv_sound s I), y_rest.
  - intros w. rewrite y_grand; [apply (inv_counter s I)| |apply B2].
    reflexivity.
  - intros t. rewrite F, y_grand; [apply (inv_tokens s I)| |apply B1].
    now destruct t.
  - intros c0. rewrite F. apply (inv_closed s I).
  - intros c0. rewrite F. apply (inv_ended s I).
  - intros x g t Hx G Tx. rewrite F.
    destruct (y_tasks x Hx) as [->|[->|Hr]].
    + apply (inv_guard s I _ g t y_in_send G) in Tx as [H|H]; auto.
    + rewrite T in *. now apply (inv_guard s I _ g t y_in_range G).
    + now apply (inv_guard s I x g t (y_rest x Hr) G).
  - intros g t. rewrite !F. apply (inv_after s I).
  - intros w. rewrite F. intros Fw.
    destruct (inv_quiet s I w Fw) as [C0 Q]. split; [exact C0|].
    intros x Hx. destruct (y_tasks x Hx) as [->|[->|Hr]].
    + now apply (existsb_false_cons _ (Send c msg) k), Q, y_in_send.
    + pose proof (Q _ y_in_range) as Qr.
      apply existsb_false_app; [|exact Qr].
      apply bool_false_of_not_true. intros A. apply B6 in A.
      apply existsb_false_cons in Qr. destruct Qr as [Qr _].
      congruence.
    + now apply Q, y_rest.
  - intros c0 C0 x Hx.
    pose proof (inv_mute s I c0 C0) as Q.
    destruct (y_tasks x Hx) as [->|[->|Hr]].
    + now apply (existsb_false_cons _ (Send c msg) k), Q, y_in_send.
    + pose proof (Q _ y_in_range) as Qr.
      apply existsb_false_app; [|exact Qr].
      apply bool_false_of_not_true. intros A. apply B5 in A.
      apply existsb_false_cons in Qr. destruct Qr as [Qr _].
      congruence.
    + now apply Q, y_rest.
  - intros t1 t2 c0 msg0 E. cbn [log trace] in E.
    destruct t1 as [|e t1]; cbn in E.
    + injection E as <- <- <-.
      pose proof (inv_closed s I c) as X. rewrite Cl in X.
      symmetry in X. apply Z.ltb_ge in X.
      pose proof (fired_nonneg (TClose c) (trace (mem s))). lia.
    + injection E as _ E2. now apply (inv_order s I t1 t2 c0 msg0).
  - destruct (inv_permits s I) as [Pm Pb]. split; [|exact Pb].
    cbn [log permits]. rewrite y_grand; [exact Pm|reflexivity|exact B3].
  - cbn [log openfiles].
    rewrite y_grand; [apply (inv_open s I)|reflexivity|exact B4].
  - cbn. rewrite R. discriminate.
Qed.

End Sync.

Theorem invariant_step (s s' : state) :
  invariant s -> step fs this s s' -> invariant s'.
Proof.
  intros I St. destruct St.
  - now apply (invariant_local s a k rest spawned m').
  - now apply invariant_sync.
Qed.

Theorem invariant_init (fpath : string) (isColor : bool) :
  invariant (init fpath isColor).
Proof.
  constructor; cbn [init tasks mem init_store status_of counter closed
                    permits openfiles trace].
  - discriminate.
  - intros k [<-|[]]. apply sound_main.
  - intros w. destruct isColor, w; reflexivity.
  - intros t. destruct isColor; destruct t as [c|w|c|];
      try reflexivity; try (destruct c; reflexivity);
      destruct w; reflexivity.
  - reflexivity.
  - cbn. lia.
  - intros k g t [<-|[]] G T. left.
    destruct g as [c|w|c|]; try discriminate;
      destruct t as [c'|w'|c'|]; try (destruct w; discriminate);
      try (destruct c; discriminate).
    + destruct w, c'; try discriminate; destruct isColor; reflexivity.
    + destruct w; try discriminate; destruct isColor; reflexivity.
    + destruct c, c'; try discriminate; destruct isColor; reflexivity.
  - cbn. intros; lia.
  - cbn. intros; lia.
  - discriminate.
  - intros t1 t2 c msg E. destruct t1; discriminate.
  - split; [destruct isColor; reflexivity|unfold maxNumOfFileOpen; lia].
  - destruct isColor; reflexivity.
  - discriminate.
Qed.

Theorem invariant_reachable (fpath : string) (isColor : bool) (s : state) :
  reachable fs this fpath isColor s -> invariant s.
Proof.
  unfold reachable. intros H.
  remember (init fpath isColor) as s0 eqn:E.
  induction H as [s|s s' s'' _ IH St].
  - subst s. apply invariant_init.
  - eapply invariant_step; [apply IH; exact E|exact St].
Qed.

End Preservation.

(** ** The scheduler follows the machine *)

Lemma pick_perm {A : Type} (i : nat) (l : list A) (x : A) (rest : list A) :
  pick i l = Some (x, rest) -> Permutation l (x :: rest).
Proof.
  revert i x rest. induction l as [|y l IH]; intros i x rest H.
  - destruct i; discriminate.
  - destruct i as [|i]; cbn in H.
    + injection H as <- <-. reflexivity.
    + destruct (pick i l) as [[z t]|] eqn:E; [|discriminate].
      injection H as <- <-. rewrite (IH i z t E). apply perm_swap.
Qed.

Section Scheduler.
Context {RE : RegexpLib}.
Variables (fs : os.FileSystem) (this : gorep).

Lemma fire_step (i j : nat) (s s' : state) :
  fire fs this i j s = Some s' -> step fs this s s'.
Proof.
  unfold fire. destruct (status_of (mem s)) eqn:R; try discriminate.
  destruct (pick i (tasks s)) as [[[|a k] rest]|] eqn:Pi; try discriminate.
  pose proof (pick_perm _ _ _ _ Pi) as P.
  destruct (local fs this a (mem s)) as [[spawned m']|] eqn:L.
  - intros H. injection H as <-. now apply step_local with (a := a).
  - destruct a; try discriminate.
    destruct (pick j rest) as [[[|[] k'] rest']|] eqn:Pj; try discriminate.
    destruct (chan_eqb c c0 && negb (closed (mem s) c)) eqn:E;
      [|discriminate].
    apply andb_true_iff in E. destruct E as [E1 E2].
    apply chan_eqb_eq in E1. subst c0. apply negb_true_iff in E2.
    intros H. injection H as <-.
    apply step_sync; [exact R| |exact E2].
    rewrite P. apply perm_skip. now apply pick_perm with (i := j).
Qed.

Lemma run_steps (sched : list (nat * nat)) (s s' : state) :
  run fs this sched s = Some s' -> steps fs this s s'.
Proof.
  revert s. induction sched as [|[i j] sched IH]; intros s H.
  - injection H as <-. apply steps_refl.
  - cbn [run] in H. destruct (fire fs this i j s) as [s1|] eqn:F;
      [|discriminate].
    apply fire_step in F. specialize (IH s1 H).
    clear -F IH. induction IH as [s1|s1 s2 s3 _ IH' St].
    + eapply steps_step; [apply steps_refl|exact F].
    + eapply steps_step; [now apply IH'|exact St].
Qed.

Lemma run_state_reachable (fpath : string) (isColor : bool)
      (sched : list (nat * nat)) :
  reachable fs this fpath isColor (run_state fs this fpath isColor sched).
Proof.
  unfold run_state, reachable.
  destruct (run fs this sched (init fpath isColor)) as [s|] eqn:E.
  - now apply run_steps with (sched := sched).
  - apply steps_refl.
Qed.

End Scheduler.

(** ** Reading the invariant *)

Lemma fired_in_close (c : chan) (tr : list event) :
  0 < fired (TClose c) tr -> In (EvClose c) tr.
Proof.
  induction tr as [|e tr IH]; [cbn; lia|]. rewrite fired_cons.
  destruct (Z.lt_ge_cases 0 (fired (TClose c) tr)) as [H|H];
    [intros _; right; now apply IH|].
  intros F. left. destruct e; cbn in F; try lia.
  destruct (chan_eqb c c0) eqn:E; [|cbn in F; lia].
  apply chan_eqb_eq in E. now subst.
Qed.

Lemma fired_in_wait (w : waitgroup) (tr : list event) :
  0 < fired (TWait w) tr -> In (EvWait w) tr.
Proof.
  induction tr as [|e tr IH]; [cbn; lia|]. rewrite fired_cons.
  destruct (Z.lt_ge_cases 0 (fired (TWait w) tr)) as [H|H];
    [intros _; right; now apply IH|].
  intros F. left. destruct e; cbn in F; try lia.
  destruct (waitgroup_eqb w w0) eqn:E; [|cbn in F; lia].
  apply waitgroup_eqb_eq in E. now subst.
Qed.

Lemma fired_in_range (c : chan) (tr : list event) :
  0 < fired (TRange c) tr -> In (EvRangeEnd c) tr.
Proof.
  induction tr as [|e tr IH]; [cbn; lia|]. rewrite fired_cons.
  destruct (Z.lt_ge_cases 0 (fired (TRange c) tr)) as [H|H];
    [intros _; right; now apply IH|].
  intros F. left. destruct e; cbn in F; try lia.
  destruct (chan_eqb c c0) eqn:E; [|cbn in F; lia].
  apply chan_eqb_eq in E. now subst.
Qed.

Lemma existsb_false_in {A : Type} (p : A -> bool) (l : list A) (a : A) :
  existsb p l = false -> In a l -> p a = false.
Proof.
  intros H Hin. apply bool_false_of_not_true. intros Pa.
  assert (existsb p l = true) by (apply existsb_exists; eauto).
  congruence.
Qed.

Section Reading.
Context {RE : RegexpLib}.
Variables (fs : os.FileSystem) (this : gorep).

Lemma inv_closed_once (s : state) (c : chan) :
  invariant s ->
  fired (TClose c) (trace (mem s)) <= 1
  /\ (closed (mem s) c = true <-> fired (TClose c) (trace (mem s)) = 1).
Proof.
  intros I. pose proof (inv_tokens s I (TClose c)) as T.
  pose proof (grand_tok_nonneg (TClose c) (tasks s)).
  pose proof (fired_nonneg (TClose c) (trace (mem s))).
  assert (expected (TClose c) <= 1) by (cbn; apply b2z_range).
  split; [lia|]. rewrite (inv_closed s I), Z.ltb_lt. lia.
Qed.

(** Once the wait of a wait group has returned, its counter is zero
    and no goroutine has anything left to do with it. *)
Lemma inv_waited (s : state) (g t : token) (w : waitgroup) :
  invariant s -> g = TWait w -> guards g t = true ->
  0 < fired t (trace (mem s)) ->
  In (EvWait w) (trace (mem s))
  /\ counter (mem s) w = 0
  /\ forall k a, In k (tasks s) -> In a k -> acts w a = false.
Proof.
  intros I -> G F. pose proof (inv_after s I _ _ G F) as W.
  destruct (inv_quiet s I w W) as [C Q]. splits.
  - now apply fired_in_wait.
  - exact C.
  - intros k a Hk Ha. now apply (existsb_false_in _ k a (Q k Hk)).
Qed.

Lemma inv_ranged (s : state) (c c' : chan) :
  invariant s -> guards (TRange c) (TClose c') = true ->
  closed (mem s) c' = true ->
  In (EvRangeEnd c) (trace (mem s)) /\ closed (mem s) c = true.
Proof.
  intros I G Cl. rewrite (inv_closed s I) in Cl. apply Z.ltb_lt in Cl.
  pose proof (inv_after s I _ _ G Cl) as F. split.
  - now apply fired_in_range.
  - now apply (inv_ended s I).
Qed.

(** When [main] has returned, every result stream has been closed. *)
Lemma inv_completed (s : state) (c : chan) :
  invariant s -> status_of (mem s) = Exited 0 -> isReduce c = true ->
  fired (TClose c) (trace (mem s)) = 1.
Proof.
  intros I X Rc. pose proof (inv_exit s I X) as E.
  pose proof (inv_after s I (TWait waitReports) TExit eq_refl E) as W.
  destruct (inv_quiet s I waitReports W) as [_ Q].
  assert (Z : forall k, In k (tasks s) -> total (tok (TRange c)) k = 0).
  { intros k Hk. pose proof (total_tok_nonneg (TRange c) k).
    destruct (Z.lt_ge_cases 0 (total (tok (TRange c)) k)) as [H'|H'];
      [|lia].
    pose proof (d_reports k (inv_disciplined s k I Hk) c Rc H') as A.
    rewrite (Q k Hk) in A. discriminate. }
  assert (G : grand (tok (TRange c)) (tasks s) = 0).
  { clear -Z. induction (tasks s) as [|k ts IH]; [reflexivity|].
    rewrite grand_cons, (Z k (or_introl eq_refl)), IH; [reflexivity|].
    intros x Hx. apply Z. now right. }
  pose proof (inv_tokens s I (TRange c)) as T. rewrite G in T.
  assert (F : 0 < fired (TRange c) (trace (mem s)))
    by (destruct c; try discriminate; cbn in T; lia).
  pose proof (inv_ended s I c F) as Cl.
  now apply (inv_closed_once s c I).
Qed.

End Reading.

(** ** The counting of the walkers and of the scans *)

Section Counting.
Context {RE : RegexpLib}.
Variables (fs : os.FileSystem) (this : gorep).

(** In the script of [mapfork], every start of an expansion comes
    right after the addition of one to [waitMaps]. *)
Lemma entries_add_before_go (fpath : string) (chans : channelSet.t)
      (listing : list os.FileInfo) (tail pre post : list action)
      (f : call) :
  (forall pre' post', tail = pre' ++ Go f :: post' ->
                      exists pre'', pre' = pre'' ++ [ Add waitMaps 1 ]) ->
  flat_map (mapfork_entry this fpath chans) listing ++ tail
  = pre ++ Go f :: post ->
  exists pre', pre = pre' ++ [ Add waitMaps 1 ].
Proof.
  intros T. revert pre. induction listing as [|e l IH]; intros pre E.
  - now apply (T pre post).
  - cbn [flat_map] in E. rewrite <- app_assoc in E.
    unfold mapfork_entry at 1 in E.
    set (k := flat_map (mapfork_entry this fpath chans) l ++ tail) in *.
    assert (Skip : forall pre0, k = pre0 ++ Go f :: post ->
                                exists pre', pre0 = pre' ++ [Add waitMaps 1])
      by exact IH.
    assert (One : forall a pre0,
               (forall g, a <> Go g) ->
               [a] ++ k = pre0 ++ Go f :: post ->
               exists pre', pre0 = pre' ++ [Add waitMaps 1]).
    { intros a pre0 Na E0. destruct pre0 as [|b pre0]; cbn in E0.
      - injection E0 as E1 _. now destruct (Na f).
      - injection E0 as <- E2. destruct (Skip pre0 E2) as [p ->].
        now exists (a :: p). }
    destruct (negb (searchScope.hidden (scope this))
              && verifyHidden (os.Name e)); [now apply Skip|].
    destruct (matchesIgnore this (os.Name e)); [now apply Skip|].
    destruct (negb (Z.land (os.Mode e) os.ModeDir =? 0)).
    { cbn [app] in E.
      destruct pre as [|b1 [|b2 [|b3 pre]]]; cbn in E; try discriminate.
      - injection E as <- <- _ _.
        now exists [Send (channelSet.dir chans)
                      (fpath ++ separator ++ os.Name e)%string].
      - injection E as <- <- <- E4. destruct (Skip pre E4) as [p ->].
        eexists (_ :: _ :: _ :: p). reflexivity. }
    destruct (negb (Z.land (os.Mode e) os.ModeSymlink =? 0)).
    { eapply One; [|exact E]. discriminate. }
    destruct (Z.land (os.Mode e) ignoreFlag =? 0).
    { eapply One; [|exact E]. discriminate. }
    now apply Skip.
Qed.

End Counting.

Section Walkers.
Context {RE : RegexpLib}.
Variables (fs : os.FileSystem) (this : gorep).

Lemma mapfork_add_before_go (fpath : string) (chans : channelSet.t)
      (pre post : list action) (f : call) :
  mapfork fs this fpath chans = pre ++ Go f :: post ->
  exists pre', pre = pre' ++ [ Add waitMaps 1 ].
Proof.
  unfold mapfork. destruct (os.ReadDir fs fpath) as [listing|e].
  - apply entries_add_before_go. intros pre' post' E.
    destruct pre' as [|a [|b p]]; discriminate.
  - intros E. destruct pre as [|a [|b [|c p]]]; try discriminate.
    destruct p; discriminate.
Qed.

Lemma grep_loop_sends (fpath : string) (out : chan) (b : bool)
      (fuel : nat) :
  forall (m : list byte) (n : Z),
    Forall (fun a => (exists msg, a = Send out msg)
                     \/ (exists e, a = Stderr e))
           (grep_loop this fpath out b fuel m n).
Proof.
  induction fuel as [|fuel IH]; intros m n; [constructor|].
  cbn [grep_loop].
  destruct (0 <? Z.of_nat (length m)); [|constructor].
  destruct (MatchString _ _); [|apply IH].
  destruct b; [constructor; [left; eauto|constructor]|].
  destruct (matchesIgnore this _); [apply IH|].
  constructor; [left; eauto|apply IH].
Qed.

(** [grep] takes a permit first and gives it back last, whatever
    happens in between; the file is open only in between. *)
Lemma grep_brackets (fpath : string) (out : chan) :
  (exists e, grep fs this fpath out
             = [ Acquire; Stderr e; Release; Done waitGreps ])
  \/ (exists scan,
         grep fs this fpath out
         = Acquire :: FOpen fpath :: scan
           ++ [ FClose fpath; Release; Done waitGreps ]
         /\ Forall (fun a => (exists msg, a = Send out msg)
                             \/ (exists e, a = Stderr e)) scan).
Proof.
  unfold grep. destruct (os.Open fs fpath) as [u|e];
    [right|left; eexists; reflexivity].
  assert (X : forall scan,
             FOpen fpath :: scan ++ [FClose fpath]
             = FOpen fpath :: scan ++ [FClose fpath]) by reflexivity.
  destruct (os.Stat fs fpath) as [size|e].
  - destruct (os.Mmap fs fpath size) as [mem|e].
    + exists (grep_scan this fpath out mem). split.
      * cbn [app]. now rewrite <- app_assoc.
      * unfold grep_scan.
        destruct (verifyBinary mem
                  && negb (searchScope.binary (scope this)));
          [constructor|apply grep_loop_sends].
    + eexists [_]. split; [reflexivity|].
      constructor; [right; eauto|constructor].
  - eexists [_]. split; [reflexivity|].
    constructor; [right; eauto|constructor].
Qed.

End Walkers.

(** C2.  At every moment of every run, the files that [grep] holds open
    are no more than the permits taken, and these no more than 10.
    Every scan takes its permit before it opens its file and gives it
    back after it has closed it, on every path: [grep] is [Acquire],
    then either the report of the open error, or the opening, the scan
    (sends and error reports only) and the closing, then [Release]. *)
Theorem open_files_bounded {RE : RegexpLib} (fs : os.FileSystem)
        (this : gorep) (fpath : string) (isColor : bool) (s : state) :
  reachable fs this fpath isColor s ->
  (openfiles (mem s) <= permits (mem s))%nat
  /\ (permits (mem s) <= maxNumOfFileOpen)%nat
  /\ maxNumOfFileOpen = 10%nat
  /\ forall (p : string) (out : chan),
      (exists e, grep fs this p out
                 = [ Acquire; Stderr e; Release; Done waitGreps ])
      \/ (exists scan,
             grep fs this p out
             = Acquire :: FOpen p :: scan
               ++ [ FClose p; Release; Done waitGreps ]
             /\ Forall (fun a => (exists msg, a = Send out msg)
                                 \/ (exists e, a = Stderr e)) scan).
Proof.
  intros Rch. pose proof (invariant_reachable fs this fpath isColor s Rch) as I.
  destruct (inv_permits s I) as [Pm Pb].
  pose proof (inv_open s I) as Op.
  assert (Le : grand opened (tasks s) <= grand held (tasks s)).
  { apply grand_le, Forall_forall. intros k Hk.
    apply (d_open k (inv_disciplined s k I Hk)). }
  splits; try lia; try reflexivity.
  intros p out. apply grep_brackets.
Qed.

(** ** Every goroutine of a run is alive *)

Lemma all_needs_complete (n : need) : In n all_needs.
Proof.
  destruct n as [c|c|w| |]; [destruct c|destruct c|destruct w| |];
    unfold all_needs, all_chans, all_waitgroups; cbn [map app In];
    repeat (try (left; reflexivity); right).
Qed.

Lemma forallb_needs (p : need -> bool) :
  forallb p all_needs = true <-> forall n, p n = true.
Proof.
  rewrite forallb_forall. split; auto using all_needs_complete.
Qed.

Lemma lively_cons (a : action) (k : list action) :
  lively (a :: k) = true <->
  (forall n, 0 < total (quantity n) (a :: k) -> allowed n a = true)
  /\ (forall code, a = Exit code -> code <> 0 ->
                   0 < total (debt waitMaps) (a :: k)).
Proof.
  unfold lively. rewrite andb_true_iff, forallb_needs. split.
  - intros [H1 H2]. split.
    + intros n Q. specialize (H1 n). apply orb_true_iff in H1.
      destruct H1 as [H1|H1]; [apply Z.leb_le in H1; lia|exact H1].
    + intros code -> Nz. apply orb_true_iff in H2.
      destruct H2 as [H2|H2];
        [apply Z.eqb_eq in H2; contradiction|now apply Z.ltb_lt].
  - intros [H1 H2]. split.
    + intros n. destruct (Z.leb_spec (total (quantity n) (a :: k)) 0) as [|Q];
        [reflexivity|]. cbn [orb]. now apply H1.
    + destruct a; try reflexivity.
      destruct (Z.eqb_spec code 0) as [|Nz]; [reflexivity|].
      cbn [orb]. apply Z.ltb_lt. now apply (H2 code).
Qed.

Lemma alive_cons (a : action) (k : list action) :
  alive (a :: k) = true <-> lively (a :: k) = true /\ alive k = true.
Proof. cbn [alive]. apply andb_true_iff. Qed.

Lemma allowed_free (n : need) (a : action) :
  free a = true -> allowed n a = true.
Proof. intros H. unfold allowed. now rewrite H. Qed.

Lemma lively_free (a : action) (k : list action) :
  free a = true -> (forall code, a <> Exit code) -> lively (a :: k) = true.
Proof.
  intros F N. apply lively_cons. split.
  - intros n _. now apply allowed_free.
  - intros code E. now destruct (N code).
Qed.

(** A loop body before the [range] of a script that is alive. *)
Lemma alive_prefix (r : action) (p k : list action) :
  prefix_lively r p = true -> alive (r :: k) = true ->
  alive (p ++ r :: k) = true.
Proof.
  intros P A. induction p as [|a p IH]; [exact A|].
  cbn [prefix_lively] in P. apply andb_true_iff in P. destruct P as [P P3].
  apply andb_true_iff in P. destruct P as [P1 P2].
  change ((a :: p) ++ r :: k) with (a :: (p ++ r :: k)).
  apply alive_cons. split; [|now apply IH].
  apply lively_cons. split.
  - intros n Q. rewrite forallb_needs in P1. specialize (P1 n).
    apply orb_true_iff in P1. destruct P1 as [P1|P1]; [exact P1|].
    apply andb_true_iff in P1. destruct P1 as [T NA].
    apply Z.leb_le in T. apply negb_true_iff in NA. exfalso.
    apply alive_cons in A. destruct A as [L _].
    apply lively_cons in L. destruct L as [L _].
    destruct (Z.lt_ge_cases 0 (total (quantity n) (r :: k))) as [X|X].
    + rewrite (L n X) in NA. discriminate.
    + change (a :: p ++ r :: k) with ((a :: p) ++ r :: k) in Q.
      rewrite total_app in Q. lia.
  - intros code -> _. discriminate P2.
Qed.

Section LoopBodies.
Context {RE : RegexpLib}.
Variable this : gorep.

Lemma loop_body_lively (c : chan) (l : loop) (msg : string) :
  wf_loop c l = true ->
  prefix_lively (Range c l) (loop_body this l msg) = true.
Proof.
  intros W.
  destruct c, l as [o|o cl|o|mk ac|]; try discriminate W;
    try (destruct o; try discriminate W);
    try (destruct cl; try discriminate W);
    unfold loop_body, filter;
    repeat match goal with
           | |- context [if ?b then _ else _] => destruct b
           end;
    reflexivity.
Qed.

End LoopBodies.

(** The scripts of [mapfork]. *)
Lemma map_action_allowed (n : need) (a : action) :
  map_action a = true -> map_need n = true -> allowed n a = true.
Proof.
  intros M N. destruct a; try discriminate M; try reflexivity.
  destruct n as [c0|c0|w| |]; try discriminate N.
  - destruct c; try discriminate M; destruct c0; try discriminate N;
      reflexivity.
  - destruct w; try discriminate N. destruct c; try discriminate M;
      reflexivity.
Qed.

Lemma map_script_quantity (n : need) (k : list action) :
  map_script k = true -> map_need n = false -> total (quantity n) k = 0.
Proof.
  intros M N. destruct (map_script_totals k M) as (T & D & H & _).
  destruct n as [c|c|w| |]; cbn [quantity].
  - apply (T (TRange c)).
  - apply (T (TClose c)).
  - apply D. intros ->. discriminate N.
  - exact H.
  - apply (T TExit).
Qed.

Lemma map_script_alive (m tail : list action) :
  map_script m = true -> alive tail = true ->
  (forall n, map_need n = false -> total (quantity n) tail <= 0) ->
  0 <= total (debt waitMaps) tail ->
  alive (m ++ tail) = true.
Proof.
  intros M A T D. induction m as [|a m IH]; [exact A|].
  destruct (map_script_cons a m M) as (Ma & Da & Mm).
  change ((a :: m) ++ tail) with (a :: (m ++ tail)).
  apply alive_cons. split; [|now apply IH].
  apply lively_cons. split.
  - intros n Q. destruct (map_need n) eqn:N.
    + now apply map_action_allowed.
    + exfalso. change (a :: m ++ tail) with ((a :: m) ++ tail) in Q.
      rewrite total_app, (map_script_quantity n _ M N) in Q.
      specialize (T n N). lia.
  - intros code _ _. change (a :: m ++ tail) with ((a :: m) ++ tail).
    rewrite total_app. lia.
Qed.

Section MapTemplates.
Context {RE : RegexpLib}.
Variables (fs : os.FileSystem) (this : gorep).

Lemma alive_mapfork (fpath : string) :
  alive (mapfork fs this fpath chsMap) = true.
Proof.
  destruct (map_script_mapfork fs this fpath) as [M _].
  rewrite <- (app_nil_r (mapfork fs this fpath chsMap)).
  apply map_script_alive; [exact M|reflexivity| |reflexivity].
  intros n _. destruct n; cbn; lia.
Qed.

Lemma alive_kick_map (fpath : string) :
  alive (kick_map fs this fpath) = true.
Proof.
  unfold kick_map. apply alive_cons. split.
  - apply lively_free; [reflexivity|discriminate].
  - destruct (map_script_mapfork fs this fpath) as [M _].
    apply map_script_alive; [exact M|reflexivity| |cbn; lia].
    intros n N.
    destruct n as [c|c|w| |]; try (destruct c); try (destruct w);
      try discriminate N; cbn; lia.
Qed.

End MapTemplates.

(** The scripts of [grep]. *)
Lemma scan_quantity (n : need) (scan : list action) :
  Forall (fun a => (exists msg, a = Send ReduceLine msg)
                   \/ (exists e, a = Stderr e)) scan ->
  total (quantity n) scan = 0.
Proof.
  induction 1 as [|a scan Ha _ IH]; [reflexivity|].
  rewrite total_cons, IH.
  destruct Ha as [[msg ->]|[e ->]]; destruct n as [c|c|w| |]; reflexivity.
Qed.

Lemma scan_alive (fpath : string) (scan : list action) :
  Forall (fun a => (exists msg, a = Send ReduceLine msg)
                   \/ (exists e, a = Stderr e)) scan ->
  alive (scan ++ [ FClose fpath; Release; Done waitGreps ]) = true.
Proof.
  intros F. induction F as [|a scan Ha F IH]; [reflexivity|].
  change ((a :: scan) ++ [FClose fpath; Release; Done waitGreps])
    with (a :: (scan ++ [FClose fpath; Release; Done waitGreps])).
  apply alive_cons. split; [|exact IH].
  destruct Ha as [[msg ->]|[e ->]];
    [|apply lively_free; [reflexivity|discriminate]].
  apply lively_cons. split; [|discriminate].
  intros n Q. rewrite total_cons, total_app, (scan_quantity n scan F) in Q.
  destruct n as [c|c|w| |]; try (destruct c); try (destruct w);
    cbn in Q; try lia; reflexivity.
Qed.

Section GrepAlive.
Context {RE : RegexpLib}.
Variables (fs : os.FileSystem) (this : gorep).

Lemma alive_grep (fpath : string) :
  alive (grep fs this fpath ReduceLine) = true.
Proof.
  destruct (grep_brackets fs this fpath ReduceLine)
    as [[e E]|(scan & E & F)]; rewrite E; [reflexivity|].
  apply alive_cons. split.
  - apply lively_cons. split; [|discriminate].
    intros n Q. rewrite !total_cons, total_app, (scan_quantity n scan F) in Q.
    destruct n as [c|c|w| |]; try (destruct c); try (destruct w);
      cbn in Q; try lia; reflexivity.
  - apply alive_cons. split.
    + apply lively_free; [reflexivity|discriminate].
    + now apply scan_alive.
Qed.

Lemma body_alive (f : call) :
  wf_call f = true -> alive (body fs this f) = true.
Proof.
  intros W. destruct f; cbn [body].
  - apply alive_kick_map.
  - reflexivity.
  - rewrite (wf_mapfork_chans fpath chans W). apply alive_mapfork.
  - destruct in_; try discriminate W; destruct out; try discriminate W;
      reflexivity.
  - destruct in_; try discriminate W; destruct out; try discriminate W;
      destruct chLine; try discriminate W; reflexivity.
  - destruct in_; try discriminate W; destruct out; try discriminate W;
      reflexivity.
  - rewrite (wf_grep_out fpath out W). apply alive_grep.
  - reflexivity.
  - destruct ch; try discriminate W; reflexivity.
Qed.

Lemma alive_main (fpath : string) (isColor : bool) :
  alive (main fpath isColor) = true.
Proof. destruct isColor; reflexivity. Qed.

End GrepAlive.

(** ** The liveness of the goroutines is kept by every step *)

Section Vital.
Context {RE : RegexpLib}.
Variables (fs : os.FileSystem) (this : gorep).

Lemma vital_init (fpath : string) (isColor : bool) :
  vital (init fpath isColor).
Proof.
  constructor; cbn [init tasks mem init_store status_of trace counter].
  - intros k [<-|[]]. apply alive_main.
  - reflexivity.
  - discriminate.
Qed.

Lemma vital_local (s : state) (a : action) (k : list action)
      (rest spawned : list (list action)) (m' : store) :
  invariant s -> vital s ->
  status_of (mem s) = Running ->
  Permutation (tasks s) ((a :: k) :: rest) ->
  local fs this a (mem s) = Some (spawned, m') ->
  vital (mkState (k :: spawned ++ rest) m').
Proof.
  intros I V R P L.
  assert (Hin : In (a :: k) (tasks s)).
  { eapply Permutation_in; [symmetry; exact P|now left]. }
  pose proof (local_no_panic fs this s a k rest spawned m' I P L) as NP.
  destruct (local_effects fs this a (mem s) m' spawned L R NP)
    as (E1 & E2 & _ & _ & _ & _ & _ & _ & _ & E10 & E11 & _).
  pose proof (v_alive s V _ Hin) as A.
  apply alive_cons in A. destruct A as [La Ak].
  apply lively_cons in La. destruct La as [_ Lx].
  constructor; cbn [tasks mem].
  - intros k0 [<-|H]; [exact Ak|].
    apply in_app_or in H. destruct H as [H|H].
    + destruct a; subst spawned; try contradiction.
      destruct H as [<-|[]]. apply body_alive.
      apply (d_wf _ (inv_disciplined s _ I Hin) (Go f)). now left.
    + apply (v_alive s V). eapply Permutation_in; [symmetry; exact P|].
      now right.
  - intros R'. rewrite E1, (v_running s V R).
    destruct a; try reflexivity.
    cbn [local] in L. injection L as _ <-. discriminate R'.
  - intros code X Nz.
    destruct E11 as [R'|(code' & -> & X')]; [congruence|].
    assert (code' = code) by congruence. subst code'.
    rewrite E2. cbn [owe debt]. rewrite Z.sub_0_r.
    rewrite (inv_counter s I).
    pose proof (grand_lower _ _ _ (inv_debts s waitMaps I) Hin).
    specialize (Lx code eq_refl Nz). lia.
Qed.

Lemma vital_sync (s : state) (c : chan) (msg : string) (l : loop)
      (k k' : list action) (rest : list (list action)) :
  invariant s -> vital s ->
  status_of (mem s) = Running ->
  Permutation (tasks s) ((Send c msg :: k) :: (Range c l :: k') :: rest) ->
  vital (mkState (k :: (loop_body this l msg ++ Range c l :: k') :: rest)
                 (log (EvSend c msg) (mem s))).
Proof.
  intros I V R P.
  assert (H1 : In (Send c msg :: k) (tasks s)).
  { eapply Permutation_in; [symmetry; exact P|now left]. }
  assert (H2 : In (Range c l :: k') (tasks s)).
  { eapply Permutation_in; [symmetry; exact P|right; now left]. }
  constructor; cbn [tasks mem log status_of trace counter].
  - intros k0 [<-|[<-|H]].
    + pose proof (v_alive s V _ H1) as A. now apply alive_cons in A.
    + apply alive_prefix; [|apply (v_alive s V _ H2)].
      apply loop_body_lively.
      apply (d_wf _ (inv_disciplined s _ I H2) (Range c l)). now left.
    + apply (v_alive s V). eapply Permutation_in; [symmetry; exact P|].
      right. now right.
  - intros _. rewrite fired_cons. cbn [fired_by].
    now rewrite (v_running s V R).
  - intros code X. congruence.
Qed.

Lemma vital_reachable (fpath : string) (isColor : bool) (s : state) :
  reachable fs this fpath isColor s -> vital s.
Proof.
  unfold reachable. intros H.
  remember (init fpath isColor) as s0 eqn:E.
  induction H as [s|s s' s'' H IH St].
  - subst s. apply vital_init.
  - specialize (IH E).
    assert (I : invariant s').
    { apply (invariant_reachable fs this fpath isColor). subst s. exact H. }
    destruct St as [s1 a k rest spawned m' R P L|s1 c msg l k k' rest R P Cl].
    + now apply (vital_local s1 a k rest spawned m').
    + now apply vital_sync.
Qed.

End Vital.

(** ** A run that has not exited goes on *)

Lemma member_perm {A : Type} (x : A) (l : list A) :
  In x l -> exists rest, Permutation l (x :: rest).
Proof.
  intros H. apply in_split in H. destruct H as (l1 & l2 & ->).
  exists (l1 ++ l2). symmetry. apply Permutation_middle.
Qed.

Lemma members_perm {A : Type} (x y : A) (l : list A) :
  In x l -> In y l -> x <> y ->
  exists rest, Permutation l (x :: y :: rest).
Proof.
  intros Hx Hy N. destruct (member_perm x l Hx) as [rest P].
  assert (Hy' : In y rest).
  { pose proof (Permutation_in y P Hy) as H. destruct H as [H|H];
      [now destruct N|exact H]. }
  destruct (member_perm y rest Hy') as [rest' P'].
  exists rest'. rewrite P. now apply perm_skip.
Qed.

Lemma grand_holder (f : action -> Z) (ts : list (list action)) :
  0 < grand f ts -> exists k, In k ts /\ 0 < total f k.
Proof.
  induction ts as [|k ts IH]; [cbn; lia|].
  rewrite grand_cons. intros H.
  destruct (Z.lt_ge_cases 0 (total f k)) as [X|X].
  - exists k. split; [now left|exact X].
  - destruct IH as (k' & Hin & Hk); [lia|].
    exists k'. split; [now right|exact Hk].
Qed.

Section Moves.
Context {RE : RegexpLib}.
Variables (fs : os.FileSystem) (this : gorep).
Variable s : state.
Hypothesis I : invariant s.
Hypothesis V : vital s.
Hypothesis R : status_of (mem s) = Running.

Lemma local_moves (a : action) (k : list action)
      (spawned : list (list action)) (m' : store) :
  In (a :: k) (tasks s) ->
  local fs this a (mem s) = Some (spawned, m') ->
  exists s', step fs this s s'.
Proof.
  intros Hin L. destruct (member_perm _ _ Hin) as [rest P].
  eexists. now apply (step_local fs this s a k rest spawned m').
Qed.

Lemma free_moves (a : action) (k : list action) :
  In (a :: k) (tasks s) -> free a = true ->
  exists s', step fs this s s'.
Proof.
  intros Hin F.
  destruct a; try discriminate F;
    try (eapply local_moves; [exact Hin|reflexivity]).
  - destruct (closed (mem s) c) eqn:Cl;
      (eapply local_moves; [exact Hin|cbn [local]; rewrite Cl; reflexivity]).
  - destruct (permits (mem s)) as [|n] eqn:Pm.
    + exfalso. destruct (inv_permits s I) as [E _]. rewrite Pm in E.
      pose proof (inv_disciplined s _ I Hin) as D.
      assert (Fa : Forall (fun k => 0 <= total held k) (tasks s)).
      { apply Forall_forall. intros k0 H0.
        pose proof (d_open k0 (inv_disciplined s k0 I H0)). lia. }
      pose proof (grand_lower _ _ _ Fa Hin) as G.
      rewrite total_cons in G. cbn [held] in G.
      assert (Sk : sound k = true)
        by (eapply sound_tail, (inv_sound s I); exact Hin).
      pose proof (d_open k (sound_disciplined k Sk)). cbn in E. lia.
    + eapply local_moves; [exact Hin|cbn [local]; rewrite Pm; reflexivity].
Qed.

Lemma sync_moves (c : chan) (msg : string) (l : loop)
      (k k' : list action) :
  In (Send c msg :: k) (tasks s) -> In (Range c l :: k') (tasks s) ->
  exists s', step fs this s s'.
Proof.
  intros H1 H2. destruct (closed (mem s) c) eqn:Cl.
  - eapply local_moves; [exact H1|cbn [local]; rewrite Cl; reflexivity].
  - destruct (members_perm _ _ _ H1 H2) as [rest P]; [discriminate|].
    eexists. now apply (step_sync fs this s c msg l k k' rest).
Qed.

(** The goroutine that answers a need. *)
Lemma answer (n : need) :
  0 < grand (quantity n) (tasks s) ->
  exists a k, In (a :: k) (tasks s) /\ allowed n a = true.
Proof.
  intros G. destruct (grand_holder _ _ G) as (k & Hin & Q).
  destruct k as [|a k]; [cbn in Q; lia|].
  exists a, k. split; [exact Hin|].
  pose proof (v_alive s V _ Hin) as A. apply alive_cons in A.
  destruct A as [L _]. apply lively_cons in L. now apply L.
Qed.

Lemma open_closing (c : chan) :
  closed (mem s) c = false -> fired (TClose c) (trace (mem s)) = 0.
Proof.
  intros Cl. rewrite (inv_closed s I) in Cl. apply Z.ltb_ge in Cl.
  pose proof (fired_nonneg (TClose c) (trace (mem s))). lia.
Qed.

Lemma answer_range (c : chan) :
  closed (mem s) c = false -> c <> MapLine ->
  exists a k, In (a :: k) (tasks s) /\ allowed (NRange c) a = true.
Proof.
  intros Cl N. apply answer.
  change (0 < grand (tok (TRange c)) (tasks s)).
  pose proof (inv_tokens s I (TRange c)) as T.
  assert (F : fired (TRange c) (trace (mem s)) <= 0).
  { destruct (Z.lt_ge_cases 0 (fired (TRange c) (trace (mem s))))
      as [X|X]; [|lia].
    rewrite (inv_ended s I c X) in Cl. discriminate. }
  assert (expected (TRange c) = 1) by (destruct c; try reflexivity;
                                       now destruct N).
  lia.
Qed.

Lemma answer_close (c : chan) :
  closed (mem s) c = false -> c <> chPrint ->
  exists a k, In (a :: k) (tasks s) /\ allowed (NClose c) a = true.
Proof.
  intros Cl N. apply answer.
  change (0 < grand (tok (TClose c)) (tasks s)).
  pose proof (inv_tokens s I (TClose c)) as T.
  rewrite (open_closing c Cl) in T.
  assert (expected (TClose c) = 1) by (destruct c; try reflexivity;
                                       now destruct N).
  lia.
Qed.

Lemma answer_debt (w : waitgroup) :
  counter (mem s) w <> 0 ->
  exists a k, In (a :: k) (tasks s) /\ allowed (NDebt w) a = true.
Proof.
  intros C. apply answer.
  change (0 < grand (debt w) (tasks s)).
  rewrite (inv_counter s I) in C.
  pose proof (grand_nonneg _ _ (inv_debts s w I)). lia.
Qed.

Lemma print_open : closed (mem s) chPrint = false.
Proof.
  rewrite (inv_closed s I). apply Z.ltb_ge.
  pose proof (inv_tokens s I (TClose chPrint)) as T.
  pose proof (grand_tok_nonneg (TClose chPrint) (tasks s)).
  cbn in T. lia.
Qed.

(** A send to the printer. *)
Lemma print_moves (msg : string) (k : list action) :
  In (Send chPrint msg :: k) (tasks s) -> exists s', step fs this s s'.
Proof.
  intros Hin.
  destruct (answer_range chPrint print_open) as (a & k' & H' & Al);
    [discriminate|].
  destruct (free a) eqn:F; [now apply (free_moves a k')|].
  destruct a; try discriminate F; unfold allowed in Al; cbn in Al;
    try discriminate Al.
  destruct c; try discriminate Al.
  now apply (sync_moves chPrint msg l k k').
Qed.

(** A send on a result stream. *)
Lemma result_moves (c : chan) (msg : string) (k : list action) :
  isReduce c = true ->
  In (Send c msg :: k) (tasks s) -> exists s', step fs this s s'.
Proof.
  intros Rc Hin. destruct (closed (mem s) c) eqn:Cl.
  { eapply local_moves; [exact Hin|cbn [local]; rewrite Cl; reflexivity]. }
  destruct (answer_range c Cl) as (a & k' & H' & Al);
    [intros ->; discriminate|].
  destruct (free a) eqn:F; [now apply (free_moves a k')|].
  destruct a; try discriminate F; unfold allowed in Al; cbn [free orb] in Al;
    try discriminate Al.
  - unfold below in Al. rewrite Rc in Al.
    assert (feeds c = false) by (destruct c; try discriminate; reflexivity).
    rewrite H in Al. cbn in Al. rewrite orb_false_r in Al.
    apply chan_eqb_eq in Al. subst c0. now apply (print_moves msg0 k').
  - apply chan_eqb_eq in Al. subst c0. now apply (sync_moves c msg l k k').
Qed.

(** The taking of a permit. *)
Lemma acquire_moves (k : list action) :
  In (Acquire :: k) (tasks s) -> exists s', step fs this s s'.
Proof.
  intros Hin. destruct (permits (mem s) <? maxNumOfFileOpen)%nat eqn:Pm.
  { eapply local_moves; [exact Hin|cbn [local]; rewrite Pm; reflexivity]. }
  apply Nat.ltb_ge in Pm. unfold maxNumOfFileOpen in Pm.
  destruct (answer NHeld) as (a & k' & H' & Al).
  { change (0 < grand held (tasks s)).
    destruct (inv_permits s I) as [E _]. lia. }
  destruct (free a) eqn:F; [now apply (free_moves a k')|].
  destruct a; try discriminate F; unfold allowed in Al; cbn [free orb] in Al;
    try discriminate Al.
  apply chan_eqb_eq in Al. subst c.
  now apply (result_moves ReduceLine msg k').
Qed.

(** The wait of the file consumer for the scans. *)
Lemma wait_greps_moves (k : list action) :
  In (Wait waitGreps :: k) (tasks s) -> exists s', step fs this s s'.
Proof.
  intros Hin. destruct (counter (mem s) waitGreps =? 0) eqn:C.
  { eapply local_moves; [exact Hin|cbn [local]; rewrite C; reflexivity]. }
  apply Z.eqb_neq in C.
  destruct (answer_debt waitGreps C) as (a & k' & H' & Al).
  destruct (free a) eqn:F; [now apply (free_moves a k')|].
  destruct a; try discriminate F; unfold allowed in Al; cbn [free orb] in Al;
    try discriminate Al.
  - apply chan_eqb_eq in Al. subst c.
    now apply (result_moves ReduceLine msg k').
  - now apply (acquire_moves k').
Qed.

(** A send on a raw stream. *)
Lemma raw_moves (c : chan) (msg : string) (k : list action) :
  feeds c = true ->
  In (Send c msg :: k) (tasks s) -> exists s', step fs this s s'.
Proof.
  intros Fc Hin. destruct (closed (mem s) c) eqn:Cl.
  { eapply local_moves; [exact Hin|cbn [local]; rewrite Cl; reflexivity]. }
  destruct (answer_range c Cl) as (a & k' & H' & Al);
    [intros ->; discriminate|].
  destruct (free a) eqn:F; [now apply (free_moves a k')|].
  destruct a; try discriminate F; unfold allowed in Al; cbn [free orb] in Al;
    try discriminate Al.
  - unfold below in Al. rewrite Fc in Al.
    assert (isReduce c = false) by (destruct c; try discriminate; reflexivity).
    rewrite H in Al. cbn in Al.
    now apply (result_moves c0 msg0 k').
  - apply chan_eqb_eq in Al. subst c0. now apply (sync_moves c msg l k k').
Qed.

(** The wait of the root walker for the expansions. *)
Lemma wait_maps_moves (k : list action) :
  In (Wait waitMaps :: k) (tasks s) -> exists s', step fs this s s'.
Proof.
  intros Hin. destruct (counter (mem s) waitMaps =? 0) eqn:C.
  { eapply local_moves; [exact Hin|cbn [local]; rewrite C; reflexivity]. }
  apply Z.eqb_neq in C.
  destruct (answer_debt waitMaps C) as (a & k' & H' & Al).
  destruct (free a) eqn:F; [now apply (free_moves a k')|].
  destruct a; try discriminate F; unfold allowed in Al; cbn [free orb] in Al;
    try discriminate Al.
  now apply (raw_moves c msg k').
Qed.

(** The [range] of a consumer over its raw stream. *)
Lemma range_raw_moves (c : chan) (l : loop) (k : list action) :
  feeds c = true ->
  In (Range c l :: k) (tasks s) -> exists s', step fs this s s'.
Proof.
  intros Fc Hin. destruct (closed (mem s) c) eqn:Cl.
  { eapply local_moves; [exact Hin|cbn [local]; rewrite Cl; reflexivity]. }
  destruct (answer_close c Cl) as (a & k' & H' & Al);
    [intros ->; discriminate|].
  assert (Mc : isMap c = true) by (destruct c; try discriminate; reflexivity).
  assert (Rc : isReduce c = false)
    by (destruct c; try discriminate; reflexivity).
  destruct (free a) eqn:F; [now apply (free_moves a k')|].
  destruct a; try discriminate F; unfold allowed in Al; cbn [free orb] in Al;
    rewrite ?Mc, ?Rc in Al; cbn in Al; try discriminate Al.
  - rewrite orb_false_r in Al. now apply (raw_moves c0 msg k').
  - rewrite orb_false_r in Al. apply waitgroup_eqb_eq in Al. subst w.
    now apply (wait_maps_moves k').
Qed.

(** The [range] of a reporter over its result stream. *)
Lemma range_result_moves (c : chan) (l : loop) (k : list action) :
  isReduce c = true ->
  In (Range c l :: k) (tasks s) -> exists s', step fs this s s'.
Proof.
  intros Rc Hin. destruct (closed (mem s) c) eqn:Cl.
  { eapply local_moves; [exact Hin|cbn [local]; rewrite Cl; reflexivity]. }
  destruct (answer_close c Cl) as (a & k' & H' & Al);
    [intros ->; discriminate|].
  assert (Mc : isMap c = false) by (destruct c; try discriminate; reflexivity).
  destruct (free a) eqn:F; [now apply (free_moves a k')|].
  destruct a; try discriminate F; unfold allowed in Al; cbn [free orb] in Al;
    rewrite ?Mc, ?Rc in Al; cbn in Al; try discriminate Al.
  - now apply (result_moves c0 msg k').
  - now apply (range_raw_moves c0 l0 k').
  - apply waitgroup_eqb_eq in Al. subst w. now apply (wait_greps_moves k').
Qed.

(** The wait of [report] for the reporters. *)
Lemma wait_reports_moves (k : list action) :
  In (Wait waitReports :: k) (tasks s) -> exists s', step fs this s s'.
Proof.
  intros Hin. destruct (counter (mem s) waitReports =? 0) eqn:C.
  { eapply local_moves; [exact Hin|cbn [local]; rewrite C; reflexivity]. }
  apply Z.eqb_neq in C.
  destruct (answer_debt waitReports C) as (a & k' & H' & Al).
  destruct (free a) eqn:F; [now apply (free_moves a k')|].
  destruct a; try discriminate F; unfold allowed in Al; cbn [free orb] in Al;
    try discriminate Al.
  - apply chan_eqb_eq in Al. subst c. now apply (print_moves msg k').
  - now apply (range_result_moves c l k').
Qed.

(** As long as the process has not exited, some goroutine can move:
    [main] can, or what it waits for can. *)
Lemma running_moves : exists s', step fs this s s'.
Proof.
  destruct (answer NExit) as (a & k & Hin & Al).
  { change (0 < grand (tok TExit) (tasks s)).
    pose proof (inv_tokens s I TExit) as T.
    rewrite (v_running s V R) in T. cbn in T. lia. }
  destruct (free a) eqn:F; [now apply (free_moves a k)|].
  destruct a; try discriminate F; unfold allowed in Al; cbn [free orb] in Al;
    try discriminate Al.
  apply waitgroup_eqb_eq in Al. subst w. now apply (wait_reports_moves k).
Qed.

End Moves.

Section Ends.
Context {RE : RegexpLib}.
Variables (fs : os.FileSystem) (this : gorep).

(** When the process has exited with an error, the counter of the
    walkers is not zero: nothing has been closed. *)
Lemma fatal_nothing_closed (s : state) (code : Z) (c : chan) :
  invariant s -> vital s ->
  status_of (mem s) = Exited code -> code <> 0 ->
  closed (mem s) c = false.
Proof.
  intros I V X Nz. pose proof (v_fatal s V code X Nz) as C.
  assert (M : forall c', isMap c' = true -> closed (mem s) c' = false).
  { intros c' Mc. apply bool_false_of_not_true. intros Cl.
    rewrite (inv_closed s I) in Cl. apply Z.ltb_lt in Cl.
    destruct (inv_waited s (TWait waitMaps) (TClose c') waitMaps I eq_refl)
      as (_ & Z0 & _); [exact Mc|exact Cl|lia]. }
  assert (D : forall c1 c2, guards (TRange c1) (TClose c2) = true ->
                            isMap c1 = true -> closed (mem s) c2 = false).
  { intros c1 c2 G Mc. apply bool_false_of_not_true. intros Cl.
    destruct (inv_ranged s c1 c2 I G Cl) as [_ Cl1].
    rewrite (M c1 Mc) in Cl1. discriminate. }
  destruct c; try (apply M; reflexivity).
  - apply (D MapDir); reflexivity.
  - apply (D MapFile); reflexivity.
  - apply (D MapSymlink); reflexivity.
  - apply (D MapFile); reflexivity.
  - apply print_open. exact I.
Qed.

End Ends.

(** ** On a tree of finite depth, every run ends *)

Lemma list_sum_perm (l1 l2 : list nat) :
  Permutation l1 l2 -> list_sum l1 = list_sum l2.
Proof.
  induction 1 as [|x l l' _ IH|x y l|l l' l'' _ IH1 _ IH2];
    unfold list_sum in *; cbn [fold_right] in *; lia.
Qed.

Section Ending.
Context {RE : RegexpLib}.
Variables (fs : os.FileSystem) (this : gorep).

Lemma wcall_succ (d : nat) (f : call) :
  wcall fs this (S d) f = cost fs this d (body fs this f).
Proof. reflexivity. Qed.

Lemma deep_succ (d : nat) (f : call) :
  deep fs this (S d) f = forallb (shallow fs this d) (body fs this f).
Proof. reflexivity. Qed.

Lemma cost_cons (d : nat) (a : action) (k : list action) :
  cost fs this d (a :: k) = (weight fs this d a + cost fs this d k)%nat.
Proof. reflexivity. Qed.

Lemma cost_app (d : nat) (k1 k2 : list action) :
  cost fs this d (k1 ++ k2) = (cost fs this d k1 + cost fs this d k2)%nat.
Proof. unfold cost. now rewrite map_app, list_sum_app. Qed.

Lemma load_perm (d : nat) (t1 t2 : list (list action)) (m1 m2 : store) :
  Permutation t1 t2 ->
  load fs this d (mkState t1 m1) = load fs this d (mkState t2 m2).
Proof.
  intros P. unfold load. cbn [tasks].
  apply list_sum_perm. now apply Permutation_map.
Qed.

(** More depth allowed changes nothing. *)
Lemma deep_mono (d : nat) :
  forall f, deep fs this d f = true -> deep fs this (S d) f = true.
Proof.
  induction d as [|d IH]; intros f H; [discriminate|].
  rewrite deep_succ in H. rewrite deep_succ.
  rewrite forallb_forall in *. intros a Ha. specialize (H a Ha).
  destruct a; try reflexivity. cbn [shallow] in *. now apply IH.
Qed.

Lemma shallow_mono (d : nat) (k : list action) :
  forallb (shallow fs this d) k = true ->
  forallb (shallow fs this (S d)) k = true.
Proof.
  rewrite !forallb_forall. intros H a Ha. specialize (H a Ha).
  destruct a; try reflexivity. cbn [shallow] in *. now apply deep_mono.
Qed.

Lemma wcall_stable (d : nat) :
  forall f, deep fs this d f = true ->
            wcall fs this (S d) f = wcall fs this d f.
Proof.
  induction d as [|d IH]; intros f H; [discriminate|].
  rewrite deep_succ in H. rewrite (wcall_succ (S d)), (wcall_succ d).
  induction (body fs this f) as [|a k IHk]; [reflexivity|].
  cbn [forallb] in H. apply andb_true_iff in H. destruct H as [Ha Hk].
  rewrite !cost_cons, (IHk Hk). f_equal.
  destruct a; try reflexivity. cbn [weight shallow] in *.
  now rewrite (IH f0 Ha).
Qed.

Lemma cost_stable (d : nat) (k : list action) :
  forallb (shallow fs this d) k = true ->
  cost fs this (S d) k = cost fs this d k.
Proof.
  induction k as [|a k IH]; [reflexivity|].
  cbn [forallb]. intros H. apply andb_true_iff in H. destruct H as [Ha Hk].
  rewrite !cost_cons, (IH Hk). f_equal.
  destruct a; try reflexivity. cbn [weight shallow] in *.
  now rewrite (wcall_stable d f Ha).
Qed.

(** The scripts of [grep] start no goroutine. *)
Lemma grep_script_cost (d : nat) (k : list action) :
  grep_script k = true ->
  forallb (shallow fs this d) k = true
  /\ cost fs this d k = list_sum (map wscan k).
Proof.
  induction k as [|a k IH]; [now split|]. intros G.
  destruct (grep_script_cons a k G) as (Ga & _ & _ & Gk).
  destruct (IH Gk) as [S1 C1]. rewrite cost_cons, C1.
  cbn [forallb map list_sum]. rewrite S1.
  destruct a; try discriminate Ga; try (now split).
  destruct c; try discriminate Ga. now split.
Qed.

Lemma grep_deep (d : nat) (fpath : string) :
  deep fs this (S d) (Grep fpath ReduceLine) = true
  /\ wcall fs this (S d) (Grep fpath ReduceLine) = wgrep fs this fpath.
Proof.
  rewrite deep_succ, wcall_succ. cbn [body]. unfold wgrep.
  apply grep_script_cost. apply (grep_script_grep fs this fpath).
Qed.

(** The loop bodies. *)
Lemma loop_body_shallow (d : nat) (c : chan) (l : loop) (msg : string) :
  wf_loop c l = true ->
  forallb (shallow fs this (S d)) (loop_body this l msg) = true
  /\ (cost fs this (S d) (loop_body this l msg) < wsend fs this c msg)%nat.
Proof.
  intros W. destruct (grep_deep d msg) as [G1 G2].
  destruct c, l as [o|o cl|o|mk ac|]; try discriminate W;
    try (destruct o; try discriminate W);
    try (destruct cl; try discriminate W);
    unfold loop_body, filter;
    repeat match goal with
           | |- context [if ?b then _ else _] => destruct b
           end;
    unfold cost, wsend;
    cbn [app forallb shallow andb map weight list_sum fold_right wsend];
    rewrite ?G1, ?G2; split; try reflexivity; lia.
Qed.

(** The scripts of [mapfork] on a tree of finite depth. *)
Lemma entry_shallow (d : nat) (fpath : string) (finfo : os.FileInfo) :
  (expands this finfo = true ->
   forallb (shallow fs this d)
           (mapfork fs this (fpath ++ separator ++ os.Name finfo) chsMap)
   = true) ->
  forallb (shallow fs this (S d)) (mapfork_entry this fpath chsMap finfo)
  = true.
Proof.
  unfold expands, skipped, mapfork_entry. intros H.
  destruct (negb (searchScope.hidden (scope this))
            && verifyHidden (os.Name finfo)); [reflexivity|].
  destruct (matchesIgnore this (os.Name finfo)); [reflexivity|].
  destruct (negb (Z.land (os.Mode finfo) os.ModeDir =? 0)%Z).
  - cbn [forallb shallow andb]. rewrite deep_succ. cbn [body].
    now rewrite H.
  - destruct (negb (Z.land (os.Mode finfo) os.ModeSymlink =? 0)%Z);
      [reflexivity|].
    destruct (Z.land (os.Mode finfo) ignoreFlag =? 0)%Z; reflexivity.
Qed.

Lemma levels_shallow (d : nat) :
  forall fpath,
    levels fs this (S d) fpath = true ->
    forallb (shallow fs this d) (mapfork fs this fpath chsMap) = true.
Proof.
  induction d as [|d IH]; intros fpath L; cbn [levels] in L;
    unfold mapfork; destruct (os.ReadDir fs fpath) as [listing|e];
    try reflexivity; rewrite forallb_app; apply andb_true_iff;
    (split; [|reflexivity]).
  - induction listing as [|finfo listing IHl]; [reflexivity|].
    cbn [forallb] in L. apply andb_true_iff in L. destruct L as [L1 L2].
    cbn [flat_map]. rewrite forallb_app, (IHl L2), andb_true_r.
    rewrite orb_false_r in L1. apply negb_true_iff in L1.
    revert L1. unfold expands, skipped, mapfork_entry.
    destruct (negb (searchScope.hidden (scope this))
              && verifyHidden (os.Name finfo)); [reflexivity|].
    destruct (matchesIgnore this (os.Name finfo)); [reflexivity|].
    destruct (negb (Z.land (os.Mode finfo) os.ModeDir =? 0)%Z);
      [discriminate|].
    destruct (negb (Z.land (os.Mode finfo) os.ModeSymlink =? 0)%Z);
      [reflexivity|].
    destruct (Z.land (os.Mode finfo) ignoreFlag =? 0)%Z; reflexivity.
  - induction listing as [|finfo listing IHl]; [reflexivity|].
    cbn [forallb] in L. apply andb_true_iff in L. destruct L as [L1 L2].
    cbn [flat_map]. rewrite forallb_app, (IHl L2), andb_true_r.
    apply entry_shallow. intros E. rewrite E in L1. cbn in L1.
    now apply IH.
Qed.

Lemma main_shallow (d : nat) (fpath : string) (isColor : bool) :
  levels fs this (S d) fpath = true ->
  forallb (shallow fs this (S (S (S d)))) (main fpath isColor) = true.
Proof.
  intros L. pose proof (levels_shallow d fpath L) as M.
  apply shallow_mono in M. apply shallow_mono in M.
  unfold main, kick, report.
  cbn [app forallb shallow]. rewrite (deep_succ (S (S d)) (KickMap fpath)).
  cbn [body]. unfold kick_map.
  cbn [forallb shallow]. rewrite forallb_app, M. reflexivity.
Qed.

End Ending.

Section Descent.
Context {RE : RegexpLib}.
Variables (fs : os.FileSystem) (this : gorep).
Variable d : nat.

Lemma load_state (s : state) (ts : list (list action)) :
  Permutation (tasks s) ts ->
  load fs this (S d) s = list_sum (map (cost fs this (S d)) ts).
Proof.
  intros P. unfold load. apply list_sum_perm. now apply Permutation_map.
Qed.

Lemma weight_pos (a : action) : (0 < weight fs this (S d) a)%nat.
Proof. destruct a; cbn [weight]; try lia. destruct c; cbn; lia. Qed.

(** A step of one goroutine. *)
Lemma descent_local (s : state) (a : action) (k : list action)
      (rest spawned : list (list action)) (m' : store) :
  invariant s -> leveled fs this (S d) s ->
  status_of (mem s) = Running ->
  Permutation (tasks s) ((a :: k) :: rest) ->
  local fs this a (mem s) = Some (spawned, m') ->
  leveled fs this (S d) (mkState (k :: spawned ++ rest) m')
  /\ (load fs this (S d) (mkState (k :: spawned ++ rest) m')
      < load fs this (S d) s)%nat.
Proof.
  intros I T R P L.
  assert (Hin : In (a :: k) (tasks s)).
  { eapply Permutation_in; [symmetry; exact P|now left]. }
  pose proof (local_no_panic fs this s a k rest spawned m' I P L) as NP.
  destruct (local_effects fs this a (mem s) m' spawned L R NP)
    as (_ & _ & _ & _ & _ & _ & _ & _ & _ & E10 & _).
  pose proof (T _ Hin) as Sa. cbn [forallb] in Sa.
  apply andb_true_iff in Sa. destruct Sa as [Sa Sk].
  assert (Sp : forallb (fun k0 => forallb (shallow fs this (S d)) k0) spawned
               = true
               /\ (list_sum (map (cost fs this (S d)) spawned)
                   < weight fs this (S d) a)%nat).
  { destruct a; subst spawned;
      try (split; [reflexivity|apply weight_pos]).
    cbn [shallow] in Sa. rewrite deep_succ in Sa.
    cbn [forallb map list_sum weight].
    rewrite (shallow_mono fs this d _ Sa), (cost_stable fs this d _ Sa).
    rewrite wcall_succ. split; [reflexivity|].
    unfold list_sum. cbn [fold_right]. lia. }
  destruct Sp as [Sp1 Sp2]. split.
  - intros k0 [<-|H]; [exact Sk|].
    apply in_app_or in H. destruct H as [H|H].
    + rewrite forallb_forall in Sp1. now apply Sp1.
    + apply T. eapply Permutation_in; [symmetry; exact P|now right].
  - rewrite (load_state s _ P). unfold load. cbn [tasks map].
    rewrite map_app. change (list_sum (?x :: ?l)) with (x + list_sum l)%nat.
    rewrite list_sum_app, cost_cons. lia.
Qed.

(** A send that meets its receiver. *)
Lemma descent_sync (s : state) (c : chan) (msg : string) (l : loop)
      (k k' : list action) (rest : list (list action)) :
  invariant s -> leveled fs this (S d) s ->
  Permutation (tasks s) ((Send c msg :: k) :: (Range c l :: k') :: rest) ->
  leveled fs this (S d)
          (mkState (k :: (loop_body this l msg ++ Range c l :: k') :: rest)
                   (log (EvSend c msg) (mem s)))
  /\ (load fs this (S d)
           (mkState (k :: (loop_body this l msg ++ Range c l :: k') :: rest)
                    (log (EvSend c msg) (mem s)))
      < load fs this (S d) s)%nat.
Proof.
  intros I T P.
  assert (H1 : In (Send c msg :: k) (tasks s)).
  { eapply Permutation_in; [symmetry; exact P|now left]. }
  assert (H2 : In (Range c l :: k') (tasks s)).
  { eapply Permutation_in; [symmetry; exact P|right; now left]. }
  assert (W : wf_loop c l = true).
  { apply (d_wf _ (inv_disciplined s _ I H2) (Range c l)). now left. }
  destruct (loop_body_shallow fs this d c l msg W) as [B1 B2]. split.
  - intros k0 [<-|[<-|H]].
    + pose proof (T _ H1) as X. cbn [forallb] in X.
      now apply andb_true_iff in X.
    + rewrite forallb_app, B1. apply (T _ H2).
    + apply T. eapply Permutation_in; [symmetry; exact P|].
      right. now right.
  - rewrite (load_state s _ P). unfold load. cbn [tasks map].
    repeat change (list_sum (?x :: ?l)) with (x + list_sum l)%nat.
    rewrite cost_app, !cost_cons. cbn [weight]. lia.
Qed.

Lemma descent (s s' : state) :
  invariant s -> leveled fs this (S d) s -> step fs this s s' ->
  leveled fs this (S d) s'
  /\ (load fs this (S d) s' < load fs this (S d) s)%nat.
Proof.
  intros I T St.
  destruct St as [s1 a k rest spawned m' R P L|s1 c msg l k k' rest R P Cl].
  - now apply (descent_local s1 a k rest spawned m').
  - now apply descent_sync.
Qed.

Lemma bounded_ends (n : nat) :
  forall s, invariant s -> leveled fs this (S d) s ->
            (load fs this (S d) s < n)%nat ->
            Acc (fun y x => step fs this x y) s.
Proof.
  induction n as [|n IH]; intros s I T Ln; [lia|].
  constructor. intros y St.
  destruct (descent s y I T St) as [Ty Ly].
  apply IH; [now apply (invariant_step fs this s y)|exact Ty|lia].
Qed.

End Descent.

Section Finite.
Context {RE : RegexpLib}.
Variables (fs : os.FileSystem) (this : gorep).

Lemma leveled_reachable (d : nat) (fpath : string) (isColor : bool)
      (s : state) :
  levels fs this (S d) fpath = true ->
  reachable fs this fpath isColor s ->
  leveled fs this (S (S (S d))) s.
Proof.
  intros L. unfold reachable. intros H.
  remember (init fpath isColor) as s0 eqn:E.
  induction H as [s|s s' s'' H IH St].
  - subst s. intros k [<-|[]]. now apply main_shallow.
  - specialize (IH E).
    assert (I : invariant s').
    { apply (invariant_reachable fs this fpath isColor). subst s. exact H. }
    now apply (descent fs this (S (S d)) s' s'' I IH St).
Qed.

(** On a tree of finite depth every run ends. *)
Lemma finite_run (d : nat) (fpath : string) (isColor : bool) (s : state) :
  levels fs this d fpath = true ->
  reachable fs this fpath isColor s ->
  Acc (fun y x => step fs this x y) s.
Proof.
  intros L Rch. destruct d as [|d]; [discriminate L|].
  apply (bounded_ends fs this (S (S d))
                      (S (load fs this (S (S (S d))) s))).
  - now apply (invariant_reachable fs this fpath isColor).
  - now apply (leveled_reachable d fpath isColor).
  - lia.
Qed.

End Finite.

(** ** The order of the closings *)

(** C1, as amended.  In every run, at every moment:
    - nothing has panicked: no closed channel was closed again, nothing
      was sent on a closed channel, no counter went below zero;
    - every channel has been closed at most once;
    - in the trace, no send on a channel comes after its closing, and
      no goroutine has a send on a closed channel left to do, by itself
      or by a goroutine it would start;
    - a raw stream is closed only after [waitMaps.Wait()] has
      returned: the counter is zero and no goroutine has an addition,
      a [Done] or the start of an expansion left to do;
    - the stream of match lines is closed only after the loop over the
      raw file stream has ended, that stream being closed, and after
      [waitGreps.Wait()] has returned: the counter is zero and no scan
      is left;
    - each filtered stream is closed only after the loop over its raw
      stream has ended;
    - as long as the process has not exited, some goroutine can move:
      a run stops only by the exit of the process;
    - when [main] has returned, which is the exit with status 0, each
      of the four result streams has been closed exactly once;
    - when the process has exited with another status, which is what
      [mapfork] does on a directory that it cannot list, no channel
      has been closed;
    - when the directories that [mapfork] expands are nested finitely
      deep, the run ends: no endless sequence of steps starts here.
    The counter of the walkers starts at 1: the first action of the
    root walker adds 1, and every start of an expansion comes right
    after an addition of 1. *)
Theorem streams_closed_in_order {RE : RegexpLib} (fs : os.FileSystem)
        (this : gorep) (fpath : string) (isColor : bool) (s : state) :
  reachable fs this fpath isColor s ->
  status_of (mem s) <> Panicked
  /\ (forall c,
         fired (TClose c) (trace (mem s)) <= 1
         /\ (closed (mem s) c = true
             <-> fired (TClose c) (trace (mem s)) = 1))
  /\ no_send_after_close (trace (mem s))
  /\ (forall c, closed (mem s) c = true ->
                forall k a, In k (tasks s) -> In a k -> uses c a = false)
  /\ (forall c, isMap c = true -> closed (mem s) c = true ->
                In (EvWait waitMaps) (trace (mem s))
                /\ counter (mem s) waitMaps = 0
                /\ forall k a, In k (tasks s) -> In a k ->
                               acts waitMaps a = false)
  /\ (closed (mem s) ReduceLine = true ->
      (In (EvRangeEnd MapFile) (trace (mem s))
       /\ closed (mem s) MapFile = true)
      /\ In (EvWait waitGreps) (trace (mem s))
      /\ counter (mem s) waitGreps = 0
      /\ forall k a, In k (tasks s) -> In a k -> acts waitGreps a = false)
  /\ (closed (mem s) ReduceDir = true ->
      In (EvRangeEnd MapDir) (trace (mem s))
      /\ closed (mem s) MapDir = true)
  /\ (closed (mem s) ReduceFile = true ->
      In (EvRangeEnd MapFile) (trace (mem s))
      /\ closed (mem s) MapFile = true)
  /\ (closed (mem s) ReduceSymlink = true ->
      In (EvRangeEnd MapSymlink) (trace (mem s))
      /\ closed (mem s) MapSymlink = true)
  /\ (status_of (mem s) = Running -> exists s', step fs this s s')
  /\ (status_of (mem s) = Exited 0 ->
      forall c, isReduce c = true ->
                fired (TClose c) (trace (mem s)) = 1)
  /\ (forall code, status_of (mem s) = Exited code -> code <> 0 ->
                   forall c, closed (mem s) c = false)
  /\ (exists rest, kick_map fs this fpath = Add waitMaps 1 :: rest)
  /\ (forall p chans pre post f,
         mapfork fs this p chans = pre ++ Go f :: post ->
         exists pre', pre = pre' ++ [ Add waitMaps 1 ])
  /\ (forall d, levels fs this d fpath = true ->
                Acc (fun y x => step fs this x y) s).
Proof.
  intros Rch. pose proof (invariant_reachable fs this fpath isColor s Rch) as I.
  pose proof (vital_reachable fs this fpath isColor s Rch) as V.
  assert (F : forall c, closed (mem s) c = true ->
                        0 < fired (TClose c) (trace (mem s))).
  { intros c Cl. rewrite (inv_closed s I) in Cl. now apply Z.ltb_lt. }
  splits.
  - apply (inv_status s I).
  - intros c. now apply inv_closed_once.
  - apply (inv_order s I).
  - intros c Cl k a Hk Ha.
    now apply (existsb_false_in _ k a (inv_mute s I c Cl k Hk)).
  - intros c Mc Cl.
    apply (inv_waited s (TWait waitMaps) (TClose c) waitMaps I eq_refl);
      [exact Mc|now apply F].
  - intros Cl. split.
    + now apply (inv_ranged s MapFile ReduceLine I).
    + apply (inv_waited s (TWait waitGreps) (TClose ReduceLine) waitGreps
                        I eq_refl eq_refl). now apply F.
  - now apply (inv_ranged s MapDir ReduceDir I).
  - now apply (inv_ranged s MapFile ReduceFile I).
  - now apply (inv_ranged s MapSymlink ReduceSymlink I).
  - intros R. now apply running_moves.
  - intros X c Rc. now apply inv_completed.
  - intros code X Nz c. now apply (fatal_nothing_closed s code c I V X Nz).
  - eexists. reflexivity.
  - intros p chans pre post f. apply mapfork_add_before_go.
  - intros d L. now apply (finite_run fs this d fpath isColor).
Qed.

Local Open Scope string_scope.

(** * Sample runs *)

(** The run on a directory that cannot be listed ends with
    [os.Exit(-1)], after which nothing moves: no channel has been
    closed, none of the four result streams in particular. *)
Lemma fatal_run_closes_nothing :
  reachable sample.fs sample.this "./nope" false
            (run_state sample.fs sample.this "./nope" false sample.fatal)
  /\ status_of (mem (run_state sample.fs sample.this "./nope" false
                               sample.fatal)) = Exited (-1)
  /\ (forall s', ~ step sample.fs sample.this
                      (run_state sample.fs sample.this "./nope" false
                                 sample.fatal) s')
  /\ forall c,
      closed (mem (run_state sample.fs sample.this "./nope" false
                             sample.fatal)) c = false
      /\ fired (TClose c)
               (trace (mem (run_state sample.fs sample.this "./nope" false
                                      sample.fatal))) = 0.
Proof.
  split; [apply run_state_reachable|].
  assert (E : status_of (mem (run_state sample.fs sample.this "./nope" false
                                        sample.fatal)) = Exited (-1))
    by (vm_compute; reflexivity).
  split; [exact E|]. split.
  - intros s' St. inversion St as [k1 k2 rest1 rest2 m1 m2 R P L|
                                   c msg k kr l rest m R Cl P];
      subst; cbn [mem] in *; rewrite E in R; discriminate.
  - intros c. destruct c; vm_compute; split; reflexivity.
Qed.

(** The run on the sample tree, followed to the return of [main]:
    each of the four result streams has been closed exactly once.
    The directories of the tree are nested two deep. *)
Lemma streams_closed_in_order_witness :
  reachable sample.fs sample.this "." false
            (run_state sample.fs sample.this "." false sample.schedule)
  /\ levels sample.fs sample.this 2 "." = true
  /\ status_of (mem (run_state sample.fs sample.this "." false
                               sample.schedule)) = Exited 0
  /\ forall c, isReduce c = true ->
               fired (TClose c)
                     (trace (mem (run_state sample.fs sample.this "." false
                                            sample.schedule))) = 1.
Proof.
  split; [apply run_state_reachable|].
  split; [vm_compute; reflexivity|].
  split; [vm_compute; reflexivity|].
  destruct (streams_closed_in_order
              sample.fs sample.this "." false
              (run_state sample.fs sample.this "." false sample.schedule)
              (run_state_reachable sample.fs sample.this "." false
                                   sample.schedule))
    as (_ & _ & _ & _ & _ & _ & _ & _ & _ & _ & H & _).
  apply H. vm_compute; reflexivity.
Defined.

(** The same run, stopped while three scans hold their files open. *)
Lemma open_files_bounded_witness :
  reachable sample.fs sample.this "." false
            (run_state sample.fs sample.this "." false sample.midway)
  /\ openfiles (mem (run_state sample.fs sample.this "." false
                               sample.midway)) = 3%nat
  /\ (openfiles (mem (run_state sample.fs sample.this "." false
                                sample.midway))
      <= permits (mem (run_state sample.fs sample.this "." false
                                 sample.midway)))%nat
  /\ (permits (mem (run_state sample.fs sample.this "." false
                              sample.midway)) <= 10)%nat.
Proof.
  split; [apply run_state_reachable|].
  split; [vm_compute; reflexivity|].
  destruct (open_files_bounded
              sample.fs sample.this "." false
              (run_state sample.fs sample.this "." false sample.midway)
              (run_state_reachable sample.fs sample.this "." false
                                   sample.midway))
    as (H1 & H2 & _).
  split; [exact H1|exact H2].
Defined.

(** The scan of the sample binary file, binary search enabled. *)
Lemma binary_file_scan_witness :
  verifyBinary sample.blob = true
  /\ grep sample.fs sample.thisBinary "./blob" ReduceLine
     = [ Acquire; FOpen "./blob";
         Send ReduceLine "Binary file ./blob matches";
         FClose "./blob"; Release; Done waitGreps ]
  /\ emitted ReduceLine (grep sample.fs sample.thisBinary "./blob" ReduceLine)
     = [ "Binary file ./blob matches" ].
Proof.
  assert (B : verifyBinary sample.blob = true) by (vm_compute; reflexivity).
  split; [exact B|].
  destruct (binary_file_scan sample.fs sample.thisBinary "./blob" ReduceLine
                             tt 6 sample.blob) as [_ H].
  - reflexivity.
  - reflexivity.
  - reflexivity.
  - exact B.
  - apply H.
    + reflexivity.
    + exists (list_byte_of_string ("ax" ++ String (ascii_of_nat 0) "b")).
      split; vm_compute; auto.
Defined.

(** The scan of the sample binary file, binary search disabled. *)
Lemma binary_file_skipped_witness :
  emitted ReduceLine (grep sample.fs sample.this "./blob" ReduceLine) = [].
Proof.
  vm_compute. reflexivity.
Qed.

(** The scan of the sample text: three records, for the lines 2, 5
    and 9. *)
Lemma text_file_scan_witness :
  verifyBinary sample.text = false
  /\ grep_scan sample.this "./a.txt" ReduceLine sample.text
     = [ Send ReduceLine "./a.txt:2: box";
         Send ReduceLine "./a.txt:5: helix";
         Send ReduceLine "./a.txt:9: pixel" ].
Proof.
  assert (B : verifyBinary sample.text = false) by (vm_compute; reflexivity).
  split; [exact B|].
  destruct (text_file_scan sample.this "./a.txt" ReduceLine sample.text B)
    as (_ & _ & _ & H).
  apply (H (list_byte_of_string "box") (list_byte_of_string "helix")
           (list_byte_of_string "pixel")); try (vm_compute; reflexivity).
  intros p l.
  do 11 (destruct p as [|p];
         [vm_compute; intros E; try discriminate E;
          injection E as <-;
          split; intros X; try discriminate X; try reflexivity;
          try (left; reflexivity); try (right; left; reflexivity);
          try (right; right; reflexivity);
          destruct X as [X|[X|X]]; discriminate X|]).
  vm_compute. destruct p; discriminate.
Defined.

(** In the sample binary file the only line that matches the search
    pattern is matched by the ignore pattern as well, and the marker is
    sent all the same. *)
Lemma binary_marker_despite_ignore :
  verifyBinary sample.blob = true
  /\ ignorePattern sample.thisBinary = Some "a"
  /\ grep_scan sample.thisBinary "./blob" ReduceLine sample.blob
     = [ Send ReduceLine (binaryMarker "./blob") ]
  /\ emitted ReduceLine (grep sample.fs sample.thisBinary "./blob" ReduceLine)
     = [ "Binary file ./blob matches" ]
  /\ forall l, In l (lines sample.blob) ->
               MatchString (pattern sample.thisBinary)
                           (string_of_list_byte l) = true ->
               MatchString (RegexpLib := literal) "a" (string_of_list_byte l) = true.
Proof.
  split; [vm_compute; reflexivity|].
  split; [reflexivity|].
  split; [vm_compute; reflexivity|].
  split; [vm_compute; reflexivity|].
  intros l Hl. vm_compute in Hl.
  destruct Hl as [<-|[<-|[]]]; vm_compute; auto.
Qed.

(** A record sent by the scan of the sample text. *)
Lemma emission_condition_witness :
  In (Send ReduceLine "./a.txt:5: helix")
     (grep_scan sample.this "./a.txt" ReduceLine sample.text)
  /\ ((verifyBinary sample.text = false /\
       exists (p : nat) (l : list byte),
         lineAt sample.text p = Some l
         /\ "./a.txt:5: helix" = matchLine "./a.txt" (Z.of_nat p) l
         /\ MatchString (pattern sample.this) (string_of_list_byte l) = true
         /\ (ignorePattern sample.this = None
             \/ exists re, ignorePattern sample.this = Some re
                           /\ MatchString re (string_of_list_byte l) = false))
      \/ (verifyBinary sample.text = true /\
          searchScope.binary (scope sample.this) = true /\
          "./a.txt:5: helix" = binaryMarker "./a.txt" /\
          grep_scan sample.this "./a.txt" ReduceLine sample.text
          = [ Send ReduceLine (binaryMarker "./a.txt") ] /\
          exists l, In l (lines sample.text)
                    /\ MatchString (pattern sample.this)
                                   (string_of_list_byte l) = true)).
Proof.
  assert (I : In (Send ReduceLine "./a.txt:5: helix")
                 (grep_scan sample.this "./a.txt" ReduceLine sample.text))
    by (vm_compute; right; left; reflexivity).
  split; [exact I|].
  exact (emission_condition sample.this "./a.txt" ReduceLine sample.text
                            "./a.txt:5: helix" I).
Defined.

(** The hidden directory of the sample tree is passed over. *)
Lemma skipped_child_witness :
  mapfork_entry sample.this "." chsMap (os.mkFileInfo ".git" sample.dirMode)
  = []
  /\ mapfork sample.fs sample.this "." chsMap
     = (flat_map (mapfork_entry sample.this "." chsMap)
         [ os.mkFileInfo "a.txt" sample.fileMode;
           os.mkFileInfo "blob" sample.fileMode;
           os.mkFileInfo "empty" sample.fileMode;
           os.mkFileInfo "fifo" sample.pipeMode;
           os.mkFileInfo "link" sample.linkMode;
           os.mkFileInfo "locked" sample.fileMode;
           os.mkFileInfo "sub" sample.dirMode ]
       ++ [ Done waitMaps ])%list.
Proof.
  destruct (skipped_child sample.fs sample.this "." chsMap
                          (os.mkFileInfo ".git" sample.dirMode)) as [H1 H2].
  - left. split; [reflexivity|]. exists "git". reflexivity.
  - split; [exact H1|]. apply (H2 []). reflexivity.
Defined.

(** With grep enabled and the file scope disabled, a file is scanned
    and not reported. *)
Lemma file_entry_dispatch_witness :
  loop_body (mkGorep (RE := literal) "x" None
                     (searchScope.mk false false false true false false))
            (FileLoop ReduceFile ReduceLine) "./box"
  = [ Add waitGreps 1; Go (Grep "./box" ReduceLine) ].
Proof.
  destruct (file_entry_dispatch
              (mkGorep (RE := literal) "x" None
                       (searchScope.mk false false false true false false))
              ReduceFile ReduceLine "./box") as (_ & _ & _ & H).
  apply H; reflexivity.
Defined.

(** The scans of the files of the sample tree that cannot be opened,
    examined or mapped. *)
Lemma unreadable_file_scan_witness :
  grep sample.fs sample.this "./locked" ReduceLine
  = [ Acquire;
      Stderr ("grep open error: open ./locked: permission denied" ++ newline);
      Release; Done waitGreps ]
  /\ emitted ReduceLine (grep sample.fs sample.this "./locked" ReduceLine)
     = [].
Proof.
  destruct (unreadable_file_scan sample.fs sample.this "./locked" ReduceLine)
    as (H1 & _ & _ & H4).
  split.
  - apply (H1 "open ./locked: permission denied"). reflexivity.
  - apply H4. intros u size mem O. discriminate O.
Defined.

Lemma unstatable_file_scan_witness :
  grep sample.fs sample.this "./gone" ReduceLine
  = [ Acquire; FOpen "./gone";
      Stderr ("grep stat error: stat ./gone: no such file or directory"
              ++ newline);
      FClose "./gone"; Release; Done waitGreps ].
Proof.
  vm_compute. reflexivity.
Qed.

Lemma unmappable_file_scan_witness :
  grep sample.fs sample.this "./empty" ReduceLine
  = [ Acquire; FOpen "./empty";
      Stderr ("grep mmap error: invalid argument" ++ newline);
      FClose "./empty"; Release; Done waitGreps ].
Proof.
  vm_compute. reflexivity.
Qed.



(* ================================================================== *)
(** * Part III: the rest of the program                                 *)
(* ================================================================== *)

Local Close Scope string_scope.

(** ** The mode bits of a directory entry *)

Lemma flag_bit (m n : Z) :
  0 <= n -> (Z.land m (Z.shiftl 1 n) =? 0) = negb (Z.testbit m n).
Proof.
  intros Hn. rewrite Z.shiftl_1_l.
  destruct (Z.testbit m n) eqn:T; cbn [negb].
  - apply Z.eqb_neq. intros E.
    assert (X : Z.testbit (Z.land m (2 ^ n)) n = true)
      by (rewrite Z.land_spec, T, Z.pow2_bits_true by exact Hn; reflexivity).
    rewrite E, Z.bits_0 in X. discriminate.
  - apply Z.eqb_eq. apply Z.bits_inj'. intros i Hi.
    rewrite Z.land_spec, Z.bits_0, Z.pow2_bits_eqb by exact Hn.
    destruct (Z.eqb_spec n i) as [<-|_]; [now rewrite T|apply andb_false_r].
Qed.

Lemma ignoreFlag_bits (i : Z) :
  0 <= i -> Z.testbit ignoreFlag i = (20 <=? i) && (i <=? 31).
Proof.
  intros Hi.
  change ignoreFlag with (Z.shiftl (Z.ones 12) 20).
  rewrite Z.shiftl_spec by exact Hi.
  destruct (Z.leb_spec 20 i) as [L|L]; cbn [andb].
  - destruct (Z.leb_spec i 31) as [U|U].
    + apply Z.ones_spec_low. lia.
    + apply Z.ones_spec_high. lia.
  - apply Z.testbit_neg_r. lia.
Qed.

Lemma ignoreFlag_clear (m : Z) :
  (Z.land m ignoreFlag =? 0) = true <->
  (forall i, 20 <= i <= 31 -> Z.testbit m i = false).
Proof.
  rewrite Z.eqb_eq. split.
  - intros E i Hi.
    assert (X : Z.testbit (Z.land m ignoreFlag) i = false)
      by (rewrite E; apply Z.bits_0).
    rewrite Z.land_spec, ignoreFlag_bits in X by lia.
    replace (20 <=? i) with true in X by (symmetry; apply Z.leb_le; lia).
    replace (i <=? 31) with true in X by (symmetry; apply Z.leb_le; lia).
    now rewrite andb_true_r in X.
  - intros H. apply Z.bits_inj'. intros i Hi.
    rewrite Z.land_spec, Z.bits_0, ignoreFlag_bits by exact Hi.
    destruct (Z.leb_spec 20 i) as [L|L]; [|apply andb_false_r].
    destruct (Z.leb_spec i 31) as [U|U]; [|apply andb_false_r].
    rewrite (H i) by lia. reflexivity.
Qed.

(** X1.  What [mapfork] does with an entry that it does not pass over,
    by the mode bits of the entry.  With the directory bit (bit 31) it
    sends the path on the directory stream, adds one to [waitMaps] and
    starts the expansion of the path.  Without it and with the symlink
    bit (bit 27) it sends the path on the symlink stream.  With none of
    the bits 20 to 31 it sends the path on the file stream.  Any other
    entry, a device, a pipe, a socket, or a file with the append,
    exclusive, temporary, setuid, setgid or sticky bit, is sent
    nowhere.  The path is the directory, the separator and the name. *)
Theorem entry_by_mode_bits {RE : RegexpLib} (this : gorep) (fpath : string)
        (chans : channelSet.t) (finfo : os.FileInfo) :
  skipped this finfo = false ->
  (Z.testbit (os.Mode finfo) 31 = true ->
   mapfork_entry this fpath chans finfo
   = [ Send (channelSet.dir chans) (fpath ++ separator ++ os.Name finfo);
       Add waitMaps 1;
       Go (Mapfork (fpath ++ separator ++ os.Name finfo) chans) ])
  /\ (Z.testbit (os.Mode finfo) 31 = false ->
      Z.testbit (os.Mode finfo) 27 = true ->
      mapfork_entry this fpath chans finfo
      = [ Send (channelSet.symlink chans)
               (fpath ++ separator ++ os.Name finfo) ])
  /\ ((forall i, 20 <= i <= 31 -> Z.testbit (os.Mode finfo) i = false) ->
      mapfork_entry this fpath chans finfo
      = [ Send (channelSet.file chans)
               (fpath ++ separator ++ os.Name finfo) ])
  /\ (Z.testbit (os.Mode finfo) 31 = false ->
      Z.testbit (os.Mode finfo) 27 = false ->
      (exists i, 20 <= i <= 31 /\ Z.testbit (os.Mode finfo) i = true) ->
      mapfork_entry this fpath chans finfo = []).
Proof.
  intros S. unfold skipped in S. apply orb_false_iff in S.
  destruct S as [S1 S2]. unfold mapfork_entry. rewrite S1, S2.
  unfold os.ModeDir, os.ModeSymlink.
  rewrite !flag_bit, !negb_involutive by lia.
  repeat split.
  - intros D. now rewrite D.
  - intros D L. now rewrite D, L.
  - intros H. rewrite (H 31), (H 27) by lia.
    rewrite (proj2 (ignoreFlag_clear _) H). reflexivity.
  - intros D L (i & Hi & B). rewrite D, L.
    destruct (Z.land (os.Mode finfo) ignoreFlag =? 0) eqn:E; [|reflexivity].
    rewrite (proj1 (ignoreFlag_clear _) E i Hi) in B. discriminate.
Qed.

(** ** The scope that the options give *)

(** X2.  The scope of the [gorep] that [newGorep] makes: directories,
    files and symlinks are searched by name unless [-grep-only] is
    given; contents are searched when [-g] or [-grep-only] is given;
    binary contents and hidden entries as [-search-binary] and
    [-hidden] say.  The expressions play no part in it. *)
Theorem scope_of_options {RE : RegexpLib} (expr : string) (opt : optionSet.t)
        (g : gorep) :
  newGorep expr opt = Ok g ->
  searchScope.dir (scope g) = negb (optionSet.grep_only opt)
  /\ searchScope.file (scope g) = negb (optionSet.grep_only opt)
  /\ searchScope.symlink (scope g) = negb (optionSet.grep_only opt)
  /\ searchScope.grep (scope g)
     = optionSet.g opt || optionSet.grep_only opt
  /\ searchScope.binary (scope g) = optionSet.search_binary opt
  /\ searchScope.hidden (scope g) = optionSet.hidden opt.
Proof.
  unfold newGorep.
  destruct (Compile _) as [re|e]; [|discriminate].
  destruct (0 <? Z.of_nat (String.length (optionSet.ignore opt)));
    [destruct (Compile _) as [ire|e]; [|discriminate]|];
    intros H; injection H as <-;
    destruct (optionSet.g opt), (optionSet.grep_only opt),
      (optionSet.search_binary opt), (optionSet.hidden opt);
    cbn; repeat split; reflexivity.
Qed.

(** ** Paths and names *)

Lemma list_ascii_app (a b : string) :
  list_ascii_of_string (a ++ b)
  = (list_ascii_of_string a ++ list_ascii_of_string b)%list.
Proof.
  induction a as [|c a IH]; [reflexivity|]. cbn. now rewrite IH.
Qed.

Lemma untilSlash_stop (l rest : list ascii) :
  Forall (fun c => path.isSlash c = false) l ->
  path.untilSlash (l ++ "/"%char :: rest) = l.
Proof.
  induction 1 as [|c t Hc _ IH]; cbn; [reflexivity|].
  now rewrite Hc, IH.
Qed.

(** The base name of a path that ends with a separator and a plain
    name is the name. *)
Lemma Base_join (dir name : string) :
  plain name -> path.Base (dir ++ separator ++ name) = name.
Proof.
  intros [Hne Hs]. unfold path.Base.
  destruct (dir ++ separator ++ name)%string as [|a0 p0] eqn:E.
  { exfalso. apply (f_equal list_ascii_of_string) in E.
    rewrite !list_ascii_app in E. destruct (list_ascii_of_string dir);
      discriminate E. }
  rewrite <- E. rewrite !list_ascii_app.
  change (list_ascii_of_string separator) with ["/"%char].
  rewrite !rev_app_distr. cbn [rev app].
  set (n := list_ascii_of_string name) in *.
  assert (R : Forall (fun c => path.isSlash c = false) (rev n))
    by (apply Forall_rev; exact Hs).
  assert (Nn : rev n <> []).
  { intros X. apply (f_equal (@rev ascii)) in X.
    rewrite rev_involutive in X. cbn in X. subst n.
    destruct name; [now apply Hne|discriminate]. }
  destruct (rev n) as [|c t] eqn:Rn; [now destruct Nn|].
  rewrite <- app_assoc. cbn [app].
  inversion R as [|? ? Hc Ht]; subst.
  assert (D : path.dropSlashes
                (c :: t ++ "/"%char :: rev (list_ascii_of_string dir))
              = c :: t ++ "/"%char :: rev (list_ascii_of_string dir))
    by (cbn; now rewrite Hc).
  rewrite D.
  pose proof (untilSlash_stop (c :: t) (rev (list_ascii_of_string dir)) R)
    as U.
  cbn [app] in U. rewrite U.
  rewrite <- Rn, rev_involutive. subst n.
  destruct (list_ascii_of_string name) as [|x y] eqn:Ln.
  - destruct name; [now destruct Hne|discriminate].
  - rewrite <- Ln. apply string_of_list_ascii_of_string.
Qed.

(** X3.  [verifyHidden] never reads outside its slice: the base name
    that it looks at has a first character, and the answer is whether
    this character is a dot.  The answer depends on the last element of
    the path only: for a path that ends with a separator and a name, it
    is whether the name starts with a dot.  The empty path is hidden,
    its base name being ".". *)
Theorem hidden_by_last_element (p : string) :
  (exists c rest, path.Base p = String c rest
                  /\ verifyHidden p = Ascii.eqb "." c)
  /\ (forall dir name c rest,
         plain name -> name = String c rest ->
         verifyHidden (dir ++ separator ++ name) = Ascii.eqb "." c
         /\ verifyHidden name = Ascii.eqb "." c)
  /\ verifyHidden EmptyString = true.
Proof.
  split; [|split; [|reflexivity]].
  - unfold verifyHidden. pose proof (Base_nonempty p) as N.
    destruct (path.Base p) as [|c rest]; [now destruct N|].
    now exists c, rest.
  - intros dir name c rest Pl ->. unfold verifyHidden.
    rewrite (Base_join dir _ Pl).
    destruct Pl as [Pn Ps]. rewrite (Base_plain _ Pn Ps). now split.
Qed.

(** X4.  The consumers of [reduce] judge an entry by its name alone.
    For a path made of a directory, the separator and a plain name,
    [filter] sends the path if and only if the pattern matches the
    name, whatever the directory; so the directory consumer and the
    symlink consumer send it if and only if their scope is enabled and
    the pattern matches the name, and they do nothing else. *)
Theorem name_alone_is_matched {RE : RegexpLib} (this : gorep)
        (dir name : string) (out : chan) :
  plain name ->
  filter this (dir ++ separator ++ name) out
  = (if MatchString (pattern this) name
     then [ Send out (dir ++ separator ++ name) ] else [])
  /\ loop_body this (DirLoop out) (dir ++ separator ++ name)
     = (if searchScope.dir (scope this) && MatchString (pattern this) name
        then [ Send out (dir ++ separator ++ name) ] else [])
  /\ loop_body this (SymlinkLoop out) (dir ++ separator ++ name)
     = (if searchScope.symlink (scope this)
           && MatchString (pattern this) name
        then [ Send out (dir ++ separator ++ name) ] else []).
Proof.
  intros Pl. unfold loop_body, filter. rewrite (Base_join dir name Pl).
  destruct (searchScope.dir (scope this)),
    (searchScope.symlink (scope this)),
    (MatchString (pattern this) name); repeat split; reflexivity.
Qed.

(** ** The start of [main] *)

Lemma string_of_list_ascii_app (a b : list ascii) :
  string_of_list_ascii (a ++ b)
  = (string_of_list_ascii a ++ string_of_list_ascii b)%string.
Proof.
  induction a as [|c a IH]; [reflexivity|]. cbn. now rewrite IH.
Qed.

Lemma dropWhile_split (p : ascii -> bool) (l : list ascii) :
  exists d, l = (d ++ strings.dropWhile p l)%list
            /\ Forall (fun c => p c = true) d.
Proof.
  induction l as [|c t (d & E & F)]; [now exists []|].
  cbn [strings.dropWhile]. destruct (p c) eqn:Pc.
  - exists (c :: d). split; [cbn; now rewrite <- E|now constructor].
  - now exists [].
Qed.

Lemma dropWhile_head (p : ascii -> bool) (l : list ascii) (c : ascii)
      (t : list ascii) :
  strings.dropWhile p l = c :: t -> p c = false.
Proof.
  induction l as [|a l IH]; [discriminate|]. cbn [strings.dropWhile].
  destruct (p a) eqn:Pa; [exact IH|]. intros H. injection H as -> _.
  exact Pa.
Qed.

(** What [strings.TrimRight] cuts off is made of characters of the
    cutset, and what it leaves does not end with one. *)
Lemma TrimRight_split (s cutset : string) :
  exists t, s = (strings.TrimRight s cutset ++ t)%string
            /\ Forall (fun c => strings.inCutset cutset c = true)
                      (list_ascii_of_string t).
Proof.
  unfold strings.TrimRight.
  destruct (dropWhile_split (strings.inCutset cutset)
                            (rev (list_ascii_of_string s))) as (d & E & F).
  exists (string_of_list_ascii (rev d)). split.
  - rewrite <- string_of_list_ascii_app, <- rev_app_distr, <- E.
    now rewrite rev_involutive, string_of_list_ascii_of_string.
  - rewrite list_ascii_of_string_of_list_ascii. now apply Forall_rev.
Qed.

Lemma TrimRight_last (s cutset u : string) (c : ascii) :
  strings.TrimRight s cutset = (u ++ String c EmptyString)%string ->
  strings.inCutset cutset c = false.
Proof.
  unfold strings.TrimRight. intros H.
  apply (f_equal list_ascii_of_string) in H.
  rewrite list_ascii_of_string_of_list_ascii, list_ascii_app in H.
  cbn [list_ascii_of_string] in H.
  apply (f_equal (@rev ascii)) in H.
  rewrite rev_involutive, rev_app_distr in H. cbn [rev app] in H.
  now apply dropWhile_head in H.
Qed.

(** X5.  What [main] does before the search, from the command line.
    When [flag.Parse] ends the process, which it does on a flag that
    is not defined, on a flag without its value and on the help flag,
    [main] does nothing else: what is written and the status are those
    of the flag package.  When [flag.Parse] returns: with [-V] among
    the flags, [main] writes the version and ends the process with
    status 0, whatever the other flags and the arguments left.
    Without [-V] and without argument left it writes the usage on the
    standard error and ends with status -1; with an expression that
    cannot be compiled it writes the error and ends with status -1.
    Otherwise the search starts: with the [gorep] of the first
    argument, at "." when there is no second argument, and else at the
    second argument without its trailing separators, so that the path
    of the search never ends with a separator; a second argument made
    of separators only gives the empty path.  Arguments after the
    second are not looked at. *)
Theorem start_of_main {RE : RegexpLib} {FL : FlagLib}
        (argv : list string) :
  match Parse argv with
  | flag.Ended msg code => start argv = inl [ Stderr msg; Exit code ]
  | flag.Parsed opt args =>
    match start argv with
    | inl k =>
      (optionSet.v opt = true
       /\ k = [ Stdout ("version: " ++ version ++ newline); Exit 0 ])
      \/ (optionSet.v opt = false /\ args = [] /\ k = usage)
      \/ (optionSet.v opt = false
          /\ exists expr rest e,
              args = expr :: rest /\ newGorep expr opt = Err e
              /\ k = [ Stderr (e ++ newline); Exit (-1) ])
    | inr (g, fpath) =>
      optionSet.v opt = false
      /\ (exists expr rest,
             args = expr :: rest /\ newGorep expr opt = Ok g
             /\ match rest with
                | [] => fpath = "."%string
                | a :: _ =>
                  fpath = strings.TrimRight a separator
                  /\ exists t, a = (fpath ++ t)%string
                               /\ Forall (fun c => c = "/"%char)
                                         (list_ascii_of_string t)
                end)
      /\ (forall u, fpath <> (u ++ separator)%string)
    end
  end.
Proof.
  unfold start. destruct (Parse argv) as [opt args|msg code];
    [|reflexivity].
  destruct (optionSet.v opt); [left; now split|].
  destruct args as [|expr rest]; [right; left; now repeat split|].
  replace (Z.of_nat (length (expr :: rest)) <? 1) with false
    by (symmetry; apply Z.ltb_ge; cbn [length]; lia).
  cbn [nth].
  destruct (newGorep expr opt) as [g|e] eqn:N.
  2:{ right; right. split; [reflexivity|]. now exists expr, rest, e. }
  split; [reflexivity|].
  destruct rest as [|a rest].
  - cbn. split; [exists expr, []; now repeat split|].
    intros u H. apply (f_equal list_ascii_of_string) in H.
    rewrite list_ascii_app in H. cbn in H.
    destruct (list_ascii_of_string u) as [|x [|y z]]; discriminate.
  - replace (2 <=? Z.of_nat (length (expr :: a :: rest))) with true
      by (symmetry; apply Z.leb_le; cbn [length]; lia).
    split.
    + exists expr, (a :: rest).
      split; [reflexivity|]. split; [exact N|]. split; [reflexivity|].
      destruct (TrimRight_split a separator) as (t & E & F).
      exists t. split; [exact E|].
      apply Forall_forall. intros c Hc.
      rewrite Forall_forall in F. specialize (F c Hc).
      unfold strings.inCutset in F. cbn in F.
      rewrite orb_false_r in F. now apply Ascii.eqb_eq in F.
    + intros u H. apply TrimRight_last in H. discriminate.
Qed.

(** ** The goroutines of a run *)

Lemma map_script_in (k : list action) (a : action) :
  map_script k = true -> In a k -> map_action a = true.
Proof.
  induction k as [|b k IH]; [intros _ []|]. intros M.
  destruct (map_script_cons b k M) as (Mb & _ & Mk).
  intros [<-|H]; [exact Mb|now apply IH].
Qed.

Lemma grep_script_in (k : list action) (a : action) :
  grep_script k = true -> In a k -> grep_action a = true.
Proof.
  induction k as [|b k IH]; [intros _ []|]. intros G.
  destruct (grep_script_cons b k G) as (Gb & _ & _ & Gk).
  intros [<-|H]; [exact Gb|now apply IH].
Qed.

Section Cast.
Context {RE : RegexpLib}.
Variables (fs : os.FileSystem) (this : gorep).
Variables (fpath : string) (isColor : bool).

Lemma report_marks :
  report chsReduce isColor
  = [ Go Printer;
      Add waitReports 4;
      Go (Reporter (markOf isColor ReduceDir) (markMatch isColor) ReduceDir);
      Go (Reporter (markOf isColor ReduceFile) (markMatch isColor)
                   ReduceFile);
      Go (Reporter (markOf isColor ReduceSymlink) (markMatch isColor)
                   ReduceSymlink);
      Go (Reporter (markOf isColor ReduceLine) (markMatch isColor)
                   ReduceLine);
      Wait waitReports ].
Proof. destruct isColor; reflexivity. Qed.

Lemma main_script :
  main fpath isColor
  = [ Go (KickMap fpath); Go KickReduce; Go Printer;
      Add waitReports 4;
      Go (Reporter (markOf isColor ReduceDir) (markMatch isColor) ReduceDir);
      Go (Reporter (markOf isColor ReduceFile) (markMatch isColor)
                   ReduceFile);
      Go (Reporter (markOf isColor ReduceSymlink) (markMatch isColor)
                   ReduceSymlink);
      Go (Reporter (markOf isColor ReduceLine) (markMatch isColor)
                   ReduceLine);
      Wait waitReports; Exit 0 ].
Proof. unfold main. rewrite report_marks. reflexivity. Qed.

Lemma known_wf (f : call) : known fpath isColor f -> wf_call f = true.
Proof.
  destruct f; cbn; try reflexivity.
  - now intros ->.
  - now intros [-> ->].
  - now intros (-> & -> & ->).
  - now intros [-> ->].
  - now intros ->.
  - now intros (H & _).
Qed.

Lemma rest_of_in (script k : list action) (a : action) :
  rest_of script k -> In a k -> In a script.
Proof. intros [done ->] H. apply in_or_app. now right. Qed.

Lemma rest_of_tail (script k : list action) (a : action) :
  rest_of script (a :: k) -> rest_of script k.
Proof.
  intros [done ->]. exists (done ++ [a]). now rewrite <- app_assoc.
Qed.

Lemma rest_of_refl (script : list action) : rest_of script script.
Proof. now exists []. Qed.

(** The goroutines that the scripts start. *)
Lemma main_go (g : call) : In (Go g) (main fpath isColor) -> known fpath isColor g.
Proof.
  rewrite main_script. cbn [In].
  intros [E|[E|[E|[E|[E|[E|[E|[E|[E|[E|[]]]]]]]]]]];
    try discriminate E; injection E as <-; cbn; auto.
Qed.

Lemma mapfork_go (p : string) (g : call) :
  In (Go g) (mapfork fs this p chsMap) -> known fpath isColor g.
Proof.
  intros H. destruct (map_script_mapfork fs this p) as [M _].
  pose proof (map_script_in _ _ M H) as A. cbn in A.
  destruct g; try discriminate A.
  destruct chans as [[] [] [] []]; try discriminate A. reflexivity.
Qed.

Lemma grep_plain (p : string) (a : action) :
  In a (grep fs this p ReduceLine) -> grep_action a = true.
Proof.
  apply grep_script_in. apply (grep_script_grep fs this p).
Qed.

Lemma body_go (f g : call) :
  known fpath isColor f -> In (Go g) (body fs this f) -> known fpath isColor g.
Proof.
  destruct f; cbn [body known].
  - intros -> H. unfold kick_map in H. destruct H as [E|H];
      [discriminate|]. apply in_app_or in H. destruct H as [H|H].
    + now apply (mapfork_go fpath).
    + cbn in H. intuition discriminate.
  - intros _ H. cbn in H.
    destruct H as [E|[E|[E|[]]]]; injection E as <-; cbn; auto.
  - intros -> H. now apply (mapfork_go fpath0).
  - intros _ H. cbn in H. intuition discriminate.
  - intros _ H. cbn in H. intuition discriminate.
  - intros _ H. cbn in H. intuition discriminate.
  - intros -> H. apply grep_plain in H. discriminate.
  - intros _ H. cbn in H. intuition discriminate.
  - intros _ H. cbn in H. intuition discriminate.
Qed.

(** The loops of the run and their bodies. *)
Lemma loop_cases (f : call) (c : chan) (l : loop) (after : list action) :
  known fpath isColor f -> body fs this f = Range c l :: after ->
  (f = ReduceDirs MapDir ReduceDir /\ c = MapDir
   /\ l = DirLoop ReduceDir /\ after = [ Close ReduceDir ])
  \/ (f = ReduceFiles MapFile ReduceFile ReduceLine /\ c = MapFile
      /\ l = FileLoop ReduceFile ReduceLine
      /\ after = [ Close ReduceFile; Wait waitGreps; Close ReduceLine ])
  \/ (f = ReduceSymlinks MapSymlink ReduceSymlink /\ c = MapSymlink
      /\ l = SymlinkLoop ReduceSymlink /\ after = [ Close ReduceSymlink ])
  \/ (f = Printer /\ c = chPrint /\ l = PrinterLoop /\ after = [])
  \/ (isReduce c = true
      /\ f = Reporter (markOf isColor c) (markMatch isColor) c
      /\ l = ReporterLoop (markOf isColor c) (markMatch isColor)
      /\ after = [ Done waitReports ]).
Proof.
  destruct f; cbn [body known].
  - intros -> E. discriminate E.
  - intros _ E. discriminate E.
  - intros -> E. exfalso.
    assert (H : In (Range c l) (mapfork fs this fpath0 chsMap))
      by (rewrite E; now left).
    destruct (map_script_mapfork fs this fpath0) as [M _].
    pose proof (map_script_in _ _ M H) as A. discriminate A.
  - intros [-> ->] E. injection E as <- <- <-. left. now repeat split.
  - intros (-> & -> & ->) E. injection E as <- <- <-.
    right; left. now repeat split.
  - intros [-> ->] E. injection E as <- <- <-.
    right; right; left. now repeat split.
  - intros -> E. exfalso.
    assert (H : In (Range c l) (grep fs this fpath0 ReduceLine))
      by (rewrite E; now left).
    apply grep_plain in H. discriminate H.
  - intros _ E. injection E as <- <- <-.
    right; right; right; left. now repeat split.
  - intros (Rc & -> & ->) E. injection E as <- <- <-.
    right; right; right; right. now repeat split.
Qed.

Lemma loop_body_no_range (l : loop) (msg : string) (c : chan) (l' : loop) :
  ~ In (Range c l') (loop_body this l msg).
Proof.
  unfold loop_body, filter. destruct l;
    repeat match goal with
           | |- context [if ?b then _ else _] => destruct b
           end; cbn; intuition discriminate.
Qed.

Lemma loop_go (f : call) (c : chan) (l : loop) (after : list action)
      (msg : string) (g : call) :
  known fpath isColor f -> body fs this f = Range c l :: after ->
  In (Go g) (loop_body this l msg) -> known fpath isColor g.
Proof.
  intros K E.
  destruct (loop_cases f c l after K E)
    as [(_ & _ & -> & _)|[(_ & _ & -> & _)|[(_ & _ & -> & _)|
        [(_ & _ & -> & _)|(_ & _ & -> & _)]]]];
    unfold loop_body, filter;
    repeat match goal with
           | |- context [if ?b then _ else _] => destruct b
           end; cbn; intros H;
    repeat match goal with
           | H : _ \/ _ |- _ => destruct H as [H|H]
           | H : False |- _ => destruct H
           end; try discriminate H; injection H as <-; reflexivity.
Qed.

(** Where a [range] stands in the body of a call: at its head. *)
Lemma range_first (f : call) (c : chan) (l : loop)
      (done k : list action) :
  known fpath isColor f -> body fs this f = done ++ Range c l :: k -> done = [].
Proof.
  intros K E. destruct done as [|a done]; [reflexivity|]. exfalso.
  assert (H : In (Range c l) (body fs this f))
    by (rewrite E; apply in_or_app; right; now left).
  destruct f as [p| |p chans|i o|i o cl|i o|p out| |mark accent ch];
    cbn [body known] in *.
  - subst p. unfold kick_map in H. destruct H as [X|H]; [discriminate|].
    apply in_app_or in H. destruct H as [H|H].
    + destruct (map_script_mapfork fs this fpath) as [M _].
      pose proof (map_script_in _ _ M H) as A. discriminate A.
    + cbn in H. intuition discriminate.
  - cbn in H. intuition discriminate.
  - subst chans. destruct (map_script_mapfork fs this p) as [M _].
    pose proof (map_script_in _ _ M H) as A. discriminate A.
  - cbn in E. injection E as _ E. destruct done as [|b [|? ?]];
      discriminate E.
  - cbn in E. injection E as _ E.
    destruct done as [|b1 [|b2 [|b3 [|? ?]]]]; discriminate E.
  - cbn in E. injection E as _ E. destruct done as [|b [|? ?]];
      discriminate E.
  - subst out. apply grep_plain in H. discriminate H.
  - cbn in E. injection E as _ E. destruct done; discriminate E.
  - cbn in E. injection E as _ E. destruct done as [|b [|? ?]];
      discriminate E.
Qed.

Lemma main_no_range (c : chan) (l : loop) :
  ~ In (Range c l) (main fpath isColor).
Proof. rewrite main_script. cbn. intuition discriminate. Qed.

(** The roles are kept by what the goroutines do. *)
Lemma role_go (k : list action) (g : call) :
  role fs this fpath isColor k -> In (Go g) k -> known fpath isColor g.
Proof.
  intros Rk H. destruct Rk as [k M|f k K B|f c l after msg hand k K B Hd ->].
  - apply main_go. eapply rest_of_in; eassumption.
  - apply (body_go f g K). eapply rest_of_in; eassumption.
  - apply in_app_or in H. destruct H as [H|[H|H]].
    + apply (loop_go f c l after msg g K B).
      eapply rest_of_in; eassumption.
    + discriminate H.
    + apply (body_go f g K). rewrite B. now right.
Qed.

Lemma role_tail (a : action) (k : list action) :
  role fs this fpath isColor (a :: k) -> role fs this fpath isColor k.
Proof.
  intros Rk. remember (a :: k) as k0 eqn:E.
  destruct Rk as [k0 M|f k0 K B|f c l after msg hand k0 K B Hd ->].
  - subst k0. apply role_main. now apply rest_of_tail with (a := a).
  - subst k0. apply (role_call _ _ _ _ f); [exact K|].
    now apply rest_of_tail with (a := a).
  - destruct hand as [|b hand]; cbn in E.
    + injection E as <- <-. apply (role_call _ _ _ _ f); [exact K|].
      rewrite B. now exists [Range c l].
    + injection E as <- <-.
      apply (role_loop _ _ _ _ f c l after msg hand); auto.
      now apply rest_of_tail with (a := b).
Qed.

Lemma role_body (g : call) : known fpath isColor g -> role fs this fpath isColor (body fs this g).
Proof.
  intros K. apply (role_call _ _ _ _ g); [exact K|apply rest_of_refl].
Qed.

Lemma role_head_range (c : chan) (l : loop) (k : list action) :
  role fs this fpath isColor (Range c l :: k) ->
  exists f, known fpath isColor f /\ body fs this f = Range c l :: k.
Proof.
  intros Rk. remember (Range c l :: k) as k0 eqn:E.
  destruct Rk as [k0 M|f k0 K B|f c0 l0 after msg0 hand k0 K B Hd ->].
  - exfalso. apply (main_no_range c l).
    apply (rest_of_in _ _ _ M). subst k0. now left.
  - subst k0. destruct B as [done B].
    pose proof (range_first f c l done k K B) as ->. now exists f.
  - destruct hand as [|b hand]; cbn in E.
    + injection E as <- <- <-. now exists f.
    + injection E as -> _. exfalso.
      apply (loop_body_no_range l0 msg0 c l).
      apply (rest_of_in _ _ _ Hd). now left.
Qed.

Lemma role_receive (c : chan) (l : loop) (msg : string)
      (k : list action) :
  role fs this fpath isColor (Range c l :: k) ->
  role fs this fpath isColor (loop_body this l msg ++ Range c l :: k).
Proof.
  intros Rk. remember (Range c l :: k) as k0 eqn:E.
  destruct Rk as [k0 M|f k0 K B|f c0 l0 after msg0 hand k0 K B Hd ->].
  - exfalso. apply (main_no_range c l).
    apply (rest_of_in _ _ _ M). subst k0. now left.
  - subst k0. destruct B as [done B].
    pose proof (range_first f c l done k K B) as ->. cbn in B.
    apply (role_loop _ _ _ _ f c l k msg (loop_body this l msg));
      auto using rest_of_refl.
  - destruct hand as [|b hand]; cbn in E.
    + injection E as <- <- <-.
      apply (role_loop _ _ _ _ f c0 l0 after msg (loop_body this l0 msg));
        auto using rest_of_refl.
    + injection E as -> _. exfalso.
      apply (loop_body_no_range l0 msg0 c l).
      apply (rest_of_in _ _ _ Hd). now left.
Qed.

Lemma local_spawned (a : action) (m m' : store)
      (spawned : list (list action)) :
  local fs this a m = Some (spawned, m') ->
  spawned = match a with
            | Go f => [ body fs this f ]
            | _ => []
            end.
Proof.
  destruct a; cbn [local];
    repeat match goal with
           | |- context [if ?b then _ else _] => destruct b
           | |- context [match permits m with _ => _ end] =>
             destruct (permits m)
           end;
    intros H; try discriminate H; now injection H as <- _.
Qed.

Lemma cast_step (s s' : state) :
  cast fs this fpath isColor s -> step fs this s s' ->
  cast fs this fpath isColor s'.
Proof.
  intros C St.
  destruct St as [s a k rest spawned m' R P L|s c msg l k k' rest R P Cl];
    intros k0 H; cbn [tasks] in H.
  - assert (Hin : In (a :: k) (tasks s))
      by (eapply Permutation_in; [symmetry; exact P|now left]).
    destruct H as [<-|H]; [apply (role_tail a), C, Hin|].
    apply in_app_or in H. destruct H as [H|H].
    + rewrite (local_spawned _ _ _ _ L) in H.
      destruct a; try contradiction. destruct H as [<-|[]].
      apply role_body. apply (role_go (Go f :: k)); [now apply C|now left].
    + apply C. eapply Permutation_in; [symmetry; exact P|now right].
  - destruct H as [<-|[<-|H]].
    + apply (role_tail (Send c msg)), C.
      eapply Permutation_in; [symmetry; exact P|now left].
    + apply role_receive, C.
      eapply Permutation_in; [symmetry; exact P|right; now left].
    + apply C. eapply Permutation_in; [symmetry; exact P|].
      right. now right.
Qed.

Lemma cast_reachable (s : state) :
  reachable fs this fpath isColor s -> cast fs this fpath isColor s.
Proof.
  unfold reachable. intros H.
  remember (init fpath isColor) as s0 eqn:E.
  induction H as [s|s s' s'' _ IH St].
  - subst s. intros k [<-|[]]. apply role_main, rest_of_refl.
  - eapply cast_step; [apply IH; exact E|exact St].
Qed.

End Cast.

(** ** What a step adds to the trace *)

Lemma sent_app (c : chan) (t1 t2 : list event) :
  sent c (t1 ++ t2) = (sent c t2 ++ sent c t1)%list.
Proof.
  induction t1 as [|e t1 IH]; cbn [sent app]; [now rewrite app_nil_r|].
  now rewrite IH, app_assoc.
Qed.

Lemma written_app (t1 t2 : list event) :
  written (t1 ++ t2) = (written t2 ++ written t1)%list.
Proof.
  induction t1 as [|e t1 IH]; cbn [written app]; [now rewrite app_nil_r|].
  now rewrite IH, app_assoc.
Qed.

Lemma sent_event_of (c : chan) (a : action) : sent c (event_of a) = [].
Proof. destruct a; reflexivity. Qed.

Lemma written_event_of (a : action) : written (event_of a) = outs [ a ].
Proof. destruct a; reflexivity. Qed.

Lemma outs_app (k1 k2 : list action) :
  outs (k1 ++ k2) = (outs k1 ++ outs k2)%list.
Proof. apply flat_map_app. Qed.

Lemma emitted_app (c : chan) (k1 k2 : list action) :
  emitted c (k1 ++ k2) = (emitted c k1 ++ emitted c k2)%list.
Proof. apply flat_map_app. Qed.

Lemma outs_cons (a : action) (k : list action) :
  outs (a :: k) = (outs [ a ] ++ outs k)%list.
Proof. apply (outs_app [ a ] k). Qed.

Lemma emitted_cons (c : chan) (a : action) (k : list action) :
  emitted c (a :: k) = (emitted c [ a ] ++ emitted c k)%list.
Proof. apply (emitted_app c [ a ] k). Qed.

Lemma outs_nil (k : list action) :
  (forall msg, ~ In (Stdout msg) k) -> outs k = [].
Proof.
  induction k as [|a k IH]; [reflexivity|]. intros H.
  rewrite outs_cons.
  rewrite IH by (intros msg Hin; apply (H msg); now right).
  destruct a; try reflexivity. destruct (H msg). now left.
Qed.

Lemma emitted_nil (c : chan) (k : list action) :
  (forall msg, ~ In (Send c msg) k) -> emitted c k = [].
Proof.
  induction k as [|a k IH]; [reflexivity|]. intros H.
  rewrite emitted_cons.
  rewrite IH by (intros msg Hin; apply (H msg); now right).
  destruct a; try reflexivity. cbn.
  destruct (chan_eqb c c0) eqn:E; [|reflexivity].
  apply chan_eqb_eq in E. subst c0. destruct (H msg). now left.
Qed.

Lemma perm_short {A : Type} (l l' : list A) :
  Permutation l l' -> (length l <= 1)%nat -> l = l'.
Proof.
  intros P H. destruct l as [|x [|y l]]; cbn in H; try lia.
  - apply Permutation_nil in P. now subst.
  - apply Permutation_length_1_inv in P. now subst.
Qed.

Lemma flat_map_perm {A B : Type} (f : A -> list B) (l l' : list A) :
  Permutation l l' -> Permutation (flat_map f l) (flat_map f l').
Proof.
  induction 1 as [|x l l' _ IH|x y l|l l' l'' _ IH1 _ IH2]; cbn [flat_map].
  - apply perm_nil.
  - now apply Permutation_app_head.
  - rewrite !app_assoc. apply Permutation_app_tail, Permutation_app_comm.
  - now transitivity (flat_map f l').
Qed.

Section Traces.
Context {RE : RegexpLib}.
Variables (fs : os.FileSystem) (this : gorep).
Variables (fpath : string) (isColor : bool).

Lemma local_trace (a : action) (m m' : store)
      (spawned : list (list action)) :
  local fs this a m = Some (spawned, m') ->
  status_of m' <> Panicked ->
  trace m' = (event_of a ++ trace m)%list.
Proof.
  intros L NP. destruct a; cbn [local] in L;
    repeat match type of L with
           | context [if ?b then _ else _] => destruct b
           | context [match permits m with _ => _ end] =>
             destruct (permits m)
           end;
    try discriminate L; injection L as <- <-;
    try reflexivity; try (cbn in NP; congruence).
  - destruct (wg_add_effect _ _ _ NP) as [_ ->]. reflexivity.
  - destruct (wg_add_effect _ _ _ NP) as [_ ->]. reflexivity.
Qed.

(** Every state of a run is reached through states that keep the
    accounting and the roles. *)
Lemma through (P : state -> Prop) :
  P (init fpath isColor) ->
  (forall s s',
      invariant s -> invariant s' ->
      cast fs this fpath isColor s -> cast fs this fpath isColor s' ->
      step fs this s s' -> P s -> P s') ->
  forall s, reachable fs this fpath isColor s -> P s.
Proof.
  intros P0 PS s H. unfold reachable in H.
  remember (init fpath isColor) as s0 eqn:E.
  induction H as [s|s s' s'' H IH St]; [now subst|]. subst s.
  apply (PS s' s''); auto.
  - now apply (invariant_reachable fs this fpath isColor).
  - apply (invariant_reachable fs this fpath isColor).
    eapply steps_step; eassumption.
  - now apply cast_reachable.
  - apply cast_reachable. eapply steps_step; eassumption.
Qed.

(** Scripts that write nothing. *)
Lemma main_writes_nothing (msg : string) :
  ~ In (Stdout msg) (main fpath isColor).
Proof. rewrite main_script. cbn. intuition discriminate. Qed.

Lemma body_writes_nothing (f : call) (msg : string) :
  known fpath isColor f -> ~ In (Stdout msg) (body fs this f).
Proof.
  intros K H.
  destruct f as [p| |p chans|i o|i o cl|i o|p out| |mark accent ch];
    cbn [body known] in *.
  - unfold kick_map in H. destruct H as [X|H]; [discriminate|].
    apply in_app_or in H. destruct H as [H|H].
    + destruct (map_script_mapfork fs this p) as [M _].
      pose proof (map_script_in _ _ M H) as A. discriminate A.
    + cbn in H. intuition discriminate.
  - cbn in H. intuition discriminate.
  - subst chans. destruct (map_script_mapfork fs this p) as [M _].
    pose proof (map_script_in _ _ M H) as A. discriminate A.
  - cbn in H. intuition discriminate.
  - cbn in H. intuition discriminate.
  - cbn in H. intuition discriminate.
  - subst out. apply grep_plain in H. discriminate H.
  - cbn in H. intuition discriminate.
  - cbn in H. intuition discriminate.
Qed.

Lemma loop_writes_nothing (l : loop) (msg msg' : string) :
  l <> PrinterLoop -> ~ In (Stdout msg') (loop_body this l msg).
Proof.
  intros N. unfold loop_body, filter. destruct l; try (now destruct N);
    repeat match goal with
           | |- context [if ?b then _ else _] => destruct b
           end; cbn; intuition discriminate.
Qed.

Lemma rest_of_nil (k : list action) : rest_of [] k -> k = [].
Proof. intros [done E]. symmetry in E. now apply app_eq_nil in E. Qed.

Lemma rest_of_cons (a : action) (script k : list action) :
  rest_of (a :: script) k -> k = a :: script \/ rest_of script k.
Proof.
  intros [[|b done] E]; cbn in E.
  - left. now symmetry.
  - right. injection E as _ E. now exists done.
Qed.

(** Only the printer has something to write, and only while it holds
    its [range]. *)
Lemma role_outs (k : list action) :
  role fs this fpath isColor k ->
  Z.of_nat (length (outs k)) <= total (tok (TRange chPrint)) k.
Proof.
  intros Rk.
  destruct Rk as [k M|f k K B|f c l after msg hand k K B Hd ->].
  - rewrite outs_nil; [apply total_tok_nonneg|].
    intros msg H. apply (main_writes_nothing msg).
    eapply rest_of_in; eassumption.
  - rewrite outs_nil; [apply total_tok_nonneg|].
    intros msg H. apply (body_writes_nothing f msg K).
    eapply rest_of_in; eassumption.
  - destruct (loop_cases fs this fpath isColor f c l after K B)
      as [(_ & _ & L & A)|[(_ & _ & L & A)|[(_ & _ & L & A)|
          [(_ & -> & -> & ->)|(_ & _ & L & A)]]]].
    4: { cbn [loop_body] in Hd.
         apply rest_of_cons in Hd. destruct Hd as [->|Hd].
         - cbn. lia.
         - apply rest_of_nil in Hd. subst hand. cbn. lia. }
    all: rewrite outs_nil; [apply total_tok_nonneg|];
      intros msg' H; apply in_app_or in H; destruct H as [H|[H|H]];
      [ apply (loop_writes_nothing l msg msg');
        [subst l; discriminate|eapply rest_of_in; eassumption]
      | discriminate H
      | apply (body_writes_nothing f msg' K); rewrite B; now right ].
Qed.

Lemma roles_outs (ts : list (list action)) :
  (forall k, In k ts -> role fs this fpath isColor k) ->
  Z.of_nat (length (flat_map outs ts)) <= grand (tok (TRange chPrint)) ts.
Proof.
  induction ts as [|k ts IH]; intros H; [cbn; lia|].
  cbn [flat_map]. rewrite length_app, grand_cons, Nat2Z.inj_add.
  pose proof (role_outs k (H k (or_introl eq_refl))).
  assert (Z.of_nat (length (flat_map outs ts))
          <= grand (tok (TRange chPrint)) ts)
    by (apply IH; intros k' Hk'; apply H; now right).
  lia.
Qed.

Lemma printer_token (s : state) :
  invariant s -> grand (tok (TRange chPrint)) (tasks s) <= 1.
Proof.
  intros I. pose proof (inv_tokens s I (TRange chPrint)) as T.
  pose proof (fired_nonneg (TRange chPrint) (trace (mem s))).
  cbn in T. lia.
Qed.

Lemma outs_short (s : state) :
  invariant s -> cast fs this fpath isColor s ->
  (length (flat_map outs (tasks s)) <= 1)%nat.
Proof.
  intros I C. pose proof (roles_outs (tasks s) C).
  pose proof (printer_token s I). lia.
Qed.

Lemma outs_perm (s : state) (ts : list (list action)) :
  invariant s -> cast fs this fpath isColor s ->
  Permutation (tasks s) ts ->
  flat_map outs (tasks s) = flat_map outs ts.
Proof.
  intros I C P. apply perm_short; [now apply flat_map_perm|].
  now apply outs_short.
Qed.

Lemma outs_spawned (s : state) (a : action) (k : list action)
      (m' : store) (spawned : list (list action)) :
  role fs this fpath isColor (a :: k) ->
  local fs this a (mem s) = Some (spawned, m') ->
  flat_map outs spawned = [].
Proof.
  intros Rk L. rewrite (local_spawned _ _ _ _ _ _ L).
  destruct a; try reflexivity. cbn [flat_map]. rewrite app_nil_r.
  apply outs_nil. intros msg. apply body_writes_nothing.
  apply (role_go fs this fpath isColor (Go f :: k)); [exact Rk|now left].
Qed.

Lemma in_step_kept (s s' : state) :
  invariant s -> invariant s' ->
  cast fs this fpath isColor s -> cast fs this fpath isColor s' ->
  step fs this s s' ->
  sent chPrint (trace (mem s))
  = (written (trace (mem s)) ++ flat_map outs (tasks s))%list ->
  sent chPrint (trace (mem s'))
  = (written (trace (mem s')) ++ flat_map outs (tasks s'))%list.
Proof.
  intros I I' C C' St Q.
  destruct St as [s a k rest spawned m' R P L|s c msg l k k' rest R P Cl];
    cbn [tasks mem] in *.
  - rewrite (outs_perm s _ I C P) in Q. cbn [flat_map] in *.
    rewrite (local_trace a _ _ _ L (inv_status _ I')).
    rewrite sent_app, written_app, sent_event_of, written_event_of.
    rewrite flat_map_app.
    rewrite (outs_spawned s a k m' spawned) by
        first [ exact L
              | apply C; eapply Permutation_in;
                [symmetry; exact P|now left] ].
    cbn [app]. rewrite Q.
    rewrite (outs_cons a k). now rewrite app_nil_r, <- !app_assoc.
  - rewrite (outs_perm s _ I C P) in Q. cbn [flat_map] in *.
    cbn [trace log sent written]. rewrite outs_app.
    change (outs (Send c msg :: k)) with (outs k) in Q.
    change (outs (Range c l :: k')) with (outs k') in *.
    assert (Rr : role fs this fpath isColor (Range c l :: k')).
    { apply C. eapply Permutation_in; [symmetry; exact P|].
      right. now left. }
    destruct (role_head_range fs this fpath isColor c l k' Rr)
      as (f & K & B).
    destruct (chan_eqb chPrint c) eqn:E.
    + apply chan_eqb_eq in E. subst c.
      destruct (loop_cases fs this fpath isColor f _ _ _ K B)
        as [(_ & X & _)|[(_ & X & _)|[(_ & X & _)|
            [(_ & _ & -> & ->)|(X & _)]]]]; try discriminate X.
      assert (Z : flat_map outs ((Send chPrint msg :: k) :: rest) = []).
      { apply length_zero_iff_nil.
        assert (Rs : forall x,
                   In x ((Send chPrint msg :: k) :: rest) ->
                   role fs this fpath isColor x).
        { intros x Hx. apply C.
          eapply Permutation_in; [symmetry; exact P|].
          destruct Hx as [<-|Hx]; [now left|right; now right]. }
        pose proof (roles_outs _ Rs) as Bd.
        pose proof (printer_token s I) as T.
        rewrite (grand_perm _ _ _ P), !grand_cons in T.
        rewrite grand_cons in Bd.
        change (total (tok (TRange chPrint))
                      [ Range chPrint PrinterLoop ]) with 1 in T.
        lia. }
      cbn [flat_map] in Z.
      change (outs (Send chPrint msg :: k)) with (outs k) in Z.
      apply app_eq_nil in Z. destruct Z as [Z1 Z2].
      rewrite Z1, Z2 in *. cbn in *. rewrite Q.
      now rewrite !app_nil_r.
    + assert (N : l <> PrinterLoop).
      { intros ->.
        destruct (loop_cases fs this fpath isColor f _ _ _ K B)
          as [(_ & _ & X & _)|[(_ & _ & X & _)|[(_ & _ & X & _)|
              [(_ & -> & _)|(_ & _ & X & _)]]]]; try discriminate X.
        discriminate E. }
      rewrite (outs_nil (loop_body this l msg))
        by (intros msg'; now apply loop_writes_nothing).
      rewrite !app_nil_r. exact Q.
Qed.

Lemma in_step_reachable (s : state) :
  reachable fs this fpath isColor s ->
  sent chPrint (trace (mem s))
  = (written (trace (mem s)) ++ flat_map outs (tasks s))%list.
Proof.
  revert s. apply through.
  - unfold init.
    cbn [tasks mem init_store trace sent written flat_map app].
    rewrite outs_nil; [reflexivity|apply main_writes_nothing].
  - apply in_step_kept.
Qed.

End Traces.

(** ** The filtered streams *)

Lemma raw_not_out (x y : stream) : chan_eqb (raw_of x) (out_of y) = false.
Proof. destruct x, y; reflexivity. Qed.

Lemma out_not_raw (x y : stream) : chan_eqb (out_of x) (raw_of y) = false.
Proof. destruct x, y; reflexivity. Qed.

Lemma rest_emitted (c : chan) (script k : list action) :
  rest_of script k ->
  (length (emitted c k) <= length (emitted c script))%nat.
Proof. intros [done ->]. rewrite emitted_app, length_app. lia. Qed.

Lemma emitted_send (c c' : chan) (msg : string) :
  emitted c [ Send c' msg ] = if chan_eqb c c' then [ msg ] else [].
Proof. cbn. now destruct (chan_eqb c c'). Qed.

Section Filtered.
Context {RE : RegexpLib}.
Variables (fs : os.FileSystem) (this : gorep).
Variables (fpath : string) (isColor : bool).

Lemma keep_app (x : stream) (l1 l2 : list string) :
  keep this x (l1 ++ l2) = (keep this x l1 ++ keep this x l2)%list.
Proof.
  unfold keep. destruct (enabled this x); [apply filter_app|reflexivity].
Qed.

Lemma keep_one (x : stream) (msg : string) :
  (length (keep this x [ msg ]) <= 1)%nat.
Proof.
  unfold keep. destruct (enabled this x); cbn; [|lia].
  destruct (MatchString _ _); cbn; lia.
Qed.

Lemma main_sends_nothing (c : chan) (msg : string) :
  ~ In (Send c msg) (main fpath isColor).
Proof. rewrite main_script. cbn. intuition discriminate. Qed.

(** The bodies of the calls send on the raw streams and on the stream
    of match lines only. *)
Lemma body_sends (f : call) (c : chan) (msg : string) :
  known fpath isColor f -> In (Send c msg) (body fs this f) ->
  (c = MapDir \/ c = MapFile \/ c = MapSymlink) \/ c = ReduceLine.
Proof.
  intros K H.
  destruct f as [p| |p chans|i o|i o cl|i o|p out| |mark accent ch];
    cbn [body known] in *.
  - unfold kick_map in H. destruct H as [X|H]; [discriminate|].
    apply in_app_or in H. destruct H as [H|H].
    + destruct (map_script_mapfork fs this p) as [M _].
      pose proof (map_script_in _ _ M H) as A.
      destruct c; try discriminate A; auto.
    + cbn in H. intuition discriminate.
  - cbn in H. intuition discriminate.
  - subst chans. destruct (map_script_mapfork fs this p) as [M _].
    pose proof (map_script_in _ _ M H) as A.
    destruct c; try discriminate A; auto.
  - cbn in H. intuition discriminate.
  - cbn in H. intuition discriminate.
  - cbn in H. intuition discriminate.
  - subst out. apply grep_plain in H.
    destruct c; try discriminate H; auto.
  - cbn in H. intuition discriminate.
  - cbn in H. intuition discriminate.
Qed.

Lemma body_emits_nothing (x : stream) (f : call) :
  known fpath isColor f -> emitted (out_of x) (body fs this f) = [].
Proof.
  intros K. apply emitted_nil. intros msg H.
  destruct (body_sends f _ msg K H) as [[E|[E|E]]|E];
    destruct x; discriminate E.
Qed.

(** What the body of a loop sends on a filtered stream: the message
    received, when the loop is the consumer of the raw stream, the
    scope has the stream and the pattern matches the last element of
    the path. *)
Lemma loop_emits (x : stream) (f : call) (c : chan) (l : loop)
      (after : list action) (msg : string) :
  known fpath isColor f -> body fs this f = Range c l :: after ->
  emitted (out_of x) (loop_body this l msg)
  = if chan_eqb c (raw_of x) then keep this x [ msg ] else [].
Proof.
  intros K B.
  destruct (loop_cases fs this fpath isColor f c l after K B)
    as [(_ & -> & -> & _)|[(_ & -> & -> & _)|[(_ & -> & -> & _)|
        [(_ & -> & -> & _)|(Rc & _ & -> & _)]]]].
  5: { destruct c; try discriminate Rc; destruct x; reflexivity. }
  all: destruct x; unfold loop_body, filter, keep, enabled;
    cbn [chan_eqb raw_of out_of List.filter];
    repeat match goal with
           | |- context [if ?b then _ else _] => destruct b
           end; reflexivity.
Qed.

Lemma after_emits_nothing (x : stream) (f : call) (c : chan) (l : loop)
      (after : list action) :
  known fpath isColor f -> body fs this f = Range c l :: after ->
  emitted (out_of x) after = [].
Proof.
  intros K B. pose proof (body_emits_nothing x f K) as E.
  rewrite B in E. exact E.
Qed.

(** A goroutine has a record to send on a filtered stream only while
    it holds the [range] over the raw stream, and then one record at
    most. *)
Lemma role_emits (x : stream) (k : list action) :
  role fs this fpath isColor k ->
  Z.of_nat (length (emitted (out_of x) k))
  <= total (tok (TRange (raw_of x))) k.
Proof.
  intros Rk.
  destruct Rk as [k M|f k K B|f c l after msg hand k K B Hd ->].
  - rewrite emitted_nil; [apply total_tok_nonneg|].
    intros msg H. apply (main_sends_nothing (out_of x) msg).
    eapply rest_of_in; eassumption.
  - rewrite emitted_nil; [apply total_tok_nonneg|].
    intros msg H.
    assert (H' : In (Send (out_of x) msg) (body fs this f))
      by (eapply rest_of_in; eassumption).
    destruct (body_sends f _ msg K H') as [[E|[E|E]]|E];
      destruct x; discriminate E.
  - rewrite emitted_app, emitted_cons, length_app, length_app.
    rewrite (after_emits_nothing x f c l after K B).
    change (emitted (out_of x) [ Range c l ]) with (@nil string).
    rewrite total_app, total_cons.
    pose proof (rest_emitted (out_of x) _ _ Hd) as Le.
    rewrite (loop_emits x f c l after msg K B) in Le.
    pose proof (total_tok_nonneg (TRange (raw_of x)) hand).
    pose proof (total_tok_nonneg (TRange (raw_of x)) after).
    change (tok (TRange (raw_of x)) (Range c l))
      with (b2z (chan_eqb (raw_of x) c)).
    pose proof (keep_one x msg).
    destruct (chan_eqb c (raw_of x)) eqn:E.
    + apply chan_eqb_eq in E. subst c. rewrite chan_eqb_refl.
      cbn [b2z length Nat.add] in *. lia.
    + cbn [length] in Le. cbn [length Nat.add].
      pose proof (b2z_range (chan_eqb (raw_of x) c)). lia.
Qed.

Lemma roles_emits (x : stream) (ts : list (list action)) :
  (forall k, In k ts -> role fs this fpath isColor k) ->
  Z.of_nat (length (flat_map (emitted (out_of x)) ts))
  <= grand (tok (TRange (raw_of x))) ts.
Proof.
  induction ts as [|k ts IH]; intros H; [cbn; lia|].
  cbn [flat_map]. rewrite length_app, grand_cons, Nat2Z.inj_add.
  pose proof (role_emits x k (H k (or_introl eq_refl))).
  assert (Z.of_nat (length (flat_map (emitted (out_of x)) ts))
          <= grand (tok (TRange (raw_of x))) ts)
    by (apply IH; intros k' Hk'; apply H; now right).
  lia.
Qed.

Lemma raw_token (x : stream) (s : state) :
  invariant s -> grand (tok (TRange (raw_of x))) (tasks s) <= 1.
Proof.
  intros I. pose proof (inv_tokens s I (TRange (raw_of x))) as T.
  pose proof (fired_nonneg (TRange (raw_of x)) (trace (mem s))).
  destruct x; cbn [expected raw_of chan_eqb negb b2z] in *; lia.
Qed.

Lemma emits_short (x : stream) (s : state) :
  invariant s -> cast fs this fpath isColor s ->
  (length (flat_map (emitted (out_of x)) (tasks s)) <= 1)%nat.
Proof.
  intros I C. pose proof (roles_emits x (tasks s) C).
  pose proof (raw_token x s I). lia.
Qed.

Lemma emits_perm (x : stream) (s : state) (ts : list (list action)) :
  invariant s -> cast fs this fpath isColor s ->
  Permutation (tasks s) ts ->
  flat_map (emitted (out_of x)) (tasks s)
  = flat_map (emitted (out_of x)) ts.
Proof.
  intros I C P. apply perm_short; [now apply flat_map_perm|].
  now apply emits_short.
Qed.

Lemma emits_spawned (x : stream) (s : state) (a : action)
      (k : list action) (m' : store) (spawned : list (list action)) :
  role fs this fpath isColor (a :: k) ->
  local fs this a (mem s) = Some (spawned, m') ->
  flat_map (emitted (out_of x)) spawned = [].
Proof.
  intros Rk L. rewrite (local_spawned _ _ _ _ _ _ L).
  destruct a; try reflexivity. cbn [flat_map]. rewrite app_nil_r.
  apply body_emits_nothing.
  apply (role_go fs this fpath isColor (Go f :: k)); [exact Rk|now left].
Qed.

(** A send that a goroutine does on its own is a send on a closed
    channel, which is a panic. *)
Lemma local_send (a : action) (m m' : store)
      (spawned : list (list action)) (c : chan) :
  local fs this a m = Some (spawned, m') ->
  status_of m' <> Panicked -> emitted c [ a ] = [].
Proof.
  intros L NP. destruct a; try reflexivity. cbn [local] in L.
  destruct (closed m c0); [|discriminate L].
  injection L as _ <-. now destruct NP.
Qed.

Lemma sifted_kept (x : stream) (s s' : state) :
  invariant s -> invariant s' ->
  cast fs this fpath isColor s -> cast fs this fpath isColor s' ->
  step fs this s s' ->
  (sent (out_of x) (trace (mem s))
   ++ flat_map (emitted (out_of x)) (tasks s))%list
  = keep this x (sent (raw_of x) (trace (mem s))) ->
  (sent (out_of x) (trace (mem s'))
   ++ flat_map (emitted (out_of x)) (tasks s'))%list
  = keep this x (sent (raw_of x) (trace (mem s'))).
Proof.
  intros I I' C C' St Q.
  destruct St as [s a k rest spawned m' R P L|s c msg l k k' rest R P Cl];
    cbn [tasks mem] in *.
  - rewrite (emits_perm x s _ I C P) in Q. cbn [flat_map] in *.
    rewrite (local_trace fs this a _ _ _ L (inv_status _ I')).
    rewrite !sent_app, !sent_event_of, !app_nil_r.
    rewrite flat_map_app.
    rewrite (emits_spawned x s a k m' spawned) by
        first [ exact L
              | apply C; eapply Permutation_in;
                [symmetry; exact P|now left] ].
    rewrite emitted_cons in Q.
    rewrite (local_send a _ _ _ (out_of x) L (inv_status _ I')) in Q.
    exact Q.
  - rewrite (emits_perm x s _ I C P) in Q. cbn [flat_map] in *.
    cbn [trace log sent]. rewrite emitted_app.
    rewrite (emitted_cons _ (Send c msg)) in Q.
    rewrite (emitted_cons _ (Range c l)) in *.
    change (emitted (out_of x) [ Range c l ]) with (@nil string) in *.
    rewrite emitted_send in Q.
    cbn [app] in *.
    assert (Rr : role fs this fpath isColor (Range c l :: k')).
    { apply C. eapply Permutation_in; [symmetry; exact P|].
      right. now left. }
    destruct (role_head_range fs this fpath isColor c l k' Rr)
      as (f & K & B).
    rewrite (loop_emits x f c l k' msg K B).
    destruct (chan_eqb (raw_of x) c) eqn:E.
    + apply chan_eqb_eq in E. subst c. rewrite chan_eqb_refl.
      rewrite out_not_raw in *. rewrite keep_app, <- Q.
      assert (Z : flat_map (emitted (out_of x))
                           ((Send (raw_of x) msg :: k) :: rest) = []).
      { apply length_zero_iff_nil.
        assert (Rs : forall y,
                   In y ((Send (raw_of x) msg :: k) :: rest) ->
                   role fs this fpath isColor y).
        { intros y Hy. apply C.
          eapply Permutation_in; [symmetry; exact P|].
          destruct Hy as [<-|Hy]; [now left|right; now right]. }
        pose proof (roles_emits x _ Rs) as Bd.
        pose proof (raw_token x s I) as T.
        rewrite (grand_perm _ _ _ P), !grand_cons in T.
        rewrite grand_cons in Bd.
        rewrite (total_cons _ (Range (raw_of x) l)) in T.
        change (tok (TRange (raw_of x)) (Range (raw_of x) l))
          with (b2z (chan_eqb (raw_of x) (raw_of x))) in T.
        rewrite chan_eqb_refl in T. cbn [b2z] in T.
        pose proof (total_tok_nonneg (TRange (raw_of x)) k').
        lia. }
      cbn [flat_map] in Z. rewrite emitted_cons in Z.
      rewrite emitted_send, out_not_raw in Z. cbn [app] in Z.
      apply app_eq_nil in Z. destruct Z as [Z1 Z2].
      rewrite Z1, Z2.
      rewrite (after_emits_nothing x f _ l k' K B).
      cbn [app]. now rewrite !app_nil_r.
    + assert (E' : chan_eqb c (raw_of x) = false).
      { destruct (chan_eqb c (raw_of x)) eqn:E'; [|reflexivity].
        apply chan_eqb_eq in E'. subst c.
        now rewrite chan_eqb_refl in E. }
      rewrite E'. rewrite app_nil_r. cbn [app]. rewrite <- Q.
      destruct (chan_eqb (out_of x) c);
        now rewrite <- ?app_assoc.
Qed.

Lemma sifted_reachable (x : stream) (s : state) :
  reachable fs this fpath isColor s ->
  (sent (out_of x) (trace (mem s))
   ++ flat_map (emitted (out_of x)) (tasks s))%list
  = keep this x (sent (raw_of x) (trace (mem s))).
Proof.
  revert s. apply through.
  - unfold init.
    cbn [tasks mem init_store trace sent flat_map app].
    rewrite emitted_nil by apply main_sends_nothing.
    unfold keep. now destruct (enabled this x).
  - apply sifted_kept.
Qed.

Lemma mute_emits (s : state) (c : chan) :
  invariant s -> closed (mem s) c = true ->
  flat_map (emitted c) (tasks s) = [].
Proof.
  intros I Cl. pose proof (inv_mute s I c Cl) as M.
  induction (tasks s) as [|k ts IH]; [reflexivity|].
  cbn [flat_map]. rewrite IH by (intros k' Hk'; apply M; now right).
  rewrite app_nil_r. apply emitted_nil. intros msg H.
  pose proof (existsb_false_in _ _ _ (M k (or_introl eq_refl)) H) as U.
  cbn in U. now rewrite chan_eqb_refl in U.
Qed.

End Filtered.

(** ** The reporters *)

Lemma shuffle {A : Type} (s x k y r z : list A) :
  Permutation ((s ++ x) ++ k ++ (y ++ r) ++ z)
              ((s ++ (x ++ k) ++ r ++ z) ++ y).
Proof.
  rewrite <- !app_assoc. do 3 apply Permutation_app_head.
  rewrite (app_assoc r z y). apply Permutation_app_comm.
Qed.

Section Reporters.
Context {RE : RegexpLib}.
Variables (fs : os.FileSystem) (this : gorep).
Variables (fpath : string) (isColor : bool).

Lemma reported_app (t1 t2 : list event) :
  reported this isColor (t1 ++ t2)
  = (reported this isColor t2 ++ reported this isColor t1)%list.
Proof.
  induction t1 as [|e t1 IH]; cbn [reported app]; [now rewrite app_nil_r|].
  now rewrite IH, app_assoc.
Qed.

Lemma reported_event_of (a : action) :
  reported this isColor (event_of a) = [].
Proof. destruct a; reflexivity. Qed.

Lemma body_prints_nothing (f : call) :
  known fpath isColor f -> emitted chPrint (body fs this f) = [].
Proof.
  intros K. apply emitted_nil. intros msg H.
  destruct (body_sends fs this fpath isColor f _ msg K H)
    as [[E|[E|E]]|E]; discriminate E.
Qed.

(** What the body of a loop hands to the printer: the line of the
    record received, when the loop is that of a reporter. *)
Lemma loop_prints (f : call) (c : chan) (l : loop)
      (after : list action) (msg : string) :
  known fpath isColor f -> body fs this f = Range c l :: after ->
  emitted chPrint (loop_body this l msg)
  = if isReduce c then [ line_of this isColor c msg ] else [].
Proof.
  intros K B.
  destruct (loop_cases fs this fpath isColor f c l after K B)
    as [(_ & -> & -> & _)|[(_ & -> & -> & _)|[(_ & -> & -> & _)|
        [(_ & -> & -> & _)|(Rc & _ & -> & _)]]]].
  5: { rewrite Rc. reflexivity. }
  all: unfold loop_body, filter; cbn [isReduce];
    repeat match goal with
           | |- context [if ?b then _ else _] => destruct b
           end; reflexivity.
Qed.

Lemma prints_spawned (s : state) (a : action)
      (k : list action) (m' : store) (spawned : list (list action)) :
  role fs this fpath isColor (a :: k) ->
  local fs this a (mem s) = Some (spawned, m') ->
  flat_map (emitted chPrint) spawned = [].
Proof.
  intros Rk L. rewrite (local_spawned _ _ _ _ _ _ L).
  destruct a; try reflexivity. cbn [flat_map]. rewrite app_nil_r.
  apply body_prints_nothing.
  apply (role_go fs this fpath isColor (Go f :: k)); [exact Rk|now left].
Qed.

Lemma relayed_kept (s s' : state) :
  invariant s -> invariant s' ->
  cast fs this fpath isColor s -> cast fs this fpath isColor s' ->
  step fs this s s' ->
  Permutation (sent chPrint (trace (mem s))
               ++ flat_map (emitted chPrint) (tasks s))
              (reported this isColor (trace (mem s))) ->
  Permutation (sent chPrint (trace (mem s'))
               ++ flat_map (emitted chPrint) (tasks s'))
              (reported this isColor (trace (mem s'))).
Proof.
  intros I I' C C' St Q.
  destruct St as [s a k rest spawned m' R P L|s c msg l k k' rest R P Cl];
    cbn [tasks mem] in *.
  - rewrite (flat_map_perm (emitted chPrint) _ _ P) in Q.
    cbn [flat_map] in *.
    rewrite (local_trace fs this a _ _ _ L (inv_status _ I')).
    rewrite sent_app, reported_app, sent_event_of, reported_event_of.
    rewrite !app_nil_r, flat_map_app.
    rewrite (prints_spawned s a k m' spawned) by
        first [ exact L
              | apply C; eapply Permutation_in;
                [symmetry; exact P|now left] ].
    rewrite emitted_cons in Q.
    rewrite (local_send fs this a _ _ _ chPrint L (inv_status _ I')) in Q.
    exact Q.
  - rewrite (flat_map_perm (emitted chPrint) _ _ P) in Q.
    cbn [flat_map] in *.
    cbn [trace log sent reported]. rewrite emitted_app.
    rewrite (emitted_cons _ (Send c msg)), emitted_send in Q.
    assert (Rr : role fs this fpath isColor (Range c l :: k')).
    { apply C. eapply Permutation_in; [symmetry; exact P|].
      right. now left. }
    destruct (role_head_range fs this fpath isColor c l k' Rr)
      as (f & K & B).
    rewrite (loop_prints f c l k' msg K B).
    rewrite shuffle. now apply Permutation_app_tail.
Qed.

Lemma relayed_reachable (s : state) :
  reachable fs this fpath isColor s ->
  Permutation (sent chPrint (trace (mem s))
               ++ flat_map (emitted chPrint) (tasks s))
              (reported this isColor (trace (mem s))).
Proof.
  revert s. apply through.
  - unfold init.
    cbn [tasks mem init_store trace sent reported flat_map app].
    rewrite emitted_nil by apply main_sends_nothing. apply perm_nil.
  - apply relayed_kept.
Qed.

(** A goroutine that has a line for the printer has its [Done] on
    the wait group of the reporters left to do. *)
Lemma role_prints (k : list action) (msg : string) :
  role fs this fpath isColor k -> In (Send chPrint msg) k ->
  existsb (acts waitReports) k = true.
Proof.
  intros Rk H.
  destruct Rk as [k M|f k K B|f c l after msg0 hand k K B Hd ->].
  - destruct (main_sends_nothing fpath isColor chPrint msg).
    eapply rest_of_in; eassumption.
  - assert (H' : In (Send chPrint msg) (body fs this f))
      by (eapply rest_of_in; eassumption).
    destruct (body_sends fs this fpath isColor f _ msg K H')
      as [[E|[E|E]]|E]; discriminate E.
  - apply in_app_or in H. destruct H as [H|[H|H]].
    + apply (rest_of_in _ _ _ Hd) in H.
      destruct (loop_cases fs this fpath isColor f c l after K B)
        as [(_ & _ & -> & _)|[(_ & _ & -> & _)|[(_ & _ & -> & _)|
            [(_ & _ & -> & _)|(_ & _ & _ & ->)]]]].
      5: { apply existsb_exists. exists (Done waitReports). split.
           - apply in_or_app. right. right. now left.
           - reflexivity. }
      all: exfalso; revert H; unfold loop_body, filter;
        repeat match goal with
               | |- context [if ?b then _ else _] => destruct b
               end; cbn; intuition discriminate.
    + discriminate H.
    + assert (H' : In (Send chPrint msg) (body fs this f))
        by (rewrite B; now right).
      destruct (body_sends fs this fpath isColor f _ msg K H')
        as [[E|[E|E]]|E]; discriminate E.
Qed.

Lemma relayed_at_exit (s : state) :
  invariant s -> cast fs this fpath isColor s ->
  status_of (mem s) = Exited 0 ->
  flat_map (emitted chPrint) (tasks s) = [].
Proof.
  intros I C X. pose proof (inv_exit s I X) as E.
  pose proof (inv_after s I (TWait waitReports) TExit eq_refl E) as W.
  destruct (inv_quiet s I waitReports W) as [_ Q].
  assert (H : forall k, In k (tasks s) -> emitted chPrint k = []).
  { intros k Hk. apply emitted_nil. intros msg Hm.
    pose proof (role_prints k msg (C k Hk) Hm) as A.
    rewrite (Q k Hk) in A. discriminate A. }
  induction (tasks s) as [|k ts IH]; [reflexivity|].
  cbn [flat_map]. rewrite (H k (or_introl eq_refl)).
  apply IH; intros; apply H || apply C || apply Q; now right.
Qed.

End Reporters.

(** ** What is left when [main] returns *)

Lemma total_zero_in (t : token) (k : list action) (a : action) :
  total (tok t) k = 0 -> In a k -> tok t a = 0.
Proof.
  induction k as [|b k IH]; [intros _ []|].
  rewrite total_cons. intros Z.
  pose proof (tok_nonneg t b) as Nb. pose proof (total_tok_nonneg t k) as Nk.
  intros [<-|Hin]; [lia|]. apply IH; [lia|exact Hin].
Qed.

Lemma grand_zero_in (t : token) (ts : list (list action))
      (k : list action) (a : action) :
  grand (tok t) ts = 0 -> In k ts -> In a k -> tok t a = 0.
Proof.
  intros G Hk Ha. apply (total_zero_in t k a); [|exact Ha].
  pose proof (grand_tok_member t ts k Hk).
  pose proof (total_tok_nonneg t k). lia.
Qed.

Section Suffixes.
Variable A : Type.

Lemma suffix_last (script k : list A) (z : A) :
  (exists done, script ++ [ z ] = done ++ k) -> k = [] \/ In z k.
Proof.
  intros [done E]. destruct k as [|a k] using rev_ind; [now left|].
  right. rewrite app_assoc in E. apply app_inj_tail in E.
  destruct E as [_ <-]. apply in_or_app. right. now left.
Qed.

Lemma suffix_last2 (script k : list A) (y z : A) :
  (exists done, script ++ [ y; z ] = done ++ k) ->
  k = [] \/ k = [ z ] \/ In y k.
Proof.
  intros [done E]. destruct k as [|a k _] using rev_ind; [now left|].
  right. rewrite app_assoc in E.
  change [ y; z ] with ([ y ] ++ [ z ]) in E. rewrite app_assoc in E.
  apply app_inj_tail in E. destruct E as [E <-].
  destruct k as [|b k _] using rev_ind; [now left|]. right.
  rewrite app_assoc in E. apply app_inj_tail in E.
  destruct E as [_ <-]. apply in_or_app. left.
  apply in_or_app. right. now left.
Qed.

End Suffixes.

Section AtExit.
Context {RE : RegexpLib}.
Variables (fs : os.FileSystem) (this : gorep).
Variables (fpath : string) (isColor : bool).
Variable s : state.
Hypothesis I : invariant s.
Hypothesis X : status_of (mem s) = Exited 0.

Lemma exit_spent : grand (tok TExit) (tasks s) = 0.
Proof.
  pose proof (inv_exit s I X) as E.
  pose proof (inv_tokens s I TExit) as T.
  pose proof (grand_tok_nonneg TExit (tasks s)).
  cbn [expected] in T. lia.
Qed.

Lemma exit_closed (c : chan) :
  c <> chPrint -> c <> MapLine -> fired (TClose c) (trace (mem s)) = 1.
Proof.
  intros N1 N2.
  assert (Rd : forall c', isReduce c' = true ->
                          fired (TClose c') (trace (mem s)) = 1)
    by (intros c' Rc; now apply (inv_completed s c' I X)).
  assert (Mp : forall c' c'', guards (TRange c') (TClose c'') = true ->
                              isReduce c'' = true ->
                              fired (TClose c') (trace (mem s)) = 1).
  { intros c' c'' G Rc.
    assert (Cl : closed (mem s) c'' = true)
      by (apply (inv_closed_once s c'' I); now apply Rd).
    destruct (inv_ranged s c' c'' I G Cl) as [_ Cl'].
    now apply (inv_closed_once s c' I). }
  destruct c; try (now apply Rd); try (now destruct N1);
    try (now destruct N2).
  - now apply (Mp MapDir ReduceDir).
  - now apply (Mp MapFile ReduceFile).
  - now apply (Mp MapSymlink ReduceSymlink).
Qed.

Lemma exit_closings (c : chan) :
  c <> chPrint -> c <> MapLine -> grand (tok (TClose c)) (tasks s) = 0.
Proof.
  intros N1 N2. pose proof (exit_closed c N1 N2) as F.
  pose proof (inv_tokens s I (TClose c)) as T.
  pose proof (grand_tok_nonneg (TClose c) (tasks s)).
  pose proof (b2z_range (negb (chan_eqb c chPrint))).
  cbn [expected] in T. lia.
Qed.

Lemma exit_waited (w : waitgroup) (k : list action) (a : action) :
  In k (tasks s) -> In a k -> acts w a = false.
Proof.
  intros Hk Ha.
  assert (W : 0 < fired (TWait w) (trace (mem s))).
  { destruct w.
    - apply (inv_after s I (TWait waitMaps) (TClose MapDir) eq_refl).
      rewrite (exit_closed MapDir); [lia|discriminate|discriminate].
    - apply (inv_after s I (TWait waitGreps) (TClose ReduceLine) eq_refl).
      rewrite (exit_closed ReduceLine); [lia|discriminate|discriminate].
    - apply (inv_after s I (TWait waitReports) TExit eq_refl).
      apply (inv_exit s I X). }
  destruct (inv_quiet s I w W) as [_ Q].
  apply (existsb_false_in _ k a (Q k Hk) Ha).
Qed.

Lemma exit_ranges (c : chan) :
  c <> chPrint -> c <> MapLine -> grand (tok (TRange c)) (tasks s) = 0.
Proof.
  intros N1 N2.
  assert (Rd : forall c', isReduce c' = true ->
                          grand (tok (TRange c')) (tasks s) = 0).
  { intros c' Rc.
    assert (Z : forall k, In k (tasks s) -> total (tok (TRange c')) k = 0).
    { intros k Hk. pose proof (total_tok_nonneg (TRange c') k).
      destruct (Z.lt_ge_cases 0 (total (tok (TRange c')) k)) as [H'|H'];
        [|lia].
      pose proof (d_reports k (inv_disciplined s k I Hk) c' Rc H') as A.
      apply existsb_exists in A. destruct A as (a & Ha & A).
      rewrite (exit_waited waitReports k a Hk Ha) in A. discriminate. }
    clear -Z. induction (tasks s) as [|k ts IH]; [reflexivity|].
    rewrite grand_cons, (Z k (or_introl eq_refl)), IH; [reflexivity|].
    intros y Hy. apply Z. now right. }
  assert (Mp : forall c' c'', guards (TRange c') (TClose c'') = true ->
                              c'' <> chPrint -> c'' <> MapLine ->
                              c' <> MapLine ->
                              grand (tok (TRange c')) (tasks s) = 0).
  { intros c' c'' G M1 M2 M3.
    assert (F : 0 < fired (TRange c') (trace (mem s))).
    { apply (inv_after s I _ _ G). rewrite (exit_closed c'' M1 M2). lia. }
    pose proof (inv_tokens s I (TRange c')) as T.
    pose proof (grand_tok_nonneg (TRange c') (tasks s)).
    pose proof (b2z_range (negb (chan_eqb c' MapLine))).
    cbn [expected] in T. lia. }
  destruct c; try (now apply Rd); try (now destruct N1);
    try (now destruct N2).
  - apply (Mp MapDir ReduceDir); [reflexivity|discriminate..].
  - apply (Mp MapFile ReduceFile); [reflexivity|discriminate..].
  - apply (Mp MapSymlink ReduceSymlink); [reflexivity|discriminate..].
Qed.

Hypothesis C : cast fs this fpath isColor s.

Lemma exit_rest (k : list action) :
  In k (tasks s) ->
  k = [] \/ k = [ Close MapLine ] \/ k = [ Range chPrint PrinterLoop ]
  \/ exists msg, k = [ Stdout msg; Range chPrint PrinterLoop ].
Proof.
  intros Hk. pose proof (C k Hk) as Rk.
  assert (NT : forall t a, grand (tok t) (tasks s) = 0 -> In a k ->
                           tok t a = 0)
    by (intros t a G Ha; now apply (grand_zero_in t (tasks s) k a)).
  assert (NW : forall w a, In a k -> acts w a = false)
    by (intros w a Ha; now apply (exit_waited w k a)).
  destruct Rk as [k M|f k K B|f c l after msg hand k K B Hd ->].
  - left. unfold rest_of in M. rewrite main_script in M.
    change [ Go (KickMap fpath); Go KickReduce; Go Printer;
             Add waitReports 4;
             Go (Reporter (markOf isColor ReduceDir) (markMatch isColor)
                          ReduceDir);
             Go (Reporter (markOf isColor ReduceFile) (markMatch isColor)
                          ReduceFile);
             Go (Reporter (markOf isColor ReduceSymlink)
                          (markMatch isColor) ReduceSymlink);
             Go (Reporter (markOf isColor ReduceLine) (markMatch isColor)
                          ReduceLine);
             Wait waitReports; Exit 0 ]
      with ([ Go (KickMap fpath); Go KickReduce; Go Printer;
              Add waitReports 4;
              Go (Reporter (markOf isColor ReduceDir) (markMatch isColor)
                           ReduceDir);
              Go (Reporter (markOf isColor ReduceFile) (markMatch isColor)
                           ReduceFile);
              Go (Reporter (markOf isColor ReduceSymlink)
                           (markMatch isColor) ReduceSymlink);
              Go (Reporter (markOf isColor ReduceLine) (markMatch isColor)
                           ReduceLine);
              Wait waitReports ] ++ [ Exit 0 ]) in M.
    destruct (suffix_last _ _ _ _ M) as [E|E]; [exact E|].
    pose proof (NT TExit _ exit_spent E) as Z. discriminate Z.
  - unfold rest_of in B.
    destruct f as [p| |p chans|i o|i o cl|i o|p out| |mark accent ch];
      cbn [body known] in *.
    + unfold kick_map, closeChannelSet in B.
      cbn [chsMap channelSet.dir channelSet.file channelSet.symlink
                  channelSet.line] in B.
      assert (E : exists done,
                 (Add waitMaps 1 :: mapfork fs this p chsMap
                  ++ [ Wait waitMaps; Close MapDir; Close MapFile ])
                 ++ [ Close MapSymlink; Close MapLine ] = done ++ k).
      { destruct B as [done B]. exists done. rewrite <- B.
        cbn [app]. now rewrite <- app_assoc. }
      destruct (suffix_last2 _ _ _ _ _ E) as [Z|[Z|Z]]; auto.
      assert (G : grand (tok (TClose MapSymlink)) (tasks s) = 0)
        by (apply exit_closings; discriminate).
      pose proof (NT _ _ G Z) as N. discriminate N.
    + left.
      change (reduce chsMap chsReduce)
        with ([ Go (ReduceDirs MapDir ReduceDir);
                Go (ReduceFiles MapFile ReduceFile ReduceLine) ]
              ++ [ Go (ReduceSymlinks MapSymlink ReduceSymlink) ]) in B.
      destruct (suffix_last _ _ _ _ B) as [Z|Z]; [exact Z|].
      assert (G : grand (tok (TRange MapSymlink)) (tasks s) = 0)
        by (apply exit_ranges; discriminate).
      pose proof (NT _ _ G Z) as N. discriminate N.
    + left. unfold mapfork in B.
      destruct (suffix_last _ _ _ _ B) as [Z|Z]; [exact Z|].
      pose proof (NW waitMaps _ Z) as N. discriminate N.
    + left. destruct K as [-> ->].
      change (reduce_dirs MapDir ReduceDir)
        with ([ Range MapDir (DirLoop ReduceDir) ]
              ++ [ Close ReduceDir ]) in B.
      destruct (suffix_last _ _ _ _ B) as [Z|Z]; [exact Z|].
      assert (G : grand (tok (TClose ReduceDir)) (tasks s) = 0)
        by (apply exit_closings; discriminate).
      pose proof (NT _ _ G Z) as N. discriminate N.
    + left. destruct K as (-> & -> & ->).
      change (reduce_files MapFile ReduceFile ReduceLine)
        with ([ Range MapFile (FileLoop ReduceFile ReduceLine);
                Close ReduceFile; Wait waitGreps ]
              ++ [ Close ReduceLine ]) in B.
      destruct (suffix_last _ _ _ _ B) as [Z|Z]; [exact Z|].
      assert (G : grand (tok (TClose ReduceLine)) (tasks s) = 0)
        by (apply exit_closings; discriminate).
      pose proof (NT _ _ G Z) as N. discriminate N.
    + left. destruct K as [-> ->].
      change (reduce_symlinks MapSymlink ReduceSymlink)
        with ([ Range MapSymlink (SymlinkLoop ReduceSymlink) ]
              ++ [ Close ReduceSymlink ]) in B.
      destruct (suffix_last _ _ _ _ B) as [Z|Z]; [exact Z|].
      assert (G : grand (tok (TClose ReduceSymlink)) (tasks s) = 0)
        by (apply exit_closings; discriminate).
      pose proof (NT _ _ G Z) as N. discriminate N.
    + left.
      assert (E : exists done,
                 (removelast (grep fs this p out))
                 ++ [ Done waitGreps ] = done ++ k).
      { destruct B as [done B]. exists done. rewrite <- B.
        unfold grep. rewrite app_comm_cons.
        change [ Release; Done waitGreps ]
          with ([ Release ] ++ [ Done waitGreps ]).
        rewrite app_assoc. now rewrite removelast_last. }
      destruct (suffix_last _ _ _ _ E) as [Z|Z]; [exact Z|].
      pose proof (NW waitGreps _ Z) as N. discriminate N.
    + change printer with ([] ++ [ Range chPrint PrinterLoop ]) in B.
      destruct B as [[|b [|? ?]] B]; cbn in B.
      * right; right; left. now symmetry.
      * left. injection B as _ B. now symmetry.
      * injection B as _ B. discriminate B.
    + left.
      change (reporter mark accent ch)
        with ([ Range ch (ReporterLoop mark accent) ]
              ++ [ Done waitReports ]) in B.
      destruct (suffix_last _ _ _ _ B) as [Z|Z]; [exact Z|].
      pose proof (NW waitReports _ Z) as N. discriminate N.
  - assert (Hr : In (Range c l) (hand ++ Range c l :: after))
      by (apply in_or_app; right; now left).
    destruct (loop_cases fs this fpath isColor f c l after K B)
      as [(_ & -> & _)|[(_ & -> & _)|[(_ & -> & _)|
          [(_ & -> & -> & ->)|(Rc & _)]]]].
    + assert (G : grand (tok (TRange MapDir)) (tasks s) = 0)
        by (apply exit_ranges; discriminate).
      pose proof (NT _ _ G Hr) as N. discriminate N.
    + assert (G : grand (tok (TRange MapFile)) (tasks s) = 0)
        by (apply exit_ranges; discriminate).
      pose proof (NT _ _ G Hr) as N. discriminate N.
    + assert (G : grand (tok (TRange MapSymlink)) (tasks s) = 0)
        by (apply exit_ranges; discriminate).
      pose proof (NT _ _ G Hr) as N. discriminate N.
    + right; right. cbn [loop_body] in Hd.
      apply rest_of_cons in Hd. destruct Hd as [->|Hd].
      * right. now exists msg.
      * apply rest_of_nil in Hd. subst hand. now left.
    + assert (G : grand (tok (TRange c)) (tasks s) = 0)
        by (apply exit_ranges; intros ->; discriminate Rc).
      pose proof (NT _ _ G Hr) as N. cbn in N.
      rewrite chan_eqb_refl in N. discriminate N.
Qed.

Lemma exit_nothing_held : permits (mem s) = 0%nat /\ openfiles (mem s) = 0%nat.
Proof.
  assert (Z : forall f, (forall msg, f (Stdout msg) = 0) ->
                        (forall c, f (Close c) = 0) ->
                        (forall c l, f (Range c l) = 0) ->
                        grand f (tasks s) = 0).
  { intros f F1 F2 F3. pose proof exit_rest as E.
    induction (tasks s) as [|k ts IH]; [reflexivity|].
    rewrite grand_cons, IH by (intros k' Hk'; apply E; now right).
    destruct (E k (or_introl eq_refl)) as [->|[->|[->|[msg ->]]]];
      cbn; rewrite ?F1, ?F2, ?F3; reflexivity. }
  destruct (inv_permits s I) as [P _]. pose proof (inv_open s I) as O.
  rewrite Z in P by reflexivity. rewrite Z in O by reflexivity. lia.
Qed.

End AtExit.

(** ** The scans *)

Lemma flat_map_nil {A B : Type} (f : A -> list B) (l : list A) :
  (forall a, In a l -> f a = []) -> flat_map f l = [].
Proof.
  induction l as [|a l IH]; [reflexivity|]. intros H. cbn [flat_map].
  rewrite (H a (or_introl eq_refl)), IH; [reflexivity|].
  intros b Hb. apply H. now right.
Qed.

Section Scans.
Context {RE : RegexpLib}.
Variables (fs : os.FileSystem) (this : gorep).
Variables (fpath : string) (isColor : bool).

(** The calls that the bodies of the calls make: expansions and the
    three consumers. *)
Lemma body_calls (f g : call) :
  known fpath isColor f -> In (Go g) (body fs this f) ->
  (exists p, g = Mapfork p chsMap)
  \/ g = ReduceDirs MapDir ReduceDir
  \/ g = ReduceFiles MapFile ReduceFile ReduceLine
  \/ g = ReduceSymlinks MapSymlink ReduceSymlink.
Proof.
  intros K H.
  assert (M : forall p, In (Go g) (mapfork fs this p chsMap) ->
                        exists q, g = Mapfork q chsMap).
  { intros p Hp. destruct (map_script_mapfork fs this p) as [M _].
    pose proof (map_script_in _ _ M Hp) as A. cbn in A.
    destruct g as [| |q chans| | | | | |]; try discriminate A.
    destruct chans as [[] [] [] []]; try discriminate A. now exists q. }
  destruct f as [p| |p chans|i o|i o cl|i o|p out| |mark accent ch];
    cbn [body known] in *.
  - unfold kick_map in H. destruct H as [E|H]; [discriminate|].
    apply in_app_or in H. destruct H as [H|H]; [left; eauto|].
    cbn in H. intuition discriminate.
  - cbn in H. destruct H as [E|[E|[E|[]]]]; injection E as <-; auto.
  - subst chans. left. eauto.
  - cbn in H. intuition discriminate.
  - cbn in H. intuition discriminate.
  - cbn in H. intuition discriminate.
  - subst out. apply grep_plain in H. discriminate H.
  - cbn in H. intuition discriminate.
  - cbn in H. intuition discriminate.
Qed.

(** On the stream of match lines, only the scans send. *)
Lemma body_sends_line (f : call) (msg : string) :
  known fpath isColor f -> In (Send ReduceLine msg) (body fs this f) ->
  exists p, f = Grep p ReduceLine.
Proof.
  intros K H.
  destruct f as [p| |p chans|i o|i o cl|i o|p out| |mark accent ch];
    cbn [body known] in *.
  - exfalso. unfold kick_map in H. destruct H as [X|H]; [discriminate|].
    apply in_app_or in H. destruct H as [H|H].
    + destruct (map_script_mapfork fs this p) as [M _].
      pose proof (map_script_in _ _ M H) as A. discriminate A.
    + cbn in H. intuition discriminate.
  - cbn in H. intuition discriminate.
  - exfalso. subst chans.
    destruct (map_script_mapfork fs this p) as [M _].
    pose proof (map_script_in _ _ M H) as A. discriminate A.
  - cbn in H. intuition discriminate.
  - cbn in H. intuition discriminate.
  - cbn in H. intuition discriminate.
  - subst out. now exists p.
  - cbn in H. intuition discriminate.
  - cbn in H. intuition discriminate.
Qed.

Lemma grep_due (p : string) :
  flat_map (lines_due fs this) (grep fs this p ReduceLine)
  = scanned fs this p.
Proof.
  unfold scanned.
  assert (G : forall a, In a (grep fs this p ReduceLine) ->
                        grep_action a = true) by apply grep_plain.
  induction (grep fs this p ReduceLine) as [|a k IH]; [reflexivity|].
  rewrite emitted_cons. cbn [flat_map].
  rewrite IH by (intros b Hb; apply G; now right).
  f_equal. pose proof (G a (or_introl eq_refl)) as A.
  destruct a; try discriminate A; try reflexivity.
  cbn [lines_due]. now rewrite emitted_send.
Qed.

Lemma spawn_due (f : call) :
  known fpath isColor f ->
  flat_map (lines_due fs this) (body fs this f) = lines_due fs this (Go f).
Proof.
  intros K.
  destruct f as [p| |p chans|i o|i o cl|i o|p out| |mark accent ch];
    try (cbn [known] in K; subst out; apply grep_due);
    cbn [lines_due]; apply flat_map_nil; intros a Ha;
    (destruct a as [c msg| | | | | |g| | | | | | |]; try reflexivity;
     [ destruct c; try reflexivity;
       destruct (body_sends_line _ msg K Ha) as [q E]; discriminate E
     | destruct (body_calls _ g K Ha) as [[q E]|[E|[E|E]]];
       subst g; reflexivity ]).
Qed.

(** The scans that the body of a loop starts: the scan of the path
    received, in the loop of the consumer of the raw file stream,
    when the scope has [grep]. *)
Lemma loop_due (f : call) (c : chan) (l : loop)
      (after : list action) (msg : string) :
  known fpath isColor f -> body fs this f = Range c l :: after ->
  flat_map (lines_due fs this) (loop_body this l msg)
  = if chan_eqb c MapFile && searchScope.grep (scope this)
    then scanned fs this msg else [].
Proof.
  intros K B.
  destruct (loop_cases fs this fpath isColor f c l after K B)
    as [(_ & -> & -> & _)|[(_ & -> & -> & _)|[(_ & -> & -> & _)|
        [(_ & -> & -> & _)|(Rc & _ & -> & _)]]]].
  5: { destruct c; try discriminate Rc; reflexivity. }
  all: unfold loop_body, filter, scanned; cbn [chan_eqb andb];
    repeat match goal with
           | |- context [if ?b then _ else _] => destruct b
           end; cbn [flat_map app lines_due chan_eqb];
    rewrite ?app_nil_r; reflexivity.
Qed.

Lemma after_due (f : call) (c : chan) (l : loop) (after : list action) :
  known fpath isColor f -> body fs this f = Range c l :: after ->
  lines_due fs this (Go f) = [].
Proof.
  intros K B.
  destruct (loop_cases fs this fpath isColor f c l after K B)
    as [(-> & _)|[(-> & _)|[(-> & _)|[(-> & _)|(_ & -> & _)]]]];
    reflexivity.
Qed.

Lemma due_spawned (s : state) (a : action)
      (k : list action) (m' : store) (spawned : list (list action)) :
  role fs this fpath isColor (a :: k) ->
  local fs this a (mem s) = Some (spawned, m') ->
  status_of m' <> Panicked ->
  flat_map (flat_map (lines_due fs this)) spawned = lines_due fs this a.
Proof.
  intros Rk L NP. rewrite (local_spawned _ _ _ _ _ _ L).
  destruct a; try reflexivity.
  - cbn [local] in L. destruct (closed (mem s) c); [|discriminate L].
    injection L as _ <-. now destruct NP.
  - cbn [flat_map]. rewrite app_nil_r. apply spawn_due.
    apply (role_go fs this fpath isColor (Go f :: k)); [exact Rk|now left].
Qed.

Lemma scans_kept (s s' : state) :
  invariant s -> invariant s' ->
  cast fs this fpath isColor s -> cast fs this fpath isColor s' ->
  step fs this s s' ->
  Permutation
    (sent ReduceLine (trace (mem s))
     ++ flat_map (flat_map (lines_due fs this)) (tasks s))
    (flat_map (scanned fs this)
              (if searchScope.grep (scope this)
               then sent MapFile (trace (mem s)) else [])) ->
  Permutation
    (sent ReduceLine (trace (mem s'))
     ++ flat_map (flat_map (lines_due fs this)) (tasks s'))
    (flat_map (scanned fs this)
              (if searchScope.grep (scope this)
               then sent MapFile (trace (mem s')) else [])).
Proof.
  intros I I' C C' St Q.
  destruct St as [s a k rest spawned m' R P L|s c msg l k k' rest R P Cl];
    cbn [tasks mem] in *.
  - rewrite (flat_map_perm (flat_map (lines_due fs this)) _ _ P) in Q.
    cbn [flat_map] in *.
    rewrite (local_trace fs this a _ _ _ L (inv_status _ I')).
    rewrite !sent_app, !sent_event_of, !app_nil_r, flat_map_app.
    rewrite (due_spawned s a k m' spawned) by
        first [ exact L | exact (inv_status _ I')
              | apply C; eapply Permutation_in;
                [symmetry; exact P|now left] ].
    rewrite <- Q. apply Permutation_app_head.
    rewrite !app_assoc. apply Permutation_app_tail.
    apply Permutation_app_comm.
  - rewrite (flat_map_perm (flat_map (lines_due fs this)) _ _ P) in Q.
    cbn [flat_map] in *.
    cbn [trace log sent]. rewrite (flat_map_app _ (loop_body this l msg)).
    cbn [flat_map lines_due] in *.
    assert (Rr : role fs this fpath isColor (Range c l :: k')).
    { apply C. eapply Permutation_in; [symmetry; exact P|].
      right. now left. }
    destruct (role_head_range fs this fpath isColor c l k' Rr)
      as (f & K & B).
    rewrite (loop_due f c l k' msg K B).
    rewrite shuffle.
    assert (E : flat_map (scanned fs this)
                  (if searchScope.grep (scope this)
                   then (sent MapFile (trace (mem s))
                         ++ (if chan_eqb MapFile c then [ msg ] else []))%list
                   else [])
                = (flat_map (scanned fs this)
                     (if searchScope.grep (scope this)
                      then sent MapFile (trace (mem s)) else [])
                   ++ (if chan_eqb c MapFile
                          && searchScope.grep (scope this)
                       then scanned fs this msg else []))%list).
    { destruct (searchScope.grep (scope this)).
      - rewrite flat_map_app, andb_true_r.
        destruct c; cbn [chan_eqb flat_map]; now rewrite ?app_nil_r.
      - now rewrite andb_false_r. }
    rewrite E. now apply Permutation_app_tail.
Qed.

Lemma scans_reachable (s : state) :
  reachable fs this fpath isColor s ->
  Permutation
    (sent ReduceLine (trace (mem s))
     ++ flat_map (flat_map (lines_due fs this)) (tasks s))
    (flat_map (scanned fs this)
              (if searchScope.grep (scope this)
               then sent MapFile (trace (mem s)) else [])).
Proof.
  revert s. apply through.
  - unfold init.
    cbn [tasks mem init_store trace sent flat_map app].
    rewrite main_script. cbn. destruct (searchScope.grep (scope this));
      apply perm_nil.
  - apply scans_kept.
Qed.

Lemma scans_closed (s : state) :
  invariant s -> cast fs this fpath isColor s ->
  closed (mem s) ReduceLine = true ->
  flat_map (flat_map (lines_due fs this)) (tasks s) = [].
Proof.
  intros I C Cl. pose proof (inv_mute s I ReduceLine Cl) as M.
  apply flat_map_nil. intros k Hk. apply flat_map_nil. intros a Ha.
  pose proof (existsb_false_in _ _ _ (M k Hk) Ha) as U.
  destruct a as [c msg| | | | | |g| | | | | | |]; try reflexivity.
  - cbn in U. cbn. now rewrite U.
  - destruct g; try reflexivity.
    pose proof (role_go fs this fpath isColor k _ (C k Hk) Ha) as K.
    cbn in K. subst out. discriminate U.
Qed.

End Scans.

(** ** The walk *)

Lemma shuffle_spawn {A : Type} (s k d f r : list A) :
  Permutation (s ++ k ++ (d ++ f) ++ r) ((s ++ (d ++ k) ++ r) ++ f).
Proof.
  rewrite <- !app_assoc. apply Permutation_app_head.
  rewrite (app_assoc k d), (app_assoc d k).
  rewrite (Permutation_app_comm k d). rewrite <- !app_assoc.
  do 2 apply Permutation_app_head. apply Permutation_app_comm.
Qed.

Lemma shuffle_entry {A : Type} (x l a e f : list A) :
  Permutation a (e ++ f) ->
  Permutation (x ++ l ++ a) (x ++ e ++ l ++ f).
Proof.
  intros P. rewrite P. apply Permutation_app_head.
  rewrite !app_assoc. apply Permutation_app_tail, Permutation_app_comm.
Qed.

Lemma suffix_app {A : Type} (l1 l2 k : list A) :
  (exists done, l1 ++ l2 = done ++ k) ->
  (exists done, l2 = done ++ k) \/ exists k1, k = k1 ++ l2.
Proof.
  revert k. induction l1 as [|a l1 IH]; intros k [done E].
  - left. now exists done.
  - destruct done as [|b done]; cbn in E.
    + right. exists (a :: l1). now symmetry.
    + injection E as _ E. apply IH. now exists done.
Qed.

Section Walk.
Context {RE : RegexpLib}.
Variables (fs : os.FileSystem) (this : gorep).
Variables (fpath : string) (isColor : bool).
Variable x : stream.

(** The actions of [mapfork] on one entry. *)
Lemma mapfork_entry_cases (p : string) (finfo : os.FileInfo) :
  mapfork_entry this p chsMap finfo = []
  \/ (exists full, mapfork_entry this p chsMap finfo
                   = [ Send MapDir full; Add waitMaps 1;
                       Go (Mapfork full chsMap) ])
  \/ (exists full, mapfork_entry this p chsMap finfo
                   = [ Send MapSymlink full ])
  \/ (exists full, mapfork_entry this p chsMap finfo
                   = [ Send MapFile full ]).
Proof.
  unfold mapfork_entry.
  destruct (negb (searchScope.hidden (scope this))
            && verifyHidden (os.Name finfo)); [now left|].
  destruct (matchesIgnore this (os.Name finfo)); [now left|].
  destruct (negb (Z.land (os.Mode finfo) os.ModeDir =? 0)).
  { right; left. eexists. reflexivity. }
  destruct (negb (Z.land (os.Mode finfo) os.ModeSymlink =? 0)).
  { right; right; left. eexists. reflexivity. }
  destruct (Z.land (os.Mode finfo) ignoreFlag =? 0).
  { right; right; right. eexists. reflexivity. }
  now left.
Qed.

Lemma listing_due (p : string) (listing : list os.FileInfo) :
  Permutation
    (flat_map (entries_due fs this x)
              (flat_map (mapfork_entry this p chsMap) listing))
    (emitted (raw_of x) (flat_map (mapfork_entry this p chsMap) listing)
     ++ flat_map (listed fs this x)
          (emitted MapDir
                   (flat_map (mapfork_entry this p chsMap) listing))).
Proof.
  induction listing as [|finfo listing IH]; [apply perm_nil|].
  cbn [flat_map]. rewrite flat_map_app, !emitted_app, flat_map_app.
  destruct (mapfork_entry_cases p finfo)
    as [->|[[full ->]|[[full ->]|[full ->]]]].
  - exact IH.
  - assert (E : flat_map (entries_due fs this x)
                         [ Send MapDir full; Add waitMaps 1;
                           Go (Mapfork full chsMap) ]
                = (emitted (raw_of x) [ Send MapDir full ]
                   ++ listed fs this x full)%list).
    { cbn [flat_map entries_due app]. rewrite emitted_send.
      unfold listed. now rewrite app_nil_r. }
    rewrite E. clear E.
    change (emitted (raw_of x) [ Send MapDir full; Add waitMaps 1;
                                 Go (Mapfork full chsMap) ])
      with (emitted (raw_of x) ([ Send MapDir full ]
                                ++ [ Add waitMaps 1;
                                     Go (Mapfork full chsMap) ])).
    rewrite emitted_app.
    change (emitted (raw_of x)
                    [ Add waitMaps 1; Go (Mapfork full chsMap) ])
      with (@nil string).
    change (emitted MapDir [ Send MapDir full; Add waitMaps 1;
                             Go (Mapfork full chsMap) ])
      with [ full ].
    cbn [flat_map app]. rewrite !app_nil_r, <- !app_assoc.
    now apply shuffle_entry.
  - assert (E : flat_map (entries_due fs this x) [ Send MapSymlink full ]
                = emitted (raw_of x) [ Send MapSymlink full ]).
    { cbn [flat_map entries_due]. now rewrite emitted_send, app_nil_r. }
    rewrite E. clear E.
    change (emitted MapDir [ Send MapSymlink full ]) with (@nil string).
    cbn [flat_map app]. rewrite <- app_assoc.
    now apply Permutation_app_head.
  - assert (E : flat_map (entries_due fs this x) [ Send MapFile full ]
                = emitted (raw_of x) [ Send MapFile full ]).
    { cbn [flat_map entries_due]. now rewrite emitted_send, app_nil_r. }
    rewrite E. clear E.
    change (emitted MapDir [ Send MapFile full ]) with (@nil string).
    cbn [flat_map app]. rewrite <- app_assoc.
    now apply Permutation_app_head.
Qed.

(** What an expansion has to bring: the records of the directory and
    those of the expansions of its subdirectories. *)
Lemma mapfork_due (p : string) :
  Permutation
    (flat_map (entries_due fs this x) (mapfork fs this p chsMap))
    (listed fs this x p
     ++ flat_map (listed fs this x)
          (emitted MapDir (mapfork fs this p chsMap))).
Proof.
  unfold listed at 1. unfold mapfork.
  rewrite flat_map_app, !emitted_app.
  change (flat_map (entries_due fs this x) [ Done waitMaps ])
    with (@nil string).
  change (emitted (raw_of x) [ Done waitMaps ]) with (@nil string).
  change (emitted MapDir [ Done waitMaps ]) with (@nil string).
  rewrite !app_nil_r.
  destruct (os.ReadDir fs p) as [listing|e].
  - apply listing_due.
  - apply perm_nil.
Qed.

Lemma spawn_walk (f : call) :
  known fpath isColor f ->
  Permutation
    (flat_map (entries_due fs this x) (body fs this f))
    (entries_due fs this x (Go f)
     ++ flat_map (listed fs this x) (emitted MapDir (body fs this f))).
Proof.
  intros K.
  destruct f as [p| |p chans|i o|i o cl|i o|p out| |mark accent ch];
    cbn [body known entries_due] in *.
  - unfold kick_map.
    change (Add waitMaps 1
            :: mapfork fs this p chsMap
               ++ Wait waitMaps :: closeChannelSet chsMap)
      with ([ Add waitMaps 1 ]
            ++ mapfork fs this p chsMap
               ++ Wait waitMaps :: closeChannelSet chsMap).
    rewrite !flat_map_app, !emitted_app.
    change (flat_map (entries_due fs this x) [ Add waitMaps 1 ])
      with (@nil string).
    change (flat_map (entries_due fs this x)
                     (Wait waitMaps :: closeChannelSet chsMap))
      with (@nil string).
    change (emitted MapDir [ Add waitMaps 1 ]) with (@nil string).
    change (emitted MapDir (Wait waitMaps :: closeChannelSet chsMap))
      with (@nil string).
    cbn [app]. rewrite !app_nil_r. apply mapfork_due.
  - apply perm_nil.
  - subst chans. apply mapfork_due.
  - destruct K as [-> ->]. apply perm_nil.
  - destruct K as (-> & -> & ->). apply perm_nil.
  - destruct K as [-> ->]. apply perm_nil.
  - subst out.
    assert (G : forall a, In a (grep fs this p ReduceLine) ->
                          grep_action a = true) by apply grep_plain.
    rewrite (flat_map_nil (entries_due fs this x)).
    + rewrite emitted_nil; [apply perm_nil|].
      intros msg H. apply G in H. discriminate H.
    + intros a Ha. apply G in Ha.
      destruct a as [c msg| | | | | | | | | | | | |];
        try discriminate Ha; try reflexivity.
      destruct c; try discriminate Ha. now destruct x.
  - apply perm_nil.
  - apply perm_nil.
Qed.

Lemma loop_walk (f : call) (c : chan) (l : loop)
      (after : list action) (msg : string) :
  known fpath isColor f -> body fs this f = Range c l :: after ->
  flat_map (entries_due fs this x) (loop_body this l msg) = []
  /\ emitted MapDir (loop_body this l msg) = [].
Proof.
  intros K B.
  destruct (loop_cases fs this fpath isColor f c l after K B)
    as [(_ & _ & -> & _)|[(_ & _ & -> & _)|[(_ & _ & -> & _)|
        [(_ & _ & -> & _)|(_ & _ & -> & _)]]]];
    unfold loop_body, filter;
    repeat match goal with
           | |- context [if ?b then _ else _] => destruct b
           end; destruct x; split; reflexivity.
Qed.

Lemma walk_spawned (s : state) (a : action)
      (k : list action) (m' : store) (spawned : list (list action)) :
  role fs this fpath isColor (a :: k) ->
  local fs this a (mem s) = Some (spawned, m') ->
  status_of m' <> Panicked ->
  Permutation
    (flat_map (flat_map (entries_due fs this x)) spawned)
    (entries_due fs this x a
     ++ flat_map (listed fs this x)
          (flat_map (emitted MapDir) spawned)).
Proof.
  intros Rk L NP. rewrite (local_spawned _ _ _ _ _ _ L).
  destruct a; try apply perm_nil.
  - cbn [local] in L. destruct (closed (mem s) c); [|discriminate L].
    injection L as _ <-. now destruct NP.
  - cbn [flat_map]. rewrite !app_nil_r. apply spawn_walk.
    apply (role_go fs this fpath isColor (Go f :: k)); [exact Rk|now left].
Qed.

Lemma walk_kept (s s' : state) :
  invariant s -> invariant s' ->
  cast fs this fpath isColor s -> cast fs this fpath isColor s' ->
  step fs this s s' ->
  Permutation
    (sent (raw_of x) (trace (mem s))
     ++ flat_map (flat_map (entries_due fs this x)) (tasks s))
    (flat_map (listed fs this x)
              (fpath :: sent MapDir (trace (mem s))
                        ++ flat_map (emitted MapDir) (tasks s))) ->
  Permutation
    (sent (raw_of x) (trace (mem s'))
     ++ flat_map (flat_map (entries_due fs this x)) (tasks s'))
    (flat_map (listed fs this x)
              (fpath :: sent MapDir (trace (mem s'))
                        ++ flat_map (emitted MapDir) (tasks s'))).
Proof.
  intros I I' C C' St Q.
  destruct St as [s a k rest spawned m' R P L|s c msg l k k' rest R P Cl];
    cbn [tasks mem] in *.
  - rewrite (flat_map_perm (flat_map (entries_due fs this x)) _ _ P) in Q.
    rewrite (flat_map_perm (emitted MapDir) _ _ P) in Q.
    cbn [flat_map] in *.
    rewrite (local_trace fs this a _ _ _ L (inv_status _ I')).
    rewrite !sent_app, !sent_event_of, !app_nil_r.
    rewrite (flat_map_app _ spawned rest).
    rewrite (flat_map_app (emitted MapDir) spawned rest).
    rewrite emitted_cons in Q.
    rewrite (local_send fs this a _ _ _ MapDir L (inv_status _ I')) in Q.
    cbn [app] in Q.
    assert (Rk : role fs this fpath isColor (a :: k)).
    { apply C. eapply Permutation_in; [symmetry; exact P|now left]. }
    rewrite (walk_spawned s a k m' spawned Rk L (inv_status _ I')).
    etransitivity; [apply shuffle_spawn|]. rewrite Q.
    rewrite !flat_map_app, <- !app_assoc.
    do 3 apply Permutation_app_head. apply Permutation_app_comm.
  - rewrite (flat_map_perm (flat_map (entries_due fs this x)) _ _ P) in Q.
    rewrite (flat_map_perm (emitted MapDir) _ _ P) in Q.
    cbn [flat_map] in *.
    cbn [trace log sent]. rewrite (flat_map_app _ (loop_body this l msg)).
    rewrite (emitted_app _ (loop_body this l msg)).
    assert (Rr : role fs this fpath isColor (Range c l :: k')).
    { apply C. eapply Permutation_in; [symmetry; exact P|].
      right. now left. }
    destruct (role_head_range fs this fpath isColor c l k' Rr)
      as (f & K & B).
    destruct (loop_walk f c l k' msg K B) as [-> ->].
    rewrite (emitted_cons _ (Send c msg)), emitted_send in Q.
    cbn [flat_map entries_due app] in *.
    rewrite <- !app_assoc in *. exact Q.
Qed.

Lemma walk_reachable (s : state) :
  reachable fs this fpath isColor s ->
  Permutation
    (sent (raw_of x) (trace (mem s))
     ++ flat_map (flat_map (entries_due fs this x)) (tasks s))
    (flat_map (listed fs this x)
              (fpath :: sent MapDir (trace (mem s))
                        ++ flat_map (emitted MapDir) (tasks s))).
Proof.
  revert s. apply through.
  - unfold init.
    cbn [tasks mem init_store trace sent flat_map app].
    rewrite main_script.
    rewrite (emitted_nil MapDir)
      by (intros msg H; cbn in H; intuition discriminate).
    cbn [flat_map entries_due app]. unfold listed.
    now rewrite !app_nil_r.
  - apply walk_kept.
Qed.

(** A goroutine that has a record left to send on a raw stream has
    its [Done] on the wait group of the walkers left to do. *)
Lemma role_walks (k : list action) (c : chan) (msg : string) :
  role fs this fpath isColor k -> isMap c = true ->
  In (Send c msg) k -> In (Done waitMaps) k.
Proof.
  intros Rk Mc H.
  destruct Rk as [k M|f k K B|f c0 l after msg0 hand k K B Hd ->].
  - destruct (main_sends_nothing fpath isColor c msg).
    eapply rest_of_in; eassumption.
  - assert (H' : In (Send c msg) (body fs this f))
      by (eapply rest_of_in; eassumption).
    unfold rest_of in B.
    destruct f as [p| |p chans|i o|i o cl|i o|p out| |mark accent ch];
      cbn [body known] in *;
      try (cbn in H'; intuition discriminate).
    + unfold kick_map, mapfork in B. destruct B as [done B].
      rewrite <- app_assoc, app_comm_cons in B.
      destruct (suffix_app _ _ _ (ex_intro _ done B))
        as [[done' E]|[k1 ->]].
      * exfalso.
        assert (X : In (Send c msg)
                       ([ Done waitMaps ]
                        ++ Wait waitMaps :: closeChannelSet chsMap))
          by (rewrite E; apply in_or_app; now right).
        cbn in X. intuition discriminate.
      * apply in_or_app. right. now left.
    + unfold mapfork in B. destruct (suffix_last _ _ _ _ B) as [->|Z];
        [destruct H|exact Z].
    + subst out. apply grep_plain in H'.
      destruct c; discriminate.
  - exfalso. apply in_app_or in H. destruct H as [H|[H|H]].
    + apply (rest_of_in _ _ _ Hd) in H.
      destruct (loop_cases fs this fpath isColor f c0 l after K B)
        as [(_ & _ & -> & _)|[(_ & _ & -> & _)|[(_ & _ & -> & _)|
            [(_ & _ & -> & _)|(_ & _ & -> & _)]]]];
        revert H; unfold loop_body, filter;
        repeat match goal with
               | |- context [if ?b then _ else _] => destruct b
               end; cbn; intros H;
        repeat match goal with
               | H : _ \/ _ |- _ => destruct H as [H|H]
               | H : False |- _ => destruct H
               end; try discriminate H; injection H as <- _;
        discriminate Mc.
    + discriminate H.
    + destruct (loop_cases fs this fpath isColor f c0 l after K B)
        as [(_ & _ & _ & ->)|[(_ & _ & _ & ->)|[(_ & _ & _ & ->)|
            [(_ & _ & _ & ->)|(_ & _ & _ & ->)]]]];
        cbn in H; intuition discriminate.
Qed.

Lemma walk_closed (s : state) :
  invariant s -> cast fs this fpath isColor s ->
  closed (mem s) (raw_of x) = true ->
  flat_map (flat_map (entries_due fs this x)) (tasks s) = []
  /\ flat_map (emitted MapDir) (tasks s) = [].
Proof.
  intros I C Cl. split.
  - pose proof (inv_mute s I (raw_of x) Cl) as M.
    apply flat_map_nil. intros k Hk. apply flat_map_nil. intros a Ha.
    pose proof (existsb_false_in _ _ _ (M k Hk) Ha) as U.
    destruct a as [c msg| | | | | |g| | | | | | |]; try reflexivity.
    + cbn in U. cbn. now rewrite U.
    + destruct g; try reflexivity.
      * destruct x; discriminate U.
      * pose proof (role_go fs this fpath isColor k _ (C k Hk) Ha) as K.
        cbn in K. subst chans. destruct x; discriminate U.
  - assert (F : 0 < fired (TClose (raw_of x)) (trace (mem s))).
    { rewrite (inv_closed s I) in Cl. now apply Z.ltb_lt. }
    assert (G : guards (TWait waitMaps) (TClose (raw_of x)) = true)
      by now destruct x.
    pose proof (inv_after s I _ _ G F) as W.
    destruct (inv_quiet s I waitMaps W) as [_ Q].
    apply flat_map_nil. intros k Hk. apply emitted_nil. intros msg H.
    pose proof (role_walks k MapDir msg (C k Hk) eq_refl H) as D.
    pose proof (existsb_false_in _ _ _ (Q k Hk) D) as A.
    discriminate A.
Qed.

End Walk.

(** ** The exit of the process *)

Section Exits.
Context {RE : RegexpLib}.
Variables (fs : os.FileSystem) (this : gorep).
Variables (fpath : string) (isColor : bool).

(** In the scripts of the run, an exit with a status other than 0
    has the status -1 and comes right after the report of a
    directory that could not be listed. *)
Lemma exits_plain (script : list action) :
  (forall code, In (Exit code) script -> code = 0) ->
  forall pre post code,
    script = pre ++ Exit code :: post ->
    code = 0 \/ (code = -1 /\ exists pre' p e,
                    pre = pre' ++ [ Stderr (dive_error e) ]
                    /\ os.ReadDir fs p = Err e).
Proof.
  intros H pre post code E. left. apply H. rewrite E.
  apply in_or_app. right. now left.
Qed.

Lemma exits_before (A B : list action) :
  (forall code, ~ In (Exit code) A) ->
  (forall pre post code,
      B = pre ++ Exit code :: post ->
      code = 0 \/ (code = -1 /\ exists pre' p e,
                      pre = pre' ++ [ Stderr (dive_error e) ]
                      /\ os.ReadDir fs p = Err e)) ->
  forall pre post code,
    A ++ B = pre ++ Exit code :: post ->
    code = 0 \/ (code = -1 /\ exists pre' p e,
                    pre = pre' ++ [ Stderr (dive_error e) ]
                    /\ os.ReadDir fs p = Err e).
Proof.
  intros NA HB. induction A as [|a A IH]; intros pre post code E.
  - now apply (HB pre post).
  - destruct pre as [|b pre]; cbn in E.
    + injection E as -> _. destruct (NA code). now left.
    + injection E as <- E.
      destruct (IH (fun c H => NA c (or_intror H)) pre post code E)
        as [Z|(Z & pre' & p & e & -> & Rd)]; [now left|].
      right. split; [exact Z|]. now exists (a :: pre'), p, e.
Qed.

Lemma exits_after (A B : list action) :
  (forall code, ~ In (Exit code) B) ->
  (forall pre post code,
      A = pre ++ Exit code :: post ->
      code = 0 \/ (code = -1 /\ exists pre' p e,
                      pre = pre' ++ [ Stderr (dive_error e) ]
                      /\ os.ReadDir fs p = Err e)) ->
  forall pre post code,
    A ++ B = pre ++ Exit code :: post ->
    code = 0 \/ (code = -1 /\ exists pre' p e,
                    pre = pre' ++ [ Stderr (dive_error e) ]
                    /\ os.ReadDir fs p = Err e).
Proof.
  intros NB HA pre post code E.
  apply app_eq_app in E. destruct E as (l & [[E1 E2]|[E1 E2]]).
  - destruct l as [|b l]; cbn in E2.
    + destruct (NB code). rewrite <- E2. now left.
    + injection E2 as <- _. now apply (HA pre l).
  - destruct (NB code). rewrite E2. apply in_or_app. right. now left.
Qed.

Lemma entries_no_exit (p : string) (listing : list os.FileInfo)
      (code : Z) :
  ~ In (Exit code) (flat_map (mapfork_entry this p chsMap) listing).
Proof.
  intros H. apply in_flat_map in H. destruct H as (finfo & _ & H).
  destruct (mapfork_entry_cases this p finfo)
    as [E|[[full E]|[[full E]|[full E]]]]; rewrite E in H;
    cbn in H; intuition discriminate.
Qed.

Lemma mapfork_exits (p : string) :
  forall pre post code,
    mapfork fs this p chsMap = pre ++ Exit code :: post ->
    code = 0 \/ (code = -1 /\ exists pre' q e,
                    pre = pre' ++ [ Stderr (dive_error e) ]
                    /\ os.ReadDir fs q = Err e).
Proof.
  unfold mapfork. destruct (os.ReadDir fs p) as [listing|e] eqn:Rd.
  - intros pre post code E. exfalso.
    assert (H : In (Exit code)
                   (flat_map (mapfork_entry this p chsMap) listing
                    ++ [ Done waitMaps ]))
      by (rewrite E; apply in_or_app; right; now left).
    apply in_app_or in H. destruct H as [H|H].
    + now apply (entries_no_exit p listing code).
    + cbn in H. intuition discriminate.
  - intros pre post code E. right.
    destruct pre as [|a [|b [|c pre]]]; cbn in E; try discriminate E.
    + injection E as <- <- _. split; [reflexivity|].
      exists [], p, e. split; [reflexivity|exact Rd].
    + injection E as _ _ _ E. destruct pre; discriminate E.
Qed.

Lemma body_exits (f : call) :
  known fpath isColor f ->
  forall pre post code,
    body fs this f = pre ++ Exit code :: post ->
    code = 0 \/ (code = -1 /\ exists pre' p e,
                    pre = pre' ++ [ Stderr (dive_error e) ]
                    /\ os.ReadDir fs p = Err e).
Proof.
  intros K.
  destruct f as [p| |p chans|i o|i o cl|i o|p out| |mark accent ch];
    cbn [body known] in *.
  - unfold kick_map.
    change (Add waitMaps 1
            :: mapfork fs this p chsMap
               ++ Wait waitMaps :: closeChannelSet chsMap)
      with ([ Add waitMaps 1 ]
            ++ mapfork fs this p chsMap
               ++ Wait waitMaps :: closeChannelSet chsMap).
    apply exits_before; [cbn; intuition discriminate|].
    apply exits_after; [cbn; intuition discriminate|].
    apply mapfork_exits.
  - apply exits_plain. cbn. intuition discriminate.
  - subst chans. apply mapfork_exits.
  - apply exits_plain. cbn. intuition discriminate.
  - apply exits_plain. cbn. intuition discriminate.
  - apply exits_plain. cbn. intuition discriminate.
  - subst out. apply exits_plain. intros code H.
    apply grep_plain in H. discriminate H.
  - apply exits_plain. cbn. intuition discriminate.
  - apply exits_plain. cbn. intuition discriminate.
Qed.

Lemma loop_no_exit (l : loop) (msg : string) (code : Z) :
  ~ In (Exit code) (loop_body this l msg).
Proof.
  unfold loop_body, filter. destruct l;
    repeat match goal with
           | |- context [if ?b then _ else _] => destruct b
           end; cbn; intuition discriminate.
Qed.

Lemma role_exits (k : list action) :
  role fs this fpath isColor k ->
  forall pre post code,
    k = pre ++ Exit code :: post ->
    pre = [] \/ code = 0
    \/ (code = -1 /\ exists pre' p e,
           pre = pre' ++ [ Stderr (dive_error e) ]
           /\ os.ReadDir fs p = Err e).
Proof.
  intros Rk pre post code E.
  destruct pre as [|a0 pre0] using rev_ind; [now left|]. right.
  clear IHpre0.
  destruct Rk as [k M|f k K B|f c l after msg hand k K B Hd ->].
  - left. destruct M as [done M]. rewrite main_script in M.
    assert (H : In (Exit code)
                   [ Go (KickMap fpath); Go KickReduce; Go Printer;
                     Add waitReports 4;
                     Go (Reporter (markOf isColor ReduceDir)
                                  (markMatch isColor) ReduceDir);
                     Go (Reporter (markOf isColor ReduceFile)
                                  (markMatch isColor) ReduceFile);
                     Go (Reporter (markOf isColor ReduceSymlink)
                                  (markMatch isColor) ReduceSymlink);
                     Go (Reporter (markOf isColor ReduceLine)
                                  (markMatch isColor) ReduceLine);
                     Wait waitReports; Exit 0 ]).
    { rewrite M, E. apply in_or_app. right.
      apply in_or_app. right. now left. }
    cbn in H.
    repeat match goal with
           | H : _ \/ _ |- _ => destruct H as [H|H]
           | H : False |- _ => destruct H
           end; try discriminate H. now injection H as <-.
  - destruct B as [done B]. rewrite E, app_assoc in B.
    destruct (body_exits f K _ _ _ B)
      as [Z|(Z & pre' & p & e & X & Rd)]; [now left|].
    right. split; [exact Z|].
    rewrite app_assoc in X. apply app_inj_tail in X.
    destruct X as [_ ->]. now exists pre0, p, e.
  - exfalso.
    assert (H : In (Exit code) (hand ++ Range c l :: after))
      by (rewrite E; apply in_or_app; right; now left).
    apply in_app_or in H. destruct H as [H|[H|H]].
    + apply (loop_no_exit l msg code). eapply rest_of_in; eassumption.
    + discriminate H.
    + destruct (loop_cases fs this fpath isColor f c l after K B)
        as [(_ & _ & _ & ->)|[(_ & _ & _ & ->)|[(_ & _ & _ & ->)|
            [(_ & _ & _ & ->)|(_ & _ & _ & ->)]]]];
        cbn in H; intuition discriminate.
Qed.

Lemma role_before_exit (a : action) (code : Z) (k : list action) :
  role fs this fpath isColor (a :: Exit code :: k) ->
  code = 0
  \/ (code = -1 /\ exists p e, a = Stderr (dive_error e)
                               /\ os.ReadDir fs p = Err e).
Proof.
  intros Rk.
  destruct (role_exits _ Rk [ a ] k code eq_refl)
    as [X|[Z|(Z & pre' & p & e & X & Rd)]];
    [discriminate X|now left|].
  right. split; [exact Z|]. exists p, e. split; [|exact Rd].
  change [ a ] with ([] ++ [ a ]) in X. apply app_inj_tail in X.
  now destruct X.
Qed.

Lemma body_head_exit (f : call) (code : Z) (k : list action) :
  known fpath isColor f -> body fs this f = Exit code :: k -> code = 0.
Proof.
  intros K B.
  destruct (body_exits f K [] k code B)
    as [Z|(_ & pre' & p & e & X & _)]; [exact Z|].
  destruct pre'; discriminate X.
Qed.

(** The goroutines that are about to end the process with a status
    other than 0 have reported a directory that could not be
    listed. *)
Lemma fatal_kept (s s' : state) :
  invariant s -> invariant s' ->
  cast fs this fpath isColor s -> cast fs this fpath isColor s' ->
  step fs this s s' ->
  (forall code k, In (Exit code :: k) (tasks s) -> code <> 0 ->
                  code = -1 /\ exists p e,
                    os.ReadDir fs p = Err e
                    /\ In (EvStderr (dive_error e)) (trace (mem s))) ->
  (forall code k, In (Exit code :: k) (tasks s') -> code <> 0 ->
                  code = -1 /\ exists p e,
                    os.ReadDir fs p = Err e
                    /\ In (EvStderr (dive_error e)) (trace (mem s'))).
Proof.
  intros I I' C C' St Q.
  destruct St as [s a k rest spawned m' R P L|s c msg l k k' rest R P Cl];
    cbn [tasks mem] in *; intros code k0 H Nz.
  - pose proof (local_trace fs this a _ _ _ L (inv_status _ I')) as T.
    assert (Rk : role fs this fpath isColor (a :: k)).
    { apply C. eapply Permutation_in; [symmetry; exact P|now left]. }
    destruct H as [E|H].
    + subst k.
      destruct (role_before_exit a code k0 Rk)
        as [Z|(Z & p & e & -> & Rd)]; [now destruct Nz|].
      split; [exact Z|]. exists p, e. split; [exact Rd|].
      rewrite T. now left.
    + apply in_app_or in H. destruct H as [H|H].
      * exfalso. rewrite (local_spawned _ _ _ _ _ _ L) in H.
        destruct a; try contradiction. destruct H as [E|[]].
        apply Nz. apply (body_head_exit f code k0); [|exact E].
        apply (role_go fs this fpath isColor (Go f :: k));
          [exact Rk|now left].
      * destruct (Q code k0) as (Z & p & e & Rd & J); [|exact Nz|].
        { eapply Permutation_in; [symmetry; exact P|now right]. }
        split; [exact Z|]. exists p, e. split; [exact Rd|].
        rewrite T. apply in_or_app. now right.
  - destruct H as [E|[E|H]].
    + subst k. exfalso.
      assert (Rk : role fs this fpath isColor
                        (Send c msg :: Exit code :: k0)).
      { apply C. eapply Permutation_in; [symmetry; exact P|now left]. }
      destruct (role_before_exit _ code k0 Rk)
        as [Z|(_ & p & e & X & _)]; [now destruct Nz|discriminate X].
    + exfalso. destruct (loop_body this l msg) as [|b lb] eqn:Lb;
        cbn in E; [discriminate E|].
      injection E as -> _.
      apply (loop_no_exit l msg code). rewrite Lb. now left.
    + destruct (Q code k0) as (Z & p & e & Rd & J); [|exact Nz|].
      { eapply Permutation_in; [symmetry; exact P|].
        right. now right. }
      split; [exact Z|]. exists p, e. split; [exact Rd|].
      cbn [trace log]. now right.
Qed.

Lemma fatal_reachable (s : state) :
  reachable fs this fpath isColor s ->
  (forall code k, In (Exit code :: k) (tasks s) -> code <> 0 ->
                  code = -1 /\ exists p e,
                    os.ReadDir fs p = Err e
                    /\ In (EvStderr (dive_error e)) (trace (mem s)))
  /\ (forall code, status_of (mem s) = Exited code -> code <> 0 ->
                   code = -1 /\ exists p e,
                     os.ReadDir fs p = Err e
                     /\ In (EvStderr (dive_error e)) (trace (mem s))).
Proof.
  revert s. apply through.
  - split.
    + intros code k [E|[]] Nz. rewrite main_script in E. discriminate E.
    + intros code E. discriminate E.
  - intros s s' I I' C C' St [Q1 Q2]. split.
    + now apply (fatal_kept s s').
    + intros code X Nz.
      destruct St as [s a k rest spawned m' R P L|
                      s c msg l k k' rest R P Cl];
        cbn [tasks mem] in *.
      * pose proof (local_trace fs this a _ _ _ L (inv_status _ I')) as T.
        destruct (local_effects fs this a _ _ _ L R (inv_status _ I'))
          as (_ & _ & _ & _ & _ & _ & _ & _ & _ & _ & [E|E] & _).
        { rewrite X in E. discriminate E. }
        destruct E as (code' & -> & E). rewrite X in E.
        injection E as <-.
        destruct (Q1 code k) as (Z & p & e & Rd & J); [|exact Nz|].
        { eapply Permutation_in; [symmetry; exact P|now left]. }
        split; [exact Z|]. exists p, e. split; [exact Rd|].
        rewrite T. apply in_or_app. now right.
      * cbn in X. rewrite R in X. discriminate X.
Qed.

End Exits.

(** ** The stages of the run, from the walk to the standard output *)

(** X6.  In every run, at every moment, what has been written on the
    standard output is, in the same order, what has been sent to the
    printer of [report], less at most one line: the line that the
    printer has received and still has to write.  Nothing makes [main]
    wait for that line. *)
Theorem output_follows_printer {RE : RegexpLib} (fs : os.FileSystem)
        (this : gorep) (fpath : string) (isColor : bool) (s : state) :
  reachable fs this fpath isColor s ->
  sent chPrint (trace (mem s))
  = (written (trace (mem s)) ++ flat_map outs (tasks s))%list
  /\ (length (flat_map outs (tasks s)) <= 1)%nat.
Proof.
  intros Rch. split.
  - now apply (in_step_reachable fs this fpath isColor).
  - apply (outs_short fs this fpath isColor).
    + now apply (invariant_reachable fs this fpath isColor).
    + now apply cast_reachable.
Qed.

(** X7.  In every run, at every moment, the lines sent to the printer,
    together with those that the reporters have in hand, are, up to
    their order, the lines of the records sent on the four result
    streams: the mark of the stream, a space, the record with the
    matches replaced, a newline.  When [main] has returned, no
    reporter has a line in hand. *)
Theorem reporters_relay {RE : RegexpLib} (fs : os.FileSystem)
        (this : gorep) (fpath : string) (isColor : bool) (s : state) :
  reachable fs this fpath isColor s ->
  Permutation (sent chPrint (trace (mem s))
               ++ flat_map (emitted chPrint) (tasks s))
              (reported this isColor (trace (mem s)))
  /\ (status_of (mem s) = Exited 0 ->
      flat_map (emitted chPrint) (tasks s) = []
      /\ Permutation (sent chPrint (trace (mem s)))
                     (reported this isColor (trace (mem s)))).
Proof.
  intros Rch.
  pose proof (invariant_reachable fs this fpath isColor s Rch) as I.
  pose proof (cast_reachable fs this fpath isColor s Rch) as C.
  pose proof (relayed_reachable fs this fpath isColor s Rch) as Q.
  split; [exact Q|]. intros X.
  pose proof (relayed_at_exit fs this fpath isColor s I C X) as E.
  split; [exact E|]. rewrite E, app_nil_r in Q. exact Q.
Qed.

(** X8.  In every run, at every moment, and for each of the three
    streams of entries: the records sent on the filtered stream,
    followed by the one that the consumer has in hand, if any, are, in
    the same order, the records of the raw stream whose last path
    element matches the pattern, or none when the scope has not the
    stream.  Once the filtered stream is closed the consumer has
    nothing in hand. *)
Theorem consumers_filter {RE : RegexpLib} (fs : os.FileSystem)
        (this : gorep) (fpath : string) (isColor : bool) (s : state)
        (x : stream) :
  reachable fs this fpath isColor s ->
  (sent (out_of x) (trace (mem s))
   ++ flat_map (emitted (out_of x)) (tasks s))%list
  = keep this x (sent (raw_of x) (trace (mem s)))
  /\ (length (flat_map (emitted (out_of x)) (tasks s)) <= 1)%nat
  /\ (closed (mem s) (out_of x) = true ->
      sent (out_of x) (trace (mem s))
      = keep this x (sent (raw_of x) (trace (mem s)))).
Proof.
  intros Rch.
  pose proof (invariant_reachable fs this fpath isColor s Rch) as I.
  pose proof (cast_reachable fs this fpath isColor s Rch) as C.
  pose proof (sifted_reachable fs this fpath isColor x s Rch) as Q.
  split; [exact Q|]. split.
  - now apply (emits_short fs this fpath isColor).
  - intros Cl. rewrite (mute_emits s (out_of x) I Cl), app_nil_r in Q.
    exact Q.
Qed.

(** X9.  When [main] has returned, every goroutine has run to its end,
    but for the printer, which waits for a line or has one line to
    write, and for [kick], which may still have the last of the raw
    streams to close; every permit has been given back and every file
    closed. *)
Theorem left_at_exit {RE : RegexpLib} (fs : os.FileSystem)
        (this : gorep) (fpath : string) (isColor : bool) (s : state) :
  reachable fs this fpath isColor s ->
  status_of (mem s) = Exited 0 ->
  (forall k, In k (tasks s) ->
             k = [] \/ k = [ Close MapLine ]
             \/ k = [ Range chPrint PrinterLoop ]
             \/ exists msg, k = [ Stdout msg; Range chPrint PrinterLoop ])
  /\ permits (mem s) = 0%nat
  /\ openfiles (mem s) = 0%nat.
Proof.
  intros Rch X.
  pose proof (invariant_reachable fs this fpath isColor s Rch) as I.
  pose proof (cast_reachable fs this fpath isColor s Rch) as C.
  split.
  - now apply (exit_rest fs this fpath isColor s I X C).
  - now apply (exit_nothing_held fs this fpath isColor s I X C).
Qed.

(** X10.  In every run, at every moment, the lines sent on the stream
    of match lines, together with those that the scans still have to
    send and those of the scans still to start, are, up to their
    order, the lines of the scans of the paths sent on the raw file
    stream, or none when the scope has not [grep].  Once the stream of
    match lines is closed nothing is left to send. *)
Theorem scans_complete {RE : RegexpLib} (fs : os.FileSystem)
        (this : gorep) (fpath : string) (isColor : bool) (s : state) :
  reachable fs this fpath isColor s ->
  Permutation
    (sent ReduceLine (trace (mem s))
     ++ flat_map (flat_map (lines_due fs this)) (tasks s))
    (flat_map (scanned fs this)
              (if searchScope.grep (scope this)
               then sent MapFile (trace (mem s)) else []))
  /\ (closed (mem s) ReduceLine = true ->
      Permutation
        (sent ReduceLine (trace (mem s)))
        (flat_map (scanned fs this)
                  (if searchScope.grep (scope this)
                   then sent MapFile (trace (mem s)) else []))).
Proof.
  intros Rch.
  pose proof (invariant_reachable fs this fpath isColor s Rch) as I.
  pose proof (cast_reachable fs this fpath isColor s Rch) as C.
  pose proof (scans_reachable fs this fpath isColor s Rch) as Q.
  split; [exact Q|]. intros Cl.
  rewrite (scans_closed fs this fpath isColor s I C Cl), app_nil_r in Q.
  exact Q.
Qed.

(** X11.  In every run, at every moment, and for each of the three raw
    streams: the records sent on it, together with those that the
    walkers still have to send and those of the expansions still to
    start, are, up to their order, what [mapfork] sends on it for the
    path of the search, for every path sent on the raw directory
    stream and for every path still to send on it.  Once the raw
    stream is closed nothing is left: its records are those of the
    path of the search and of the directories found. *)
Theorem walk_complete {RE : RegexpLib} (fs : os.FileSystem)
        (this : gorep) (fpath : string) (isColor : bool) (s : state)
        (x : stream) :
  reachable fs this fpath isColor s ->
  Permutation
    (sent (raw_of x) (trace (mem s))
     ++ flat_map (flat_map (entries_due fs this x)) (tasks s))
    (flat_map (listed fs this x)
              (fpath :: sent MapDir (trace (mem s))
                        ++ flat_map (emitted MapDir) (tasks s)))
  /\ (closed (mem s) (raw_of x) = true ->
      Permutation
        (sent (raw_of x) (trace (mem s)))
        (flat_map (listed fs this x)
                  (fpath :: sent MapDir (trace (mem s))))).
Proof.
  intros Rch.
  pose proof (invariant_reachable fs this fpath isColor s Rch) as I.
  pose proof (cast_reachable fs this fpath isColor s Rch) as C.
  pose proof (walk_reachable fs this fpath isColor x s Rch) as Q.
  split; [exact Q|]. intros Cl.
  destruct (walk_closed fs this fpath isColor x s I C Cl) as [E1 E2].
  rewrite E1, E2, !app_nil_r in Q. exact Q.
Qed.

(** X12.  Once the search has started, that is from the call of
    [kick] in [main] on, the process ends with the status 0, when
    [main] returns, or with the status -1, and then [mapfork] has
    written on the standard error the report of a directory that could
    not be listed; the search ends it in no other way: a file that
    cannot be opened, read or mapped does not.  The ends of the
    process before the search, in the parsing of the flags, with
    [-V], without argument and on an expression that cannot be
    compiled, are those of [start]. *)
Theorem exit_status {RE : RegexpLib} (fs : os.FileSystem)
        (this : gorep) (fpath : string) (isColor : bool) (s : state)
        (code : Z) :
  reachable fs this fpath isColor s ->
  status_of (mem s) = Exited code ->
  code = 0
  \/ (code = -1 /\ exists p e,
         os.ReadDir fs p = Err e
         /\ In (EvStderr (dive_error e)) (trace (mem s))).
Proof.
  intros Rch X. destruct (Z.eq_dec code 0) as [Z|Nz]; [now left|]. right.
  destruct (fatal_reachable fs this fpath isColor s Rch) as [_ Q].
  now apply Q.
Qed.

Local Open Scope string_scope.

(** ** The stages on the sample tree *)

Lemma plain_b_txt : plain "b.txt".
Proof.
  split; [discriminate|]. repeat constructor.
Qed.

(** The entries of the sample tree: a directory, a symbolic link, a
    regular file, a named pipe. *)
Lemma entry_by_mode_bits_witness :
  skipped sample.this (os.mkFileInfo "sub" sample.dirMode) = false
  /\ mapfork_entry sample.this "." chsMap (os.mkFileInfo "sub" sample.dirMode)
     = [ Send MapDir "./sub"; Add waitMaps 1; Go (Mapfork "./sub" chsMap) ]
  /\ mapfork_entry sample.this "." chsMap
                   (os.mkFileInfo "fifo" sample.pipeMode) = [].
Proof.
  split; [reflexivity|]. split.
  - apply (entry_by_mode_bits sample.this "." chsMap
                              (os.mkFileInfo "sub" sample.dirMode) eq_refl).
    reflexivity.
  - apply (entry_by_mode_bits sample.this "." chsMap
                              (os.mkFileInfo "fifo" sample.pipeMode) eq_refl);
      [reflexivity|reflexivity|].
    exists 25. split; [lia|reflexivity].
Defined.

(** With [-g] and [-grep-only], names are not searched and contents
    are. *)
Lemma scope_of_options_witness :
  newGorep (RE := literal) "x"
           (optionSet.mk false true true false EmptyString false false)
  = Ok (mkGorep (RE := literal) "x" None
                (searchScope.mk false false false true false false))
  /\ searchScope.dir
       (scope (mkGorep (RE := literal) "x" None
                       (searchScope.mk false false false true false false)))
     = negb true.
Proof.
  split; [reflexivity|].
  destruct (scope_of_options
              (RE := literal) "x"
              (optionSet.mk false true true false EmptyString false false)
              (mkGorep (RE := literal) "x" None
                       (searchScope.mk false false false true false false))
              eq_refl) as [H _].
  exact H.
Defined.

(** A file in a hidden directory is not hidden. *)
Lemma hidden_by_last_element_witness :
  plain "b.txt"
  /\ verifyHidden ("./.git" ++ separator ++ "b.txt") = Ascii.eqb "." "b".
Proof.
  split; [exact plain_b_txt|].
  destruct (hidden_by_last_element EmptyString) as (_ & H & _).
  apply (H "./.git" "b.txt" "b"%char ".txt" plain_b_txt eq_refl).
Defined.

(** The file b.txt of the directory ./box is judged by its name:
    the directory plays no part. *)
Lemma name_alone_is_matched_witness :
  plain "b.txt"
  /\ filter sample.this ("./box" ++ separator ++ "b.txt") ReduceFile
     = (if MatchString (pattern sample.this) "b.txt"
        then [ Send ReduceFile ("./box" ++ separator ++ "b.txt") ]
        else []).
Proof.
  split; [exact plain_b_txt|].
  apply (name_alone_is_matched sample.this "./box" "b.txt" ReduceFile
                               plain_b_txt).
Defined.

(** The hasty run: [main] has returned, the last line has been sent to
    the printer and is not written. *)
Lemma output_follows_printer_witness :
  reachable sample.fs sample.this "." false hasty_end
  /\ status_of (mem hasty_end) = Exited 0
  /\ flat_map outs (tasks hasty_end) = [ "[File] ./sub/b.txt" ++ newline ]
  /\ sent chPrint (trace (mem hasty_end))
     = (written (trace (mem hasty_end))
        ++ flat_map outs (tasks hasty_end))%list.
Proof.
  split; [apply run_state_reachable|].
  split; [vm_compute; reflexivity|].
  split; [vm_compute; reflexivity|].
  apply (output_follows_printer sample.fs sample.this "." false hasty_end).
  apply run_state_reachable.
Defined.

(** The hasty run: every record has its line. *)
Lemma reporters_relay_witness :
  reachable sample.fs sample.this "." false hasty_end
  /\ status_of (mem hasty_end) = Exited 0
  /\ Permutation (sent chPrint (trace (mem hasty_end)))
                 (reported sample.this false (trace (mem hasty_end))).
Proof.
  split; [apply run_state_reachable|].
  split; [vm_compute; reflexivity|].
  destruct (reporters_relay sample.fs sample.this "." false hasty_end)
    as [_ H]; [apply run_state_reachable|].
  apply H. vm_compute; reflexivity.
Defined.

(** The hasty run: of the five files found, two match by name. *)
Lemma consumers_filter_witness :
  reachable sample.fs sample.this "." false hasty_end
  /\ closed (mem hasty_end) (out_of Files) = true
  /\ sent (raw_of Files) (trace (mem hasty_end))
     = [ "./a.txt"; "./blob"; "./empty"; "./locked"; "./sub/b.txt" ]
  /\ sent (out_of Files) (trace (mem hasty_end))
     = keep sample.this Files (sent (raw_of Files) (trace (mem hasty_end))).
Proof.
  split; [apply run_state_reachable|].
  split; [vm_compute; reflexivity|].
  split; [vm_compute; reflexivity|].
  destruct (consumers_filter sample.fs sample.this "." false hasty_end Files)
    as (_ & _ & H); [apply run_state_reachable|].
  apply H. vm_compute; reflexivity.
Defined.

(** The hasty run: [kick] has the last raw stream left to close. *)
Lemma left_at_exit_witness :
  reachable sample.fs sample.this "." false hasty_end
  /\ status_of (mem hasty_end) = Exited 0
  /\ In [ Close MapLine ] (tasks hasty_end)
  /\ permits (mem hasty_end) = 0%nat
  /\ openfiles (mem hasty_end) = 0%nat.
Proof.
  split; [apply run_state_reachable|].
  split; [vm_compute; reflexivity|].
  split; [vm_compute; tauto|].
  destruct (left_at_exit sample.fs sample.this "." false hasty_end)
    as (_ & H1 & H2);
    [apply run_state_reachable|vm_compute; reflexivity|].
  split; [exact H1|exact H2].
Defined.

(** The hasty run: the match lines are those of the five scans. *)
Lemma scans_complete_witness :
  reachable sample.fs sample.this "." false hasty_end
  /\ closed (mem hasty_end) ReduceLine = true
  /\ Permutation
       (sent ReduceLine (trace (mem hasty_end)))
       (flat_map (scanned sample.fs sample.this)
                 (if searchScope.grep (scope sample.this)
                  then sent MapFile (trace (mem hasty_end)) else [])).
Proof.
  split; [apply run_state_reachable|].
  split; [vm_compute; reflexivity|].
  destruct (scans_complete sample.fs sample.this "." false hasty_end)
    as [_ H]; [apply run_state_reachable|].
  apply H. vm_compute; reflexivity.
Defined.

(** The hasty run: the files are those of the root and of the
    directory found. *)
Lemma walk_complete_witness :
  reachable sample.fs sample.this "." false hasty_end
  /\ closed (mem hasty_end) (raw_of Files) = true
  /\ sent MapDir (trace (mem hasty_end)) = [ "./sub" ]
  /\ Permutation
       (sent (raw_of Files) (trace (mem hasty_end)))
       (flat_map (listed sample.fs sample.this Files)
                 ("." :: sent MapDir (trace (mem hasty_end)))).
Proof.
  split; [apply run_state_reachable|].
  split; [vm_compute; reflexivity|].
  split; [vm_compute; reflexivity|].
  destruct (walk_complete sample.fs sample.this "." false hasty_end Files)
    as [_ H]; [apply run_state_reachable|].
  apply H. vm_compute; reflexivity.
Defined.

(** The run on a directory that cannot be listed. *)
Lemma exit_status_witness :
  reachable sample.fs sample.this "./nope" false fatal_end
  /\ status_of (mem fatal_end) = Exited (-1)
  /\ (-1 = 0
      \/ (-1 = -1 /\ exists p e,
             os.ReadDir sample.fs p = Err e
             /\ In (EvStderr (dive_error e)) (trace (mem fatal_end)))).
Proof.
  split; [apply run_state_reachable|].
  split; [vm_compute; reflexivity|].
  apply (exit_status sample.fs sample.this "./nope" false fatal_end (-1)).
  - apply run_state_reachable.
  - vm_compute; reflexivity.
Defined.
